(** * Persistence-matrix columns, the compressed base matrix and the tower
    converter of GUDHI: a shallow embedding and its properties.

    The first part of the file holds the definitions, one module per source
    file; the second part holds the lemmas and theorems. *)

From Stdlib Require Import ZArith List Lia Bool Znumtheory String Sorted.
From stdpp Require Import base option list gmap sorting.

Local Open Scope Z_scope.

(* ===================================================================== *)
(** * Part I: definitions                                                *)
(* ===================================================================== *)

(** ** Exceptions and the state-and-exception monad

    C++ code that mutates [*this] and may [throw]: a computation maps the
    state before to the state reached and either the exception thrown or
    the value returned.  On a throw the state is the one reached when the
    exception left the function. *)

Inductive exception : Type :=
| invalid_argument (what : string)
| out_of_range.

Definition Throws (S A : Type) : Type := S -> S * (exception + A).

Definition ret {S A} (a : A) : Throws S A := fun s => (s, inr a).
Definition throw {S A} (e : exception) : Throws S A := fun s => (s, inl e).
Definition bind {S A B} (m : Throws S A) (k : A -> Throws S B) : Throws S B :=
  fun s => match m s with
           | (s', inl e) => (s', inl e)
           | (s', inr a) => k a s'
           end.
Definition get {S} : Throws S S := fun s => (s, inr s).
Definition put {S} (s : S) : Throws S unit := fun _ => (s, inr tt).
Definition modify {S} (f : S -> S) : Throws S unit := fun s => (f s, inr tt).

Notation "'do' x <- m ; k" := (bind m (fun x => k))
  (at level 10, x name, m at level 100, k at level 200).
Notation "'do_' m ; k" := (bind m (fun _ => k))
  (at level 10, m at level 100, k at level 200).

(** ** Compile-time options of [Master_matrix] *)

Record Master_matrix : Type := {
  is_z2 : bool;               (* Option_list::is_z2 *)
  isNonBasic : bool;          (* Master_matrix::isNonBasic *)
  is_of_boundary_type : bool; (* Option_list::is_of_boundary_type *)
  characteristic : Z          (* the prime p of Field_operators *)
}.

(** The guard [Master_matrix::isNonBasic && !Option_list::is_of_boundary_type]
    that selects the chain-column code paths. *)
Definition is_chain (M : Master_matrix) : bool :=
  isNonBasic M && negb (is_of_boundary_type M).

(** ** Field operators

    Modelled from the spec: [Master_matrix::Field_operators] (the Z/pZ
    operators) is not under src/.  Spec 3 and 4.1: a value in {0,...,p-1}
    with modular arithmetic, the in-place variants [add_inplace],
    [mul_inplace] and the fused [x <- c*x + y].  Arguments are passed by
    value, the result is what the in-place version stores. *)
Module Field_operators.

Definition get_value (p v : Z) : Z := v mod p.
Definition get_additive_identity : Z := 0.
Definition get_multiplicative_identity : Z := 1.
Definition add_inplace (p e v : Z) : Z := (e + v) mod p.
Definition multiply_inplace (p e v : Z) : Z := (e * v) mod p.
(* e <- e * m + a *)
Definition multiply_and_add_inplace_front (p e m a : Z) : Z := (e * m + a) mod p.
(* a <- e * m + a *)
Definition multiply_and_add_inplace_back (p e m a : Z) : Z := (e * m + a) mod p.

End Field_operators.

(** ** Cells

    [Master_matrix::Cell_type]: a row index and, outside Z/2, a field
    element.  A Z/2 cell stores no element; its value is the implicit 1 that
    [get_content] and [get_pivot_value] report, and the model builds such
    cells with element 1. *)
Record Cell : Type := {
  get_row_index : Z;
  get_element : Z
}.

Definition set_element (c : Cell) (v : Z) : Cell :=
  {| get_row_index := get_row_index c; get_element := v |}.
Definition set_row_index (c : Cell) (r : Z) : Cell :=
  {| get_row_index := r; get_element := get_element c |}.

(** An entry of a boundary ([cell_rep_type]): a row index under Z/2, a pair
    of a row index and a coefficient otherwise.  Under Z/2 the model reads
    the first component only. *)
Definition cell_rep_type : Type := (Z * Z)%type.

(* ===================================================================== *)
(** ** naive_vector_column.h                                             *)
(* ===================================================================== *)

Module Naive_vector_column.

Import Field_operators.

(** The column: the vector [column_] of cells, the stored pivot of
    [Chain_column_option] and the dimension of [Column_dimension_option]
    (both option classes are outside src/; spec 3 and 4.8: a chain column
    carries its pivot as a stored attribute and additions swap pivots). *)
Record t : Type := {
  column_ : list Cell;
  pivot_ : Z;
  dim_ : Z
}.

Definition with_column (c : t) (l : list Cell) : t :=
  {| column_ := l; pivot_ := pivot_ c; dim_ := dim_ c |}.

(** [chain_opt::swap_pivots] and [dim_opt::swap_dimension], on the pair
    ([*this], [column]). *)
Definition swap_pivots (s : t * t) : t * t :=
  ({| column_ := column_ (fst s); pivot_ := pivot_ (snd s); dim_ := dim_ (fst s) |},
   {| column_ := column_ (snd s); pivot_ := pivot_ (fst s); dim_ := dim_ (snd s) |}).
Definition swap_dimension (s : t * t) : t * t :=
  ({| column_ := column_ (fst s); pivot_ := pivot_ (fst s); dim_ := dim_ (snd s) |},
   {| column_ := column_ (snd s); pivot_ := pivot_ (snd s); dim_ := dim_ (fst s) |}).

Section WithOptions.

Variable M : Master_matrix.
Let p : Z := characteristic M.

(** [_update_cell] and [_insert_cell]: the cell that is constructed;
    the position it is stored at is the caller's. *)
Definition _update_cell_z2 (rowIndex : Z) : Cell :=
  {| get_row_index := rowIndex; get_element := 1 |}.
Definition _update_cell (value rowIndex : Z) : Cell :=
  {| get_row_index := rowIndex; get_element := value |}.
Definition _insert_cell_z2 (rowIndex : Z) : Cell :=
  {| get_row_index := rowIndex; get_element := 1 |}.
Definition _insert_cell (value rowIndex : Z) : Cell :=
  {| get_row_index := rowIndex; get_element := value |}.

(** The loop shared by the constructors from a range of
    [cell_rep_type]. *)
Definition cells_of_boundary (nonZeroRowIndices : list cell_rep_type) : list Cell :=
  if is_z2 M
  then map (fun id => _update_cell_z2 (fst id)) nonZeroRowIndices
  else map (fun pr => _update_cell (get_value p (snd pr)) (fst pr)) nonZeroRowIndices.

(** The pivot [chain_opt] is initialised with: the last row of the
    range, -1 for an empty range. *)
Definition last_row (nonZeroRowIndices : list cell_rep_type) : Z :=
  match last (map fst nonZeroRowIndices) with
  | Some r => r
  | None => -1
  end.

(** [Naive_vector_column(nonZeroRowIndices, colSettings)] *)
Definition make (nonZeroRowIndices : list cell_rep_type) : t :=
  {| column_ := cells_of_boundary nonZeroRowIndices;
     pivot_ := -1;
     dim_ := if (Z.of_nat (length nonZeroRowIndices) =? 0) then 0
             else Z.of_nat (length nonZeroRowIndices) - 1 |}.

(** [Naive_vector_column(nonZeroChainRowIndices, dimension, colSettings)] *)
Definition make_dim (nonZeroRowIndices : list cell_rep_type) (dimension : Z) : t :=
  {| column_ := cells_of_boundary nonZeroRowIndices;
     pivot_ := last_row nonZeroRowIndices;
     dim_ := dimension |}.

(** The loop of the copy constructor and of the first branch of [_add]:
    one fresh cell per cell of the source. *)
Definition copy_cells (column : list Cell) : list Cell :=
  if is_z2 M
  then map (fun cell => _update_cell_z2 (get_row_index cell)) column
  else map (fun cell => _update_cell (get_element cell) (get_row_index cell)) column.

(** The trailing [while (itSource != column.end())] loops. *)
Definition insert_cells (itSource : list Cell) : list Cell :=
  if is_z2 M
  then map (fun cell => _insert_cell_z2 (get_row_index cell)) itSource
  else map (fun cell => _insert_cell (get_element cell) (get_row_index cell)) itSource.

(** [get_content]: the loop stops at the first cell whose row is not
    below [columnLength]. *)
Fixpoint get_content_loop (columnLength : Z) (it : list Cell) (container : list Z) : list Z :=
  match it with
  | [] => container
  | cell :: it' =>
      if get_row_index cell <? columnLength
      then get_content_loop columnLength it'
             (<[Z.to_nat (get_row_index cell) := if is_z2 M then 1 else get_element cell]> container)
      else container
  end.

Definition get_content (c : t) (columnLength : Z) : list Z :=
  match (if columnLength <? 0
         then match last (column_ c) with
              | Some back => Some (get_row_index back + 1)
              | None => None
              end
         else Some columnLength) with
  | None => []
  | Some n => get_content_loop n (column_ c) (replicate (Z.to_nat n) 0)
  end.

(** [is_non_zero]: [std::binary_search] for the row over the vector,
    which is sorted by row; on such a vector it is membership of the
    row. *)
Definition is_non_zero (c : t) (rowIndex : Z) : bool :=
  existsb (fun cell => get_row_index cell =? rowIndex) (column_ c).

Definition is_empty (c : t) : bool :=
  match column_ c with [] => true | _ => false end.

Definition size (c : t) : nat := length (column_ c).

(** [clear()] *)
Definition clear (c : t) : t := with_column c [].

(** [clear(rowIndex)]: erases the first cell of that row. *)
Fixpoint clear_row_loop (rowIndex : Z) (it : list Cell) : list Cell :=
  match it with
  | [] => []
  | cell :: it' =>
      if get_row_index cell =? rowIndex then it'
      else cell :: clear_row_loop rowIndex it'
  end.
Definition clear_row (c : t) (rowIndex : Z) : t :=
  with_column c (clear_row_loop rowIndex (column_ c)).

(** [std::sort] of the cells by row index, as an insertion sort. *)
Fixpoint sort_insert (cell : Cell) (l : list Cell) : list Cell :=
  match l with
  | [] => [cell]
  | c :: l' =>
      if get_row_index c <? get_row_index cell
      then c :: sort_insert cell l'
      else cell :: l
  end.
Definition sort_cells (l : list Cell) : list Cell :=
  fold_right sort_insert [] l.

(** [reorder(valueMap)]: [valueMap.at] throws [std::out_of_range] for a
    row the map does not hold, after the rows before it have already
    been renamed; [valueMap] is the map's [at]. *)
Fixpoint reorder_loop (valueMap : Z -> option Z) (done it : list Cell)
  : list Cell * option exception :=
  match it with
  | [] => (done, None)
  | cell :: it' =>
      match valueMap (get_row_index cell) with
      | None => (done ++ it, Some out_of_range)
      | Some r => reorder_loop valueMap (done ++ [set_row_index cell r]) it'
      end
  end.

Definition reorder (valueMap : Z -> option Z) : Throws t unit :=
  fun c =>
    match reorder_loop valueMap [] (column_ c) with
    | (cells, Some e) => (with_column c cells, inl e)
    | (cells, None) => (with_column c (sort_cells cells), inr tt)
    end.

(** [get_pivot] *)
Definition get_pivot (c : t) : Z :=
  if is_of_boundary_type M
  then match last (column_ c) with
       | Some back => get_row_index back
       | None => -1
       end
  else pivot_ c.

(** [_add]: the merge loop.  The result is the new vector and
    [pivotIsZeroed]. *)
Fixpoint _add_loop (pivot : Z) (itTarget : list Cell) : list Cell -> list Cell * bool :=
  fix scan (itSource : list Cell) : list Cell * bool :=
    match itTarget, itSource with
    | cellTarget :: itTarget', cellSource :: itSource' =>
        if get_row_index cellTarget <? get_row_index cellSource then
          let '(newColumn, z) := _add_loop pivot itTarget' itSource in
          (cellTarget :: newColumn, z)
        else if get_row_index cellTarget >? get_row_index cellSource then
          let '(newColumn, z) := scan itSource' in
          ((if is_z2 M
            then _insert_cell_z2 (get_row_index cellSource)
            else _insert_cell (get_element cellSource) (get_row_index cellSource))
             :: newColumn, z)
        else if is_z2 M then
          let zeroed := is_chain M && (get_row_index cellTarget =? pivot) in
          let '(newColumn, z) := _add_loop pivot itTarget' itSource' in
          (newColumn, zeroed || z)
        else
          let e := add_inplace p (get_element cellTarget) (get_element cellSource) in
          if e =? get_additive_identity then
            let zeroed := is_chain M && (get_row_index cellTarget =? pivot) in
            let '(newColumn, z) := _add_loop pivot itTarget' itSource' in
            (newColumn, zeroed || z)
          else
            let '(newColumn, z) := _add_loop pivot itTarget' itSource' in
            (set_element cellTarget e :: newColumn, z)
    | [], _ => (insert_cells itSource, false)
    | _, [] => (itTarget, false)
    end.

Definition _add (column : list Cell) : Throws t bool :=
  fun c =>
    match column with
    | [] => (c, inr false)
    | _ =>
        match column_ c with
        | [] => (with_column c (copy_cells column), inr true)
        | _ =>
            let '(newColumn, pivotIsZeroed) := _add_loop (pivot_ c) (column_ c) column in
            (with_column c newColumn, inr pivotIsZeroed)
        end
    end.

(** A computation on [*this] run inside an operation whose state is
    the pair of [*this] and the column passed by non-const reference. *)
Definition on_this {A} (m : Throws t A) : Throws (t * t) A :=
  fun s => let '(c, r) := m (fst s) in ((c, snd s), r).

Definition multiplied_by_zero : exception :=
  invalid_argument "A chain column should not be multiplied by 0.".

(** [operator+=(const Cell_range& column)]; its [static_assert]s keep
    it away from chain columns. *)
Definition operator_add_assign_range (column : list Cell) : Throws t unit :=
  do_ _add column; ret tt.

(** [operator+=(Naive_vector_column& column)] *)
Definition operator_add_assign : Throws (t * t) unit :=
  do s <- get;
  if is_chain M then
    do pivotIsZeroed <- on_this (_add (column_ (snd s)));
    if (pivotIsZeroed : bool) then
      do_ modify swap_pivots; modify swap_dimension
    else ret tt
  else
    do_ on_this (_add (column_ (snd s))); ret tt.

(** [operator*=(unsigned int v)] *)
Definition operator_mul_assign (v : Z) : Throws t unit :=
  if is_z2 M then
    if v mod 2 =? 0 then
      if is_chain M then throw multiplied_by_zero else modify clear
    else ret tt
  else
    let val := get_value p v in
    if val =? get_additive_identity then
      if is_chain M then throw multiplied_by_zero else modify clear
    else if val =? get_multiplicative_identity then ret tt
    else
      modify (fun c =>
        with_column c
          (map (fun cell => set_element cell (multiply_inplace p (get_element cell) val))
               (column_ c))).

(** [_multiply_target_and_add]: the merge loop. *)
Fixpoint _multiply_target_and_add_loop (val pivot : Z) (itTarget : list Cell)
  : list Cell -> list Cell * bool :=
  fix scan (itSource : list Cell) : list Cell * bool :=
    match itTarget, itSource with
    | cellTarget :: itTarget', cellSource :: itSource' =>
        if get_row_index cellTarget <? get_row_index cellSource then
          let '(newColumn, z) := _multiply_target_and_add_loop val pivot itTarget' itSource in
          (set_element cellTarget (multiply_inplace p (get_element cellTarget) val)
             :: newColumn, z)
        else if get_row_index cellTarget >? get_row_index cellSource then
          let '(newColumn, z) := scan itSource' in
          (_insert_cell (get_element cellSource) (get_row_index cellSource) :: newColumn, z)
        else
          let e := multiply_and_add_inplace_front p (get_element cellTarget) val
                     (get_element cellSource) in
          if e =? get_additive_identity then
            let zeroed := is_chain M && (get_row_index cellTarget =? pivot) in
            let '(newColumn, z) := _multiply_target_and_add_loop val pivot itTarget' itSource' in
            (newColumn, zeroed || z)
          else
            let '(newColumn, z) := _multiply_target_and_add_loop val pivot itTarget' itSource' in
            (set_element cellTarget e :: newColumn, z)
    | _ :: _, [] =>
        (map (fun cell => set_element cell (multiply_inplace p (get_element cell) val))
             itTarget, false)
    | [], _ =>
        (map (fun cell => _insert_cell (get_element cell) (get_row_index cell)) itSource,
         false)
    end.

Definition _multiply_target_and_add (val : Z) (column : list Cell) : Throws t bool :=
  do_ (if val =? 0 then
         if is_chain M then throw multiplied_by_zero else modify clear
       else ret tt);
  do c <- get;
  match column_ c with
  | [] => do_ put (with_column c (copy_cells column)); ret true
  | _ =>
      let '(newColumn, pivotIsZeroed) :=
        _multiply_target_and_add_loop val (pivot_ c) (column_ c) column in
      do_ put (with_column c newColumn); ret pivotIsZeroed
  end.

(** [_multiply_source_and_add]: the merge loop. *)
Fixpoint _multiply_source_and_add_loop (val pivot : Z) (itTarget : list Cell)
  : list Cell -> list Cell * bool :=
  fix scan (itSource : list Cell) : list Cell * bool :=
    match itTarget, itSource with
    | cellTarget :: itTarget', cellSource :: itSource' =>
        if get_row_index cellTarget <? get_row_index cellSource then
          let '(newColumn, z) := _multiply_source_and_add_loop val pivot itTarget' itSource in
          (cellTarget :: newColumn, z)
        else if get_row_index cellTarget >? get_row_index cellSource then
          let '(newColumn, z) := scan itSource' in
          (_insert_cell (multiply_inplace p (get_element cellSource) val)
                        (get_row_index cellSource) :: newColumn, z)
        else
          let e := multiply_and_add_inplace_back p (get_element cellSource) val
                     (get_element cellTarget) in
          if e =? get_additive_identity then
            let zeroed := is_chain M && (get_row_index cellTarget =? pivot) in
            let '(newColumn, z) := _multiply_source_and_add_loop val pivot itTarget' itSource' in
            (newColumn, zeroed || z)
          else
            let '(newColumn, z) := _multiply_source_and_add_loop val pivot itTarget' itSource' in
            (set_element cellTarget e :: newColumn, z)
    | [], _ =>
        (map (fun cell => _insert_cell (multiply_inplace p (get_element cell) val)
                                       (get_row_index cell)) itSource,
         false)
    | _, [] => (itTarget, false)
    end.

Definition _multiply_source_and_add (column : list Cell) (val : Z) : Throws t bool :=
  fun c =>
    if (val =? 0) || (match column with [] => true | _ => false end)
    then (c, inr false)
    else
      let '(newColumn, pivotIsZeroed) :=
        _multiply_source_and_add_loop val (pivot_ c) (column_ c) column in
      (with_column c newColumn, inr pivotIsZeroed).

(** [multiply_target_and_add(val, const Cell_range& column)]; not for
    chain columns. *)
Definition multiply_target_and_add_range (val : Z) (column : list Cell) : Throws t unit :=
  if is_z2 M then
    if negb (val =? 0) then do_ _add column; ret tt
    else do_ modify clear; do_ _add column; ret tt
  else
    do_ _multiply_target_and_add val column; ret tt.

(** [multiply_target_and_add(val, Naive_vector_column& column)] *)
Definition multiply_target_and_add (val : Z) : Throws (t * t) unit :=
  do s <- get;
  if is_chain M then
    if is_z2 M then
      if negb (val =? 0) then
        do pivotIsZeroed <- on_this (_add (column_ (snd s)));
        if (pivotIsZeroed : bool) then
          do_ modify swap_pivots; modify swap_dimension
        else ret tt
      else throw multiplied_by_zero
    else
      do pivotIsZeroed <- on_this (_multiply_target_and_add val (column_ (snd s)));
      if (pivotIsZeroed : bool) then
        do_ modify swap_pivots; modify swap_dimension
      else ret tt
  else
    if is_z2 M then
      if negb (val =? 0) then do_ on_this (_add (column_ (snd s))); ret tt
      else do_ on_this (modify clear); do_ on_this (_add (column_ (snd s))); ret tt
    else
      do_ on_this (_multiply_target_and_add val (column_ (snd s))); ret tt.

(** [multiply_source_and_add(const Cell_range& column, val)]; not for
    chain columns. *)
Definition multiply_source_and_add_range (column : list Cell) (val : Z) : Throws t unit :=
  if is_z2 M then
    if negb (val =? 0) then do_ _add column; ret tt else ret tt
  else
    do_ _multiply_source_and_add column val; ret tt.

(** [multiply_source_and_add(Naive_vector_column& column, val)] *)
Definition multiply_source_and_add (val : Z) : Throws (t * t) unit :=
  do s <- get;
  if is_chain M then
    if is_z2 M then
      if negb (val =? 0) then
        do pivotIsZeroed <- on_this (_add (column_ (snd s)));
        if (pivotIsZeroed : bool) then
          do_ modify swap_pivots; modify swap_dimension
        else ret tt
      else ret tt
    else
      do pivotIsZeroed <- on_this (_multiply_source_and_add (column_ (snd s)) val);
      if (pivotIsZeroed : bool) then
        do_ modify swap_pivots; modify swap_dimension
      else ret tt
  else
    if is_z2 M then
      if negb (val =? 0) then do_ on_this (_add (column_ (snd s))); ret tt
      else ret tt
    else
      do_ on_this (_multiply_source_and_add (column_ (snd s)) val); ret tt.

(** [operator==] and [operator<], the order of the column dictionary of
    the compressed matrix. *)
Fixpoint operator_eq_loop (it1 it2 : list Cell) : bool :=
  match it1, it2 with
  | c1 :: it1', c2 :: it2' =>
      if is_z2 M then
        if negb (get_row_index c1 =? get_row_index c2) then false
        else operator_eq_loop it1' it2'
      else
        if negb (get_row_index c1 =? get_row_index c2)
           || negb (get_element c1 =? get_element c2)
        then false
        else operator_eq_loop it1' it2'
  | _, _ => true
  end.

Definition operator_eq (c1 c2 : list Cell) : bool :=
  if negb (length c1 =? length c2)%nat then false
  else operator_eq_loop c1 c2.

Fixpoint operator_lt (it1 it2 : list Cell) : bool :=
  match it1, it2 with
  | c1 :: it1', c2 :: it2' =>
      if negb (get_row_index c1 =? get_row_index c2)
      then get_row_index c1 <? get_row_index c2
      else if negb (is_z2 M) && negb (get_element c1 =? get_element c2)
      then get_element c1 <? get_element c2
      else operator_lt it1' it2'
  | _, [] => false
  | [], _ :: _ => true
  end.

End WithOptions.

End Naive_vector_column.

(* ===================================================================== *)
(** ** naive_vector_column.h on shared cells                             *)
(* ===================================================================== *)

(** The column operations once more, with the memory they work on: a column
    is a [std::vector<Cell*>], the cells live in the pool of the
    [Cell_constructor], and the argument [column] is a reference that may
    designate [*this].  A loop reads the vector of [*this] and the vector
    of [column] cell by cell, writes elements in place, destroys cells and
    swaps the new vector in at the end.  Reading a destroyed cell has no
    defined behaviour: the result is [None]. *)
Module Cell_pool.

Import Field_operators.

Record heap : Type := {
  cellPool_ : gmap nat Cell;          (* the live cells, by address *)
  column_ : gmap nat (list nat)       (* the vector [column_] of each column object *)
}.

Definition set_cells (h : heap) (cells : gmap nat Cell) : heap :=
  {| cellPool_ := cells; column_ := column_ h |}.
Definition set_column (h : heap) (this : nat) (v : list nat) : heap :=
  {| cellPool_ := cellPool_ h; column_ := <[this := v]> (column_ h) |}.

(** [cellPool_->construct]: an address no live cell has. *)
Definition construct (cells : gmap nat Cell) (c : Cell) : gmap nat Cell * nat :=
  let address := fresh (dom cells) in (<[address := c]> cells, address).

(** The cells a vector of addresses designates, when all are alive. *)
Definition cells_at (cells : gmap nat Cell) (v : list nat) : option (list Cell) :=
  mapM (fun a => cells !! a) v.

(** The content of a column object. *)
Definition content (h : heap) (this : nat) : option (list Cell) :=
  mbind (cells_at (cellPool_ h)) (column_ h !! this).

Section WithOptions.

Variable M : Master_matrix.
Let p : Z := characteristic M.

(** The cell [_insert_cell] and [_update_cell] construct from a cell of the
    source. *)
Definition fresh_cell (cellSource : Cell) : Cell :=
  if is_z2 M
  then Naive_vector_column._insert_cell_z2 (get_row_index cellSource)
  else Naive_vector_column._insert_cell (get_element cellSource) (get_row_index cellSource).

(** One fresh cell per cell of the source: the first branch of [_add] and
    the trailing loop over the source. *)
Fixpoint insert_cells (f : Cell -> Cell) (itSource : list nat) (cells : gmap nat Cell)
  : option (gmap nat Cell * list nat) :=
  match itSource with
  | [] => Some (cells, [])
  | ps :: itSource' =>
      match cells !! ps with
      | None => None
      | Some cellSource =>
          let '(cells1, a) := construct cells (f cellSource) in
          match insert_cells f itSource' cells1 with
          | Some (cells2, v) => Some (cells2, a :: v)
          | None => None
          end
      end
  end.

(** [_add]: the merge loop. *)
Fixpoint _add_loop (pivot : Z) (itTarget : list nat)
  : list nat -> gmap nat Cell -> option (gmap nat Cell * list nat * bool) :=
  fix scan (itSource : list nat) (cells : gmap nat Cell)
    : option (gmap nat Cell * list nat * bool) :=
    match itTarget, itSource with
    | pt :: itTarget', ps :: itSource' =>
        match cells !! pt, cells !! ps with
        | Some cellTarget, Some cellSource =>
            if get_row_index cellTarget <? get_row_index cellSource then
              match _add_loop pivot itTarget' itSource cells with
              | Some (cells', newColumn, z) => Some (cells', pt :: newColumn, z)
              | None => None
              end
            else if get_row_index cellTarget >? get_row_index cellSource then
              let '(cells1, a) := construct cells (fresh_cell cellSource) in
              match scan itSource' cells1 with
              | Some (cells', newColumn, z) => Some (cells', a :: newColumn, z)
              | None => None
              end
            else if is_z2 M then
              let zeroed := is_chain M && (get_row_index cellTarget =? pivot) in
              match _add_loop pivot itTarget' itSource' (delete pt cells) with
              | Some (cells', newColumn, z) => Some (cells', newColumn, zeroed || z)
              | None => None
              end
            else
              let e := add_inplace p (get_element cellTarget) (get_element cellSource) in
              let cells1 := <[pt := set_element cellTarget e]> cells in
              if e =? get_additive_identity then
                let zeroed := is_chain M && (get_row_index cellTarget =? pivot) in
                match _add_loop pivot itTarget' itSource' (delete pt cells1) with
                | Some (cells', newColumn, z) => Some (cells', newColumn, zeroed || z)
                | None => None
                end
              else
                match _add_loop pivot itTarget' itSource' cells1 with
                | Some (cells', newColumn, z) => Some (cells', pt :: newColumn, z)
                | None => None
                end
        | _, _ => None
        end
    | [], _ =>
        match insert_cells fresh_cell itSource cells with
        | Some (cells', v) => Some (cells', v, false)
        | None => None
        end
    | _ :: _, [] => Some (cells, itTarget, false)
    end.

(** [_add(column)] *)
Definition _add (pivot : Z) (this column : nat) (h : heap) : option (heap * bool) :=
  match column_ h !! column, column_ h !! this with
  | Some source, Some target =>
      match source with
      | [] => Some (h, false)
      | _ =>
          match target with
          | [] =>
              match insert_cells fresh_cell source (cellPool_ h) with
              | Some (cells, v) => Some (set_column (set_cells h cells) this v, true)
              | None => None
              end
          | _ =>
              match _add_loop pivot target source (cellPool_ h) with
              | Some (cells, newColumn, pivotIsZeroed) =>
                  Some (set_column (set_cells h cells) this newColumn, pivotIsZeroed)
              | None => None
              end
          end
      end
  | _, _ => None
  end.

(** [clear()]: every cell is destroyed, the vector is emptied. *)
Fixpoint destroy_cells (v : list nat) (cells : gmap nat Cell) : option (gmap nat Cell) :=
  match v with
  | [] => Some cells
  | a :: v' =>
      match cells !! a with
      | None => None
      | Some _ => destroy_cells v' (delete a cells)
      end
  end.

Definition clear (this : nat) (h : heap) : option heap :=
  match column_ h !! this with
  | Some v =>
      match destroy_cells v (cellPool_ h) with
      | Some cells => Some (set_column (set_cells h cells) this [])
      | None => None
      end
  | None => None
  end.

(** [_multiply_target_and_add]: the merge loop. *)
Fixpoint _multiply_target_and_add_loop (val pivot : Z) (itTarget : list nat)
  : list nat -> gmap nat Cell -> option (gmap nat Cell * list nat * bool) :=
  fix scan (itSource : list nat) (cells : gmap nat Cell)
    : option (gmap nat Cell * list nat * bool) :=
    match itTarget, itSource with
    | pt :: itTarget', ps :: itSource' =>
        match cells !! pt, cells !! ps with
        | Some cellTarget, Some cellSource =>
            if get_row_index cellTarget <? get_row_index cellSource then
              let cells1 :=
                <[pt := set_element cellTarget
                          (multiply_inplace p (get_element cellTarget) val)]> cells in
              match _multiply_target_and_add_loop val pivot itTarget' itSource cells1 with
              | Some (cells', newColumn, z) => Some (cells', pt :: newColumn, z)
              | None => None
              end
            else if get_row_index cellTarget >? get_row_index cellSource then
              let '(cells1, a) :=
                construct cells (Naive_vector_column._insert_cell
                                   (get_element cellSource) (get_row_index cellSource)) in
              match scan itSource' cells1 with
              | Some (cells', newColumn, z) => Some (cells', a :: newColumn, z)
              | None => None
              end
            else
              let e := multiply_and_add_inplace_front p (get_element cellTarget) val
                         (get_element cellSource) in
              let cells1 := <[pt := set_element cellTarget e]> cells in
              if e =? get_additive_identity then
                let zeroed := is_chain M && (get_row_index cellTarget =? pivot) in
                match _multiply_target_and_add_loop val pivot itTarget' itSource'
                        (delete pt cells1) with
                | Some (cells', newColumn, z) => Some (cells', newColumn, zeroed || z)
                | None => None
                end
              else
                match _multiply_target_and_add_loop val pivot itTarget' itSource' cells1 with
                | Some (cells', newColumn, z) => Some (cells', pt :: newColumn, z)
                | None => None
                end
        | _, _ => None
        end
    | pt :: itTarget', [] =>
        match cells !! pt with
        | Some cellTarget =>
            let cells1 :=
              <[pt := set_element cellTarget
                        (multiply_inplace p (get_element cellTarget) val)]> cells in
            match _multiply_target_and_add_loop val pivot itTarget' [] cells1 with
            | Some (cells', newColumn, z) => Some (cells', pt :: newColumn, z)
            | None => None
            end
        | None => None
        end
    | [], _ =>
        match insert_cells
                (fun c => Naive_vector_column._insert_cell (get_element c) (get_row_index c))
                itSource cells with
        | Some (cells', v) => Some (cells', v, false)
        | None => None
        end
    end.

(** [_multiply_target_and_add(val, column)] for a column that is not a
    chain column (the others throw on [val == 0]). *)
Definition _multiply_target_and_add (val pivot : Z) (this column : nat) (h : heap)
  : option (heap * bool) :=
  match (if val =? 0 then clear this h else Some h) with
  | Some h1 =>
      match column_ h1 !! column, column_ h1 !! this with
      | Some source, Some target =>
          match target with
          | [] =>
              match insert_cells fresh_cell source (cellPool_ h1) with
              | Some (cells, v) => Some (set_column (set_cells h1 cells) this v, true)
              | None => None
              end
          | _ =>
              match _multiply_target_and_add_loop val pivot target source (cellPool_ h1) with
              | Some (cells, newColumn, pivotIsZeroed) =>
                  Some (set_column (set_cells h1 cells) this newColumn, pivotIsZeroed)
              | None => None
              end
          end
      | _, _ => None
      end
  | None => None
  end.

(** [operator+=(const Cell_range& column)] *)
Definition operator_add_assign (this column : nat) (h : heap) : option heap :=
  fst <$> _add (-1) this column h.

(** [multiply_target_and_add(val, const Cell_range& column)] *)
Definition multiply_target_and_add (val : Z) (this column : nat) (h : heap) : option heap :=
  if is_z2 M then
    if negb (val =? 0) then fst <$> _add (-1) this column h
    else mbind (fun h1 => fst <$> _add (-1) this column h1) (clear this h)
  else fst <$> _multiply_target_and_add val (-1) this column h.

End WithOptions.

End Cell_pool.

(* ===================================================================== *)
(** ** column_types/z2_unordered_set_column.h                            *)
(* ===================================================================== *)

Module Z2_unordered_set_column.

(** [static_cast<int>] of an [unsigned int] and the conversion of the same
    kind in [pivot_ = v]: values from 2^31 on wrap to negative numbers. *)
Definition to_int (v : Z) : Z := if v <? 2 ^ 31 then v else v - 2 ^ 32.

(** [std::unordered_set<unsigned int>] is a finite set; its iteration order
    is that of [elements]. *)
Record t : Type := {
  dim_ : Z;
  column_ : gset Z;
  pivotChanged_ : bool;
  pivot_ : Z
}.

(** [*std::max_element] over a non-empty range of [unsigned int]. *)
Definition max_element (l : list Z) : Z := foldr Z.max 0 l.

(** [Z2_unordered_set_column()] *)
Definition make_empty : t :=
  {| dim_ := 0; column_ := ∅; pivotChanged_ := false; pivot_ := -1 |}.

(** [Z2_unordered_set_column(boundary_type& boundary)] *)
Definition make (boundary : list Z) : t :=
  {| dim_ := match boundary with [] => 0 | _ => Z.of_nat (length boundary) - 1 end;
     column_ := list_to_set boundary;
     pivotChanged_ := false;
     pivot_ := match boundary with [] => -1 | _ => to_int (max_element boundary) end |}.

Definition contains (c : t) (value : Z) : bool := bool_decide (value ∈ column_ c).

Definition is_empty (c : t) : bool := bool_decide (column_ c = ∅).

(** [get_pivot()]: recomputes the cached pivot when the flag is set; the
    column after the call and the value returned. *)
Definition get_pivot (c : t) : t * Z :=
  if pivotChanged_ c then
    let pivot := if bool_decide (size (column_ c) = 0%nat) then -1
                 else to_int (max_element (elements (column_ c))) in
    ({| dim_ := dim_ c; column_ := column_ c; pivotChanged_ := false; pivot_ := pivot |},
     pivot)
  else (c, pivot_ c).

(** [clear()] *)
Definition clear (c : t) : t :=
  {| dim_ := dim_ c; column_ := ∅; pivotChanged_ := false; pivot_ := -1 |}.

(** [clear(unsigned int value)] *)
Definition clear_value (c : t) (value : Z) : t :=
  {| dim_ := dim_ c;
     column_ := column_ c ∖ {[ value ]};
     pivotChanged_ := if to_int value =? pivot_ c then true else pivotChanged_ c;
     pivot_ := pivot_ c |}.

(** [reorder(std::vector<index>& valueMap)]: [valueMap.at] throws for a
    value past the end of the vector, before the column is touched. *)
Fixpoint reorder_loop (valueMap : list Z) (it : list Z) (newSet : gset Z)
  : option (gset Z) :=
  match it with
  | [] => Some newSet
  | v :: it' =>
      match valueMap !! Z.to_nat v with
      | Some w => reorder_loop valueMap it' ({[ w ]} ∪ newSet)
      | None => None
      end
  end.

Definition reorder (valueMap : list Z) : Throws t unit :=
  fun c =>
    match reorder_loop valueMap (elements (column_ c)) ∅ with
    | None => (c, inl out_of_range)
    | Some newSet =>
        ({| dim_ := dim_ c; column_ := newSet; pivotChanged_ := true; pivot_ := pivot_ c |},
         inr tt)
    end.

(** [add(Z2_unordered_set_column& column)]: one step of the loop, for the
    value [v] of the source. *)
Definition add_step (c : t) (v : Z) : t :=
  if bool_decide (v ∈ column_ c) then
    {| dim_ := dim_ c;
       column_ := column_ c ∖ {[ v ]};
       pivotChanged_ := if to_int v =? pivot_ c then true else pivotChanged_ c;
       pivot_ := pivot_ c |}
  else if to_int v >? pivot_ c then
    {| dim_ := dim_ c; column_ := {[ v ]} ∪ column_ c;
       pivotChanged_ := false; pivot_ := to_int v |}
  else
    {| dim_ := dim_ c; column_ := {[ v ]} ∪ column_ c;
       pivotChanged_ := pivotChanged_ c; pivot_ := pivot_ c |}.

Definition add (c column : t) : t :=
  foldl add_step c (elements (column_ column)).

(** The operations P3 ranges over. *)
Inductive operation : Type :=
| Add (column : list Z)
| Clear_value (value : Z)
| Reorder (valueMap : list Z).

Definition apply (c : t) (o : operation) : t :=
  match o with
  | Add column => add c (make column)
  | Clear_value value => clear_value c value
  | Reorder valueMap => fst (reorder valueMap c)
  end.

(** The pivot as P3 defines it: the largest row present, -1 for the empty
    column. *)
Definition largest_row (c : t) : Z :=
  if bool_decide (column_ c = ∅) then -1 else max_element (elements (column_ c)).

End Z2_unordered_set_column.

(* ===================================================================== *)
(** ** column_types/chain_columns/chain_vector_column.h                   *)
(* ===================================================================== *)

Module Vector_chain_column.

Import Naive_vector_column.

(** The column: the cells of the base class [Vector_column], the stored
    pivot and the paired column.  [pivotToColumnIndex_] points to the
    dictionary of the matrix, which the operations below take as a part of
    the state. *)
Record t : Type := {
  base : list Cell;
  pivot_ : Z;
  pairedColumn_ : Z
}.

(** [Vector_chain_column(chain, dimension, pivotToColumnIndex)] *)
Definition make (M : Master_matrix) (chain : list cell_rep_type) : t :=
  {| base := cells_of_boundary M chain;
     pivot_ := last_row chain;
     pairedColumn_ := -1 |}.

Definition get_pivot (c : t) : Z := pivot_ c.
Definition is_paired (c : t) : bool := negb (pairedColumn_ c =? -1).

(** Modelled from the spec: [Vector_column::operator+=] and
    [Vector_column::is_non_zero] of the base class (vector_column.h is not
    under src/).  Spec 4.3: [+=] is the field-wise addition, zero entries
    are removed and the order is preserved, which is the merge of the
    sibling [Naive_vector_column]; [is_non_zero(row)] tells whether a cell
    of that row is stored, read off the result of that merge as
    [Naive_vector_column::is_non_zero] does. *)
Definition Base_operator_add_assign (M : Master_matrix) (this column : list Cell) : list Cell :=
  match column, this with
  | [], _ => this
  | _, [] => copy_cells M column
  | _, _ => fst (_add_loop M (-1) this column)
  end.

Definition Base_is_non_zero (this : list Cell) (rowIndex : Z) : bool :=
  existsb (fun cell => get_row_index cell =? rowIndex) this.

(** The state of [operator+=]: [*this], [column] and the dictionary
    [*pivotToColumnIndex_]. *)
Definition state : Type := (t * t * gmap Z nat)%type.

(** [operator+=(Vector_chain_column& column)]: [at] throws
    [std::out_of_range] for a pivot the dictionary does not hold. *)
Definition operator_add_assign (M : Master_matrix) : Throws state unit :=
  fun '(this, column, dict) =>
    let this1 := {| base := Base_operator_add_assign M (base this) (base column);
                    pivot_ := pivot_ this; pairedColumn_ := pairedColumn_ this |} in
    if negb (Base_is_non_zero (base this1) (pivot_ this1)) then
      match dict !! pivot_ this1, dict !! get_pivot column with
      | Some i, Some j =>
          (({| base := base this1; pivot_ := pivot_ column;
               pairedColumn_ := pairedColumn_ this1 |},
            {| base := base column; pivot_ := pivot_ this1;
               pairedColumn_ := pairedColumn_ column |},
            <[pivot_ this1 := j]> (<[get_pivot column := i]> dict)),
           inr tt)
      | _, _ => ((this1, column, dict), inl out_of_range)
      end
    else ((this1, column, dict), inr tt).

End Vector_chain_column.

(* ===================================================================== *)
(** ** base_matrix_with_column_compression.h                             *)
(* ===================================================================== *)

(** [boost::disjoint_sets_with_storage<>], an external library: union by
    rank with path compression.  The model keeps, for every element, the
    root [find_set] returns and the rank of every root; path compression
    changes no root, so [find_set] is a lookup.  Elements past the end are
    the singletons [extend_sets] would add. *)
Module disjoint_sets.

Record t : Type := {
  root : list nat;
  rank : list nat
}.

(** [disjoint_sets_with_storage(n)] *)
Definition make (n : nat) : t :=
  {| root := seq 0 n; rank := replicate n 0%nat |}.

Definition extend_sets (ds : t) (x y : nat) : t :=
  let needed := S (Nat.max x y) in
  if (length (root ds) <? needed)%nat then
    {| root := root ds ++ seq (length (root ds)) (needed - length (root ds));
       rank := rank ds ++ replicate (needed - length (rank ds)) 0%nat |}
  else ds.

Definition find_set (ds : t) (x : nat) : nat := default x (root ds !! x).

Definition get_rank (ds : t) (x : nat) : nat := default 0%nat (rank ds !! x).

(** [link(x, y)]: the two roots are linked, the one of higher rank stays
    the root; on equal ranks the root of [y] stays and its rank grows. *)
Definition link (ds : t) (x y : nat) : t :=
  let ds1 := extend_sets ds x y in
  let i := find_set ds1 x in
  let j := find_set ds1 y in
  if (i =? j)%nat then ds1
  else if (get_rank ds1 j <? get_rank ds1 i)%nat then
    {| root := map (fun r => if (r =? j)%nat then i else r) (root ds1);
       rank := rank ds1 |}
  else
    {| root := map (fun r => if (r =? i)%nat then j else r) (root ds1);
       rank := if (get_rank ds1 i =? get_rank ds1 j)%nat
               then <[j := S (get_rank ds1 j)]> (rank ds1)
               else rank ds1 |}.

End disjoint_sets.

Module Base_matrix_with_column_compression.

Import Naive_vector_column.

(** [Column_type]: the column of the master matrix with the index [rep_] of
    its class.  [rep_] has no initial value in the source; [set_rep] writes
    it before it is read. *)
Record Column_type : Type := {
  col : Naive_vector_column.t;
  rep_ : nat
}.

Definition set_rep (c : Column_type) (rep : nat) : Column_type :=
  {| col := col c; rep_ := rep |}.
Definition set_col (c : Column_type) (k : Naive_vector_column.t) : Column_type :=
  {| col := k; rep_ := rep_ c |}.

(** The matrix.  Columns live in the pool [columnPool_] under their
    address; [repToColumn_] holds such addresses ([None] is [nullptr]), and
    the intrusive set [columnToRep_] is the list of the addresses of its
    elements.  The model is the instantiation without row access. *)
Record t : Type := {
  columnPool_ : gmap nat Column_type;
  columnToRep_ : list nat;
  columnClasses_ : disjoint_sets.t;
  repToColumn_ : list (option nat);
  nextColumnIndex_ : nat
}.

(** What [get_column] refers to: the static [empty_column_] or a column of
    the pool. *)
Inductive column_ref : Type :=
| empty_column_
| pooled (address : nat).

Section WithOptions.

Variable M : Master_matrix.

(** [Base_matrix_with_column_compression(operators, cellConstructor)] *)
Definition make : t :=
  {| columnPool_ := ∅; columnToRep_ := []; columnClasses_ := disjoint_sets.make 0;
     repToColumn_ := []; nextColumnIndex_ := 0 |}.

(** [Base_matrix_with_column_compression(numberOfColumns, operators, cellConstructor)] *)
Definition make_reserved (numberOfColumns : nat) : t :=
  {| columnPool_ := ∅; columnToRep_ := [];
     columnClasses_ := disjoint_sets.make numberOfColumns;
     repToColumn_ := replicate numberOfColumns None; nextColumnIndex_ := 0 |}.

(** [columnPool_.construct]: an address no live column has. *)
Definition construct (pool : gmap nat Column_type) (c : Column_type)
  : gmap nat Column_type * nat :=
  let address := fresh (dom pool) in (<[address := c]> pool, address).

(** Two columns the order [operator<] of the set does not tell apart. *)
Definition equivalent (c1 c2 : list Cell) : bool :=
  negb (operator_lt M c1 c2) && negb (operator_lt M c2 c1).

(** The element of the set equivalent to [content], if any.  [None] when an
    element of the set is not alive.  The tree compares along one path; the
    model compares with every element, which finds the same element in a
    set ordered by [operator<]. *)
Fixpoint set_find (pool : gmap nat Column_type) (content : list Cell) (set : list nat)
  : option (option nat) :=
  match set with
  | [] => Some None
  | a :: set' =>
      match pool !! a with
      | None => None
      | Some ca =>
          if equivalent content (column_ (col ca)) then Some (Some a)
          else set_find pool content set'
      end
  end.

(** [columnToRep_.insert(col)]: the set after the call and the iterator it
    returns, which designates the equivalent element when the set holds
    one. *)
Definition set_insert (pool : gmap nat Column_type) (address : nat) (content : list Cell)
  (set : list nat) : option (list nat * nat) :=
  match set_find pool content set with
  | None => None
  | Some (Some a) => Some (set, a)
  | Some None => Some (set ++ [address], address)
  end.

(** [columnToRep_.erase(target)], an erase by key: the elements equivalent
    to [content] leave the set. *)
Fixpoint set_erase (pool : gmap nat Column_type) (content : list Cell) (set : list nat)
  : option (list nat) :=
  match set with
  | [] => Some []
  | a :: set' =>
      match pool !! a, set_erase pool content set' with
      | Some ca, Some s =>
          if equivalent content (column_ (col ca)) then Some s else Some (a :: s)
      | _, _ => None
      end
  end.

(** [_insert_double_column(columnIndex, doubleIt)] *)
Definition _insert_double_column (columnIndex doubleIt : nat) (m : t) : option t :=
  match columnPool_ m !! doubleIt, repToColumn_ m !! columnIndex with
  | Some double, Some (Some address) =>
      let doubleRep := rep_ double in
      let classes := disjoint_sets.link (columnClasses_ m) columnIndex doubleRep in
      let newRep := disjoint_sets.find_set classes columnIndex in
      let pool := delete address (columnPool_ m) in
      let reps := <[columnIndex := None]> (repToColumn_ m) in
      if (newRep =? columnIndex)%nat then
        match reps !! doubleRep, pool !! doubleIt with
        | Some atDouble, Some double' =>
            Some {| columnPool_ := <[doubleIt := set_rep double' columnIndex]> pool;
                    columnToRep_ := columnToRep_ m;
                    columnClasses_ := classes;
                    repToColumn_ := <[columnIndex := atDouble]> (<[doubleRep := None]> reps);
                    nextColumnIndex_ := nextColumnIndex_ m |}
        | _, _ => None
        end
      else
        Some {| columnPool_ := pool; columnToRep_ := columnToRep_ m;
                columnClasses_ := classes; repToColumn_ := reps;
                nextColumnIndex_ := nextColumnIndex_ m |}
  | _, _ => None
  end.

(** [_insert_column(columnIndex)] *)
Definition _insert_column (columnIndex : nat) (m : t) : option t :=
  match repToColumn_ m !! columnIndex with
  | Some (Some address) =>
      match columnPool_ m !! address with
      | Some c =>
          if is_empty (col c) then
            Some {| columnPool_ := delete address (columnPool_ m);
                    columnToRep_ := columnToRep_ m;
                    columnClasses_ := columnClasses_ m;
                    repToColumn_ := <[columnIndex := None]> (repToColumn_ m);
                    nextColumnIndex_ := nextColumnIndex_ m |}
          else
            let pool := <[address := set_rep c columnIndex]> (columnPool_ m) in
            match set_insert pool address (column_ (col c)) (columnToRep_ m) with
            | Some (set, it) =>
                let m1 := {| columnPool_ := pool; columnToRep_ := set;
                             columnClasses_ := columnClasses_ m;
                             repToColumn_ := repToColumn_ m;
                             nextColumnIndex_ := nextColumnIndex_ m |} in
                match pool !! it with
                | Some found =>
                    if negb (rep_ found =? columnIndex)%nat
                    then _insert_double_column columnIndex it m1
                    else Some m1
                | None => None
                end
            | None => None
            end
      | None => None
      end
  | _ => None
  end.

(** [insert_boundary(boundary, dim)] *)
Definition insert_boundary (boundary : list cell_rep_type) (dim : Z) (m : t) : option t :=
  let dim := if dim =? -1
             then (match boundary with [] => 0 | _ => Z.of_nat (length boundary) - 1 end)
             else dim in
  let next := nextColumnIndex_ m in
  let '(pool, address) :=
    construct (columnPool_ m) {| col := make_dim M boundary dim; rep_ := 0 |} in
  let m1 :=
    if (length (repToColumn_ m) =? next)%nat then
      Some {| columnPool_ := pool; columnToRep_ := columnToRep_ m;
              columnClasses_ := disjoint_sets.link (columnClasses_ m) next next;
              repToColumn_ := repToColumn_ m ++ [Some address];
              nextColumnIndex_ := next |}
    else if (next <? length (repToColumn_ m))%nat then
      Some {| columnPool_ := pool; columnToRep_ := columnToRep_ m;
              columnClasses_ := columnClasses_ m;
              repToColumn_ := <[next := Some address]> (repToColumn_ m);
              nextColumnIndex_ := next |}
    else None in
  match m1 with
  | Some m1 =>
      match _insert_column next m1 with
      | Some m2 =>
          Some {| columnPool_ := columnPool_ m2; columnToRep_ := columnToRep_ m2;
                  columnClasses_ := columnClasses_ m2; repToColumn_ := repToColumn_ m2;
                  nextColumnIndex_ := S next |}
      | None => None
      end
  | None => None
  end.

(** [insert_column(column)] *)
Definition insert_column (column : list cell_rep_type) (m : t) : option t :=
  insert_boundary column (-1) m.

(** [get_column(columnIndex)]; [None] for an index past [repToColumn_]. *)
Definition get_column (m : t) (columnIndex : nat) : option column_ref :=
  match repToColumn_ m !! disjoint_sets.find_set (columnClasses_ m) columnIndex with
  | Some None => Some empty_column_
  | Some (Some address) => Some (pooled address)
  | None => None
  end.

(** The cells of the column a reference designates. *)
Definition deref (m : t) (r : column_ref) : option (list Cell) :=
  match r with
  | empty_column_ => Some []
  | pooled address => (fun c => column_ (col c)) <$> columnPool_ m !! address
  end.

Definition get_number_of_columns (m : t) : nat := nextColumnIndex_ m.

(** [add_to(sourceColumn, targetColumnIndex)] for a column index as source.
    [*repToColumn_[targetRep]] is formed without a test: the call has no
    defined behaviour, [None], when the slot of the class is [nullptr].
    When the source is the target itself, [target += get_column(...)] reads
    the cells of [*this] while it rebuilds the vector; [Cell_pool] above
    runs the loop on the shared cells and gives the result of the same
    call on a copy. *)
Definition add_to (sourceColumn targetColumnIndex : nat) (m : t) : option t :=
  let targetRep := disjoint_sets.find_set (columnClasses_ m) targetColumnIndex in
  match repToColumn_ m !! targetRep with
  | Some (Some address) =>
      match columnPool_ m !! address with
      | Some target =>
          match set_erase (columnPool_ m) (column_ (col target)) (columnToRep_ m),
                mbind (deref m) (get_column m sourceColumn) with
          | Some set, Some source =>
              let target' := fst (operator_add_assign_range M source (col target)) in
              _insert_column targetRep
                {| columnPool_ := <[address := set_col target target']> (columnPool_ m);
                   columnToRep_ := set;
                   columnClasses_ := columnClasses_ m;
                   repToColumn_ := repToColumn_ m;
                   nextColumnIndex_ := nextColumnIndex_ m |}
          | _, _ => None
          end
      | None => None
      end
  | _ => None
  end.

(** [is_zero_cell(columnIndex, rowIndex)] *)
Definition is_zero_cell (m : t) (columnIndex : nat) (rowIndex : Z) : option bool :=
  match repToColumn_ m !! disjoint_sets.find_set (columnClasses_ m) columnIndex with
  | Some None => Some true
  | Some (Some address) =>
      (fun c => negb (is_non_zero (col c) rowIndex)) <$> columnPool_ m !! address
  | None => None
  end.

(** [is_zero_column(columnIndex)] *)
Definition is_zero_column (m : t) (columnIndex : nat) : option bool :=
  match repToColumn_ m !! disjoint_sets.find_set (columnClasses_ m) columnIndex with
  | Some None => Some true
  | Some (Some address) => (fun c => is_empty (col c)) <$> columnPool_ m !! address
  | None => None
  end.

(** A sequence of calls on the matrix. *)
Inductive operation : Type :=
| Insert_boundary (boundary : list cell_rep_type) (dim : Z)
| Add_to (sourceColumn targetColumnIndex : nat).

Definition step (m : t) (o : operation) : option t :=
  match o with
  | Insert_boundary boundary dim => insert_boundary boundary dim m
  | Add_to sourceColumn targetColumnIndex => add_to sourceColumn targetColumnIndex m
  end.

Fixpoint run (m : t) (ops : list operation) : option t :=
  match ops with
  | [] => Some m
  | o :: ops' =>
      match step m o with
      | Some m' => run m' ops'
      | None => None
      end
  end.

End WithOptions.

End Base_matrix_with_column_compression.

(* ===================================================================== *)
(** ** Tower_to_filtration/include/gudhi/tower_converter.h                *)
(* ===================================================================== *)

Module Tower_converter.

(** What [operator<<] appends to the output file. *)
Inductive token (double : Type) : Type :=
| Dimension (d : Z)         (* (size - 1), a [size_type] *)
| Number (x : double)       (* an identifier or the timestamp *)
| Space
| Newline.
Arguments Dimension {double} d.
Arguments Number {double} x.
Arguments Space {double}.
Arguments Newline {double}.

Inductive streamingType : Type := FACES | VERTICES.

Section WithComplex.

(** [vertex] and [index] are [double]; the class only compares, sorts and
    counts with them, so the type stays abstract with the operations that
    are used: [<] and [++]. *)
Context {double : Type} `{Countable double}.
Variable ltb : double -> double -> bool.
Variable incr : double -> double.
Variable zero : double.

(** The template parameter [ComplexStructure] with the members the
    converter calls; each takes the complex and gives the complex after the
    call. *)
Variable ComplexStructure : Type.
Variable insert_simplex : list double -> ComplexStructure -> ComplexStructure * bool.
Variable get_size : ComplexStructure -> double.
Variable get_boundary :
  list double -> ComplexStructure -> ComplexStructure * (list double * double).

Record t : Type := {
  complex_ : ComplexStructure;
  vertices_ : gmap double double;
  outputStream_ : option (list (token double));   (* [None]: the NULL stream *)
  streamingType_ : streamingType;
  filtrationSize_ : double;
  towerWidth_ : double
}.

Definition set_complex (c : t) (k : ComplexStructure) : t :=
  {| complex_ := k; vertices_ := vertices_ c; outputStream_ := outputStream_ c;
     streamingType_ := streamingType_ c; filtrationSize_ := filtrationSize_ c;
     towerWidth_ := towerWidth_ c |}.
Definition set_vertices (c : t) (v : gmap double double) : t :=
  {| complex_ := complex_ c; vertices_ := v; outputStream_ := outputStream_ c;
     streamingType_ := streamingType_ c; filtrationSize_ := filtrationSize_ c;
     towerWidth_ := towerWidth_ c |}.
Definition set_output (c : t) (o : option (list (token double))) : t :=
  {| complex_ := complex_ c; vertices_ := vertices_ c; outputStream_ := o;
     streamingType_ := streamingType_ c; filtrationSize_ := filtrationSize_ c;
     towerWidth_ := towerWidth_ c |}.
Definition set_filtrationSize (c : t) (n : double) : t :=
  {| complex_ := complex_ c; vertices_ := vertices_ c; outputStream_ := outputStream_ c;
     streamingType_ := streamingType_ c; filtrationSize_ := n;
     towerWidth_ := towerWidth_ c |}.
Definition set_towerWidth (c : t) (w : double) : t :=
  {| complex_ := complex_ c; vertices_ := vertices_ c; outputStream_ := outputStream_ c;
     streamingType_ := streamingType_ c; filtrationSize_ := filtrationSize_ c;
     towerWidth_ := w |}.

(** [Tower_converter()] and [Tower_converter(outputFileName, type)] *)
Definition make (empty : ComplexStructure) : t :=
  {| complex_ := empty; vertices_ := ∅; outputStream_ := None;
     streamingType_ := VERTICES; filtrationSize_ := zero; towerWidth_ := zero |}.
Definition make_with_output (empty : ComplexStructure) (type : streamingType) : t :=
  {| complex_ := empty; vertices_ := ∅; outputStream_ := Some [];
     streamingType_ := type; filtrationSize_ := zero; towerWidth_ := zero |}.

Definition get_filtration_size (c : t) : double := filtrationSize_ c.
Definition get_tower_width (c : t) : double := towerWidth_ c.

(** [std::sort] of the translated simplex, as an insertion sort. *)
Fixpoint sort_insert (x : double) (l : list double) : list double :=
  match l with
  | [] => [x]
  | y :: l' => if ltb y x then y :: sort_insert x l' else x :: l
  end.
Definition sort (l : list double) : list double := foldr sort_insert [] l.

Definition write (c : t) (ts : list (token double)) : t :=
  match outputStream_ c with
  | Some out => set_output c (Some (out ++ ts))
  | None => c
  end.

(** The loop [for (i = 0; i < size; i++) *outputStream_ << boundary.at(i) << " "]:
    [at] throws past the end of [boundary]. *)
Fixpoint stream_at (boundary : list double) (i : nat) (n : nat) : Throws t unit :=
  match n with
  | O => ret tt
  | S n' =>
      match boundary !! i with
      | None => throw out_of_range
      | Some b => do_ modify (fun c => write c [Number b; Space]);
                  stream_at boundary (S i) n'
      end
  end.

(** [stream_simplex(simplex, timestamp)] *)
Definition stream_simplex (simplex : list double) (timestamp : double) : Throws t unit :=
  do_ modify (fun c => set_filtrationSize c (incr (filtrationSize_ c)));
  do c <- get;
  match outputStream_ c with
  | None => ret tt
  | Some _ =>
      let size := Z.of_nat (length simplex) in
      do_ modify (fun c => write c [Dimension ((size - 1) mod 2 ^ 64); Space]);
      do_ (match streamingType_ c with
           | FACES =>
               if size >? 1 then
                 do c1 <- get;
                 let '(k, (boundary, _)) := get_boundary simplex (complex_ c1) in
                 do_ put (set_complex c1 k);
                 stream_at boundary 0 (length simplex)
               else ret tt
           | VERTICES =>
               modify (fun c =>
                 write c (flat_map (fun v => [Number v; Space]) simplex))
           end);
      modify (fun c => write c [Number timestamp; Newline])
  end.

(** The translation at the head of [add_insertion]: a vertex registers
    itself ([emplace] keeps an existing entry), the vertices of a longer
    simplex are looked up with [at], which throws for an unknown one. *)
Fixpoint translate_loop (vertices : gmap double double) (simplex : list double)
  : option (list double) :=
  match simplex with
  | [] => Some []
  | v :: simplex' =>
      match vertices !! v, translate_loop vertices simplex' with
      | Some w, Some l => Some (w :: l)
      | _, _ => None
      end
  end.

Definition translate (simplex : list double) : Throws t (list double) :=
  match simplex with
  | [v] =>
      do_ modify (fun c =>
            match vertices_ c !! v with
            | Some _ => c
            | None => set_vertices c (<[v := v]> (vertices_ c))
            end);
      ret [v]
  | _ =>
      do c <- get;
      match translate_loop (vertices_ c) simplex with
      | Some transSimplex => ret (sort transSimplex)
      | None => throw out_of_range
      end
  end.

(** [add_insertion(simplex, timestamp, simplexBoundary, simplexInsertionNumber)]:
    [wantBoundary] tells whether [simplexBoundary] is not NULL; the values
    stored through the two pointers are returned beside the result. *)
Definition add_insertion (simplex : list double) (timestamp : double) (wantBoundary : bool)
  : Throws t (bool * option (list double * double)) :=
  do transSimplex <- translate simplex;
  do c <- get;
  let '(k, inserted) := insert_simplex transSimplex (complex_ c) in
  do_ put (set_complex c k);
  if inserted then
    do_ stream_simplex transSimplex timestamp;
    do_ modify (fun c =>
          if ltb (towerWidth_ c) (get_size (complex_ c))
          then set_towerWidth c (get_size (complex_ c)) else c);
    if wantBoundary then
      do c2 <- get;
      let '(k2, out) := get_boundary transSimplex (complex_ c2) in
      do_ put (set_complex c2 k2);
      ret (true, Some out)
    else ret (true, None)
  else ret (false, None).

End WithComplex.

End Tower_converter.

(* ===================================================================== *)
(** ** Specification vocabulary for columns                              *)
(* ===================================================================== *)

Module Column_spec.

Import Field_operators Naive_vector_column.

Definition rows (l : list Cell) : list Z := map get_row_index l.

(** P1: iterating the cells yields strictly increasing row indices. *)
Definition column_order (l : list Cell) : Prop := StronglySorted Z.lt (rows l).

(** P2, with the representation invariant of a stored value: under Z/2 the
    implicit 1, otherwise a normalised representative that is not the
    additive identity. *)
Definition stored_value (M : Master_matrix) (e : Z) : Prop :=
  if is_z2 M then e = 1 else 0 <= e < characteristic M /\ e <> get_additive_identity.

Definition no_zeros (M : Master_matrix) (l : list Cell) : Prop :=
  Forall (fun c => 0 <= get_row_index c /\ stored_value M (get_element c)) l.

Definition well_formed (M : Master_matrix) (l : list Cell) : Prop :=
  column_order l /\ no_zeros M l.

(** The field the options describe: a prime characteristic, which is 2
    under the Z/2 option. *)
Definition field_options (M : Master_matrix) : Prop :=
  Z.prime (characteristic M) /\ (is_z2 M = true -> characteristic M = 2).

(** A boundary as [insert_boundary] expects it: rows sorted increasingly,
    coefficients that are not 0 in the field. *)
Definition sorted_boundary (M : Master_matrix) (b : list cell_rep_type) : Prop :=
  StronglySorted Z.lt (map fst b) /\
  Forall (fun e => 0 <= fst e /\
                   (is_z2 M = false -> snd e mod characteristic M <> 0)) b.

(** Strictly increasing above a bound, the form the merge loops preserve. *)
Fixpoint sorted_from (lo : Z) (l : list Cell) : Prop :=
  match l with
  | [] => True
  | c :: l' => lo < get_row_index c /\ sorted_from (get_row_index c) l'
  end.

(** The field value a column holds at a row: 0 where no cell is stored. *)
Fixpoint coef (M : Master_matrix) (l : list Cell) (r : Z) : Z :=
  match l with
  | [] => 0
  | c :: l' =>
      if get_row_index c =? r
      then (if is_z2 M then 1 else get_element c)
      else coef M l' r
  end.

Definition stored_all (M : Master_matrix) (l : list Cell) : Prop :=
  Forall (fun c => stored_value M (get_element c)) l.

Definition value_of (M : Master_matrix) (c : Cell) : Z :=
  if is_z2 M then 1 else get_element c.

(** The shape the three merge loops share. *)
Fixpoint merge (ft fs : Cell -> Cell) (fe : Cell -> Cell -> option Cell)
  (t : list Cell) : list Cell -> list Cell :=
  fix scan (s : list Cell) : list Cell :=
    match t, s with
    | ct :: t', cs :: s' =>
        if get_row_index ct <? get_row_index cs then ft ct :: merge ft fs fe t' s
        else if get_row_index ct >? get_row_index cs then fs cs :: scan s'
        else match fe ct cs with
             | Some c => c :: merge ft fs fe t' s'
             | None => merge ft fs fe t' s'
             end
    | [], _ => map fs s
    | _ :: _, [] => map ft t
    end.

(** A cell transformer [f] keeps the row and realises [h] on the value. *)
Definition keeps (M : Master_matrix) (f : Cell -> Cell) (h : Z -> Z) : Prop :=
  forall c, stored_value M (get_element c) ->
    get_row_index (f c) = get_row_index c /\
    stored_value M (get_element (f c)) /\ value_of M (f c) = h (value_of M c).

(** The three loops as instances of [merge]. *)
Definition add_fs (M : Master_matrix) (cs : Cell) : Cell :=
  if is_z2 M then _insert_cell_z2 (get_row_index cs)
  else _insert_cell (get_element cs) (get_row_index cs).
Definition add_fe (M : Master_matrix) (ct cs : Cell) : option Cell :=
  if is_z2 M then None
  else let e := add_inplace (characteristic M) (get_element ct) (get_element cs) in
       if e =? get_additive_identity then None else Some (set_element ct e).

Definition mta_ft (M : Master_matrix) (val : Z) (c : Cell) : Cell :=
  set_element c (multiply_inplace (characteristic M) (get_element c) val).
Definition mta_fs (cs : Cell) : Cell :=
  _insert_cell (get_element cs) (get_row_index cs).
Definition mta_fe (M : Master_matrix) (val : Z) (ct cs : Cell) : option Cell :=
  let e := multiply_and_add_inplace_front (characteristic M) (get_element ct) val
             (get_element cs) in
  if e =? get_additive_identity then None else Some (set_element ct e).

Definition msa_fs (M : Master_matrix) (val : Z) (cs : Cell) : Cell :=
  _insert_cell (multiply_inplace (characteristic M) (get_element cs) val) (get_row_index cs).
Definition msa_fe (M : Master_matrix) (val : Z) (ct cs : Cell) : option Cell :=
  let e := multiply_and_add_inplace_back (characteristic M) (get_element cs) val
             (get_element ct) in
  if e =? get_additive_identity then None else Some (set_element ct e).

Definition has_row (l : list Cell) (x : Z) : bool :=
  existsb (fun c => get_row_index c =? x) l.

(** The map [reorder] is given: defined on every stored row, with values
    that are row indices, and one-to-one on the stored rows. *)
Definition row_permutation (valueMap : Z -> option Z) (l : list Cell) : Prop :=
  (forall c, In c l -> exists r, valueMap (get_row_index c) = Some r /\ 0 <= r) /\
  (forall c1 c2, In c1 l -> In c2 l ->
     valueMap (get_row_index c1) = valueMap (get_row_index c2) ->
     get_row_index c1 = get_row_index c2).

(** P4 as the spec states it, for one pair of columns, scalar and length. *)
Definition P4_as_stated (M : Master_matrix) (a b : Naive_vector_column.t) (c n : Z) : Prop :=
  exists a',
    multiply_target_and_add M c (a, b) = ((a', b), inr tt) /\
    get_content M a' n
    = zip_with (fun x y => (c * x + y) mod characteristic M)
        (get_content M a n) (get_content M b n).

Global Instance stored_value_dec M e : Decision (stored_value M e).
Proof. unfold stored_value. destruct (is_z2 M); apply _. Defined.
Global Instance well_formed_dec M l : Decision (well_formed M l).
Proof. unfold well_formed, column_order, no_zeros. apply _. Defined.
Global Instance sorted_boundary_dec M b : Decision (sorted_boundary M b).
Proof. unfold sorted_boundary. apply _. Defined.

(** The largest row of a column: the row of its last cell, -1 when empty. *)
Definition largest_row (l : list Cell) : Z :=
  match last l with
  | Some c => get_row_index c
  | None => -1
  end.

(** The claim of C7 about the state after the addition: each of the two
    chain columns stores the largest row of its cells as pivot. *)
Definition pivots_are_largest_rows (st : Vector_chain_column.state) : Prop :=
  let '(this, column, _) := st in
  Vector_chain_column.pivot_ this = largest_row (Vector_chain_column.base this) /\
  Vector_chain_column.pivot_ column = largest_row (Vector_chain_column.base column).

End Column_spec.

(** ** Chain columns: when a call exchanges the stored pivots *)

Module Pivot_exchange.

Import Naive_vector_column.

(** The call zeroed the stored pivot row of the target [a]: the row is
    stored in [a] before the call and in no cell of [a'], the target after
    it. *)
Definition pivot_row_zeroed (a a' : t) : bool :=
  is_non_zero a (pivot_ a) && negb (is_non_zero a' (pivot_ a)).

(** When [multiply_target_and_add] on chain columns exchanges the stored
    pivots and the dimensions of the target [a] and the source [b]: the
    call zeroed the pivot row of [a]; or it found [a] without cells, the
    branch a chain column is not meant to enter. *)
Definition multiply_target_and_add_exchanges (M : Master_matrix) (a b a' : t) : bool :=
  match column_ a with
  | [] => negb (is_z2 M) || negb (is_empty b)
  | _ => pivot_row_zeroed a a'
  end.

(** The same for [multiply_source_and_add], which returns at once for the
    scalar 0 and for a source without cells. *)
Definition multiply_source_and_add_exchanges (M : Master_matrix) (val : Z) (a b a' : t)
  : bool :=
  negb (val =? 0) &&
  match column_ a with
  | [] => is_z2 M && negb (is_empty b)
  | _ => pivot_row_zeroed a a'
  end.

End Pivot_exchange.

(** ** Specification vocabulary for the compressed matrix *)

Module Matrix_spec.

Import Naive_vector_column Base_matrix_with_column_compression.

(** The representative of the class of a column index. *)
Definition find (m : t) (x : nat) : nat :=
  disjoint_sets.find_set (columnClasses_ m) x.

(** The cells [get_column] gives access to. *)
Definition content_of (m : t) (columnIndex : nat) : option (list Cell) :=
  get_column m columnIndex ≫= deref m.

(** Over Z/2 the cells of a column all hold 1. *)
Definition canonical (M : Master_matrix) (l : list Cell) : Prop :=
  is_z2 M = true -> Forall (fun c => get_element c = 1) l.

(** The state between two calls, for a matrix with [n] columns: the roots
    of the union-find are fixed points; a slot of [repToColumn_] that is not
    null belongs to a root and holds a live column of the set that carries
    the index of the slot; every column of the set is live and sits in the
    slot of its [rep_]; no two columns of the set are equivalent; the slots
    from [n] on are null singletons, and the classes of the indices below
    [n] have their representative below [n]. *)
Record invariant_upto (M : Master_matrix) (n : nat) (m : t) : Prop := {
  inv_roots : forall x, find m (find m x) = find m x;
  inv_slots : forall r a, repToColumn_ m !! r = Some (Some a) ->
    exists c, columnPool_ m !! a = Some c /\ rep_ c = r /\
              a ∈ columnToRep_ m /\ find m r = r;
  inv_set : forall a, a ∈ columnToRep_ m ->
    exists c, columnPool_ m !! a = Some c /\
              repToColumn_ m !! rep_ c = Some (Some a);
  inv_distinct : forall a b ca cb,
    a ∈ columnToRep_ m -> b ∈ columnToRep_ m ->
    columnPool_ m !! a = Some ca -> columnPool_ m !! b = Some cb ->
    equivalent M (column_ (col ca)) (column_ (col cb)) = true -> a = b;
  inv_canonical : forall a c, columnPool_ m !! a = Some c ->
    canonical M (column_ (col c));
  inv_free : forall x, (n <= x)%nat ->
    find m x = x /\ (repToColumn_ m !! x = None \/ repToColumn_ m !! x = Some None);
  inv_size : (n <= length (repToColumn_ m))%nat;
  inv_bound : forall x, (x < n)%nat -> (find m x < n)%nat
}.

Definition invariant (M : Master_matrix) (m : t) : Prop :=
  invariant_upto M (nextColumnIndex_ m) m.

(** The state inside [insert_boundary] and [add_to] when [_insert_column]
    is called: the slot [idx] holds the live column [a], which is not in
    the set; the rest is as between two calls. *)
Record pending (M : Master_matrix) (idx a n : nat) (m : t) : Prop := {
  p_roots : forall x, find m (find m x) = find m x;
  p_slot : repToColumn_ m !! idx = Some (Some a);
  p_fresh : a ∉ columnToRep_ m;
  p_root : find m idx = idx;
  p_below : (idx < n)%nat;
  p_slots : forall r b, r <> idx -> repToColumn_ m !! r = Some (Some b) ->
    exists c, columnPool_ m !! b = Some c /\ rep_ c = r /\
              b ∈ columnToRep_ m /\ find m r = r;
  p_set : forall b, b ∈ columnToRep_ m ->
    exists c, columnPool_ m !! b = Some c /\
              repToColumn_ m !! rep_ c = Some (Some b);
  p_distinct : forall b b' cb cb',
    b ∈ columnToRep_ m -> b' ∈ columnToRep_ m ->
    columnPool_ m !! b = Some cb -> columnPool_ m !! b' = Some cb' ->
    equivalent M (column_ (col cb)) (column_ (col cb')) = true -> b = b';
  p_canonical : forall b c, columnPool_ m !! b = Some c ->
    canonical M (column_ (col c));
  p_free : forall x, (n <= x)%nat ->
    find m x = x /\ (repToColumn_ m !! x = None \/ repToColumn_ m !! x = Some None);
  p_size : (n <= length (repToColumn_ m))%nat;
  p_bound : forall x, (x < n)%nat -> (find m x < n)%nat
}.

(** A class without a physical column. *)
Definition null_class (m : t) (e : nat) : Prop :=
  find m e = e /\ repToColumn_ m !! e = Some None.

(** The number of insertions in a sequence of calls. *)
Fixpoint insertions (ops : list operation) : nat :=
  match ops with
  | [] => 0%nat
  | Insert_boundary _ _ :: ops' => S (insertions ops')
  | Add_to _ _ :: ops' => insertions ops'
  end.

End Matrix_spec.

(** ** Concrete options and columns for the worked instances *)

Module Examples.

Import Naive_vector_column.

Definition Z5_base : Master_matrix :=
  {| is_z2 := false; isNonBasic := false; is_of_boundary_type := true; characteristic := 5 |}.
Definition Z5_chain : Master_matrix :=
  {| is_z2 := false; isNonBasic := true; is_of_boundary_type := false; characteristic := 5 |}.
Definition Z2_base : Master_matrix :=
  {| is_z2 := true; isNonBasic := false; is_of_boundary_type := true; characteristic := 2 |}.

Definition cell (r e : Z) : Cell := {| get_row_index := r; get_element := e |}.
Definition column_of (l : list Cell) (pivot : Z) : Naive_vector_column.t :=
  {| column_ := l; pivot_ := pivot; dim_ := 1 |}.


(** The inputs of the worked instances. *)
Definition boundary0 : list cell_rep_type := [(0, 6); (2, 3)].
Definition column_a : Naive_vector_column.t := column_of [cell 0 1; cell 2 3] (-1).
Definition column_b : Naive_vector_column.t := column_of [cell 1 4; cell 2 2] (-1).
Definition chain_a : Naive_vector_column.t := column_of [cell 1 1; cell 3 1] 3.
Definition chain_b : Naive_vector_column.t := column_of [cell 3 4; cell 5 1] 5.
Definition swap_0_2 (r : Z) : option Z :=
  if r =? 0 then Some 2 else if r =? 2 then Some 0 else None.

(** The dictionary and the two columns used below: the cycles {1, 3} and
    {3, 5} over Z/5, stored as columns 0 and 1. *)
Definition chain_dict : gmap Z nat := <[3 := 0%nat]> (<[5 := 1%nat]> ∅).
Definition chain_state : Vector_chain_column.state :=
  ({| Vector_chain_column.base := [cell 1 1; cell 3 1];
      Vector_chain_column.pivot_ := 3; Vector_chain_column.pairedColumn_ := -1 |},
   {| Vector_chain_column.base := [cell 3 4; cell 5 1];
      Vector_chain_column.pivot_ := 5; Vector_chain_column.pairedColumn_ := -1 |},
   chain_dict).

(** A small [ComplexStructure] for the tower converter: the list of the
    simplices inserted so far. *)
Definition toy_complex : Type := list (list Z).
Definition toy_insert_simplex (s : list Z) (k : toy_complex) : toy_complex * bool :=
  if bool_decide (s ∈ k) then (k, false) else (k ++ [s], true).
Definition toy_get_size (k : toy_complex) : Z := Z.of_nat (length k).
Definition toy_get_boundary (s : list Z) (k : toy_complex) : toy_complex * (list Z * Z) :=
  (k, ([], Z.of_nat (length k))).
Definition toy_add_insertion (simplex : list Z) (timestamp : Z) (wantBoundary : bool) :=
  Tower_converter.add_insertion Z.ltb Z.succ toy_complex
    toy_insert_simplex toy_get_size toy_get_boundary simplex timestamp wantBoundary.
(** The converter after the vertex 7 went in at time 0. *)
Definition toy_converter : Tower_converter.t toy_complex :=
  fst (toy_add_insertion [7] 0 false
         (Tower_converter.make_with_output 0 toy_complex [] Tower_converter.VERTICES)).

(** The column whose cached pivot is stale: built from {0, 1}, reordered by
    0 -> 5 and 1 -> 2, then the column {3} added. *)
Definition stale_column : Z2_unordered_set_column.t :=
  Z2_unordered_set_column.apply
    (Z2_unordered_set_column.apply (Z2_unordered_set_column.make [0; 1])
       (Z2_unordered_set_column.Reorder [5; 2]))
    (Z2_unordered_set_column.Add [3]).

(** Calls on a compressed matrix over Z/2: two columns with the same
    boundary, an empty one, a fourth one, and an addition into the class of
    the first two. *)
Definition compressed_ops : list Base_matrix_with_column_compression.operation :=
  [Base_matrix_with_column_compression.Insert_boundary [(0, 1); (1, 1)] (-1);
   Base_matrix_with_column_compression.Insert_boundary [(0, 1); (1, 1)] (-1);
   Base_matrix_with_column_compression.Insert_boundary [] (-1);
   Base_matrix_with_column_compression.Insert_boundary [(2, 1)] (-1);
   Base_matrix_with_column_compression.Add_to 3 0].

(** The column [column_a] as an object: its two cells at the addresses 0
    and 1 of the pool, its vector under the address 0. *)
Definition shared_heap : Cell_pool.heap :=
  {| Cell_pool.cellPool_ := <[0%nat := cell 0 1]> (<[1%nat := cell 2 3]> ∅);
     Cell_pool.column_ := <[0%nat := [0%nat; 1%nat]]> ∅ |}.

End Examples.

(* ===================================================================== *)
(** ** naive_vector_column.h: [get_pivot_value] and the search of
       [is_non_zero]                                                      *)
(* ===================================================================== *)

(** [std::lower_bound] and [std::binary_search] of [<algorithm>], the
    standard library's bisection: [first] is the index the iterator [first]
    points at, [count] the number of elements still searched; [below x] is
    [comp(x, value)] and [above x] is [comp(value, x)]. *)
Module Std_algorithm.

Fixpoint lower_bound_loop {A} (below : A -> bool) (v : list A) (fuel first count : nat)
  : nat :=
  match fuel with
  | O => first
  | S fuel' =>
      if (0 <? count)%nat then
        let step := (count / 2)%nat in
        let it := (first + step)%nat in
        match v !! it with
        | Some x =>
            if below x
            then lower_bound_loop below v fuel' (S it) (count - (step + 1))%nat
            else lower_bound_loop below v fuel' first step
        | None => first
        end
      else first
  end.

(** The loop runs at most [count] times. *)
Definition lower_bound {A} (below : A -> bool) (v : list A) : nat :=
  lower_bound_loop below v (length v) 0 (length v).

Definition binary_search {A} (below above : A -> bool) (v : list A) : bool :=
  match v !! lower_bound below v with
  | Some x => negb (above x)
  | None => false
  end.

End Std_algorithm.

Module Naive_vector_column_search.

Import Naive_vector_column.

(** [is_non_zero(rowIndex)] as the source writes it: a binary search for a
    cell constructed with that row, cells compared by row. *)
Definition is_non_zero (c : t) (rowIndex : Z) : bool :=
  Std_algorithm.binary_search
    (fun a => get_row_index a <? rowIndex)
    (fun b => rowIndex <? get_row_index b)
    (column_ c).

Section WithOptions.

Variable M : Master_matrix.

(** [get_pivot_value()]; [Field_element_type()] is 0. *)
Fixpoint get_pivot_value_loop (pivot : Z) (it : list Cell) : Z :=
  match it with
  | [] => 0
  | cell :: it' =>
      if get_row_index cell =? pivot then get_element cell
      else get_pivot_value_loop pivot it'
  end.

Definition get_pivot_value (c : t) : Z :=
  if is_z2 M then 1
  else if is_of_boundary_type M then
    match last (column_ c) with
    | Some back => get_element back
    | None => 0
    end
  else if pivot_ c =? -1 then 0
  else get_pivot_value_loop (pivot_ c) (column_ c).

End WithOptions.

End Naive_vector_column_search.

(* ===================================================================== *)
(** ** Specification vocabulary for the unordered-set column             *)
(* ===================================================================== *)

Module Unordered_set_spec.

Import Z2_unordered_set_column.

(** A row index that [int] holds without wrapping. *)
Definition small (v : Z) : Prop := 0 <= v < 2 ^ 31.

(** [m] is the pivot of the set of rows [rows]: -1 for the empty set, its
    largest element otherwise. *)
Definition is_pivot_of (rows : gset Z) (m : Z) : Prop :=
  (rows = ∅ /\ m = -1) \/ (m ∈ rows /\ forall x, x ∈ rows -> x <= m).

(** What the cached pivot promises: when the flag is down the cache is the
    pivot; in any case no stored row is above the cache. *)
Definition pivot_coherent (c : t) : Prop :=
  (forall x, x ∈ column_ c -> small x) /\
  (pivotChanged_ c = false -> is_pivot_of (column_ c) (pivot_ c)) /\
  (forall x, x ∈ column_ c -> x <= pivot_ c).

(** The operations that leave the rows where they are, on rows that fit
    an [int]. *)
Definition keeps_rows (o : operation) : Prop :=
  match o with
  | Add column => Forall small column
  | Clear_value _ => True
  | Reorder _ => False
  end.

End Unordered_set_spec.

(* ===================================================================== *)
(** ** base_matrix_with_column_compression.h: the constructor from
       columns and [reset]                                                *)
(* ===================================================================== *)

Module Base_matrix_constructors.

Import Naive_vector_column Base_matrix_with_column_compression.

Section WithOptions.

Variable M : Master_matrix.

(** [Base_matrix_with_column_compression(columns, operators,
    cellConstructor)]: the slots are reserved, then the columns are
    inserted in order. *)
Fixpoint insert_columns (columns : list (list cell_rep_type)) (m : t) : option t :=
  match columns with
  | [] => Some m
  | c :: columns' =>
      match insert_column M c m with
      | Some m' => insert_columns columns' m'
      | None => None
      end
  end.

Definition make_from_columns (columns : list (list cell_rep_type)) : option t :=
  insert_columns columns (make_reserved (length columns)).

(** [reset(operators, cellConstructor)]: [clear_and_dispose] destroys
    every column of the set. *)
Definition reset (m : t) : t :=
  {| columnPool_ := foldr delete (columnPool_ m) (columnToRep_ m);
     columnToRep_ := [];
     columnClasses_ := disjoint_sets.make 0;
     repToColumn_ := [];
     nextColumnIndex_ := 0 |}.

End WithOptions.

End Base_matrix_constructors.

(** ** More vocabulary for the compressed matrix *)

Module Matrix_store.

Import Naive_vector_column Base_matrix_with_column_compression Matrix_spec.

(** No slot holds an empty column. *)
Definition stored_columns_nonempty (m : t) : Prop :=
  forall r a c, repToColumn_ m !! r = Some (Some a) -> columnPool_ m !! a = Some c ->
                column_ (col c) <> [].

(** Every live column is in the set. *)
Definition no_leak (m : t) : Prop :=
  forall a, is_Some (columnPool_ m !! a) -> a ∈ columnToRep_ m.

(** The same two properties while [_insert_column] is pending for the
    column at [a]. *)
Definition pending_store (a : nat) (m : t) : Prop :=
  (forall r b c, repToColumn_ m !! r = Some (Some b) -> b <> a ->
                 columnPool_ m !! b = Some c -> column_ (col c) <> []) /\
  (forall b, is_Some (columnPool_ m !! b) -> b = a \/ b ∈ columnToRep_ m).

End Matrix_store.

(* ===================================================================== *)
(** ** tower_converter.h: [get_union]                                     *)
(* ===================================================================== *)

Module Tower_converter_union.

Section WithVertices.

Context {double : Type} `{Countable double}.
Variable ltb : double -> double -> bool.

(** The body of the loop of [get_union] on one simplex: the iterator
    advances while the vertex it designates is below [v]; [v] goes in
    before the vertex it stops at, unless that vertex is [v]. *)
Fixpoint insert_vertex (v : double) (simplex : list double) : list double :=
  match simplex with
  | [] => [v]
  | x :: simplex' =>
      if ltb x v then x :: insert_vertex v simplex'
      else if bool_decide (x = v) then simplex else v :: simplex
  end.

(** [get_union(v, simplices)] *)
Definition get_union (v : double) (simplices : list (list double)) : list (list double) :=
  map (insert_vertex v) simplices.

(** A simplex as the converter keeps it: the vertices in increasing
    order. *)
Fixpoint increasing (simplex : list double) : Prop :=
  match simplex with
  | [] => True
  | x :: simplex' =>
      match simplex' with
      | [] => True
      | y :: _ => ltb x y = true
      end /\ increasing simplex'
  end.

End WithVertices.

End Tower_converter_union.

(** ** One more set of options for the worked instances *)

Module More_examples.

Import Naive_vector_column.

(** A matrix over Z/5 that is not basic, with columns of boundary type. *)
Definition Z5_boundary : Master_matrix :=
  {| is_z2 := false; isNonBasic := true; is_of_boundary_type := true; characteristic := 5 |}.

End More_examples.

(* ===================================================================== *)
(** * Part II: lemmas and theorems                                       *)
(* ===================================================================== *)

(** ** Columns: order, stored values and the value of a row *)

Module Column_facts.

Import Field_operators Naive_vector_column Column_spec.

Lemma sorted_from_weaken lo lo' l :
  lo <= lo' -> sorted_from lo' l -> sorted_from lo l.
Proof. destruct l; simpl; intuition lia. Qed.

Lemma sorted_from_Forall lo l :
  sorted_from lo l -> Forall (fun c => lo < get_row_index c) l.
Proof.
  revert lo. induction l as [|c l IH]; intros lo H; constructor.
  - apply H.
  - destruct H as [H1 H2]. apply IH. eapply sorted_from_weaken; [|exact H2]. lia.
Qed.

Lemma sorted_from_order lo l : sorted_from lo l -> column_order l.
Proof.
  revert lo. unfold column_order, rows.
  induction l as [|c l IH]; intros lo H; simpl; constructor.
  - destruct H as [_ H]. eapply IH, H.
  - destruct H as [_ H]. apply sorted_from_Forall in H.
    rewrite Forall_map. exact H.
Qed.

Lemma order_sorted_from lo l :
  column_order l -> Forall (fun c => lo < get_row_index c) l -> sorted_from lo l.
Proof.
  revert lo. unfold column_order, rows.
  induction l as [|c l IH]; intros lo Hs Hlo; simpl; [exact I|].
  inversion Hs as [|? ? Hs' Hall]; subst. inversion Hlo; subst.
  split; [assumption|]. apply IH; [assumption|].
  rewrite Forall_map in Hall. exact Hall.
Qed.

Lemma well_formed_sorted_from M l : well_formed M l -> sorted_from (-1) l.
Proof.
  intros [Ho Hz]. apply order_sorted_from; [assumption|].
  eapply Forall_impl; [exact Hz|]. simpl. intros c [Hc _]. lia.
Qed.

Lemma sorted_from_well_formed M lo l :
  -1 <= lo -> sorted_from lo l ->
  Forall (fun c => stored_value M (get_element c)) l -> well_formed M l.
Proof.
  intros Hlo Hs Hv. split; [eapply sorted_from_order; eassumption|].
  apply sorted_from_Forall in Hs. unfold no_zeros.
  rewrite Forall_forall in *. intros c Hc. split; [specialize (Hs c Hc); lia|auto].
Qed.

Lemma coef_above M lo l r : sorted_from lo l -> r <= lo -> coef M l r = 0.
Proof.
  revert lo. induction l as [|c l IH]; intros lo Hs Hr; simpl; [reflexivity|].
  destruct Hs as [H1 H2].
  destruct (Z.eqb_spec (get_row_index c) r); [lia|].
  eapply IH; [exact H2|lia].
Qed.

Lemma _add_loop_nil_l M pivot s : _add_loop M pivot [] s = (insert_cells M s, false).
Proof. destruct s; reflexivity. Qed.
Lemma _add_loop_nil_r M pivot c t : _add_loop M pivot (c :: t) [] = (c :: t, false).
Proof. reflexivity. Qed.
Lemma _add_loop_cons M pivot ct t cs s :
  _add_loop M pivot (ct :: t) (cs :: s) =
  if get_row_index ct <? get_row_index cs then
    let '(newColumn, z) := _add_loop M pivot t (cs :: s) in (ct :: newColumn, z)
  else if get_row_index ct >? get_row_index cs then
    let '(newColumn, z) := _add_loop M pivot (ct :: t) s in
    ((if is_z2 M then _insert_cell_z2 (get_row_index cs)
      else _insert_cell (get_element cs) (get_row_index cs)) :: newColumn, z)
  else if is_z2 M then
    let '(newColumn, z) := _add_loop M pivot t s in
    (newColumn, is_chain M && (get_row_index ct =? pivot) || z)
  else
    let e := add_inplace (characteristic M) (get_element ct) (get_element cs) in
    if e =? get_additive_identity then
      let '(newColumn, z) := _add_loop M pivot t s in
      (newColumn, is_chain M && (get_row_index ct =? pivot) || z)
    else
      let '(newColumn, z) := _add_loop M pivot t s in
      (set_element ct e :: newColumn, z).
Proof. reflexivity. Qed.

Lemma field_options_pos M : field_options M -> 1 < characteristic M.
Proof. intros [Hp _]. destruct Hp. lia. Qed.

Lemma stored_value_mod M e :
  field_options M -> stored_value M e -> e mod characteristic M = e.
Proof.
  intros HM He. pose proof (field_options_pos M HM) as Hp.
  unfold stored_value in He. destruct HM as [_ H2].
  destruct (is_z2 M).
  - subst. rewrite H2 by reflexivity. reflexivity.
  - apply Z.mod_small. lia.
Qed.

Lemma insert_cells_spec M lo s :
  sorted_from lo s -> stored_all M s ->
  sorted_from lo (insert_cells M s) /\ stored_all M (insert_cells M s) /\
  forall x, coef M (insert_cells M s) x = coef M s x.
Proof.
  unfold insert_cells, stored_all. revert lo.
  induction s as [|c s IH]; intros lo Hs Hv.
  - destruct (is_z2 M); simpl; auto.
  - destruct Hs as [H1 H2]. inversion Hv as [|? ? Hc Hv']; subst.
    specialize (IH _ H2 Hv').
    unfold stored_value in *.
    destruct (is_z2 M) eqn:E; simpl in *; rewrite ?E; destruct IH as (IH1 & IH2 & IH3);
      (split; [auto|split; [constructor; auto|]]);
      intros x; destruct (get_row_index c =? x); auto.
Qed.

Lemma stored_value_add M a b :
  field_options M -> is_z2 M = false ->
  (add_inplace (characteristic M) a b =? get_additive_identity) = false ->
  stored_value M (add_inplace (characteristic M) a b).
Proof.
  intros HM E H. pose proof (field_options_pos M HM).
  unfold stored_value, add_inplace, get_additive_identity in *. rewrite E.
  apply Z.eqb_neq in H. split; [apply Z.mod_pos_bound; lia|assumption].
Qed.

Lemma coef_z2_range M l x :
  is_z2 M = true -> coef M l x = 0 \/ coef M l x = 1.
Proof.
  intros E. induction l as [|c l IH]; simpl; auto.
  rewrite E. destruct (get_row_index c =? x); auto.
Qed.

Lemma coef_range M l x :
  field_options M -> stored_all M l -> 0 <= coef M l x < characteristic M.
Proof.
  intros HM Hv. pose proof (field_options_pos M HM) as Hp.
  induction l as [|c l IH]; simpl; [lia|].
  inversion Hv as [|? ? Hc Hv']; subst.
  destruct (get_row_index c =? x); [|auto].
  unfold stored_value in Hc. destruct (is_z2 M); lia.
Qed.

Lemma coef_mod M l x :
  field_options M -> stored_all M l -> coef M l x mod characteristic M = coef M l x.
Proof. intros HM Hv. apply Z.mod_small, coef_range; assumption. Qed.

Lemma coef_head M c l : coef M (c :: l) (get_row_index c) = if is_z2 M then 1 else get_element c.
Proof. simpl. rewrite Z.eqb_refl. reflexivity. Qed.

Lemma coef_tail M c l x : get_row_index c <> x -> coef M (c :: l) x = coef M l x.
Proof. intros H. simpl. destruct (Z.eqb_spec (get_row_index c) x); [contradiction|reflexivity]. Qed.

Lemma coef_cons M c l x :
  coef M (c :: l) x = if get_row_index c =? x then value_of M c else coef M l x.
Proof. reflexivity. Qed.

Lemma new_cell_props M cs :
  stored_value M (get_element cs) ->
  let c := if is_z2 M then _insert_cell_z2 (get_row_index cs)
           else _insert_cell (get_element cs) (get_row_index cs) in
  get_row_index c = get_row_index cs /\ stored_value M (get_element c) /\
  value_of M c = value_of M cs.
Proof.
  unfold value_of, stored_value. destruct (is_z2 M); simpl; auto.
Qed.

Lemma value_of_mod M c :
  field_options M -> stored_value M (get_element c) ->
  value_of M c mod characteristic M = value_of M c.
Proof.
  intros HM Hc. unfold value_of. pose proof (stored_value_mod M _ HM Hc) as H.
  unfold stored_value in Hc. destruct (is_z2 M); [subst|assumption].
  rewrite Hc in H. assumption.
Qed.

Lemma merge_nil_l ft fs fe s : merge ft fs fe [] s = map fs s.
Proof. destruct s; reflexivity. Qed.
Lemma merge_nil_r ft fs fe t : merge ft fs fe t [] = map ft t.
Proof. destruct t; reflexivity. Qed.
Lemma merge_cons ft fs fe ct t cs s :
  merge ft fs fe (ct :: t) (cs :: s) =
  if get_row_index ct <? get_row_index cs then ft ct :: merge ft fs fe t (cs :: s)
  else if get_row_index ct >? get_row_index cs then fs cs :: merge ft fs fe (ct :: t) s
  else match fe ct cs with
       | Some c => c :: merge ft fs fe t s
       | None => merge ft fs fe t s
       end.
Proof. reflexivity. Qed.

Section Merge.

Variable M : Master_matrix.
Variables (ft fs : Cell -> Cell) (fe : Cell -> Cell -> option Cell).
Variable g : Z -> Z -> Z.

Hypothesis g00 : g 0 0 = 0.
Hypothesis Hft : keeps M ft (fun a => g a 0).
Hypothesis Hfs : keeps M fs (fun b => g 0 b).
Hypothesis Hfe : forall ct cs,
  stored_value M (get_element ct) -> stored_value M (get_element cs) ->
  match fe ct cs with
  | Some c => get_row_index c = get_row_index ct /\
              stored_value M (get_element c) /\
              value_of M c = g (value_of M ct) (value_of M cs)
  | None => g (value_of M ct) (value_of M cs) = 0
  end.

Lemma map_keeps f h lo l :
  keeps M f h -> h 0 = 0 -> sorted_from lo l -> stored_all M l ->
  sorted_from lo (map f l) /\ stored_all M (map f l) /\
  forall x, coef M (map f l) x = h (coef M l x).
Proof.
  intros Hf h0. revert lo. induction l as [|c l IH]; intros lo Hs Hv.
  - simpl. split; [exact I|split; [constructor|]]. intros x. symmetry. exact h0.
  - destruct Hs as [H1 H2]. inversion Hv as [|? ? Hc Hv']; subst.
    destruct (Hf c Hc) as (F1 & F2 & F3).
    destruct (IH _ H2 Hv') as (A & B & C).
    simpl map. split; [split; [lia|rewrite F1; exact A]|].
    split; [constructor; assumption|].
    intros x. rewrite !coef_cons, F1, F3, C.
    destruct (get_row_index c =? x); reflexivity.
Qed.

Lemma merge_spec t : forall s lo,
  sorted_from lo t -> sorted_from lo s -> stored_all M t -> stored_all M s ->
  sorted_from lo (merge ft fs fe t s) /\
  stored_all M (merge ft fs fe t s) /\
  forall x, coef M (merge ft fs fe t s) x = g (coef M t x) (coef M s x).
Proof.
  induction t as [|ct t IHt]; intros s.
  - intros lo Ht Hs Vt Vs. rewrite merge_nil_l.
    apply (map_keeps fs (fun b => g 0 b)); assumption.
  - induction s as [|cs s IHs]; intros lo Ht Hs Vt Vs.
    + rewrite merge_nil_r. apply (map_keeps ft (fun a => g a 0)); assumption.
    + rewrite merge_cons.
      pose proof Ht as [Ht1 Ht2]. pose proof Hs as [Hs1 Hs2].
      inversion Vt as [|? ? Vct Vt']; subst. inversion Vs as [|? ? Vcs Vs']; subst.
      destruct (Z.ltb_spec (get_row_index ct) (get_row_index cs)) as [Hlt|Hge].
      * destruct (IHt (cs :: s) (get_row_index ct) Ht2) as (A & B & C);
          [split; assumption|assumption|assumption|].
        destruct (Hft ct Vct) as (F1 & F2 & F3).
        split; [split; [lia|rewrite F1; assumption]|]. split; [constructor; assumption|].
        intros x. rewrite (coef_cons M (ft ct)), F1, F3, C, !coef_cons.
        destruct (Z.eqb_spec (get_row_index ct) x) as [<-|Hne]; [|reflexivity].
        destruct (Z.eqb_spec (get_row_index cs) (get_row_index ct)); [lia|].
        rewrite (coef_above M (get_row_index cs) s); [reflexivity|assumption|lia].
      * destruct (Z.gtb_spec (get_row_index ct) (get_row_index cs)) as [Hgt|Hle].
        -- destruct (IHs (get_row_index cs) (conj Hgt Ht2) Hs2 Vt Vs') as (A & B & C).
           destruct (Hfs cs Vcs) as (F1 & F2 & F3).
           split; [split; [lia|rewrite F1; assumption]|]. split; [constructor; assumption|].
           intros x. rewrite (coef_cons M (fs cs)), F1, F3, C, !coef_cons.
           destruct (Z.eqb_spec (get_row_index cs) x) as [<-|Hne]; [|reflexivity].
           destruct (Z.eqb_spec (get_row_index ct) (get_row_index cs)); [lia|].
           rewrite (coef_above M (get_row_index ct) t); [reflexivity|assumption|lia].
        -- assert (Heq : get_row_index ct = get_row_index cs) by lia.
           assert (Hs2' : sorted_from (get_row_index ct) s) by (rewrite Heq; assumption).
           destruct (IHt s (get_row_index ct) Ht2 Hs2' Vt' Vs') as (A & B & C).
           assert (Hzero : coef M (merge ft fs fe t s) (get_row_index ct) = 0).
           { rewrite C.
             rewrite (coef_above M (get_row_index ct) t); [|assumption|lia].
             rewrite (coef_above M (get_row_index ct) s); [|assumption|lia].
             exact g00. }
           specialize (Hfe ct cs Vct Vcs).
           destruct (fe ct cs) as [c|].
           ++ destruct Hfe as (F1 & F2 & F3).
              split; [split; [lia|rewrite F1; assumption]|].
              split; [constructor; assumption|].
              intros x. rewrite (coef_cons M c), F1, F3, C, !coef_cons, <- Heq.
              destruct (get_row_index ct =? x); reflexivity.
           ++ split; [eapply sorted_from_weaken; [|exact A]; lia|].
              split; [assumption|].
              intros x. rewrite !coef_cons, <- Heq.
              destruct (Z.eqb_spec (get_row_index ct) x) as [<-|Hne]; [congruence|apply C].
Qed.

End Merge.

Lemma insert_cells_map M s : insert_cells M s = map (add_fs M) s.
Proof. unfold insert_cells, add_fs. destruct (is_z2 M); reflexivity. Qed.

Lemma copy_cells_map M s : copy_cells M s = map (add_fs M) s.
Proof. unfold copy_cells, add_fs. destruct (is_z2 M); reflexivity. Qed.

Lemma _add_loop_merge M pivot t : forall s,
  fst (_add_loop M pivot t s) = merge (fun c => c) (add_fs M) (add_fe M) t s.
Proof.
  induction t as [|ct t IHt]; intros s.
  - rewrite _add_loop_nil_l, merge_nil_l. apply insert_cells_map.
  - induction s as [|cs s IHs].
    + rewrite merge_nil_r, map_id. reflexivity.
    + rewrite _add_loop_cons, merge_cons.
      specialize (IHt (cs :: s)) as IH1. specialize (IHt s) as IH2.
      set (m1 := merge _ _ _ t (cs :: s)) in *. set (m2 := merge _ _ _ t s) in *.
      set (m3 := merge _ _ _ (ct :: t) s) in *.
      unfold add_fe, add_fs.
      destruct (get_row_index ct <? get_row_index cs).
      { destruct (_add_loop M pivot t (cs :: s)). simpl in *. congruence. }
      destruct (get_row_index ct >? get_row_index cs).
      { destruct (_add_loop M pivot (ct :: t) s). simpl in *. congruence. }
      destruct (is_z2 M).
      { destruct (_add_loop M pivot t s). simpl in *. congruence. }
      cbv zeta. destruct (_ =? get_additive_identity);
        destruct (_add_loop M pivot t s); simpl in *; congruence.
Qed.

Lemma _mta_loop_nil_l M val pivot s :
  _multiply_target_and_add_loop M val pivot [] s = (map mta_fs s, false).
Proof. destruct s; reflexivity. Qed.
Lemma _mta_loop_nil_r M val pivot c t :
  _multiply_target_and_add_loop M val pivot (c :: t) [] = (map (mta_ft M val) (c :: t), false).
Proof. reflexivity. Qed.
Lemma _mta_loop_cons M val pivot ct t cs s :
  _multiply_target_and_add_loop M val pivot (ct :: t) (cs :: s) =
  if get_row_index ct <? get_row_index cs then
    let '(newColumn, z) := _multiply_target_and_add_loop M val pivot t (cs :: s) in
    (mta_ft M val ct :: newColumn, z)
  else if get_row_index ct >? get_row_index cs then
    let '(newColumn, z) := _multiply_target_and_add_loop M val pivot (ct :: t) s in
    (mta_fs cs :: newColumn, z)
  else
    let e := multiply_and_add_inplace_front (characteristic M) (get_element ct) val
               (get_element cs) in
    if e =? get_additive_identity then
      let '(newColumn, z) := _multiply_target_and_add_loop M val pivot t s in
      (newColumn, is_chain M && (get_row_index ct =? pivot) || z)
    else
      let '(newColumn, z) := _multiply_target_and_add_loop M val pivot t s in
      (set_element ct e :: newColumn, z).
Proof. reflexivity. Qed.

Lemma _mta_loop_merge M val pivot t : forall s,
  fst (_multiply_target_and_add_loop M val pivot t s)
  = merge (mta_ft M val) mta_fs (mta_fe M val) t s.
Proof.
  induction t as [|ct t IHt]; intros s.
  - rewrite _mta_loop_nil_l, merge_nil_l. reflexivity.
  - induction s as [|cs s IHs].
    + rewrite merge_nil_r. reflexivity.
    + rewrite _mta_loop_cons, merge_cons.
      specialize (IHt (cs :: s)) as IH1. specialize (IHt s) as IH2.
      set (m1 := merge _ _ _ t (cs :: s)) in *. set (m2 := merge _ _ _ t s) in *.
      set (m3 := merge _ _ _ (ct :: t) s) in *.
      unfold mta_fe.
      destruct (get_row_index ct <? get_row_index cs).
      { destruct (_multiply_target_and_add_loop M val pivot t (cs :: s)). simpl in *. congruence. }
      destruct (get_row_index ct >? get_row_index cs).
      { destruct (_multiply_target_and_add_loop M val pivot (ct :: t) s). simpl in *. congruence. }
      cbv zeta. destruct (_ =? get_additive_identity);
        destruct (_multiply_target_and_add_loop M val pivot t s); simpl in *; congruence.
Qed.

Lemma _msa_loop_nil_l M val pivot s :
  _multiply_source_and_add_loop M val pivot [] s = (map (msa_fs M val) s, false).
Proof. destruct s; reflexivity. Qed.
Lemma _msa_loop_nil_r M val pivot c t :
  _multiply_source_and_add_loop M val pivot (c :: t) [] = (c :: t, false).
Proof. reflexivity. Qed.
Lemma _msa_loop_cons M val pivot ct t cs s :
  _multiply_source_and_add_loop M val pivot (ct :: t) (cs :: s) =
  if get_row_index ct <? get_row_index cs then
    let '(newColumn, z) := _multiply_source_and_add_loop M val pivot t (cs :: s) in
    (ct :: newColumn, z)
  else if get_row_index ct >? get_row_index cs then
    let '(newColumn, z) := _multiply_source_and_add_loop M val pivot (ct :: t) s in
    (msa_fs M val cs :: newColumn, z)
  else
    let e := multiply_and_add_inplace_back (characteristic M) (get_element cs) val
               (get_element ct) in
    if e =? get_additive_identity then
      let '(newColumn, z) := _multiply_source_and_add_loop M val pivot t s in
      (newColumn, is_chain M && (get_row_index ct =? pivot) || z)
    else
      let '(newColumn, z) := _multiply_source_and_add_loop M val pivot t s in
      (set_element ct e :: newColumn, z).
Proof. reflexivity. Qed.

Lemma _msa_loop_merge M val pivot t : forall s,
  fst (_multiply_source_and_add_loop M val pivot t s)
  = merge (fun c => c) (msa_fs M val) (msa_fe M val) t s.
Proof.
  induction t as [|ct t IHt]; intros s.
  - rewrite _msa_loop_nil_l, merge_nil_l. reflexivity.
  - induction s as [|cs s IHs].
    + rewrite merge_nil_r, map_id. reflexivity.
    + rewrite _msa_loop_cons, merge_cons.
      specialize (IHt (cs :: s)) as IH1. specialize (IHt s) as IH2.
      set (m1 := merge _ _ _ t (cs :: s)) in *. set (m2 := merge _ _ _ t s) in *.
      set (m3 := merge _ _ _ (ct :: t) s) in *.
      unfold msa_fe.
      destruct (get_row_index ct <? get_row_index cs).
      { destruct (_multiply_source_and_add_loop M val pivot t (cs :: s)). simpl in *. congruence. }
      destruct (get_row_index ct >? get_row_index cs).
      { destruct (_multiply_source_and_add_loop M val pivot (ct :: t) s). simpl in *. congruence. }
      cbv zeta. destruct (_ =? get_additive_identity);
        destruct (_multiply_source_and_add_loop M val pivot t s); simpl in *; congruence.
Qed.

Lemma prime_mul_nonzero p a b :
  Z.prime p -> 0 < a < p -> 0 < b < p -> (a * b) mod p <> 0.
Proof.
  intros Hp Ha Hb H. assert (Hp1 : 1 < p) by (destruct Hp; lia).
  apply Z.mod_divide in H; [|lia].
  apply Z.divide_prime_mul in H; [|assumption].
  destruct H as [H|H]; apply Z.divide_pos_le in H; lia.
Qed.

Section Loop_specs.

Variable M : Master_matrix.
Hypothesis HM : field_options M.
Let p := characteristic M.

Lemma value_of_stored c :
  stored_value M (get_element c) -> 0 < value_of M c < p.
Proof.
  unfold stored_value, value_of, get_additive_identity.
  pose proof (field_options_pos M HM). subst p. destruct (is_z2 M); lia.
Qed.

Lemma stored_value_nonzero e :
  is_z2 M = false -> 0 <= e < p -> e <> 0 -> stored_value M e.
Proof. intros E H1 H2. unfold stored_value. rewrite E. auto. Qed.

Lemma keeps_id : keeps M (fun c => c) (fun a => (a + 0) mod p).
Proof.
  intros c Hc. split; [reflexivity|split; [assumption|]].
  rewrite Z.add_0_r. symmetry. apply value_of_mod; assumption.
Qed.

Lemma keeps_add_fs : keeps M (add_fs M) (fun b => (0 + b) mod p).
Proof.
  intros c Hc. destruct (new_cell_props M c Hc) as (N1 & N2 & N3).
  split; [exact N1|split; [exact N2|]].
  unfold add_fs. rewrite N3. simpl. symmetry. apply value_of_mod; assumption.
Qed.

Lemma add_fe_spec ct cs :
  stored_value M (get_element ct) -> stored_value M (get_element cs) ->
  match add_fe M ct cs with
  | Some c => get_row_index c = get_row_index ct /\
              stored_value M (get_element c) /\
              value_of M c = (value_of M ct + value_of M cs) mod p
  | None => (value_of M ct + value_of M cs) mod p = 0
  end.
Proof.
  intros Ht Hs. unfold add_fe, value_of. destruct (is_z2 M) eqn:E.
  - destruct HM as [_ H2]. subst p. rewrite H2 by assumption. reflexivity.
  - cbv zeta. unfold get_additive_identity, add_inplace. fold p.
    destruct (Z.eqb_spec ((get_element ct + get_element cs) mod p) 0) as [H0|H0].
    + exact H0.
    + simpl. split; [reflexivity|split; [|reflexivity]].
      apply stored_value_nonzero; [assumption| |assumption].
      apply Z.mod_pos_bound. pose proof (field_options_pos M HM). subst p. lia.
Qed.

Lemma _add_loop_spec pivot t s lo :
  sorted_from lo t -> sorted_from lo s -> stored_all M t -> stored_all M s ->
  sorted_from lo (fst (_add_loop M pivot t s)) /\
  stored_all M (fst (_add_loop M pivot t s)) /\
  forall x, coef M (fst (_add_loop M pivot t s)) x = (coef M t x + coef M s x) mod p.
Proof.
  intros. rewrite _add_loop_merge.
  apply (merge_spec M _ _ _ (fun a b => (a + b) mod p)); try assumption.
  - reflexivity.
  - apply keeps_id.
  - apply keeps_add_fs.
  - apply add_fe_spec.
Qed.

Section Scaled.

Variable val : Z.
Hypothesis Hz2 : is_z2 M = false.
Hypothesis Hval : 0 < val < p.

Lemma scaled_nonzero e : stored_value M e -> stored_value M ((e * val) mod p).
Proof.
  intros He. pose proof (field_options_pos M HM).
  unfold stored_value in *. rewrite Hz2 in *. fold p in He.
  unfold get_additive_identity in *.
  split; [apply Z.mod_pos_bound; subst p; lia|].
  apply prime_mul_nonzero; [apply HM|lia|assumption].
Qed.

Lemma value_of_zp c : value_of M c = get_element c.
Proof. unfold value_of. rewrite Hz2. reflexivity. Qed.

Lemma keeps_mta_ft : keeps M (mta_ft M val) (fun a => (a * val + 0) mod p).
Proof.
  intros c Hc. unfold mta_ft. rewrite !value_of_zp. simpl.
  split; [reflexivity|split; [apply scaled_nonzero; assumption|]].
  rewrite Z.add_0_r. reflexivity.
Qed.

Lemma keeps_mta_fs : keeps M mta_fs (fun b => (0 * val + b) mod p).
Proof.
  intros c Hc. unfold mta_fs. rewrite !value_of_zp. simpl.
  split; [reflexivity|split; [assumption|]].
  symmetry. rewrite <- (value_of_zp c). apply value_of_mod; assumption.
Qed.

Lemma mta_fe_spec ct cs :
  stored_value M (get_element ct) -> stored_value M (get_element cs) ->
  match mta_fe M val ct cs with
  | Some c => get_row_index c = get_row_index ct /\
              stored_value M (get_element c) /\
              value_of M c = (value_of M ct * val + value_of M cs) mod p
  | None => (value_of M ct * val + value_of M cs) mod p = 0
  end.
Proof.
  intros Ht Hs. unfold mta_fe. rewrite !value_of_zp. cbv zeta.
  unfold get_additive_identity, multiply_and_add_inplace_front. fold p.
  destruct (Z.eqb_spec ((get_element ct * val + get_element cs) mod p) 0) as [H0|H0].
  - exact H0.
  - rewrite value_of_zp. simpl. split; [reflexivity|split; [|reflexivity]].
    apply stored_value_nonzero; [assumption| |assumption].
    apply Z.mod_pos_bound. pose proof (field_options_pos M HM). subst p. lia.
Qed.

Lemma _multiply_target_and_add_loop_spec pivot t s lo :
  sorted_from lo t -> sorted_from lo s -> stored_all M t -> stored_all M s ->
  sorted_from lo (fst (_multiply_target_and_add_loop M val pivot t s)) /\
  stored_all M (fst (_multiply_target_and_add_loop M val pivot t s)) /\
  forall x, coef M (fst (_multiply_target_and_add_loop M val pivot t s)) x
            = (coef M t x * val + coef M s x) mod p.
Proof.
  intros. rewrite _mta_loop_merge.
  apply (merge_spec M _ _ _ (fun a b => (a * val + b) mod p)); try assumption.
  - reflexivity.
  - apply keeps_mta_ft.
  - apply keeps_mta_fs.
  - apply mta_fe_spec.
Qed.

Lemma keeps_id_msa : keeps M (fun c => c) (fun a => (0 * val + a) mod p).
Proof.
  intros c Hc. split; [reflexivity|split; [assumption|]].
  simpl. symmetry. apply value_of_mod; assumption.
Qed.

Lemma keeps_msa_fs : keeps M (msa_fs M val) (fun b => (b * val + 0) mod p).
Proof.
  intros c Hc. unfold msa_fs. rewrite !value_of_zp. simpl.
  split; [reflexivity|split; [apply scaled_nonzero; assumption|]].
  rewrite Z.add_0_r. reflexivity.
Qed.

Lemma msa_fe_spec ct cs :
  stored_value M (get_element ct) -> stored_value M (get_element cs) ->
  match msa_fe M val ct cs with
  | Some c => get_row_index c = get_row_index ct /\
              stored_value M (get_element c) /\
              value_of M c = (value_of M cs * val + value_of M ct) mod p
  | None => (value_of M cs * val + value_of M ct) mod p = 0
  end.
Proof.
  intros Ht Hs. unfold msa_fe. rewrite !value_of_zp. cbv zeta.
  unfold get_additive_identity, multiply_and_add_inplace_back. fold p.
  destruct (Z.eqb_spec ((get_element cs * val + get_element ct) mod p) 0) as [H0|H0].
  - exact H0.
  - rewrite value_of_zp. simpl. split; [reflexivity|split; [|reflexivity]].
    apply stored_value_nonzero; [assumption| |assumption].
    apply Z.mod_pos_bound. pose proof (field_options_pos M HM). subst p. lia.
Qed.

Lemma _multiply_source_and_add_loop_spec pivot t s lo :
  sorted_from lo t -> sorted_from lo s -> stored_all M t -> stored_all M s ->
  sorted_from lo (fst (_multiply_source_and_add_loop M val pivot t s)) /\
  stored_all M (fst (_multiply_source_and_add_loop M val pivot t s)) /\
  forall x, coef M (fst (_multiply_source_and_add_loop M val pivot t s)) x
            = (coef M s x * val + coef M t x) mod p.
Proof.
  intros. rewrite _msa_loop_merge.
  apply (merge_spec M _ _ _ (fun a b => (b * val + a) mod p)); try assumption.
  - reflexivity.
  - apply keeps_id_msa.
  - apply keeps_msa_fs.
  - apply msa_fe_spec.
Qed.

End Scaled.

End Loop_specs.

(** ** The dense expansion *)

Lemma has_row_above lo l x : sorted_from lo l -> x <= lo -> has_row l x = false.
Proof.
  revert lo. induction l as [|c l IH]; intros lo Hs Hx; simpl; [reflexivity|].
  destruct Hs as [H1 H2]. destruct (Z.eqb_spec (get_row_index c) x); [lia|].
  simpl. eapply IH; [exact H2|lia].
Qed.

Lemma coef_no_row M l x : has_row l x = false -> coef M l x = 0.
Proof.
  induction l as [|c l IH]; simpl; [reflexivity|].
  destruct (get_row_index c =? x); simpl; [discriminate|exact IH].
Qed.

Lemma get_content_loop_length M n l : forall cont,
  length (get_content_loop M n l cont) = length cont.
Proof.
  induction l as [|c l IH]; intros cont; simpl; [reflexivity|].
  destruct (get_row_index c <? n); [|reflexivity].
  rewrite IH. apply length_insert.
Qed.

Lemma get_content_loop_lookup M n l : forall lo cont (i : nat),
  sorted_from lo l -> -1 <= lo -> Z.of_nat i < n -> (i < length cont)%nat ->
  get_content_loop M n l cont !! i
  = if has_row l (Z.of_nat i) then Some (coef M l (Z.of_nat i)) else cont !! i.
Proof.
  induction l as [|c l IH]; intros lo cont i Hs Hlo Hi Hlen; simpl; [reflexivity|].
  destruct Hs as [H1 H2].
  destruct (Z.ltb_spec (get_row_index c) n) as [Hlt|Hge].
  - rewrite (IH (get_row_index c)); [|assumption|lia|assumption|rewrite length_insert; assumption].
    destruct (Z.eqb_spec (get_row_index c) (Z.of_nat i)) as [Heq|Hne]; simpl.
    + rewrite (has_row_above (get_row_index c) l); [|assumption|lia].
      replace (Z.to_nat (get_row_index c)) with i by lia.
      rewrite list_lookup_insert_eq by assumption. reflexivity.
    + destruct (has_row l (Z.of_nat i)); [reflexivity|].
      apply list_lookup_insert_ne. lia.
  - destruct (Z.eqb_spec (get_row_index c) (Z.of_nat i)) as [Heq|Hne]; [lia|]. simpl.
    rewrite (has_row_above (get_row_index c) l); [reflexivity|assumption|lia].
Qed.

Lemma get_content_lookup M c n (i : nat) :
  sorted_from (-1) (column_ c) -> 0 <= n -> Z.of_nat i < n ->
  get_content M c n !! i = Some (coef M (column_ c) (Z.of_nat i)).
Proof.
  intros Hs Hn Hi. unfold get_content.
  destruct (Z.ltb_spec n 0) as [|_]; [lia|].
  rewrite (get_content_loop_lookup M n _ (-1)); try assumption; try lia.
  - destruct (has_row (column_ c) (Z.of_nat i)) eqn:E; [reflexivity|].
    rewrite coef_no_row by assumption. apply lookup_replicate_2. lia.
  - rewrite length_replicate. lia.
Qed.

Lemma get_content_length M c n :
  0 <= n -> length (get_content M c n) = Z.to_nat n.
Proof.
  intros Hn. unfold get_content. destruct (Z.ltb_spec n 0) as [|_]; [lia|].
  rewrite get_content_loop_length. apply length_replicate.
Qed.

(** Two columns whose values agree row by row have the same expansion, and
    the expansion of a pointwise combination is the zip of the expansions. *)
Lemma get_content_zip M a b r n (f : Z -> Z -> Z) :
  sorted_from (-1) (column_ a) -> sorted_from (-1) (column_ b) ->
  sorted_from (-1) (column_ r) -> 0 <= n ->
  (forall x, coef M (column_ r) x = f (coef M (column_ a) x) (coef M (column_ b) x)) ->
  get_content M r n = zip_with f (get_content M a n) (get_content M b n).
Proof.
  intros Ha Hb Hr Hn Hf. apply list_eq. intros i.
  destruct (decide (Z.of_nat i < n)) as [Hi|Hi].
  - rewrite lookup_zip_with, !get_content_lookup by assumption. simpl. rewrite Hf. reflexivity.
  - rewrite !lookup_ge_None_2; [reflexivity| |].
    + rewrite length_zip_with, !get_content_length by assumption. lia.
    + rewrite get_content_length by assumption. lia.
Qed.

(** ** The column operations *)

Lemma coef_nil M x : coef M [] x = 0.
Proof. reflexivity. Qed.

Global Arguments coef : simpl never.

Ltac run_throws :=
  unfold bind, ret, get, put, modify, on_this, throw; simpl.

Lemma well_formed_iff M l :
  well_formed M l <-> sorted_from (-1) l /\ stored_all M l.
Proof.
  split.
  - intros H. split; [eapply well_formed_sorted_from; exact H|].
    destruct H as [_ H]. unfold stored_all. eapply Forall_impl; [exact H|].
    simpl. intros c [_ Hc]. exact Hc.
  - intros [Hs Hv]. eapply sorted_from_well_formed; [|exact Hs|exact Hv]. lia.
Qed.

Lemma well_formed_nil M : well_formed M [].
Proof. apply well_formed_iff. split; [exact I|constructor]. Qed.

Lemma with_column_id c : with_column c (column_ c) = c.
Proof. destruct c; reflexivity. Qed.

Section Operations.

Variable M : Master_matrix.
Hypothesis HM : field_options M.
Let p := characteristic M.

Lemma copy_cells_ok column :
  well_formed M column ->
  well_formed M (copy_cells M column) /\
  forall x, coef M (copy_cells M column) x = coef M column x.
Proof.
  intros Hc. apply well_formed_iff in Hc as [Hs Hv]. rewrite copy_cells_map.
  destruct (map_keeps M (add_fs M) (fun b => (0 + b) mod p) (-1) column) as (A & B & C);
    try assumption; [apply keeps_add_fs; assumption|reflexivity|].
  split; [apply well_formed_iff; split; assumption|].
  intros x. rewrite C. simpl. apply coef_mod; assumption.
Qed.

Lemma _add_ok column c :
  well_formed M (column_ c) -> well_formed M column ->
  exists l z, _add M column c = (with_column c l, inr z) /\ well_formed M l /\
    forall x, coef M l x = (coef M (column_ c) x + coef M column x) mod p.
Proof.
  intros Hc Hs. unfold _add. pose proof Hc as Hc'. pose proof Hs as Hs'.
  apply well_formed_iff in Hc' as [Hc1 Hc2]. apply well_formed_iff in Hs' as [Hs1 Hs2].
  destruct column as [|cs s].
  { exists (column_ c), false. rewrite with_column_id. split; [reflexivity|split; [assumption|]].
    intros x. rewrite coef_nil, Z.add_0_r. symmetry. apply coef_mod; assumption. }
  destruct (column_ c) as [|ct t] eqn:E.
  { destruct (copy_cells_ok (cs :: s) Hs) as (A & B).
    exists (copy_cells M (cs :: s)), true. split; [reflexivity|split; [assumption|]].
    intros x. rewrite B, coef_nil, Z.add_0_l. symmetry.
    apply coef_mod; assumption. }
  destruct (_add_loop_spec M HM (pivot_ c) (ct :: t) (cs :: s) (-1)) as (A & B & C);
    try assumption.
  destruct (_add_loop M (pivot_ c) (ct :: t) (cs :: s)) as [l z]. simpl fst in *.
  exists l, z. split; [reflexivity|split; [apply well_formed_iff; split; assumption|exact C]].
Qed.

Lemma _multiply_source_and_add_ok column val c :
  is_z2 M = false -> 0 <= val < p ->
  well_formed M (column_ c) -> well_formed M column ->
  exists l z, _multiply_source_and_add M column val c = (with_column c l, inr z) /\
    well_formed M l /\
    forall x, coef M l x = (coef M (column_ c) x + val * coef M column x) mod p.
Proof.
  intros Hz2 Hval Hc Hs. unfold _multiply_source_and_add.
  pose proof Hc as Hc'. pose proof Hs as Hs'.
  apply well_formed_iff in Hc' as [Hc1 Hc2]. apply well_formed_iff in Hs' as [Hs1 Hs2].
  destruct (Z.eqb_spec val 0) as [->|Hne]; simpl.
  { exists (column_ c), false. rewrite with_column_id. split; [reflexivity|split; [assumption|]].
    intros x. rewrite Z.mul_0_l, Z.add_0_r. symmetry. apply coef_mod; assumption. }
  destruct column as [|cs s].
  { exists (column_ c), false. rewrite with_column_id. split; [reflexivity|split; [assumption|]].
    intros x. rewrite coef_nil, Z.mul_0_r, Z.add_0_r. symmetry. apply coef_mod; assumption. }
  destruct (_multiply_source_and_add_loop_spec M HM val Hz2 ltac:(fold p; lia)
              (pivot_ c) (column_ c) (cs :: s) (-1)) as (A & B & C); try assumption.
  destruct (_multiply_source_and_add_loop M val (pivot_ c) (column_ c) (cs :: s)) as [l z].
  simpl fst in *.
  exists l, z. split; [reflexivity|split; [apply well_formed_iff; split; assumption|]].
  intros x. rewrite C. f_equal. fold p. lia.
Qed.

Lemma _multiply_target_and_add_ok column val c :
  is_z2 M = false -> 0 <= val < p -> (is_chain M = false \/ val <> 0) ->
  well_formed M (column_ c) -> well_formed M column ->
  exists l z, _multiply_target_and_add M val column c = (with_column c l, inr z) /\
    well_formed M l /\
    forall x, coef M l x = (val * coef M (column_ c) x + coef M column x) mod p.
Proof.
  intros Hz2 Hval Hch Hc Hs. unfold _multiply_target_and_add.
  pose proof Hc as Hc'. pose proof Hs as Hs'.
  apply well_formed_iff in Hc' as [Hc1 Hc2]. apply well_formed_iff in Hs' as [Hs1 Hs2].
  destruct (copy_cells_ok column Hs) as (K1 & K2).
  destruct (Z.eqb_spec val 0) as [->|Hne].
  { destruct Hch as [Hch|]; [|contradiction]. rewrite Hch. run_throws.
    exists (copy_cells M column), true. split; [reflexivity|split; [assumption|]].
    intros x. rewrite K2, Z.mul_0_l, Z.add_0_l. symmetry. apply coef_mod; assumption. }
  run_throws. destruct (column_ c) as [|ct t] eqn:E.
  { exists (copy_cells M column), true. split; [reflexivity|split; [assumption|]].
    intros x. rewrite K2, coef_nil, Z.mul_0_r, Z.add_0_l. symmetry.
    apply coef_mod; assumption. }
  destruct (_multiply_target_and_add_loop_spec M HM val Hz2 ltac:(fold p; lia)
              (pivot_ c) (ct :: t) column (-1)) as (A & B & C); try assumption.
  destruct (_multiply_target_and_add_loop M val (pivot_ c) (ct :: t) column) as [l z].
  simpl fst in *. run_throws.
  exists l, z. split; [reflexivity|split; [apply well_formed_iff; split; assumption|]].
  intros x. rewrite C. f_equal. fold p. lia.
Qed.

End Operations.

End Column_facts.

(** ** Chain columns: the flag of the merge loops *)

Module Pivot_flag_facts.

Import Field_operators Naive_vector_column Column_spec Column_facts Pivot_exchange.

Section WithOptions.

Variable M : Master_matrix.
Hypothesis HM : field_options M.

Lemma has_row_map f l x :
  (forall c, get_row_index (f c) = get_row_index c) -> has_row (map f l) x = has_row l x.
Proof.
  intros Hf. induction l as [|c l IH]; simpl; [reflexivity|]. rewrite Hf, IH. reflexivity.
Qed.

Lemma has_row_cons c l x :
  has_row (c :: l) x = (get_row_index c =? x) || has_row l x.
Proof. reflexivity. Qed.

(** What the four branches of a merge loop leave to prove about the
    flag. *)
Lemma flag_keep (chain : bool) r pivot (t nc : list Cell) lo z :
  sorted_from lo t -> r <= lo ->
  z = chain && has_row t pivot && negb (has_row nc pivot) ->
  z = chain && ((r =? pivot) || has_row t pivot) && negb ((r =? pivot) || has_row nc pivot).
Proof.
  intros Ht Hr ->. destruct (Z.eqb_spec r pivot) as [<-|_]; [|reflexivity].
  rewrite (has_row_above lo t r Ht Hr). simpl. rewrite !andb_false_r. reflexivity.
Qed.

Lemma flag_source (chain : bool) r pivot (t nc : list Cell) lo z :
  sorted_from lo t -> r <= lo ->
  z = chain && has_row t pivot && negb (has_row nc pivot) ->
  z = chain && has_row t pivot && negb ((r =? pivot) || has_row nc pivot).
Proof.
  intros Ht Hr ->. destruct (Z.eqb_spec r pivot) as [<-|_]; [|reflexivity].
  rewrite (has_row_above lo t r Ht Hr). simpl. rewrite !andb_false_r. reflexivity.
Qed.

Lemma flag_zeroed (chain : bool) r pivot (t nc : list Cell) lo z :
  sorted_from lo t -> sorted_from lo nc -> r <= lo ->
  z = chain && has_row t pivot && negb (has_row nc pivot) ->
  chain && (r =? pivot) || z
  = chain && ((r =? pivot) || has_row t pivot) && negb (has_row nc pivot).
Proof.
  intros Ht Hn Hr ->. destruct (Z.eqb_spec r pivot) as [<-|_].
  - rewrite (has_row_above lo t r Ht Hr), (has_row_above lo nc r Hn Hr).
    destruct chain; reflexivity.
  - rewrite andb_false_r. reflexivity.
Qed.

Lemma _add_loop_row_flag pivot t : forall s lo,
  sorted_from lo t -> sorted_from lo s -> stored_all M t -> stored_all M s ->
  snd (_add_loop M pivot t s)
  = is_chain M && has_row t pivot && negb (has_row (fst (_add_loop M pivot t s)) pivot).
Proof.
  induction t as [|ct t IHt]; intros s.
  - intros lo Ht Hs Vt Vs. rewrite _add_loop_nil_l. simpl. rewrite andb_false_r. reflexivity.
  - induction s as [|cs s IHs]; intros lo Ht Hs Vt Vs.
    + rewrite _add_loop_nil_r. cbn [fst snd]. 
      destruct (has_row (ct :: t) pivot); rewrite ?andb_false_r; reflexivity.
    + pose proof Ht as [Ht1 Ht2]. pose proof Hs as [Hs1 Hs2].
      inversion Vt as [|? ? Vct Vt']; subst. inversion Vs as [|? ? Vcs Vs']; subst.
      rewrite _add_loop_cons.
      destruct (Z.ltb_spec (get_row_index ct) (get_row_index cs)) as [Hlt|Hge].
      * specialize (IHt (cs :: s) (get_row_index ct) Ht2 (conj Hlt Hs2) Vt' Vs).
        destruct (_add_loop M pivot t (cs :: s)) as [nc z]. cbn [fst snd] in *.
        rewrite !has_row_cons. eapply flag_keep; [exact Ht2|cbn; lia|exact IHt].
      * destruct (Z.gtb_spec (get_row_index ct) (get_row_index cs)) as [Hgt|Hle].
        -- specialize (IHs (get_row_index cs) (conj Hgt Ht2) Hs2 Vt Vs').
           destruct (_add_loop M pivot (ct :: t) s) as [nc z]. cbn [fst snd] in *.
           rewrite (has_row_cons (if is_z2 M then _insert_cell_z2 (get_row_index cs)
                      else _insert_cell (get_element cs) (get_row_index cs))).
           replace (get_row_index (if is_z2 M then _insert_cell_z2 (get_row_index cs)
                      else _insert_cell (get_element cs) (get_row_index cs))) with (get_row_index cs)
             by (destruct (is_z2 M); reflexivity).
           eapply (flag_source _ _ _ (ct :: t));
             [exact (conj Hgt Ht2)|lia|exact IHs].
        -- assert (Heq : get_row_index ct = get_row_index cs) by lia.
           assert (Hs2' : sorted_from (get_row_index ct) s) by (rewrite Heq; assumption).
           specialize (IHt s (get_row_index ct) Ht2 Hs2' Vt' Vs').
           destruct (_add_loop_spec M HM pivot t s (get_row_index ct) Ht2 Hs2' Vt' Vs')
             as (Hn & _ & _).
           destruct (_add_loop M pivot t s) as [nc z]. cbn [fst snd] in *.
           assert (Hzeroed : is_chain M && (get_row_index ct =? pivot) || z
                   = is_chain M && has_row (ct :: t) pivot && negb (has_row nc pivot)).
           { rewrite has_row_cons.
             eapply flag_zeroed; [exact Ht2|exact Hn|lia|exact IHt]. }
           assert (Hkept : forall e,
                     z = is_chain M && has_row (ct :: t) pivot
                         && negb (has_row (set_element ct e :: nc) pivot)).
           { intros e. rewrite !has_row_cons. eapply flag_keep; [exact Ht2|cbn; lia|exact IHt]. }
           destruct (is_z2 M); [exact Hzeroed|].
           cbv zeta. destruct (_ =? get_additive_identity); [exact Hzeroed|apply Hkept].
Qed.

Lemma _mta_loop_row_flag val pivot t : forall s lo,
  is_z2 M = false -> 0 < val < characteristic M ->
  sorted_from lo t -> sorted_from lo s -> stored_all M t -> stored_all M s ->
  snd (_multiply_target_and_add_loop M val pivot t s)
  = is_chain M && has_row t pivot && negb (has_row (fst (_multiply_target_and_add_loop M val pivot t s)) pivot).
Proof.
  induction t as [|ct t IHt]; intros s.
  - intros lo Hz2 Hval Ht Hs Vt Vs. rewrite _mta_loop_nil_l. simpl. rewrite andb_false_r. reflexivity.
  - induction s as [|cs s IHs]; intros lo Hz2 Hval Ht Hs Vt Vs.
    + rewrite _mta_loop_nil_r. cbn [fst snd]. rewrite has_row_map by reflexivity.
      destruct (has_row (ct :: t) pivot); rewrite ?andb_false_r; reflexivity.
    + pose proof Ht as [Ht1 Ht2]. pose proof Hs as [Hs1 Hs2].
      inversion Vt as [|? ? Vct Vt']; subst. inversion Vs as [|? ? Vcs Vs']; subst.
      rewrite _mta_loop_cons.
      destruct (Z.ltb_spec (get_row_index ct) (get_row_index cs)) as [Hlt|Hge].
      * specialize (IHt (cs :: s) (get_row_index ct) Hz2 Hval Ht2 (conj Hlt Hs2) Vt' Vs).
        destruct (_multiply_target_and_add_loop M val pivot t (cs :: s)) as [nc z]. cbn [fst snd] in *.
        rewrite !has_row_cons. eapply flag_keep; [exact Ht2|cbn; lia|exact IHt].
      * destruct (Z.gtb_spec (get_row_index ct) (get_row_index cs)) as [Hgt|Hle].
        -- specialize (IHs (get_row_index cs) Hz2 Hval (conj Hgt Ht2) Hs2 Vt Vs').
           destruct (_multiply_target_and_add_loop M val pivot (ct :: t) s) as [nc z]. cbn [fst snd] in *.
           rewrite (has_row_cons (mta_fs cs)).
           replace (get_row_index (mta_fs cs)) with (get_row_index cs)
             by (reflexivity).
           eapply (flag_source _ _ _ (ct :: t));
             [exact (conj Hgt Ht2)|lia|exact IHs].
        -- assert (Heq : get_row_index ct = get_row_index cs) by lia.
           assert (Hs2' : sorted_from (get_row_index ct) s) by (rewrite Heq; assumption).
           specialize (IHt s (get_row_index ct) Hz2 Hval Ht2 Hs2' Vt' Vs').
           destruct (_multiply_target_and_add_loop_spec M HM val Hz2 Hval pivot t s (get_row_index ct) Ht2 Hs2' Vt' Vs')
             as (Hn & _ & _).
           destruct (_multiply_target_and_add_loop M val pivot t s) as [nc z]. cbn [fst snd] in *.
           assert (Hzeroed : is_chain M && (get_row_index ct =? pivot) || z
                   = is_chain M && has_row (ct :: t) pivot && negb (has_row nc pivot)).
           { rewrite has_row_cons.
             eapply flag_zeroed; [exact Ht2|exact Hn|lia|exact IHt]. }
           assert (Hkept : forall e,
                     z = is_chain M && has_row (ct :: t) pivot
                         && negb (has_row (set_element ct e :: nc) pivot)).
           { intros e. rewrite !has_row_cons. eapply flag_keep; [exact Ht2|cbn; lia|exact IHt]. }
           
           cbv zeta. destruct (_ =? get_additive_identity); [exact Hzeroed|apply Hkept].
Qed.

Lemma _msa_loop_row_flag val pivot t : forall s lo,
  is_z2 M = false -> 0 < val < characteristic M ->
  sorted_from lo t -> sorted_from lo s -> stored_all M t -> stored_all M s ->
  snd (_multiply_source_and_add_loop M val pivot t s)
  = is_chain M && has_row t pivot && negb (has_row (fst (_multiply_source_and_add_loop M val pivot t s)) pivot).
Proof.
  induction t as [|ct t IHt]; intros s.
  - intros lo Hz2 Hval Ht Hs Vt Vs. rewrite _msa_loop_nil_l. simpl. rewrite andb_false_r. reflexivity.
  - induction s as [|cs s IHs]; intros lo Hz2 Hval Ht Hs Vt Vs.
    + rewrite _msa_loop_nil_r. cbn [fst snd]. 
      destruct (has_row (ct :: t) pivot); rewrite ?andb_false_r; reflexivity.
    + pose proof Ht as [Ht1 Ht2]. pose proof Hs as [Hs1 Hs2].
      inversion Vt as [|? ? Vct Vt']; subst. inversion Vs as [|? ? Vcs Vs']; subst.
      rewrite _msa_loop_cons.
      destruct (Z.ltb_spec (get_row_index ct) (get_row_index cs)) as [Hlt|Hge].
      * specialize (IHt (cs :: s) (get_row_index ct) Hz2 Hval Ht2 (conj Hlt Hs2) Vt' Vs).
        destruct (_multiply_source_and_add_loop M val pivot t (cs :: s)) as [nc z]. cbn [fst snd] in *.
        rewrite !has_row_cons. eapply flag_keep; [exact Ht2|cbn; lia|exact IHt].
      * destruct (Z.gtb_spec (get_row_index ct) (get_row_index cs)) as [Hgt|Hle].
        -- specialize (IHs (get_row_index cs) Hz2 Hval (conj Hgt Ht2) Hs2 Vt Vs').
           destruct (_multiply_source_and_add_loop M val pivot (ct :: t) s) as [nc z]. cbn [fst snd] in *.
           rewrite (has_row_cons (msa_fs M val cs)).
           replace (get_row_index (msa_fs M val cs)) with (get_row_index cs)
             by (reflexivity).
           eapply (flag_source _ _ _ (ct :: t));
             [exact (conj Hgt Ht2)|lia|exact IHs].
        -- assert (Heq : get_row_index ct = get_row_index cs) by lia.
           assert (Hs2' : sorted_from (get_row_index ct) s) by (rewrite Heq; assumption).
           specialize (IHt s (get_row_index ct) Hz2 Hval Ht2 Hs2' Vt' Vs').
           destruct (_multiply_source_and_add_loop_spec M HM val Hz2 Hval pivot t s (get_row_index ct) Ht2 Hs2' Vt' Vs')
             as (Hn & _ & _).
           destruct (_multiply_source_and_add_loop M val pivot t s) as [nc z]. cbn [fst snd] in *.
           assert (Hzeroed : is_chain M && (get_row_index ct =? pivot) || z
                   = is_chain M && has_row (ct :: t) pivot && negb (has_row nc pivot)).
           { rewrite has_row_cons.
             eapply flag_zeroed; [exact Ht2|exact Hn|lia|exact IHt]. }
           assert (Hkept : forall e,
                     z = is_chain M && has_row (ct :: t) pivot
                         && negb (has_row (set_element ct e :: nc) pivot)).
           { intros e. rewrite !has_row_cons. eapply flag_keep; [exact Ht2|cbn; lia|exact IHt]. }
           
           cbv zeta. destruct (_ =? get_additive_identity); [exact Hzeroed|apply Hkept].
Qed.

Lemma _add_flag column c c' z :
  well_formed M (column_ c) -> well_formed M column ->
  _add M column c = (c', inr z) ->
  pivot_ c' = pivot_ c /\ dim_ c' = dim_ c /\
  z = match column with
      | [] => false
      | _ :: _ => match column_ c with
                  | [] => true
                  | _ :: _ => is_chain M && pivot_row_zeroed c c'
                  end
      end.
Proof.
  intros Hc Hs. unfold _add.
  apply well_formed_iff in Hc as [Hc1 Hc2]. apply well_formed_iff in Hs as [Hs1 Hs2].
  destruct column as [|cs s]; [intros [= <- <-]; auto|].
  destruct (column_ c) as [|ct t] eqn:E; [intros [= <- <-]; auto|].
  pose proof (_add_loop_row_flag (pivot_ c) (ct :: t) (cs :: s) (-1) Hc1 Hs1 Hc2 Hs2) as F.
  destruct (_add_loop M (pivot_ c) (ct :: t) (cs :: s)) as [nc f]. cbn [fst snd] in F.
  intros [= <- <-]. split; [reflexivity|]. split; [reflexivity|].
  unfold pivot_row_zeroed, is_non_zero. cbn [column_ with_column pivot_]. rewrite E, F.
  rewrite andb_assoc. reflexivity.
Qed.

Lemma _multiply_target_and_add_flag column val c c' z :
  is_z2 M = false -> 0 < val < characteristic M ->
  well_formed M (column_ c) -> well_formed M column ->
  _multiply_target_and_add M val column c = (c', inr z) ->
  pivot_ c' = pivot_ c /\ dim_ c' = dim_ c /\
  z = match column_ c with
      | [] => true
      | _ :: _ => is_chain M && pivot_row_zeroed c c'
      end.
Proof.
  intros Hz2 Hval Hc Hs. unfold _multiply_target_and_add.
  apply well_formed_iff in Hc as [Hc1 Hc2]. apply well_formed_iff in Hs as [Hs1 Hs2].
  destruct (Z.eqb_spec val 0) as [|_]; [lia|]. run_throws.
  destruct (column_ c) as [|ct t] eqn:E; [intros [= <- <-]; auto|].
  pose proof (_mta_loop_row_flag val (pivot_ c) (ct :: t) column (-1) Hz2 Hval Hc1 Hs1 Hc2 Hs2)
    as F.
  destruct (_multiply_target_and_add_loop M val (pivot_ c) (ct :: t) column) as [nc f].
  cbn [fst snd] in F. run_throws.
  intros [= <- <-]. split; [reflexivity|]. split; [reflexivity|].
  unfold pivot_row_zeroed, is_non_zero. cbn [column_ with_column pivot_]. rewrite E, F.
  rewrite andb_assoc. reflexivity.
Qed.

Lemma _multiply_source_and_add_flag column val c c' z :
  is_z2 M = false -> 0 <= val < characteristic M ->
  well_formed M (column_ c) -> well_formed M column ->
  _multiply_source_and_add M column val c = (c', inr z) ->
  pivot_ c' = pivot_ c /\ dim_ c' = dim_ c /\
  z = negb (val =? 0) && is_chain M && pivot_row_zeroed c c'.
Proof.
  intros Hz2 Hval Hc Hs. unfold _multiply_source_and_add.
  pose proof Hc as Hc'.
  apply well_formed_iff in Hc as [Hc1 Hc2]. apply well_formed_iff in Hs as [Hs1 Hs2].
  assert (Hsame : pivot_row_zeroed c c = false).
  { unfold pivot_row_zeroed. destruct (is_non_zero c (pivot_ c)); reflexivity. }
  destruct (Z.eqb_spec val 0) as [->|Hne]; [intros [= <- <-]; auto|].
  destruct column as [|cs s].
  { simpl. intros [= <- <-]. rewrite Hsame, andb_false_r. auto. }
  simpl orb. cbv iota.
  assert (Hv : 0 < val < characteristic M) by lia.
  pose proof (_msa_loop_row_flag val (pivot_ c) (column_ c) (cs :: s) (-1) Hz2 Hv Hc1 Hs1 Hc2 Hs2)
    as F.
  destruct (_multiply_source_and_add_loop M val (pivot_ c) (column_ c) (cs :: s)) as [nc f].
  cbn [fst snd] in F.
  intros [= <- <-]. split; [reflexivity|]. split; [reflexivity|].
  unfold pivot_row_zeroed, is_non_zero. cbn [column_ with_column pivot_]. rewrite F.
  rewrite andb_assoc. reflexivity.
Qed.

(** [multiply_target_and_add] on chain columns: what becomes of the stored
    pivots and of the dimensions. *)
Lemma multiply_target_and_add_pivots val a b a' b' :
  0 <= val < characteristic M -> is_chain M = true ->
  well_formed M (column_ a) -> well_formed M (column_ b) ->
  multiply_target_and_add M val (a, b) = ((a', b'), inr tt) ->
  if multiply_target_and_add_exchanges M a b a'
  then pivot_ a' = pivot_ b /\ dim_ a' = dim_ b /\
       pivot_ b' = pivot_ a /\ dim_ b' = dim_ a
  else pivot_ a' = pivot_ a /\ dim_ a' = dim_ a /\ b' = b.
Proof.
  intros Hval Hch Ha Hb. unfold multiply_target_and_add. rewrite Hch. run_throws.
  unfold multiply_target_and_add_exchanges.
  destruct (is_z2 M) eqn:Hz2.
  - destruct (Z.eqb_spec val 0) as [|Hne]; [run_throws; discriminate|]. run_throws.
    destruct (_add M (column_ b) a) as [c' [e|z]] eqn:E; [discriminate|].
    destruct (_add_flag _ _ _ _ Ha Hb E) as (P & D & Z). subst z.
    unfold is_empty.
    destruct (column_ b) as [|cs s] eqn:Eb; [|destruct (column_ a) as [|ct t] eqn:Ea];
      run_throws.
    + intros [= <- <-].
      assert (c' = a) as -> by (unfold _add in E; inversion E; reflexivity).
      assert (Hsame : pivot_row_zeroed a a = false).
      { unfold pivot_row_zeroed. destruct (is_non_zero a (pivot_ a)); reflexivity. }
      rewrite Hsame. destruct (column_ a); auto.
    + intros [= <- <-]. simpl. auto.
    + rewrite Hch. cbn [andb].
      destruct (pivot_row_zeroed a c') eqn:Ez; run_throws; intros [= <- <-];
        unfold pivot_row_zeroed, is_non_zero in *; cbn [column_ pivot_ dim_] in *;
        rewrite Ez; auto.
  - cbn [fst snd]. destruct (Z.eqb_spec val 0) as [->|Hne].
    { unfold _multiply_target_and_add. rewrite Hch. run_throws. discriminate. }
    destruct (_multiply_target_and_add M val (column_ b) a) as [c' [e|z]] eqn:E;
      [discriminate|].
    assert (Hv : 0 < val < characteristic M) by lia.
    destruct (_multiply_target_and_add_flag _ _ _ _ _ Hz2 Hv Ha Hb E) as (P & D & Z).
    subst z. destruct (column_ a) as [|ct t] eqn:Ea; run_throws.
    + intros [= <- <-]. simpl. auto.
    + rewrite Hch. cbn [andb].
      destruct (pivot_row_zeroed a c') eqn:Ez; run_throws; intros [= <- <-];
        unfold pivot_row_zeroed, is_non_zero in *; cbn [column_ pivot_ dim_] in *;
        rewrite Ez; auto.
Qed.

(** [multiply_source_and_add] on chain columns: what becomes of the stored
    pivots and of the dimensions. *)
Lemma multiply_source_and_add_pivots val a b a' b' :
  0 <= val < characteristic M -> is_chain M = true ->
  well_formed M (column_ a) -> well_formed M (column_ b) ->
  multiply_source_and_add M val (a, b) = ((a', b'), inr tt) ->
  if multiply_source_and_add_exchanges M val a b a'
  then pivot_ a' = pivot_ b /\ dim_ a' = dim_ b /\
       pivot_ b' = pivot_ a /\ dim_ b' = dim_ a
  else pivot_ a' = pivot_ a /\ dim_ a' = dim_ a /\ b' = b.
Proof.
  intros Hval Hch Ha Hb. unfold multiply_source_and_add. rewrite Hch. run_throws.
  unfold multiply_source_and_add_exchanges.
  assert (Hsame : pivot_row_zeroed a a = false).
  { unfold pivot_row_zeroed. destruct (is_non_zero a (pivot_ a)); reflexivity. }
  destruct (is_z2 M) eqn:Hz2.
  - destruct (Z.eqb_spec val 0) as [|Hne]; [run_throws; intros [= <- <-]; auto|].
    run_throws.
    destruct (_add M (column_ b) a) as [c' [e|z]] eqn:E; [discriminate|].
    destruct (_add_flag _ _ _ _ Ha Hb E) as (P & D & Z). subst z.
    unfold is_empty.
    destruct (column_ b) as [|cs s] eqn:Eb; [|destruct (column_ a) as [|ct t] eqn:Ea];
      run_throws.
    + intros [= <- <-].
      assert (c' = a) as -> by (unfold _add in E; inversion E; reflexivity).
      rewrite Hsame. destruct (column_ a); auto.
    + intros [= <- <-]. simpl. auto.
    + rewrite Hch. cbn [andb].
      destruct (pivot_row_zeroed a c') eqn:Ez; run_throws; intros [= <- <-];
        unfold pivot_row_zeroed, is_non_zero in *; cbn [column_ pivot_ dim_] in *;
        rewrite Ez; auto.
  - cbn [fst snd].
    destruct (_multiply_source_and_add M (column_ b) val a) as [c' [e|z]] eqn:E;
      [discriminate|].
    destruct (_multiply_source_and_add_flag _ _ _ _ _ Hz2 Hval Ha Hb E) as (P & D & Z).
    subst z. rewrite Hch, andb_true_r.
    assert (Hempty : column_ a = [] -> pivot_row_zeroed a c' = false).
    { intros Ea. unfold pivot_row_zeroed, is_non_zero. rewrite Ea. reflexivity. }
    replace (match column_ a with
             | [] => false && negb (is_empty b)
             | _ :: _ => pivot_row_zeroed a a'
             end) with (pivot_row_zeroed a a')
      by (destruct (column_ a) eqn:Ea; [|reflexivity];
          unfold pivot_row_zeroed, is_non_zero; rewrite Ea; reflexivity).
    destruct (negb (val =? 0)); cbn [andb]; [|intros [= <- <-]; auto].
    destruct (pivot_row_zeroed a c') eqn:Ez; run_throws; intros [= <- <-];
      unfold pivot_row_zeroed, is_non_zero in *; cbn [column_ pivot_ dim_] in *;
      rewrite Ez; auto.
Qed.

Lemma multiply_source_and_add_zero a b :
  multiply_source_and_add M 0 (a, b) = ((a, b), inr tt).
Proof.
  unfold multiply_source_and_add, _multiply_source_and_add. run_throws.
  destruct (is_chain M), (is_z2 M); reflexivity.
Qed.

Lemma multiply_source_and_add_basic val a b a' b' :
  is_chain M = false ->
  multiply_source_and_add M val (a, b) = ((a', b'), inr tt) ->
  pivot_ a' = pivot_ a /\ dim_ a' = dim_ a /\ b' = b.
Proof.
  intros Hch. unfold multiply_source_and_add. rewrite Hch. run_throws.
  destruct (is_z2 M); [destruct (negb (val =? 0))|]; run_throws.
  - unfold _add. destruct (column_ b); [intros [= <- <-]; auto|].
    destruct (column_ a); [intros [= <- <-]; auto|].
    destruct (_add_loop _ _ _ _). intros [= <- <-]. auto.
  - intros [= <- <-]. auto.
  - unfold _multiply_source_and_add.
    destruct ((val =? 0) || _); [intros [= <- <-]; auto|].
    destruct (_multiply_source_and_add_loop _ _ _ _ _). intros [= <- <-]. auto.
Qed.

End WithOptions.

End Pivot_flag_facts.

(** ** The operations of [Naive_vector_column] *)

Module Column_theorems.

Import Field_operators Naive_vector_column Column_spec Column_facts Examples Pivot_exchange.



(** The common part of [multiply_target_and_add]: what happens to [*this]
    when the call does not throw. *)
Lemma multiply_target_and_add_range_ok M val column c :
  field_options M -> is_chain M = false ->
  0 <= val < characteristic M ->
  well_formed M (column_ c) -> well_formed M column ->
  exists l, multiply_target_and_add_range M val column c = (with_column c l, inr tt) /\
    well_formed M l /\
    forall x, coef M l x = (val * coef M (column_ c) x + coef M column x) mod characteristic M.
Proof.
  intros HM Hch Hval Hc Hs. unfold multiply_target_and_add_range.
  destruct (is_z2 M) eqn:Hz2.
  - assert (Hp : characteristic M = 2) by (apply HM; assumption).
    destruct (Z.eqb_spec val 0) as [->|Hne]; simpl.
    + destruct (_add_ok M HM column (clear c)) as (l & z & E & W & C);
        [apply well_formed_nil|assumption|].
      unfold bind, modify, ret. rewrite E. exists l. split; [reflexivity|split; [assumption|]].
      intros x. rewrite C. simpl. rewrite coef_nil. reflexivity.
    + destruct (_add_ok M HM column c) as (l & z & E & W & C); try assumption.
      unfold bind, ret. rewrite E. exists l. split; [reflexivity|split; [assumption|]].
      intros x. rewrite C. replace val with 1 by lia. rewrite Z.mul_1_l. reflexivity.
  - destruct (_multiply_target_and_add_ok M HM column val c) as (l & z & E & W & C);
      auto.
    unfold bind, ret. rewrite E. exists l. auto.
Qed.


Lemma with_column_column c l : column_ (with_column c l) = l.
Proof. reflexivity. Qed.

Lemma swap_column_fst s : column_ (fst (swap_dimension (swap_pivots s))) = column_ (fst s).
Proof. reflexivity. Qed.
Lemma swap_column_snd s : column_ (snd (swap_dimension (swap_pivots s))) = column_ (snd s).
Proof. reflexivity. Qed.

(** [multiply_target_and_add(val, Naive_vector_column&)] when it returns. *)
Lemma multiply_target_and_add_ok M val a b :
  field_options M -> 0 <= val < characteristic M -> (is_chain M = true -> val <> 0) ->
  well_formed M (column_ a) -> well_formed M (column_ b) ->
  exists a' b', multiply_target_and_add M val (a, b) = ((a', b'), inr tt) /\
    well_formed M (column_ a') /\ column_ b' = column_ b /\
    (is_chain M = false -> b' = b) /\
    forall x, coef M (column_ a') x
              = (val * coef M (column_ a) x + coef M (column_ b) x) mod characteristic M.
Proof.
  intros HM Hval Hch Ha Hb. unfold multiply_target_and_add.
  assert (Hcore : exists l z,
    (if is_z2 M then _add M (column_ b) a else _multiply_target_and_add M val (column_ b) a)
    = (with_column a l, inr z) /\ well_formed M l /\
    (val <> 0 ->
     forall x, coef M l x
               = (val * coef M (column_ a) x + coef M (column_ b) x) mod characteristic M)).
  { destruct (is_z2 M) eqn:Hz2.
    - destruct (_add_ok M HM (column_ b) a) as (l & z & E & W & C); try assumption.
      exists l, z. split; [assumption|split; [assumption|]]. intros Hne x. rewrite C.
      assert (Hp : characteristic M = 2) by (apply HM; assumption).
      replace val with 1 by lia. rewrite Z.mul_1_l. reflexivity.
    - destruct (is_chain M) eqn:Hc.
      + destruct (_multiply_target_and_add_ok M HM (column_ b) val a) as (l & z & E & W & C);
          auto.
        exists l, z. auto.
      + destruct (_multiply_target_and_add_ok M HM (column_ b) val a) as (l & z & E & W & C);
          auto.
        exists l, z. auto. }
  destruct (is_chain M) eqn:Hc.
  - specialize (Hch eq_refl). destruct Hcore as (l & z & E & W & C).
    specialize (C Hch).
    destruct (is_z2 M) eqn:Hz2.
    + destruct (Z.eqb_spec val 0) as [|_]; [contradiction|]. run_throws. rewrite E.
      destruct z; run_throws; eexists _, _; (split; [reflexivity|]); simpl;
        (split; [assumption|split; [reflexivity|split; [discriminate|assumption]]]).
    + run_throws. rewrite E.
      destruct z; run_throws; eexists _, _; (split; [reflexivity|]); simpl;
        (split; [assumption|split; [reflexivity|split; [discriminate|assumption]]]).
  - destruct (is_z2 M) eqn:Hz2.
    + assert (Hp : characteristic M = 2) by (apply HM; assumption).
      destruct (Z.eqb_spec val 0) as [->|Hne].
      * destruct (_add_ok M HM (column_ b) (clear a)) as (l & z & E & W & C);
          [apply well_formed_nil|assumption|].
        run_throws. rewrite E. run_throws.
        exists (with_column a l), b. split; [reflexivity|]. simpl.
        split; [assumption|split; [reflexivity|split; [reflexivity|]]].
        intros x. rewrite C. simpl. rewrite coef_nil. reflexivity.
      * destruct Hcore as (l & z & E & W & C). run_throws. rewrite E. run_throws.
        exists (with_column a l), b. simpl.
        split; [reflexivity|split; [assumption|split; [reflexivity|split; [reflexivity|]]]].
        apply C, Hne.
    + destruct Hcore as (l & z & E & W & C). run_throws. rewrite E. run_throws.
      exists (with_column a l), b. simpl.
      split; [reflexivity|split; [assumption|split; [reflexivity|split; [reflexivity|]]]].
      destruct (_multiply_target_and_add_ok M HM (column_ b) val a) as (l' & z' & E' & W' & C');
        auto.
      rewrite E in E'. injection E' as -> ->. exact C'.
Qed.


(** *** Preservation of well-formedness, operation by operation *)

Lemma cells_of_boundary_ok M b :
  field_options M -> sorted_boundary M b -> well_formed M (cells_of_boundary M b).
Proof.
  intros HM [Hs Hv]. pose proof (field_options_pos M HM) as Hp.
  assert (Hrows : rows (cells_of_boundary M b) = map fst b).
  { unfold cells_of_boundary, rows. destruct (is_z2 M); rewrite map_map; reflexivity. }
  split; [unfold column_order; rewrite Hrows; exact Hs|].
  unfold no_zeros, cells_of_boundary, stored_value.
  destruct (is_z2 M) eqn:Hz2; rewrite Forall_map; (eapply Forall_impl; [exact Hv|]);
    simpl; intros e [H1 H2]; (split; [assumption|]); [reflexivity|].
  unfold get_value, get_additive_identity.
  split; [apply Z.mod_pos_bound; lia|auto].
Qed.

Lemma operator_add_assign_range_ok M column c :
  field_options M -> well_formed M (column_ c) -> well_formed M column ->
  well_formed M (column_ (fst (operator_add_assign_range M column c))).
Proof.
  intros HM Hc Hs. destruct (_add_ok M HM column c Hc Hs) as (l & z & E & W & _).
  unfold operator_add_assign_range, bind, ret. rewrite E. exact W.
Qed.

Lemma operator_add_assign_ok M s :
  field_options M -> well_formed M (column_ (fst s)) -> well_formed M (column_ (snd s)) ->
  well_formed M (column_ (fst (fst (operator_add_assign M s)))) /\
  column_ (snd (fst (operator_add_assign M s))) = column_ (snd s).
Proof.
  intros HM Ha Hb. destruct s as [a b]. simpl in *.
  destruct (_add_ok M HM (column_ b) a Ha Hb) as (l & z & E & W & _).
  unfold operator_add_assign. run_throws.
  destruct (is_chain M); run_throws; rewrite E; [destruct z|]; run_throws; auto.
Qed.

Lemma scale_cells_ok M val l :
  field_options M -> is_z2 M = false -> 0 < val < characteristic M ->
  well_formed M l ->
  well_formed M (map (fun cell => set_element cell
                        (multiply_inplace (characteristic M) (get_element cell) val)) l).
Proof.
  intros HM Hz2 Hval Hl. apply well_formed_iff in Hl as [Hs Hv].
  destruct (map_keeps M (mta_ft M val) (fun a => (a * val + 0) mod characteristic M) (-1) l)
    as (A & B & _); try assumption.
  - apply keeps_mta_ft; assumption.
  - reflexivity.
  - apply well_formed_iff. split; assumption.
Qed.

Lemma operator_mul_assign_ok M v c :
  field_options M -> well_formed M (column_ c) ->
  well_formed M (column_ (fst (operator_mul_assign M v c))).
Proof.
  intros HM Hc. pose proof (field_options_pos M HM) as Hp.
  unfold operator_mul_assign, get_value, get_additive_identity, get_multiplicative_identity.
  destruct (is_z2 M) eqn:Hz2.
  - destruct (v mod 2 =? 0); [|exact Hc].
    destruct (is_chain M); [exact Hc|apply well_formed_nil].
  - destruct (Z.eqb_spec (v mod characteristic M) 0) as [H0|H0].
    + destruct (is_chain M); [exact Hc|apply well_formed_nil].
    + destruct (Z.eqb_spec (v mod characteristic M) 1) as [H1|H1]; [exact Hc|].
      simpl. apply scale_cells_ok; try assumption.
      pose proof (Z.mod_pos_bound v (characteristic M)). lia.
Qed.

Lemma multiply_target_and_add_range_preserves M val column c :
  field_options M -> 0 <= val < characteristic M ->
  well_formed M (column_ c) -> well_formed M column ->
  well_formed M (column_ (fst (multiply_target_and_add_range M val column c))).
Proof.
  intros HM Hval Hc Hs. destruct (is_chain M) eqn:Hch.
  - unfold multiply_target_and_add_range. destruct (is_z2 M) eqn:Hz2.
    + destruct (Z.eqb_spec val 0) as [->|Hne]; simpl.
      * destruct (_add_ok M HM column (clear c)) as (l & z & E & W & _);
          [apply well_formed_nil|assumption|].
        run_throws. rewrite E. exact W.
      * destruct (_add_ok M HM column c) as (l & z & E & W & _); try assumption.
        run_throws. rewrite E. exact W.
    + destruct (Z.eqb_spec val 0) as [->|Hne].
      * unfold _multiply_target_and_add. rewrite Hch. run_throws. exact Hc.
      * destruct (_multiply_target_and_add_ok M HM column val c) as (l & z & E & W & _);
          auto.
        run_throws. rewrite E. exact W.
  - destruct (multiply_target_and_add_range_ok M val column c) as (l & E & W & _);
      try assumption.
    rewrite E. exact W.
Qed.

Lemma multiply_target_and_add_preserves M val s :
  field_options M -> 0 <= val < characteristic M ->
  well_formed M (column_ (fst s)) -> well_formed M (column_ (snd s)) ->
  well_formed M (column_ (fst (fst (multiply_target_and_add M val s)))) /\
  column_ (snd (fst (multiply_target_and_add M val s))) = column_ (snd s).
Proof.
  intros HM Hval Ha Hb. destruct s as [a b]. simpl in *.
  destruct (is_chain M) eqn:Hch; [destruct (Z.eq_dec val 0) as [->|Hne]|].
  - unfold multiply_target_and_add. rewrite Hch. run_throws.
    destruct (is_z2 M); run_throws; [auto|].
    unfold _multiply_target_and_add. rewrite Hch. run_throws. auto.
  - destruct (multiply_target_and_add_ok M val a b) as (a' & b' & E & W & B & _);
      auto.
    rewrite E. simpl. auto.
  - destruct (multiply_target_and_add_ok M val a b) as (a' & b' & E & W & B & _);
      auto; [congruence|].
    rewrite E. simpl. auto.
Qed.

Lemma multiply_source_and_add_range_ok M val column c :
  field_options M -> 0 <= val < characteristic M ->
  well_formed M (column_ c) -> well_formed M column ->
  exists l z, (if is_z2 M
               then (if negb (val =? 0) then _add M column c else (c, inr false))
               else _multiply_source_and_add M column val c) = (with_column c l, inr z) /\
    well_formed M l /\
    forall x, coef M l x = (coef M (column_ c) x + val * coef M column x) mod characteristic M.
Proof.
  intros HM Hval Hc Hs. destruct (is_z2 M) eqn:Hz2.
  - assert (Hp : characteristic M = 2) by (apply HM; assumption).
    destruct (Z.eqb_spec val 0) as [->|Hne]; simpl.
    + exists (column_ c), false. rewrite with_column_id.
      split; [reflexivity|split; [assumption|]].
      intros x. rewrite Z.mul_0_l, Z.add_0_r. symmetry. apply coef_mod; [assumption|].
      apply well_formed_iff in Hc. apply Hc.
    + destruct (_add_ok M HM column c) as (l & z & E & W & C); try assumption.
      exists l, z. split; [assumption|split; [assumption|]].
      intros x. rewrite C. replace val with 1 by lia. rewrite Z.mul_1_l. reflexivity.
  - apply _multiply_source_and_add_ok; assumption.
Qed.

Lemma multiply_source_and_add_range_preserves M val column c :
  field_options M -> 0 <= val < characteristic M ->
  well_formed M (column_ c) -> well_formed M column ->
  well_formed M (column_ (fst (multiply_source_and_add_range M column val c))).
Proof.
  intros HM Hval Hc Hs.
  destruct (multiply_source_and_add_range_ok M val column c) as (l & z & E & W & _);
    try assumption.
  unfold multiply_source_and_add_range. destruct (is_z2 M).
  - destruct (negb (val =? 0)); run_throws; [rewrite E; exact W|exact Hc].
  - run_throws. rewrite E. exact W.
Qed.

Lemma multiply_source_and_add_preserves M val s :
  field_options M -> 0 <= val < characteristic M ->
  well_formed M (column_ (fst s)) -> well_formed M (column_ (snd s)) ->
  well_formed M (column_ (fst (fst (multiply_source_and_add M val s)))) /\
  column_ (snd (fst (multiply_source_and_add M val s))) = column_ (snd s).
Proof.
  intros HM Hval Ha Hb. destruct s as [a b]. simpl in *.
  destruct (multiply_source_and_add_range_ok M val (column_ b) a) as (l & z & E & W & _);
    try assumption.
  unfold multiply_source_and_add. run_throws.
  destruct (is_chain M), (is_z2 M); try destruct (negb (val =? 0));
    run_throws; rewrite ?E; try destruct z; run_throws; auto.
Qed.


(** *** [clear(row)] and [reorder] *)

Lemma clear_row_ok M c r :
  well_formed M (column_ c) -> well_formed M (column_ (clear_row c r)).
Proof.
  intros Hc. apply well_formed_iff in Hc as [Hs Hv]. apply well_formed_iff. simpl.
  generalize dependent (-1). induction (column_ c) as [|x l IH]; intros lo Hs; simpl.
  - split; [exact I|constructor].
  - destruct Hs as [H1 H2]. inversion Hv as [|? ? Hx Hv']; subst.
    destruct (get_row_index x =? r).
    + split; [eapply sorted_from_weaken; [|exact H2]; lia|assumption].
    + destruct (IH Hv' _ H2) as [A B]. split; [split; assumption|constructor; assumption].
Qed.

Lemma sort_insert_In c l x : In x (sort_insert c l) <-> x = c \/ In x l.
Proof.
  induction l as [|a l IH]; simpl; [intuition|].
  destruct (get_row_index a <? get_row_index c); simpl; [rewrite IH|]; intuition.
Qed.

Lemma sort_cells_In l x : In x (sort_cells l) <-> In x l.
Proof.
  induction l as [|a l IH]; simpl; [reflexivity|].
  rewrite sort_insert_In, IH. intuition.
Qed.

Lemma sort_insert_sorted c l : forall lo,
  sorted_from lo l -> lo < get_row_index c -> ~ In (get_row_index c) (rows l) ->
  sorted_from lo (sort_insert c l).
Proof.
  induction l as [|a l IH]; intros lo Hs Hlo Hnin; simpl; [auto|].
  destruct Hs as [H1 H2].
  destruct (Z.ltb_spec (get_row_index a) (get_row_index c)) as [Hlt|Hge].
  - split; [assumption|]. apply IH; [assumption|assumption|]. simpl in Hnin. tauto.
  - simpl in *. split; [assumption|]. split; [|assumption].
    assert (get_row_index a <> get_row_index c) by tauto. lia.
Qed.

Lemma sort_cells_sorted lo l :
  NoDup (rows l) -> Forall (fun c => lo < get_row_index c) l -> sorted_from lo (sort_cells l).
Proof.
  induction l as [|a l IH]; intros Hnd Hlo; simpl; [exact I|].
  inversion Hnd as [|? ? Hnin Hnd']; subst. inversion Hlo as [|? ? Ha Hlo']; subst.
  apply sort_insert_sorted; [apply IH; assumption|assumption|].
  intros Hin. apply Hnin. unfold rows in *. apply list_elem_of_In.
  apply in_map_iff in Hin as (x & Hx & Hin). apply (proj1 (sort_cells_In _ _)) in Hin.
  rewrite <- Hx. apply in_map. exact Hin.
Qed.

Lemma reorder_loop_ok valueMap l : forall done,
  (forall c, In c l -> exists r, valueMap (get_row_index c) = Some r) ->
  reorder_loop valueMap done l
  = (done ++ map (fun c => set_row_index c (default 0 (valueMap (get_row_index c)))) l, None).
Proof.
  induction l as [|a l IH]; intros done Hdef; simpl.
  - rewrite app_nil_r. reflexivity.
  - destruct (Hdef a (or_introl eq_refl)) as [r Hr]. rewrite Hr. simpl.
    rewrite IH by (intros c Hc; apply Hdef; right; exact Hc).
    rewrite <- app_assoc. reflexivity.
Qed.

Lemma reorder_ok M valueMap c :
  well_formed M (column_ c) -> row_permutation valueMap (column_ c) ->
  exists l, reorder valueMap c = (with_column c l, inr tt) /\ well_formed M l.
Proof.
  intros Hc [Hdef Hinj]. unfold reorder.
  rewrite reorder_loop_ok by (intros x Hx; destruct (Hdef x Hx) as (r & Hr & _); eauto).
  simpl. eexists. split; [reflexivity|].
  apply well_formed_iff in Hc as [Hs Hv]. apply well_formed_iff.
  set (f := fun c0 : Cell => set_row_index c0 (default 0 (valueMap (get_row_index c0)))).
  split.
  - apply sort_cells_sorted.
    + clear Hv. revert Hdef Hinj Hs. generalize (-1).
      induction (column_ c) as [|a l IH]; intros lo Hdef Hinj Hs; simpl; [constructor|].
      destruct Hs as [H1 H2]. constructor.
      * intros Hin. apply list_elem_of_In in Hin. unfold rows in Hin.
        rewrite map_map in Hin. apply in_map_iff in Hin as (x & Hx & Hin).
        simpl in Hx.
        assert (Heq : get_row_index x = get_row_index a).
        { apply Hinj; [right; assumption|left; reflexivity|].
          destruct (Hdef x (or_intror Hin)) as (rx & Hrx & _).
          destruct (Hdef a (or_introl eq_refl)) as (ra & Hra & _).
          rewrite Hrx, Hra in *. simpl in Hx. congruence. }
        apply sorted_from_Forall in H2. rewrite Forall_forall in H2.
        specialize (H2 x (proj2 (list_elem_of_In _ _) Hin)). lia.
      * apply (IH (get_row_index a)); [| |assumption].
        -- intros x Hx. apply Hdef. right. exact Hx.
        -- intros x y Hx Hy. apply Hinj; right; assumption.
    + rewrite Forall_map. rewrite Forall_forall. intros x Hx. simpl.
      destruct (Hdef x (proj1 (list_elem_of_In _ _) Hx)) as (r & Hr & Hpos).
      rewrite Hr. simpl. lia.
  - unfold stored_all. rewrite Forall_forall. intros x Hx.
    apply list_elem_of_In in Hx. apply (proj1 (sort_cells_In _ _)) in Hx.
    apply in_map_iff in Hx as (y & <- & Hy).
    simpl. unfold stored_all in Hv. rewrite Forall_forall in Hv.
    apply Hv. apply list_elem_of_In. exact Hy.
Qed.


Lemma prime_5 : Z.prime 5.
Proof.
  split; [lia|]. intros n Hn [k Hk].
  assert (n = 2 \/ n = 3 \/ n = 4) as [-> | [-> | ->]] by lia; lia.
Qed.

Lemma field_options_Z5_base : field_options Z5_base.
Proof. split; [exact prime_5|discriminate]. Qed.
Lemma field_options_Z5_chain : field_options Z5_chain.
Proof. split; [exact prime_5|discriminate]. Qed.
Lemma field_options_Z2_base : field_options Z2_base.
Proof. split; [exact Z.prime_2|reflexivity]. Qed.

Ltac solve_well_formed := apply (bool_decide_unpack _); vm_compute; exact I.

(** C2 (amended).  For well-formed columns [a] and [b] and a field scalar
    [c], which is not 0 when [a] is a chain column, the call
    [a.multiply_target_and_add(c, b)] returns, the dense expansion
    [get_content] of [a] afterwards is the pointwise [c * a + b] of the
    expansions before, for every length, and the cells of [b] are unchanged.
    Columns that are not chain columns leave [b] itself unchanged, and the
    overload for a cell range gives the same result.  Chain columns
    exchange their stored pivots and their dimensions exactly when the call
    zeroes the stored pivot row of [a] (or finds [a] without cells);
    otherwise [a] keeps its stored pivot and dimension and [b] is
    unchanged. *)
Theorem multiply_target_and_add_dense M a b c n :
  field_options M ->
  well_formed M (column_ a) -> well_formed M (column_ b) ->
  0 <= c < characteristic M -> 0 <= n ->
  (is_chain M = true -> c <> 0) ->
  exists a' b',
    multiply_target_and_add M c (a, b) = ((a', b'), inr tt) /\
    get_content M a' n
    = zip_with (fun x y => (c * x + y) mod characteristic M)
        (get_content M a n) (get_content M b n) /\
    column_ b' = column_ b /\
    (is_chain M = false ->
       b' = b /\
       multiply_target_and_add_range M c (column_ b) a = (a', inr tt)) /\
    (is_chain M = true ->
       if multiply_target_and_add_exchanges M a b a'
       then pivot_ a' = pivot_ b /\ dim_ a' = dim_ b /\
            pivot_ b' = pivot_ a /\ dim_ b' = dim_ a
       else pivot_ a' = pivot_ a /\ dim_ a' = dim_ a /\ b' = b).
Proof.
  intros HM Ha Hb Hc Hn Hch.
  destruct (multiply_target_and_add_ok M c a b HM Hc Hch Ha Hb) as (a' & b' & E & W & B & U & C).
  exists a', b'. split; [exact E|]. split.
  - apply get_content_zip; try assumption; try (apply well_formed_sorted_from with M; assumption).
  - split; [exact B|]. split.
    + intros Hbase. split; [exact (U Hbase)|].
      destruct (multiply_target_and_add_range_ok M c (column_ b) a) as (l & E' & _);
        try assumption.
      rewrite E'. f_equal.
      unfold multiply_target_and_add, multiply_target_and_add_range in *.
      rewrite Hbase in E. revert E E'. run_throws.
      destruct (is_z2 M); [destruct (negb (c =? 0))|]; run_throws;
        repeat match goal with
               | |- context [match ?x with _ => _ end] => destruct x eqn:?
               end; simpl; congruence.
    + intros Hchain.
      apply (Pivot_flag_facts.multiply_target_and_add_pivots M HM c a b a' b');
        assumption.
Qed.

Lemma multiply_target_and_add_dense_witness :
  (exists a' b',
     multiply_target_and_add Z5_base 2 (column_a, column_b) = ((a', b'), inr tt) /\
     get_content Z5_base a' 3
     = zip_with (fun x y => (2 * x + y) mod characteristic Z5_base)
         (get_content Z5_base column_a 3) (get_content Z5_base column_b 3) /\
     column_ b' = column_ column_b /\
     (is_chain Z5_base = false ->
        b' = column_b /\
        multiply_target_and_add_range Z5_base 2 (column_ column_b) column_a
        = (a', inr tt)) /\
     (is_chain Z5_base = true ->
        if multiply_target_and_add_exchanges Z5_base column_a column_b a'
        then pivot_ a' = pivot_ column_b /\ dim_ a' = dim_ column_b /\
             pivot_ b' = pivot_ column_a /\ dim_ b' = dim_ column_a
        else pivot_ a' = pivot_ column_a /\ dim_ a' = dim_ column_a /\ b' = column_b)) /\
  (exists a' b',
     multiply_target_and_add Z5_chain 1 (chain_a, chain_b) = ((a', b'), inr tt) /\
     get_content Z5_chain a' 6
     = zip_with (fun x y => (1 * x + y) mod characteristic Z5_chain)
         (get_content Z5_chain chain_a 6) (get_content Z5_chain chain_b 6) /\
     column_ b' = column_ chain_b /\
     (is_chain Z5_chain = false ->
        b' = chain_b /\
        multiply_target_and_add_range Z5_chain 1 (column_ chain_b) chain_a
        = (a', inr tt)) /\
     (is_chain Z5_chain = true ->
        if multiply_target_and_add_exchanges Z5_chain chain_a chain_b a'
        then pivot_ a' = pivot_ chain_b /\ dim_ a' = dim_ chain_b /\
             pivot_ b' = pivot_ chain_a /\ dim_ b' = dim_ chain_a
        else pivot_ a' = pivot_ chain_a /\ dim_ a' = dim_ chain_a /\ b' = chain_b)).
Proof.
  split.
  - apply (multiply_target_and_add_dense Z5_base column_a column_b 2 3).
    + exact field_options_Z5_base.
    + solve_well_formed.
    + solve_well_formed.
    + simpl; lia.
    + lia.
    + discriminate.
  - apply (multiply_target_and_add_dense Z5_chain chain_a chain_b 1 6).
    + exact field_options_Z5_chain.
    + solve_well_formed.
    + solve_well_formed.
    + simpl; lia.
    + lia.
    + intros _; discriminate.
Defined.

(** C2, the claim as stated fails on chain columns: with the scalar 0 the
    call throws instead of returning [0 * a + b], and with a scalar that
    cancels the stored pivot of [a] the column [b] comes back with another
    stored pivot. *)
Lemma multiply_target_and_add_chain_counterexample :
  ~ P4_as_stated Z5_chain
      (chain_a) (chain_b) 0 6 /\
  ~ P4_as_stated Z5_chain
      (chain_a) (chain_b) 1 6.
Proof.
  split; intros (a' & E & _); vm_compute in E; discriminate.
Qed.

(** C3.  For a chain column, [operator*=] with an argument that is 0 in the
    field and [multiply_target_and_add] with the coefficient 0 throw
    [std::invalid_argument], and the state the exception leaves behind is
    the state before the call: the column with its cells and stored pivot,
    and the column passed as source.  The operations reach the enclosing
    matrix through these two columns only. *)
Theorem chain_multiply_by_zero_throws M this column v :
  is_chain M = true ->
  (if is_z2 M then v mod 2 else get_value (characteristic M) v) = 0 ->
  operator_mul_assign M v this = (this, inl multiplied_by_zero) /\
  multiply_target_and_add M 0 (this, column) = ((this, column), inl multiplied_by_zero).
Proof.
  intros Hch Hv. split.
  - unfold operator_mul_assign. rewrite Hch.
    destruct (is_z2 M); rewrite Hv; reflexivity.
  - unfold multiply_target_and_add, _multiply_target_and_add. rewrite Hch. run_throws.
    destruct (is_z2 M); reflexivity.
Qed.

Lemma chain_multiply_by_zero_throws_witness :
  operator_mul_assign Z5_chain 10 (chain_a)
  = (chain_a, inl multiplied_by_zero) /\
  multiply_target_and_add Z5_chain 0
    (chain_a, chain_b)
  = ((chain_a, chain_b),
     inl multiplied_by_zero).
Proof.
  apply (chain_multiply_by_zero_throws Z5_chain); reflexivity.
Defined.

(** C6.  Every column operation keeps the column well formed: the cells
    come in strictly increasing row order and none holds the additive
    identity.  The construction starts from a sorted boundary, the binary
    operations from two well-formed columns and a field scalar, [reorder]
    from a map that is a permutation of the stored rows. *)
Theorem column_operations_keep_well_formed M b d a column v val valueMap r :
  field_options M ->
  sorted_boundary M b ->
  well_formed M (column_ a) -> well_formed M (column_ column) ->
  0 <= val < characteristic M ->
  row_permutation valueMap (column_ a) ->
  well_formed M (column_ (make M b)) /\
  well_formed M (column_ (make_dim M b d)) /\
  well_formed M (column_ (fst (operator_add_assign_range M (column_ column) a))) /\
  well_formed M (column_ (fst (fst (operator_add_assign M (a, column))))) /\
  well_formed M (column_ (snd (fst (operator_add_assign M (a, column))))) /\
  well_formed M (column_ (fst (operator_mul_assign M v a))) /\
  well_formed M (column_ (fst (multiply_target_and_add_range M val (column_ column) a))) /\
  well_formed M (column_ (fst (fst (multiply_target_and_add M val (a, column))))) /\
  well_formed M (column_ (snd (fst (multiply_target_and_add M val (a, column))))) /\
  well_formed M (column_ (fst (multiply_source_and_add_range M (column_ column) val a))) /\
  well_formed M (column_ (fst (fst (multiply_source_and_add M val (a, column))))) /\
  well_formed M (column_ (snd (fst (multiply_source_and_add M val (a, column))))) /\
  well_formed M (column_ (fst (reorder valueMap a))) /\
  well_formed M (column_ (clear a)) /\
  well_formed M (column_ (clear_row a r)).
Proof.
  intros HM Hb Ha Hc Hval Hperm.
  pose proof (operator_add_assign_ok M (a, column) HM Ha Hc) as [A1 A2].
  pose proof (multiply_target_and_add_preserves M val (a, column) HM Hval Ha Hc) as [T1 T2].
  pose proof (multiply_source_and_add_preserves M val (a, column) HM Hval Ha Hc) as [S1 S2].
  destruct (reorder_ok M valueMap a Ha Hperm) as (l & E & W).
  simpl in A2, T2, S2.
  split; [apply cells_of_boundary_ok; assumption|].
  split; [apply cells_of_boundary_ok; assumption|].
  split; [apply operator_add_assign_range_ok; assumption|].
  split; [exact A1|]. split; [rewrite A2; exact Hc|].
  split; [apply operator_mul_assign_ok; assumption|].
  split; [apply multiply_target_and_add_range_preserves; assumption|].
  split; [exact T1|]. split; [rewrite T2; exact Hc|].
  split; [apply multiply_source_and_add_range_preserves; assumption|].
  split; [exact S1|]. split; [rewrite S2; exact Hc|].
  split; [rewrite E; exact W|].
  split; [apply well_formed_nil|apply clear_row_ok; assumption].
Qed.


Lemma column_operations_keep_well_formed_witness :
  well_formed Z5_base (column_ (make Z5_base boundary0)) /\
  well_formed Z5_base (column_ (make_dim Z5_base boundary0 1)) /\
  well_formed Z5_base (column_ (fst (operator_add_assign_range Z5_base (column_ column_b) column_a))) /\
  well_formed Z5_base (column_ (fst (fst (operator_add_assign Z5_base (column_a, column_b))))) /\
  well_formed Z5_base (column_ (snd (fst (operator_add_assign Z5_base (column_a, column_b))))) /\
  well_formed Z5_base (column_ (fst (operator_mul_assign Z5_base 7 column_a))) /\
  well_formed Z5_base
    (column_ (fst (multiply_target_and_add_range Z5_base 2 (column_ column_b) column_a))) /\
  well_formed Z5_base (column_ (fst (fst (multiply_target_and_add Z5_base 2 (column_a, column_b))))) /\
  well_formed Z5_base (column_ (snd (fst (multiply_target_and_add Z5_base 2 (column_a, column_b))))) /\
  well_formed Z5_base
    (column_ (fst (multiply_source_and_add_range Z5_base (column_ column_b) 2 column_a))) /\
  well_formed Z5_base (column_ (fst (fst (multiply_source_and_add Z5_base 2 (column_a, column_b))))) /\
  well_formed Z5_base (column_ (snd (fst (multiply_source_and_add Z5_base 2 (column_a, column_b))))) /\
  well_formed Z5_base (column_ (fst (reorder swap_0_2 column_a))) /\
  well_formed Z5_base (column_ (clear column_a)) /\
  well_formed Z5_base (column_ (clear_row column_a 2)).
Proof.
  apply (column_operations_keep_well_formed Z5_base boundary0 1 column_a column_b 7 2 swap_0_2 2).
  - exact field_options_Z5_base.
  - apply (bool_decide_unpack _); vm_compute; exact I.
  - solve_well_formed.
  - solve_well_formed.
  - simpl; lia.
  - split.
    + intros c [<-|[<-|[]]]; vm_compute; eexists; (split; [reflexivity|discriminate]).
    + intros c1 c2 [<-|[<-|[]]] [<-|[<-|[]]]; vm_compute; intros; congruence.
Defined.

End Column_theorems.

(** ** Chain columns: the swap of the stored pivots *)

Module Chain_facts.

Import Field_operators Naive_vector_column Column_spec Column_facts Examples Column_theorems.

Lemma coef_zero_iff M l x :
  field_options M -> stored_all M l -> coef M l x = 0 <-> has_row l x = false.
Proof.
  intros HM Hv. split; [|apply coef_no_row].
  induction l as [|c l IH]; [reflexivity|].
  inversion Hv as [|? ? Hc Hv']; subst. rewrite coef_cons. simpl.
  destruct (get_row_index c =? x); simpl; [|auto].
  intros H0. pose proof (value_of_stored M HM c Hc). lia.
Qed.

Lemma largest_row_cons c c' l : largest_row (c :: c' :: l) = largest_row (c' :: l).
Proof. reflexivity. Qed.

Lemma largest_row_above M lo l :
  sorted_from lo l -> forall x, largest_row l < x -> lo <= x -> coef M l x = 0.
Proof.
  revert lo. induction l as [|c l IH]; intros lo Hs x Hx Hlo; [reflexivity|].
  destruct Hs as [H1 H2]. rewrite coef_cons.
  destruct l as [|c' l].
  - unfold largest_row in Hx. simpl in Hx.
    destruct (Z.eqb_spec (get_row_index c) x); [lia|reflexivity].
  - rewrite largest_row_cons in Hx.
    assert (get_row_index c < largest_row (c' :: l) \/ True) by auto.
    destruct (Z.eqb_spec (get_row_index c) x) as [Heq|Hne].
    + exfalso. subst x.
      assert (Hle : get_row_index c' <= largest_row (c' :: l)).
      { clear -H2. destruct H2 as [_ H2]. revert c' H2.
        induction l as [|d l IHl]; intros c' H2; [unfold largest_row; simpl; lia|].
        rewrite largest_row_cons. destruct H2 as [H3 H4]. specialize (IHl d H4). lia. }
      destruct H2 as [H2 _]. lia.
    + destruct (Z_le_gt_dec x (get_row_index c)) as [Hle|Hgt].
      * eapply coef_above; [exact H2|exact Hle].
      * eapply IH; [exact H2|exact Hx|lia].
Qed.

Lemma largest_row_present M lo l :
  field_options M -> sorted_from lo l -> stored_all M l -> l <> [] ->
  coef M l (largest_row l) <> 0 /\ lo < largest_row l.
Proof.
  intros HM. revert lo. induction l as [|c l IH]; intros lo Hs Hv Hne; [contradiction|].
  destruct Hs as [H1 H2]. inversion Hv as [|? ? Hc Hv']; subst.
  destruct l as [|c' l].
  - unfold largest_row. simpl. rewrite coef_cons, Z.eqb_refl.
    pose proof (value_of_stored M HM c Hc). lia.
  - rewrite largest_row_cons.
    destruct (IH (get_row_index c) H2 Hv' ltac:(discriminate)) as [A B].
    rewrite coef_cons. destruct (Z.eqb_spec (get_row_index c) (largest_row (c' :: l))); [lia|].
    split; [exact A|lia].
Qed.

Lemma largest_row_unique M l r :
  field_options M -> well_formed M l ->
  coef M l r <> 0 -> (forall x, r < x -> coef M l x = 0) -> largest_row l = r.
Proof.
  intros HM Hl Hr Habove. apply well_formed_iff in Hl as [Hs Hv].
  destruct l as [|c l]; [rewrite coef_nil in Hr; contradiction|].
  destruct (largest_row_present M (-1) (c :: l) HM Hs Hv ltac:(discriminate)) as [A B].
  destruct (Z.lt_trichotomy (largest_row (c :: l)) r) as [Hlt|[Heq|Hgt]]; [|exact Heq|].
  - exfalso. apply Hr. eapply largest_row_above; [exact Hs|exact Hlt|lia].
  - exfalso. apply A. apply Habove. exact Hgt.
Qed.


(** [pivotIsZeroed]: the merge met the stored pivot row in both columns and
    the sum there is 0. *)
Lemma _add_loop_flag M pivot t : forall s lo,
  field_options M -> sorted_from lo t -> sorted_from lo s ->
  stored_all M t -> stored_all M s ->
  snd (_add_loop M pivot t s)
  = is_chain M && has_row t pivot && has_row s pivot
    && ((coef M t pivot + coef M s pivot) mod characteristic M =? 0).
Proof.
  induction t as [|ct t IHt]; intros s.
  - intros lo HM Ht Hs Vt Vs. rewrite _add_loop_nil_l. simpl.
    rewrite andb_false_r. reflexivity.
  - induction s as [|cs s IHs]; intros lo HM Ht Hs Vt Vs.
    + rewrite _add_loop_nil_r. simpl. rewrite !andb_false_r. reflexivity.
    + rewrite _add_loop_cons.
      pose proof Ht as [Ht1 Ht2]. pose proof Hs as [Hs1 Hs2].
      inversion Vt as [|? ? Vct Vt']; subst. inversion Vs as [|? ? Vcs Vs']; subst.
      pose proof (field_options_pos M HM) as Hp.
      destruct (Z.ltb_spec (get_row_index ct) (get_row_index cs)) as [Hlt|Hge].
      * specialize (IHt (cs :: s) (get_row_index ct) HM Ht2 (conj Hlt Hs2) Vt' Vs).
        destruct (_add_loop M pivot t (cs :: s)) as [nc z]. simpl snd in *. rewrite IHt.
        rewrite (coef_cons M ct). simpl (has_row (ct :: t) pivot).
        destruct (Z.eqb_spec (get_row_index ct) pivot) as [Heq|Hne]; [|reflexivity].
        rewrite (has_row_above (get_row_index ct) t), (has_row_above (get_row_index ct) (cs :: s));
          [|split; assumption|lia|assumption|lia].
        rewrite !andb_false_r. reflexivity.
      * destruct (Z.gtb_spec (get_row_index ct) (get_row_index cs)) as [Hgt|Hle].
        -- specialize (IHs (get_row_index cs) HM (conj Hgt Ht2) Hs2 Vt Vs').
           destruct (_add_loop M pivot (ct :: t) s) as [nc z]. simpl snd in *. rewrite IHs.
           rewrite (coef_cons M cs). simpl (has_row (cs :: s) pivot).
           destruct (Z.eqb_spec (get_row_index cs) pivot) as [Heq|Hne]; [|reflexivity].
           rewrite (has_row_above (get_row_index cs) s), (has_row_above (get_row_index cs) (ct :: t));
             [|split; assumption|lia|assumption|lia].
           rewrite !andb_false_r. reflexivity.
        -- assert (Heq : get_row_index ct = get_row_index cs) by lia.
           assert (Hs2' : sorted_from (get_row_index ct) s) by (rewrite Heq; assumption).
           specialize (IHt s (get_row_index ct) HM Ht2 Hs2' Vt' Vs').
           assert (Htail : get_row_index ct = pivot ->
                     snd (_add_loop M pivot t s) = false).
           { intros <-. rewrite IHt, (has_row_above (get_row_index ct) t); [|assumption|lia].
             rewrite andb_false_r. reflexivity. }
           assert (Hrest : get_row_index ct <> pivot ->
                     is_chain M && has_row (ct :: t) pivot && has_row (cs :: s) pivot
                     && ((coef M (ct :: t) pivot + coef M (cs :: s) pivot)
                           mod characteristic M =? 0)
                     = snd (_add_loop M pivot t s)).
           { intros Hne. rewrite IHt, !coef_cons, <- Heq. simpl.
             rewrite <- Heq.
             destruct (Z.eqb_spec (get_row_index ct) pivot); [contradiction|reflexivity]. }
           assert (Hhere : get_row_index ct = pivot ->
                     is_chain M && has_row (ct :: t) pivot && has_row (cs :: s) pivot
                     && ((coef M (ct :: t) pivot + coef M (cs :: s) pivot)
                           mod characteristic M =? 0)
                     = is_chain M
                       && ((value_of M ct + value_of M cs) mod characteristic M =? 0)).
           { intros <-. rewrite !coef_cons, <- Heq, Z.eqb_refl. simpl.
             rewrite <- Heq, Z.eqb_refl. simpl. destruct (is_chain M); reflexivity. }
           assert (Hrest' : get_row_index ct <> pivot ->
                     is_chain M && has_row (ct :: t) pivot && has_row (cs :: s) pivot
                     && ((coef M (ct :: t) pivot + coef M (cs :: s) pivot)
                           mod characteristic M =? 0)
                     = snd (_add_loop M pivot t s) /\
                     is_chain M && (get_row_index ct =? pivot) = false).
           { intros Hne. split; [apply Hrest; assumption|].
             destruct (Z.eqb_spec (get_row_index ct) pivot); [contradiction|].
             apply andb_false_r. }
           clear IHt IHs Hrest.
           destruct (Z.eqb_spec (get_row_index ct) pivot) as [Hpiv|Hpiv].
           ++ rewrite (Hhere Hpiv). specialize (Htail Hpiv). unfold value_of.
              destruct (is_z2 M) eqn:E.
              ** destruct (_add_loop M pivot t s) as [nc z]. simpl in *. subst z.
                 destruct HM as [_ ->]; [|assumption]. simpl.
                 destruct (is_chain M); reflexivity.
              ** cbv zeta. unfold add_inplace, get_additive_identity.
                 destruct (Z.eqb_spec ((get_element ct + get_element cs) mod characteristic M) 0);
                   destruct (_add_loop M pivot t s) as [nc z]; simpl in *; subst z;
                   destruct (is_chain M); reflexivity.
           ++ destruct (Hrest' Hpiv) as [-> Hno].
              destruct (is_z2 M) eqn:E.
              ** destruct (_add_loop M pivot t s) as [nc z]. simpl.
                 rewrite andb_false_r. reflexivity.
              ** cbv zeta.
                 destruct (_ =? get_additive_identity);
                   destruct (_add_loop M pivot t s) as [nc z]; simpl;
                   rewrite ?andb_false_r; reflexivity.
Qed.


(** C7 (amended).  When adding the chain column [column] into the chain
    column [*this] zeroes the entry at the stored pivot row of [*this], the
    stored pivots of the two columns are swapped and so are the entries of
    the pivot-to-column-index dictionary at the two pivots, so that the
    dictionary again leads from the stored pivot of each column to the index
    of that column.  The cells of [*this] are the sum, those of [column] are
    unchanged.  When the two pivots were the largest rows of their columns
    and differ, the new stored pivot of [*this] is the largest row of its
    cells, and the one of [column] is a row below its largest.
    [Naive_vector_column::operator+=] swaps the stored pivots (and the
    dimensions) in the same case. *)
Theorem chain_addition_swaps_pivots M A B tp sp ta sa da db dict i j :
  field_options M -> is_chain M = true ->
  well_formed M A -> well_formed M B ->
  dict !! tp = Some i -> dict !! sp = Some j ->
  coef M A tp <> 0 ->
  (coef M A tp + coef M B tp) mod characteristic M = 0 ->
  exists R,
    well_formed M R /\
    (forall x, coef M R x = (coef M A x + coef M B x) mod characteristic M) /\
    Vector_chain_column.operator_add_assign M
      ({| Vector_chain_column.base := A; Vector_chain_column.pivot_ := tp;
          Vector_chain_column.pairedColumn_ := ta |},
       {| Vector_chain_column.base := B; Vector_chain_column.pivot_ := sp;
          Vector_chain_column.pairedColumn_ := sa |},
       dict)
    = (({| Vector_chain_column.base := R; Vector_chain_column.pivot_ := sp;
           Vector_chain_column.pairedColumn_ := ta |},
        {| Vector_chain_column.base := B; Vector_chain_column.pivot_ := tp;
           Vector_chain_column.pairedColumn_ := sa |},
        <[tp := j]> (<[sp := i]> dict)),
       inr tt) /\
    Naive_vector_column.operator_add_assign M
      ({| column_ := A; pivot_ := tp; dim_ := da |},
       {| column_ := B; pivot_ := sp; dim_ := db |})
    = (({| column_ := R; pivot_ := sp; dim_ := db |},
        {| column_ := B; pivot_ := tp; dim_ := da |}),
       inr tt) /\
    <[tp := j]> (<[sp := i]> dict) !! sp = Some i /\
    <[tp := j]> (<[sp := i]> dict) !! tp = Some j /\
    (tp = largest_row A -> sp = largest_row B -> tp <> sp ->
       sp = largest_row R /\ tp < largest_row B).
Proof.
  intros HM Hch HA HB Hi Hj Hpiv Hzero.
  pose proof (field_options_pos M HM) as Hp.
  pose proof HA as HA'. pose proof HB as HB'.
  apply well_formed_iff in HA' as [As Av]. apply well_formed_iff in HB' as [Bs Bv].
  assert (HBpiv : coef M B tp <> 0).
  { intros H0. rewrite H0, Z.add_0_r, coef_mod in Hzero by assumption. contradiction. }
  destruct A as [|ct A']; [rewrite coef_nil in Hpiv; contradiction|].
  destruct B as [|cs B']; [rewrite coef_nil in HBpiv; contradiction|].
  remember (ct :: A') as A eqn:EA. remember (cs :: B') as B eqn:EB.
  destruct (_add_loop_spec M HM tp A B (-1)) as (Rs & Rv & RC); try assumption.
  pose proof (_add_loop_flag M tp A B (-1) HM As Bs Av Bv) as Hflag.
  assert (HBase : Vector_chain_column.Base_operator_add_assign M A B
                  = fst (_add_loop M tp A B)).
  { subst A B. unfold Vector_chain_column.Base_operator_add_assign.
    rewrite !_add_loop_merge. reflexivity. }
  assert (Hadd : forall c, column_ c = A ->
            _add M B c = (with_column c (fst (_add_loop M (pivot_ c) A B)),
                          inr (snd (_add_loop M (pivot_ c) A B)))).
  { intros c Hc. unfold _add. rewrite Hc. subst A B.
    destruct (_add_loop M (pivot_ c) (ct :: A') (cs :: B')). reflexivity. }
  exists (fst (_add_loop M tp A B)).
  assert (HR0 : coef M (fst (_add_loop M tp A B)) tp = 0) by (rewrite RC; exact Hzero).
  split; [apply well_formed_iff; split; assumption|]. split; [exact RC|].
  split; [|split; [|split; [|split]]].
  - unfold Vector_chain_column.operator_add_assign.
    cbn [Vector_chain_column.base Vector_chain_column.pivot_
         Vector_chain_column.pairedColumn_ Vector_chain_column.get_pivot].
    rewrite HBase. unfold Vector_chain_column.Base_is_non_zero.
    change (existsb _ ?l) with (has_row l tp).
    rewrite (proj1 (coef_zero_iff M _ tp HM Rv) HR0).
    cbn [negb]. rewrite Hi, Hj. reflexivity.
  - unfold operator_add_assign. rewrite Hch. run_throws.
    rewrite (Hadd {| column_ := A; pivot_ := tp; dim_ := da |} eq_refl).
    cbn [pivot_]. rewrite Hflag, Hch, Hzero.
    destruct (has_row A tp) eqn:H1;
      [|apply coef_no_row with (M := M) in H1; contradiction].
    destruct (has_row B tp) eqn:H2;
      [|apply coef_no_row with (M := M) in H2; contradiction].
    reflexivity.
  - destruct (decide (tp = sp)) as [->|Hne].
    + rewrite lookup_insert_eq. congruence.
    + rewrite lookup_insert_ne, lookup_insert_eq by assumption. reflexivity.
  - apply lookup_insert_eq.
  - intros HtA HsB Hne.
    assert (Htp : -1 < tp).
    { destruct (Z_lt_ge_dec (-1) tp) as [|Hge]; [assumption|exfalso].
      apply Hpiv. eapply coef_above; [exact As|lia]. }
    assert (Hlt : tp < sp).
    { destruct (Z_lt_ge_dec tp sp) as [|Hge]; [assumption|exfalso].
      apply HBpiv. eapply largest_row_above; [exact Bs| |lia]. lia. }
    split.
    + symmetry. apply (largest_row_unique M); [assumption| | |].
      * apply well_formed_iff; split; assumption.
      * rewrite RC. rewrite (largest_row_above M (-1) A As sp) by lia.
        rewrite Z.add_0_l, coef_mod by assumption.
        rewrite HsB. apply (largest_row_present M (-1)); try assumption.
        subst B. discriminate.
      * intros x Hx. rewrite RC.
        rewrite (largest_row_above M (-1) A As x), (largest_row_above M (-1) B Bs x) by lia.
        apply Z.mod_0_l. lia.
    + lia.
Qed.

Lemma chain_addition_swaps_pivots_witness :
  exists R,
    well_formed Z5_chain R /\
    (forall x, coef Z5_chain R x
               = (coef Z5_chain [cell 1 1; cell 3 1] x + coef Z5_chain [cell 3 4; cell 5 1] x)
                   mod characteristic Z5_chain) /\
    Vector_chain_column.operator_add_assign Z5_chain chain_state
    = (({| Vector_chain_column.base := R; Vector_chain_column.pivot_ := 5;
           Vector_chain_column.pairedColumn_ := -1 |},
        {| Vector_chain_column.base := [cell 3 4; cell 5 1]; Vector_chain_column.pivot_ := 3;
           Vector_chain_column.pairedColumn_ := -1 |},
        <[3 := 1%nat]> (<[5 := 0%nat]> chain_dict)),
       inr tt) /\
    Naive_vector_column.operator_add_assign Z5_chain (chain_a, chain_b)
    = (({| column_ := R; pivot_ := 5; dim_ := 1 |},
        {| column_ := [cell 3 4; cell 5 1]; pivot_ := 3; dim_ := 1 |}),
       inr tt) /\
    <[3 := 1%nat]> (<[5 := 0%nat]> chain_dict) !! 5 = Some 0%nat /\
    <[3 := 1%nat]> (<[5 := 0%nat]> chain_dict) !! 3 = Some 1%nat /\
    (3 = largest_row [cell 1 1; cell 3 1] -> 5 = largest_row [cell 3 4; cell 5 1] -> 3 <> 5 ->
       5 = largest_row R /\ 3 < largest_row [cell 3 4; cell 5 1]).
Proof.
  apply (chain_addition_swaps_pivots Z5_chain [cell 1 1; cell 3 1] [cell 3 4; cell 5 1]
           3 5 (-1) (-1) 1 1 chain_dict 0%nat 1%nat).
  - exact field_options_Z5_chain.
  - reflexivity.
  - solve_well_formed.
  - solve_well_formed.
  - reflexivity.
  - reflexivity.
  - vm_compute; discriminate.
  - reflexivity.
Defined.

(** C7 as stated fails for the source column: before the addition both
    columns store their largest row as pivot, afterwards the source {3, 5}
    stores the pivot 3. *)
Lemma chain_addition_source_pivot_counterexample :
  pivots_are_largest_rows chain_state /\
  ~ pivots_are_largest_rows (fst (Vector_chain_column.operator_add_assign Z5_chain chain_state)).
Proof.
  split; [split; reflexivity|].
  vm_compute. intros [_ H]. discriminate.
Qed.

End Chain_facts.

(** ** The tower converter *)

Module Tower_converter_facts.

Import Tower_converter Examples.

Section WithComplex.

Context {double : Type} `{Countable double}.
Variable ltb : double -> double -> bool.
Variable incr : double -> double.
Variable ComplexStructure : Type.
Variable insert_simplex : list double -> ComplexStructure -> ComplexStructure * bool.
Variable get_size : ComplexStructure -> double.
Variable get_boundary :
  list double -> ComplexStructure -> ComplexStructure * (list double * double).

Local Abbreviation t := (Tower_converter.t ComplexStructure).
Local Abbreviation translate := (@translate double _ _ ltb ComplexStructure).
Local Abbreviation add_insertion :=
  (add_insertion ltb incr ComplexStructure insert_simplex get_size get_boundary).

(** The translation touches the vertex table only. *)
Lemma translate_frame simplex (c c1 : t) r :
  translate simplex c = (c1, r) ->
  complex_ _ c1 = complex_ _ c /\
  outputStream_ _ c1 = outputStream_ _ c /\
  filtrationSize_ _ c1 = filtrationSize_ _ c /\
  towerWidth_ _ c1 = towerWidth_ _ c.
Proof.
  unfold Tower_converter.translate, bind, modify, ret, get, throw.
  destruct simplex as [|v [|w simplex]]; simpl.
  - intros [= <- _]. auto.
  - intros [= <- _]. destruct (vertices_ _ c !! v); auto.
  - destruct (vertices_ _ c !! v); [|intros [= <- _]; auto].
    destruct (vertices_ _ c !! w); [|intros [= <- _]; auto].
    destruct (translate_loop _ simplex); intros [= <- _]; auto.
Qed.

(** C10.  When [add_insertion] returns, its result is the result of
    [insert_simplex] on the translated simplex, that is, whether the simplex
    was newly inserted into the complex; and when it returns [false] the
    filtration size, the tower width and the output stream are the ones
    before the call. *)
Theorem add_insertion_reports_insertion simplex timestamp wantBoundary (c c' : t) b out :
  add_insertion simplex timestamp wantBoundary c = (c', inr (b, out)) ->
  exists transSimplex c1,
    translate simplex c = (c1, inr transSimplex) /\
    b = snd (insert_simplex transSimplex (complex_ _ c1)) /\
    (b = false ->
       get_filtration_size _ c' = get_filtration_size _ c /\
       get_tower_width _ c' = get_tower_width _ c /\
       outputStream_ _ c' = outputStream_ _ c).
Proof.
  unfold Tower_converter.add_insertion. unfold bind at 1.
  destruct (translate simplex c) as [c1 [e|transSimplex]] eqn:Et; [discriminate|].
  destruct (translate_frame _ _ _ _ Et) as (F1 & F2 & F3 & F4).
  unfold bind at 1. unfold get at 1.
  destruct (insert_simplex transSimplex (complex_ _ c1)) as [k inserted] eqn:Ei.
  intros E. exists transSimplex, c1. split; [reflexivity|].
  rewrite Ei. simpl snd.
  destruct inserted.
  - assert (b = true) as ->; [|split; [reflexivity|discriminate]].
    revert E. unfold bind, put.
    repeat match goal with
           | |- context [match ?x with _ => _ end] => destruct x
           end; intros [=]; congruence.
  - revert E. unfold bind, put, ret. intros [= <- <- _].
    split; [reflexivity|]. intros _.
    unfold get_filtration_size, get_tower_width. simpl. auto.
Qed.

End WithComplex.

Lemma add_insertion_reports_insertion_witness :
  exists transSimplex c1,
    Tower_converter.translate Z.ltb toy_complex [7] toy_converter = (c1, inr transSimplex) /\
    false = snd (toy_insert_simplex transSimplex (complex_ _ c1)) /\
    (false = false ->
       get_filtration_size _ (fst (toy_add_insertion [7] 1 false toy_converter))
       = get_filtration_size _ toy_converter /\
       get_tower_width _ (fst (toy_add_insertion [7] 1 false toy_converter))
       = get_tower_width _ toy_converter /\
       outputStream_ _ (fst (toy_add_insertion [7] 1 false toy_converter))
       = outputStream_ _ toy_converter).
Proof.
  apply (add_insertion_reports_insertion Z.ltb Z.succ toy_complex
           toy_insert_simplex toy_get_size toy_get_boundary
           [7] 1 false toy_converter
           (fst (toy_add_insertion [7] 1 false toy_converter)) false None).
  vm_compute. reflexivity.
Defined.

End Tower_converter_facts.

(** ** The unordered-set column: the cached pivot *)

Module Z2_unordered_set_facts.

Import Z2_unordered_set_column Examples.

(** C5, the failing input.  After [reorder] the flag says that the cached
    pivot is stale, but [add] clears the flag as soon as it inserts a value
    above the stale pivot: [get_pivot] then returns 3 for the column
    {2, 3, 5}, whose largest row is 5. *)
Theorem get_pivot_after_reorder_and_add :
  column_ stale_column = list_to_set [2; 3; 5] /\
  snd (get_pivot stale_column) = 3 /\
  largest_row stale_column = 5.
Proof.
  split; [|split; vm_compute; reflexivity].
  apply (bool_decide_unpack _). vm_compute. exact I.
Qed.

End Z2_unordered_set_facts.

(** ** The matrix with column compression *)

Module Union_find_facts.
Import disjoint_sets.

Lemma find_set_extend ds x y z :
  find_set (extend_sets ds x y) z = find_set ds z.
Proof.
  unfold extend_sets, find_set.
  destruct (_ <? _)%nat eqn:E; [|reflexivity]. simpl.
  destruct (decide (z < length (root ds))%nat) as [Hz|Hz].
  - rewrite lookup_app_l by exact Hz. reflexivity.
  - rewrite lookup_app_r by lia.
    rewrite (lookup_ge_None_2 (root ds)) by lia. simpl.
    destruct (seq _ _ !! _) eqn:Es; [|reflexivity].
    apply lookup_seq in Es. simpl. lia.
Qed.

Lemma extend_sets_length ds x y :
  (x < length (root (extend_sets ds x y)))%nat /\
  (y < length (root (extend_sets ds x y)))%nat.
Proof.
  unfold extend_sets.
  destruct (_ <? _)%nat eqn:E.
  - apply Nat.ltb_lt in E. simpl. rewrite length_app, length_seq. lia.
  - apply Nat.ltb_ge in E. lia.
Qed.

Lemma find_set_map ds f rk z :
  find_set {| root := map f (root ds); rank := rk |} z =
  if decide (z < length (root ds))%nat then f (find_set ds z) else z.
Proof.
  unfold find_set. simpl. rewrite list_lookup_fmap.
  destruct (decide _) as [Hz|Hz].
  - destruct (lookup_lt_is_Some_2 (root ds) z Hz) as [r ->]. reflexivity.
  - rewrite (lookup_ge_None_2 (root ds)) by lia. reflexivity.
Qed.

Lemma find_set_link_same ds x z : find_set (link ds x x) z = find_set ds z.
Proof.
  unfold link. rewrite Nat.eqb_refl. apply find_set_extend.
Qed.

Lemma find_set_link ds x y :
  find_set ds x = x -> find_set ds y = y -> x <> y ->
  (find_set (link ds x y) x = y /\
   forall z, find_set (link ds x y) z =
             if decide (find_set ds z = x) then y else find_set ds z) \/
  (find_set (link ds x y) x = x /\
   forall z, find_set (link ds x y) z =
             if decide (find_set ds z = y) then x else find_set ds z).
Proof.
  intros Hx Hy Hxy. unfold link.
  rewrite !find_set_extend, Hx, Hy.
  destruct (extend_sets_length ds x y) as [Lx Ly].
  destruct (x =? y)%nat eqn:E; [apply Nat.eqb_eq in E; contradiction|].
  assert (Hgen : forall f rk w l, (l < length (root (extend_sets ds x y)))%nat ->
    find_set ds l = l ->
    (forall r, f r = if (r =? l)%nat then w else r) ->
    forall z, find_set {| root := map f (root (extend_sets ds x y)); rank := rk |} z =
              if decide (find_set ds z = l) then w else find_set ds z).
  { intros f rk w l Hl Hfl Hf z. rewrite find_set_map, find_set_extend.
    destruct (decide (z < _)%nat) as [Hz|Hz].
    - rewrite Hf. destruct (decide (find_set ds z = l)) as [->|Hne].
      + rewrite Nat.eqb_refl. reflexivity.
      + apply Nat.eqb_neq in Hne. rewrite Hne. reflexivity.
    - assert (find_set ds z = z) as Hzz.
      { rewrite <- (find_set_extend ds x y). unfold find_set.
        rewrite (lookup_ge_None_2 _ z) by lia. reflexivity. }
      rewrite Hzz. destruct (decide (z = l)); [lia|reflexivity]. }
  destruct (_ <? _)%nat.
  - right.
    assert (H := Hgen (fun r => if (r =? y)%nat then x else r) (rank (extend_sets ds x y))
                      x y Ly Hy (fun r => eq_refl)).
    split; [|exact H].
    rewrite H, Hx. destruct (decide (x = y)); [contradiction|reflexivity].
  - left.
    match goal with |- context [ {| root := _; rank := ?rk |} ] =>
      assert (H := Hgen (fun r => if (r =? x)%nat then y else r) rk
                        y x Lx Hx (fun r => eq_refl)) end.
    split; [|exact H].
    rewrite H, Hx. destruct (decide (x = x)); [reflexivity|contradiction].
Qed.

End Union_find_facts.

Module Matrix_facts.

Import Naive_vector_column Base_matrix_with_column_compression Matrix_spec.

Section WithOptions.

Variable M : Master_matrix.

Lemma operator_lt_irrefl l : operator_lt M l l = false.
Proof.
  induction l as [|c l IH]; simpl; [reflexivity|].
  rewrite !Z.eqb_refl. simpl. rewrite andb_false_r. exact IH.
Qed.

Lemma equivalent_refl l : equivalent M l l = true.
Proof. unfold equivalent. rewrite operator_lt_irrefl. reflexivity. Qed.

Lemma equivalent_sym l1 l2 : equivalent M l1 l2 = equivalent M l2 l1.
Proof. unfold equivalent. apply andb_comm. Qed.

Lemma equivalent_eq l1 l2 :
  canonical M l1 -> canonical M l2 -> equivalent M l1 l2 = true -> l1 = l2.
Proof.
  unfold equivalent, canonical.
  revert l2. induction l1 as [|c1 l1 IH]; intros [|c2 l2] H1 H2 E; simpl in E;
    try reflexivity; try discriminate.
  destruct (get_row_index c1 =? get_row_index c2) eqn:Er.
  - rewrite (Z.eqb_sym (get_row_index c2)), Er in E. simpl in E. apply Z.eqb_eq in Er.
    destruct (is_z2 M) eqn:Ez; simpl in E.
    + specialize (H1 eq_refl). specialize (H2 eq_refl).
      inversion H1 as [|? ? e1 f1]; inversion H2 as [|? ? e2 f2]; subst.
      f_equal.
      * destruct c1, c2; simpl in *; congruence.
      * apply IH; auto.
    + destruct (get_element c1 =? get_element c2) eqn:Ee.
      * rewrite (Z.eqb_sym (get_element c2)), Ee in E. simpl in E. apply Z.eqb_eq in Ee.
        f_equal.
        -- destruct c1, c2; simpl in *; congruence.
        -- apply IH; [discriminate|discriminate|exact E].
      * rewrite (Z.eqb_sym (get_element c2)), Ee in E. simpl in E. apply Z.eqb_neq in Ee.
        apply andb_true_iff in E as [E1 E2].
        apply negb_true_iff, Z.ltb_ge in E1. apply negb_true_iff, Z.ltb_ge in E2. lia.
  - rewrite (Z.eqb_sym (get_row_index c2)), Er in E. simpl in E. apply Z.eqb_neq in Er.
    apply andb_true_iff in E as [E1 E2].
    apply negb_true_iff, Z.ltb_ge in E1. apply negb_true_iff, Z.ltb_ge in E2. lia.
Qed.

(** *** The set of columns *)

Lemma set_find_spec pool content set :
  (forall a, a ∈ set -> is_Some (pool !! a)) ->
  (set_find M pool content set = Some None /\
   forall b cb, b ∈ set -> pool !! b = Some cb ->
                equivalent M content (column_ (col cb)) = false) \/
  (exists it found, set_find M pool content set = Some (Some it) /\ it ∈ set /\
                    pool !! it = Some found /\
                    equivalent M content (column_ (col found)) = true).
Proof.
  induction set as [|a set IH]; intros Hlive; simpl.
  - left. split; [reflexivity|]. intros b cb Hb. inversion Hb.
  - destruct (Hlive a) as [ca Ha]; [left|]. rewrite Ha.
    destruct (equivalent M content (column_ (col ca))) eqn:E.
    + right. exists a, ca. repeat split; auto. left.
    + destruct IH as [[-> Hno]|(it & found & -> & Hin & Hp & He)].
      * intros b Hb. apply Hlive. right. exact Hb.
      * left. split; [reflexivity|]. intros b cb Hb Hpb.
        apply elem_of_cons in Hb as [->|Hb]; [congruence|eauto].
      * right. exists it, found. repeat split; auto. right. exact Hin.
Qed.

Lemma set_erase_spec pool content set :
  (forall a, a ∈ set -> is_Some (pool !! a)) ->
  exists s, set_erase M pool content set = Some s /\
    forall b, b ∈ s <->
      b ∈ set /\ exists cb, pool !! b = Some cb /\
                            equivalent M content (column_ (col cb)) = false.
Proof.
  induction set as [|a set IH]; intros Hlive; simpl.
  - exists []. split; [reflexivity|]. intros b. split.
    + intros Hb. inversion Hb.
    + intros [Hb _]. inversion Hb.
  - destruct (Hlive a) as [ca Ha]; [left|]. rewrite Ha.
    destruct IH as (s & -> & Hs).
    { intros b Hb. apply Hlive. right. exact Hb. }
    destruct (equivalent M content (column_ (col ca))) eqn:E.
    + exists s. split; [reflexivity|]. intros b. rewrite Hs, elem_of_cons. split.
      * intros [Hb Hc]. split; [right; exact Hb|exact Hc].
      * intros [[->|Hb] (cb & Hp & He)]; [congruence|].
        split; [exact Hb|]. exists cb. auto.
    + exists (a :: s). split; [reflexivity|]. intros b.
      rewrite !elem_of_cons, Hs. split.
      * intros [->|[Hb Hc]]; [|split; [right; exact Hb|exact Hc]].
        split; [left; reflexivity|]. exists ca. auto.
      * intros [[->|Hb] Hc]; [left; reflexivity|right; split; auto].
Qed.

(** *** Columns over Z/2 hold ones *)

Lemma canonical_nil : canonical M [].
Proof. intros _. constructor. Qed.

Lemma canonical_cells_of_boundary b : canonical M (cells_of_boundary M b).
Proof.
  intros Ez. unfold cells_of_boundary. rewrite Ez.
  apply Forall_fmap, Forall_true. intros x. reflexivity.
Qed.

Lemma canonical_insert_cells s : canonical M (insert_cells M s).
Proof.
  intros Ez. unfold insert_cells. rewrite Ez.
  apply Forall_fmap, Forall_true. intros x. reflexivity.
Qed.

Lemma canonical_copy_cells s : canonical M (copy_cells M s).
Proof.
  intros Ez. unfold copy_cells. rewrite Ez.
  apply Forall_fmap, Forall_true. intros x. reflexivity.
Qed.

Lemma canonical_add_loop pivot t s :
  canonical M t -> canonical M (fst (_add_loop M pivot t s)).
Proof.
  intros Ht Ez. specialize (Ht Ez).
  revert s. induction t as [|ct t IHt]; intros s.
  - rewrite Column_facts._add_loop_nil_l. apply (canonical_insert_cells s Ez).
  - induction s as [|cs s IHs]; [exact Ht|].
    inversion Ht as [|? ? Hc Ht']; subst.
    rewrite Column_facts._add_loop_cons.
    destruct (_ <? _).
    + specialize (IHt Ht' (cs :: s)). destruct (_add_loop M pivot t (cs :: s)).
      simpl. constructor; assumption.
    + destruct (_ >? _).
      * destruct (_add_loop M pivot (ct :: t) s). simpl in *.
        rewrite Ez. constructor; [reflexivity|exact IHs].
      * rewrite Ez. specialize (IHt Ht' s). destruct (_add_loop M pivot t s).
        simpl in *. exact IHt.
Qed.

Lemma canonical_operator_add_assign_range source target :
  canonical M source -> canonical M (column_ target) ->
  canonical M (column_ (fst (operator_add_assign_range M source target))).
Proof.
  intros Hs Ht. unfold operator_add_assign_range, bind, _add, ret.
  destruct source as [|cs source]; [exact Ht|].
  destruct (column_ target) as [|ct t] eqn:Et.
  - simpl. apply canonical_copy_cells.
  - pose proof (canonical_add_loop (pivot_ target) (ct :: t) (cs :: source) Ht) as H.
    destruct (_add_loop M (pivot_ target) (ct :: t) (cs :: source)). exact H.
Qed.


(** *** [_insert_column] *)

Lemma relabel_idempotent (f f' : nat -> nat) (l w : nat) :
  (forall z, f' z = if decide (f z = l) then w else f z) ->
  (forall x, f (f x) = f x) -> f w = w -> w <> l ->
  forall x, f' (f' x) = f' x.
Proof.
  intros Hf' Hf Hw Hwl x. rewrite (Hf' x).
  destruct (decide (f x = l)) as [E|E]; rewrite Hf'.
  - rewrite Hw. destruct (decide (w = l)); [contradiction|reflexivity].
  - rewrite Hf. destruct (decide (f x = l)); [contradiction|reflexivity].
Qed.

Lemma _insert_column_ok idx a n m c :
  pending M idx a n m -> columnPool_ m !! a = Some c ->
  exists m', _insert_column M idx m = Some m' /\
    invariant_upto M n m' /\
    nextColumnIndex_ m' = nextColumnIndex_ m /\
    (forall z, find m z = idx -> content_of m' z = Some (column_ (col c))) /\
    (forall e, null_class m e -> null_class m' e) /\
    (is_empty (col c) = true -> null_class m' idx).
Proof.
  intros [Hroots Hslot Hfresh Hroot Hbelow Hslots Hset Hdist Hcan Hfree Hsize Hbound] Hc.
  assert (Hidx : (idx < length (repToColumn_ m))%nat).
  { apply lookup_lt_is_Some. eauto. }
  assert (Hne_a : forall b, b ∈ columnToRep_ m -> b <> a) by (intros b Hb ->; auto).
  assert (Hrep_ne : forall b cb, b ∈ columnToRep_ m -> columnPool_ m !! b = Some cb ->
                                 rep_ cb <> idx).
  { intros b cb Hb Hpb E. destruct (Hset b Hb) as (cb' & Hpb' & Hs).
    rewrite Hpb in Hpb'. inversion Hpb'; subst cb'. rewrite E, Hslot in Hs.
    inversion Hs. subst. auto. }
  unfold _insert_column. rewrite Hslot, Hc.
  destruct (is_empty (col c)) eqn:Eempty.
  - (* the column is empty: it is destroyed *)
    eexists. split; [reflexivity|].
    split; [|split; [reflexivity|split; [|split]]].
    + constructor; unfold find in *; simpl.
      * exact Hroots.
      * intros r b Hr.
        destruct (decide (r = idx)) as [->|Hne].
        { rewrite list_lookup_insert_eq in Hr by exact Hidx. discriminate. }
        rewrite list_lookup_insert_ne in Hr by auto.
        destruct (Hslots r b Hne Hr) as (cb & Hpb & Hrep & Hin & Hf).
        exists cb. rewrite lookup_delete_ne by (apply not_eq_sym; auto). auto.
      * intros b Hb. destruct (Hset b Hb) as (cb & Hpb & Hs).
        exists cb. rewrite lookup_delete_ne by (apply not_eq_sym; auto).
        split; [exact Hpb|].
        rewrite list_lookup_insert_ne by (apply not_eq_sym; eauto). exact Hs.
      * intros b b' cb cb' Hb Hb'.
        rewrite !lookup_delete_ne by (apply not_eq_sym; auto). eauto.
      * intros b cb Hb. apply lookup_delete_Some in Hb as [_ Hb]. eauto.
      * intros x Hx. destruct (Hfree x Hx) as [Hf Hn]. split; [exact Hf|].
        rewrite list_lookup_insert_ne by lia. exact Hn.
      * rewrite length_insert. exact Hsize.
      * exact Hbound.
    + intros z Hz. unfold content_of, get_column, find in *. simpl. rewrite Hz.
      rewrite list_lookup_insert_eq by exact Hidx. simpl.
      unfold is_empty in Eempty. destruct (column_ (col c)); [reflexivity|discriminate].
    + intros e [He1 He2]. split; unfold find in *; simpl; [exact He1|].
      rewrite list_lookup_insert_ne; [exact He2|]. intros ->. congruence.
    + intros _. split; unfold find in *; simpl; [exact Hroot|].
      apply list_lookup_insert_eq. exact Hidx.
  - (* the column is not empty: it goes to the set *)
    set (pool1 := <[a := set_rep c idx]> (columnPool_ m)).
    assert (Hpool1 : forall b, b ∈ columnToRep_ m -> pool1 !! b = columnPool_ m !! b).
    { intros b Hb. unfold pool1. apply lookup_insert_ne. apply not_eq_sym; auto. }
    assert (Hlive : forall b, b ∈ columnToRep_ m -> is_Some (pool1 !! b)).
    { intros b Hb. rewrite Hpool1 by exact Hb. destruct (Hset b Hb) as (cb & -> & _). eauto. }
    unfold set_insert.
    destruct (set_find_spec pool1 (column_ (col c)) (columnToRep_ m) Hlive)
      as [[-> Hnone]|(it & found & -> & Hit & Hfound & Heq)].
    + (* no equivalent column *)
      unfold pool1 at 1. rewrite lookup_insert_eq. simpl. rewrite Nat.eqb_refl. simpl.
      eexists. split; [reflexivity|].
      split; [|split; [reflexivity|split; [|split]]].
      * constructor; unfold find in *; simpl.
        -- exact Hroots.
        -- intros r b Hr. destruct (decide (r = idx)) as [->|Hne].
           { rewrite Hslot in Hr. inversion Hr; subst b.
             exists (set_rep c idx). unfold pool1. rewrite lookup_insert_eq.
             repeat split; auto. apply elem_of_app. right. left. }
           destruct (Hslots r b Hne Hr) as (cb & Hpb & Hrep & Hin & Hf).
           exists cb. rewrite Hpool1 by exact Hin.
           repeat split; auto. apply elem_of_app. left. exact Hin.
        -- intros b Hb. apply elem_of_app in Hb as [Hb|Hb].
           { destruct (Hset b Hb) as (cb & Hpb & Hs). exists cb.
             rewrite Hpool1 by exact Hb. auto. }
           apply list_elem_of_singleton in Hb as ->.
           exists (set_rep c idx). unfold pool1. rewrite lookup_insert_eq. auto.
        -- intros b b' cb cb' Hb Hb' Hpb Hpb' E.
           apply elem_of_app in Hb as [Hb|Hb]; apply elem_of_app in Hb' as [Hb'|Hb'].
           ++ rewrite Hpool1 in Hpb, Hpb' by assumption. eauto.
           ++ apply list_elem_of_singleton in Hb' as ->.
              unfold pool1 in Hpb'. rewrite lookup_insert_eq in Hpb'.
              inversion Hpb'; subst cb'. simpl in E.
              rewrite equivalent_sym, (Hnone b cb Hb Hpb) in E. discriminate.
           ++ apply list_elem_of_singleton in Hb as ->.
              unfold pool1 in Hpb. rewrite lookup_insert_eq in Hpb.
              inversion Hpb; subst cb. simpl in E.
              rewrite (Hnone b' cb' Hb' Hpb') in E. discriminate.
           ++ apply list_elem_of_singleton in Hb as ->.
              apply list_elem_of_singleton in Hb' as ->. reflexivity.
        -- intros b cb Hb. unfold pool1 in Hb.
           apply lookup_insert_Some in Hb as [[<- <-]|[_ Hb]]; simpl; eauto.
        -- exact Hfree.
        -- exact Hsize.
        -- exact Hbound.
      * intros z Hz. unfold content_of, get_column, find in *. simpl. rewrite Hz, Hslot.
        simpl. unfold pool1. rewrite lookup_insert_eq. reflexivity.
      * intros e He. exact He.
      * intros E. rewrite E in Eempty. discriminate.
    + (* an equivalent column [it] of another class: the classes merge *)
      rewrite Hpool1 in Hfound by exact Hit.
      assert (Hcontent : column_ (col c) = column_ (col found)).
      { apply equivalent_eq; eauto. }
      set (d := rep_ found).
      assert (Hd : d <> idx) by (apply (Hrep_ne it found); assumption).
      assert (Hd_slot : repToColumn_ m !! d = Some (Some it)).
      { destruct (Hset it Hit) as (c' & Hp' & Hs). rewrite Hfound in Hp'.
        inversion Hp'; subst c'. exact Hs. }
      assert (Hd_root : find m d = d).
      { destruct (Hslots d it Hd Hd_slot) as (_ & _ & _ & _ & Hf). exact Hf. }
      assert (Hd_len : (d < length (repToColumn_ m))%nat).
      { apply lookup_lt_is_Some. eauto. }
      assert (Hd_below : (d < n)%nat).
      { destruct (decide (d < n)%nat) as [|Hge]; [assumption|].
        destruct (Hfree d) as [_ [Hn|Hn]]; [lia|congruence|congruence]. }
      assert (Hit_a : it <> a) by auto.
      assert (Hothers : forall r b, r <> idx -> r <> d ->
                repToColumn_ m !! r = Some (Some b) ->
                exists cb, columnPool_ m !! b = Some cb /\ rep_ cb = r /\
                           b ∈ columnToRep_ m /\ find m r = r /\ b <> it /\ b <> a).
      { intros r b Hr1 Hr2 Hr. destruct (Hslots r b Hr1 Hr) as (cb & Hpb & Hrep & Hin & Hf).
        exists cb. repeat split; auto. intros ->. rewrite Hfound in Hpb.
        inversion Hpb; subst cb. auto. }
      assert (Hset' : forall b, b ∈ columnToRep_ m -> b <> it ->
                exists cb, columnPool_ m !! b = Some cb /\
                           repToColumn_ m !! rep_ cb = Some (Some b) /\
                           rep_ cb <> idx /\ rep_ cb <> d /\ b <> a).
      { intros b Hb Hne. destruct (Hset b Hb) as (cb & Hpb & Hs).
        exists cb. repeat split; eauto. intros E. rewrite E, Hd_slot in Hs.
        inversion Hs. auto. }
      unfold pool1 at 1. rewrite lookup_insert_ne by auto. rewrite Hfound.
      fold d. replace (negb (d =? idx)%nat) with true
        by (symmetry; apply negb_true_iff, Nat.eqb_neq; exact Hd).
      unfold _insert_double_column. simpl.
      unfold pool1 at 1. rewrite lookup_insert_ne by auto. rewrite Hfound, Hslot.
      fold d.
      destruct (Union_find_facts.find_set_link (columnClasses_ m) idx d Hroot Hd_root
                  (not_eq_sym Hd)) as [[Hnew Hlink]|[Hnew Hlink]]; rewrite Hnew.
      * (* the class of [it] keeps its representative *)
        replace (d =? idx)%nat with false by (symmetry; apply Nat.eqb_neq; exact Hd).
        eexists. split; [reflexivity|].
        split; [|split; [reflexivity|split; [|split]]].
        -- constructor; unfold find in *; simpl.
           ++ apply (relabel_idempotent _ _ idx d Hlink Hroots Hd_root Hd).
           ++ intros r b Hr. destruct (decide (r = idx)) as [->|Hne].
              { rewrite list_lookup_insert_eq in Hr by exact Hidx. discriminate. }
              rewrite list_lookup_insert_ne in Hr by auto.
              destruct (Hslots r b Hne Hr) as (cb & Hpb & Hrep & Hin & Hf).
              exists cb. unfold pool1.
              rewrite lookup_delete_ne, lookup_insert_ne by (apply not_eq_sym; auto).
              repeat split; auto. rewrite Hlink, Hf.
              destruct (decide (r = idx)); [contradiction|reflexivity].
           ++ intros b Hb. destruct (Hset b Hb) as (cb & Hpb & Hs).
              exists cb. unfold pool1.
              rewrite lookup_delete_ne, lookup_insert_ne by (apply not_eq_sym; auto).
              split; [exact Hpb|].
              rewrite list_lookup_insert_ne by (apply not_eq_sym; eauto). exact Hs.
           ++ intros b b' cb cb' Hb Hb'. unfold pool1.
              rewrite !lookup_delete_ne, !lookup_insert_ne by (apply not_eq_sym; auto).
              eauto.
           ++ intros b cb Hb. apply lookup_delete_Some in Hb as [_ Hb]. unfold pool1 in Hb.
              apply lookup_insert_Some in Hb as [[<- <-]|[_ Hb]]; simpl; eauto.
           ++ intros x Hx. destruct (Hfree x Hx) as [Hf Hn]. rewrite Hlink, Hf.
              split; [destruct (decide (x = idx)); [lia|reflexivity]|].
              rewrite list_lookup_insert_ne by lia. exact Hn.
           ++ rewrite length_insert. exact Hsize.
           ++ intros x Hx. rewrite Hlink.
              destruct (decide (_ = idx)); [exact Hd_below|apply Hbound; exact Hx].
        -- intros z Hz. unfold content_of, get_column, find in *. simpl.
           rewrite Hlink, Hz. destruct (decide (idx = idx)); [|contradiction].
           rewrite list_lookup_insert_ne by auto. rewrite Hd_slot. simpl.
           unfold pool1. rewrite lookup_delete_ne, lookup_insert_ne by auto.
           rewrite Hfound. simpl. rewrite Hcontent. reflexivity.
        -- intros e [He1 He2]. unfold null_class, find in *. simpl.
           assert (e <> idx) by (intros ->; congruence).
           rewrite Hlink, He1. split; [destruct (decide (e = idx)); [contradiction|reflexivity]|].
           rewrite list_lookup_insert_ne by auto. exact He2.
        -- intros E. rewrite E in Eempty. discriminate.
      * (* the class of the pending column keeps its representative: the
           slots are swapped *)
        rewrite Nat.eqb_refl.
        rewrite (list_lookup_insert_ne _ idx d) by auto. rewrite Hd_slot.
        unfold pool1 at 1. rewrite lookup_delete_ne, lookup_insert_ne by auto.
        rewrite Hfound.
        assert (Hpool' : forall b, b <> it -> b <> a ->
          <[it := set_rep found idx]> (delete a pool1) !! b = columnPool_ m !! b).
        { intros b H1 H2. unfold pool1.
          rewrite lookup_insert_ne, lookup_delete_ne, lookup_insert_ne by auto.
          reflexivity. }
        assert (Hreps' : forall r, r <> idx -> r <> d ->
          <[idx := Some it]> (<[d := None]> (<[idx := None]> (repToColumn_ m))) !! r =
          repToColumn_ m !! r).
        { intros r H1 H2. rewrite !list_lookup_insert_ne by auto. reflexivity. }
        assert (Hreps_idx :
          <[idx := Some it]> (<[d := None]> (<[idx := None]> (repToColumn_ m))) !! idx =
          Some (Some it)).
        { apply list_lookup_insert_eq. rewrite !length_insert. exact Hidx. }
        assert (Hreps_d :
          <[idx := Some it]> (<[d := None]> (<[idx := None]> (repToColumn_ m))) !! d =
          Some None).
        { rewrite list_lookup_insert_ne by auto. apply list_lookup_insert_eq.
          rewrite length_insert. exact Hd_len. }
        assert (Hcols : forall b cb, b ∈ columnToRep_ m ->
          <[it := set_rep found idx]> (delete a pool1) !! b = Some cb ->
          exists cb0, columnPool_ m !! b = Some cb0 /\ col cb0 = col cb).
        { intros b cb Hb Hpb. destruct (decide (b = it)) as [->|Hne].
          - rewrite lookup_insert_eq in Hpb. inversion Hpb; subst cb. eauto.
          - rewrite Hpool' in Hpb by auto. eauto. }
        eexists. split; [reflexivity|].
        split; [|split; [reflexivity|split; [|split]]].
        -- constructor; unfold find in *; simpl.
           ++ apply (relabel_idempotent _ _ d idx Hlink Hroots Hroot (not_eq_sym Hd)).
           ++ intros r b Hr. destruct (decide (r = idx)) as [->|Hne].
              { rewrite Hreps_idx in Hr. inversion Hr; subst b.
                exists (set_rep found idx). rewrite lookup_insert_eq.
                repeat split; auto. }
              destruct (decide (r = d)) as [->|Hne'].
              { rewrite Hreps_d in Hr. discriminate. }
              rewrite Hreps' in Hr by auto.
              destruct (Hothers r b Hne Hne' Hr) as (cb & Hpb & Hrep & Hin & Hf & H1 & H2).
              exists cb. rewrite Hpool' by auto. repeat split; auto.
              rewrite Hlink, Hf. destruct (decide (r = d)); [contradiction|reflexivity].
           ++ intros b Hb. destruct (decide (b = it)) as [->|Hne].
              { exists (set_rep found idx). rewrite lookup_insert_eq. auto. }
              destruct (Hset' b Hb Hne) as (cb & Hpb & Hs & H1 & H2 & H3).
              exists cb. rewrite Hpool', Hreps' by auto. auto.
           ++ intros b b' cb cb' Hb Hb' Hpb Hpb' E.
              destruct (Hcols b cb Hb Hpb) as (cb0 & Hp0 & E0).
              destruct (Hcols b' cb' Hb' Hpb') as (cb0' & Hp0' & E0').
              rewrite <- E0, <- E0' in E. eauto.
           ++ intros b cb Hb.
              apply lookup_insert_Some in Hb as [[<- <-]|[_ Hb]]; simpl; [eauto|].
              apply lookup_delete_Some in Hb as [_ Hb]. unfold pool1 in Hb.
              apply lookup_insert_Some in Hb as [[<- <-]|[_ Hb]]; simpl; eauto.
           ++ intros x Hx. destruct (Hfree x Hx) as [Hf Hn]. rewrite Hlink, Hf.
              split; [destruct (decide (x = d)); [lia|reflexivity]|].
              rewrite Hreps' by lia. exact Hn.
           ++ rewrite !length_insert. exact Hsize.
           ++ intros x Hx. rewrite Hlink.
              destruct (decide (_ = d)); [exact Hbelow|apply Hbound; exact Hx].
        -- intros z Hz. unfold content_of, get_column, find in *. simpl.
           rewrite Hlink, Hz. destruct (decide (idx = d)); [congruence|].
           rewrite Hreps_idx. simpl. rewrite lookup_insert_eq. simpl.
           rewrite Hcontent. reflexivity.
        -- intros e [He1 He2]. unfold null_class, find in *. simpl.
           assert (e <> idx) by (intros ->; congruence).
           assert (e <> d) by (intros ->; congruence).
           rewrite Hlink, He1. split; [destruct (decide (e = d)); [contradiction|reflexivity]|].
           rewrite Hreps' by auto. exact He2.
        -- intros E. rewrite E in Eempty. discriminate.
Qed.

(** *** The calls on the matrix *)

Lemma invariant_upto_next n m k :
  invariant_upto M n m ->
  invariant_upto M n
    {| columnPool_ := columnPool_ m; columnToRep_ := columnToRep_ m;
       columnClasses_ := columnClasses_ m; repToColumn_ := repToColumn_ m;
       nextColumnIndex_ := k |}.
Proof. intros [H1 H2 H3 H4 H5 H6 H7 H8]. constructor; assumption. Qed.

Lemma fresh_not_live (pool : gmap nat Column_type) : pool !! fresh (dom pool) = None.
Proof. apply not_elem_of_dom. apply is_fresh. Qed.

Lemma insert_boundary_ok boundary dim m :
  invariant M m ->
  exists m', insert_boundary M boundary dim m = Some m' /\
    invariant M m' /\
    nextColumnIndex_ m' = S (nextColumnIndex_ m) /\
    content_of m' (nextColumnIndex_ m) = Some (cells_of_boundary M boundary) /\
    (forall e, e <> nextColumnIndex_ m -> null_class m e -> null_class m' e) /\
    (boundary = [] -> null_class m' (nextColumnIndex_ m)).
Proof.
  intros [Hroots Hslots Hset Hdist Hcan Hfree Hsize Hbound].
  unfold insert_boundary, construct.
  set (dim' := if dim =? -1 then _ else dim).
  set (next := nextColumnIndex_ m) in *.
  set (a := fresh (dom (columnPool_ m))).
  set (c := {| col := make_dim M boundary dim'; rep_ := 0 |}).
  assert (Ha : columnPool_ m !! a = None) by apply fresh_not_live.
  assert (Hlive : forall b, b ∈ columnToRep_ m -> b <> a).
  { intros b Hb ->. destruct (Hset a Hb) as (cb & Hpb & _). congruence. }
  assert (Hpend : exists m1,
    (if (length (repToColumn_ m) =? next)%nat then
       Some {| columnPool_ := <[a := c]> (columnPool_ m); columnToRep_ := columnToRep_ m;
               columnClasses_ := disjoint_sets.link (columnClasses_ m) next next;
               repToColumn_ := repToColumn_ m ++ [Some a];
               nextColumnIndex_ := next |}
     else if (next <? length (repToColumn_ m))%nat then
       Some {| columnPool_ := <[a := c]> (columnPool_ m); columnToRep_ := columnToRep_ m;
               columnClasses_ := columnClasses_ m;
               repToColumn_ := <[next := Some a]> (repToColumn_ m);
               nextColumnIndex_ := next |}
     else None) = Some m1 /\
    pending M next a (S next) m1 /\ columnPool_ m1 !! a = Some c /\
    nextColumnIndex_ m1 = next /\
    (forall z, find m1 z = find m z) /\
    (forall e, e <> next -> repToColumn_ m !! e = Some None ->
               repToColumn_ m1 !! e = Some None)).
  { destruct (length (repToColumn_ m) =? next)%nat eqn:Elen.
    - apply Nat.eqb_eq in Elen. eexists. split; [reflexivity|].
      assert (Hfind : forall z,
        disjoint_sets.find_set (disjoint_sets.link (columnClasses_ m) next next) z =
        disjoint_sets.find_set (columnClasses_ m) z)
        by apply Union_find_facts.find_set_link_same.
      assert (Hold : forall r, r <> next -> forall v,
        (repToColumn_ m ++ [Some a]) !! r = Some (Some v) ->
        repToColumn_ m !! r = Some (Some v)).
      { intros r Hr v Hv. apply lookup_app_Some in Hv as [Hv|[Hge Hv]]; [exact Hv|].
        apply list_lookup_singleton_Some in Hv as [Hv _]. lia. }
      split; [|split; [|split; [|split]]].
      + constructor; unfold find in *; simpl.
        * intros x. rewrite !Hfind. apply Hroots.
        * rewrite lookup_app_r by lia. rewrite Elen, Nat.sub_diag. reflexivity.
        * intros Hin. apply (Hlive a Hin). reflexivity.
        * rewrite Hfind. apply Hfree. reflexivity.
        * lia.
        * intros r b Hr Hb. apply Hold in Hb; [|exact Hr].
          destruct (Hslots r b Hb) as (cb & Hpb & Hrep & Hin & Hf).
          exists cb. rewrite lookup_insert_ne by (apply not_eq_sym; auto).
          rewrite Hfind. auto.
        * intros b Hb. destruct (Hset b Hb) as (cb & Hpb & Hs).
          exists cb. rewrite lookup_insert_ne by (apply not_eq_sym; auto).
          split; [exact Hpb|]. apply lookup_app_l_Some. exact Hs.
        * intros b b' cb cb' Hb Hb'.
          rewrite !lookup_insert_ne by (apply not_eq_sym; auto). eauto.
        * intros b cb Hb. apply lookup_insert_Some in Hb as [[<- <-]|[_ Hb]]; [|eauto].
          apply canonical_cells_of_boundary.
        * intros x Hx. rewrite Hfind. destruct (Hfree x) as [Hf _]; [lia|].
          split; [exact Hf|]. left. apply lookup_ge_None_2.
          rewrite length_app. simpl. lia.
        * rewrite length_app. simpl. lia.
        * intros x Hx. rewrite Hfind. destruct (decide (x = next)) as [->|Hne].
          -- destruct (Hfree next) as [-> _]; lia.
          -- assert (x < next)%nat as Hlt by lia. specialize (Hbound x Hlt). lia.
      + simpl. apply lookup_insert_eq.
      + reflexivity.
      + intros z. unfold find. simpl. apply Hfind.
      + intros e He Hn. simpl. apply lookup_app_l_Some. exact Hn.
    - apply Nat.eqb_neq in Elen.
      assert (Hlt : (next < length (repToColumn_ m))%nat) by (unfold next in *; lia).
      apply Nat.ltb_lt in Hlt as Hlt'. rewrite Hlt'.
      eexists. split; [reflexivity|].
      assert (Hnext : forall v, repToColumn_ m !! next <> Some (Some v)).
      { intros v Hv. destruct (Hfree next) as [_ [Hn|Hn]]; [lia|congruence|congruence]. }
      split; [|split; [|split; [|split]]].
      + constructor; unfold find in *; simpl.
        * exact Hroots.
        * apply list_lookup_insert_eq. exact Hlt.
        * intros Hin. apply (Hlive a Hin). reflexivity.
        * apply Hfree. reflexivity.
        * lia.
        * intros r b Hr Hb. rewrite list_lookup_insert_ne in Hb by auto.
          destruct (Hslots r b Hb) as (cb & Hpb & Hrep & Hin & Hf).
          exists cb. rewrite lookup_insert_ne by (apply not_eq_sym; auto). auto.
        * intros b Hb. destruct (Hset b Hb) as (cb & Hpb & Hs).
          exists cb. rewrite lookup_insert_ne by (apply not_eq_sym; auto).
          split; [exact Hpb|]. rewrite list_lookup_insert_ne; [exact Hs|].
          intros E. rewrite <- E in Hs. apply (Hnext _ Hs).
        * intros b b' cb cb' Hb Hb'.
          rewrite !lookup_insert_ne by (apply not_eq_sym; auto). eauto.
        * intros b cb Hb. apply lookup_insert_Some in Hb as [[<- <-]|[_ Hb]]; [|eauto].
          apply canonical_cells_of_boundary.
        * intros x Hx. destruct (Hfree x) as [Hf Hn]; [lia|].
          split; [exact Hf|]. rewrite list_lookup_insert_ne by lia. exact Hn.
        * rewrite length_insert. lia.
        * intros x Hx. destruct (decide (x = next)) as [->|Hne].
          -- destruct (Hfree next) as [-> _]; lia.
          -- assert (x < next)%nat as Hlt2 by lia. specialize (Hbound x Hlt2). lia.
      + simpl. apply lookup_insert_eq.
      + reflexivity.
      + intros z. reflexivity.
      + intros e He Hn. simpl. rewrite list_lookup_insert_ne by auto. exact Hn. }
  destruct Hpend as (m1 & -> & Hp & Hc & Hn1 & Hfind1 & Hnull1).
  destruct (_insert_column_ok next a (S next) m1 c Hp Hc)
    as (m2 & -> & Hinv & Hn2 & Hcontent & Hnull & Hempty).
  eexists. split; [reflexivity|].
  split; [|split; [reflexivity|split; [|split]]].
  - apply invariant_upto_next. exact Hinv.
  - specialize (Hcontent next (p_root _ _ _ _ _ Hp)).
    unfold content_of, get_column, deref in *. simpl. exact Hcontent.
  - intros e He [He1 He2].
    destruct (Hnull e) as [H1 H2].
    { split; [rewrite Hfind1; exact He1|apply Hnull1; assumption]. }
    split; [exact H1|exact H2].
  - intros ->.
    assert (E : is_empty (col c) = true).
    { unfold is_empty, c. simpl. unfold cells_of_boundary.
      destruct (is_z2 M); reflexivity. }
    destruct (Hempty E) as [H1 H2]. split; [exact H1|exact H2].
Qed.

Lemma content_of_live m z :
  invariant M m -> is_Some (repToColumn_ m !! find m z) -> is_Some (content_of m z).
Proof.
  intros Hinv [[b|] Hs]; unfold content_of, get_column, find in *; rewrite Hs; simpl.
  - destruct (inv_slots _ _ _ Hinv _ _ Hs) as (cb & -> & _). simpl. eauto.
  - eauto.
Qed.

Lemma content_of_inserted m z :
  invariant M m -> (z < nextColumnIndex_ m)%nat -> is_Some (content_of m z).
Proof.
  intros Hinv Hz. apply content_of_live; [exact Hinv|].
  apply lookup_lt_is_Some. pose proof (inv_bound _ _ _ Hinv z Hz).
  pose proof (inv_size _ _ _ Hinv). lia.
Qed.

Lemma add_to_ok src tgt m a :
  invariant M m ->
  repToColumn_ m !! find m tgt = Some (Some a) ->
  is_Some (repToColumn_ m !! find m src) ->
  exists target source m',
    columnPool_ m !! a = Some target /\
    content_of m src = Some source /\
    add_to M src tgt m = Some m' /\
    invariant M m' /\
    nextColumnIndex_ m' = nextColumnIndex_ m /\
    (forall z, find m z = find m tgt ->
       content_of m' z =
       Some (column_ (fst (operator_add_assign_range M source (col target))))) /\
    (forall e, null_class m e -> null_class m' e).
Proof.
  intros Hinv Hslot Hsrc.
  destruct (content_of_live m src Hinv Hsrc) as [source Hsource].
  destruct Hinv as [Hroots Hslots Hset Hdist Hcan Hfree Hsize Hbound].
  destruct (Hslots _ _ Hslot) as (target & Htarget & Hrep & Hin & Hroot).
  exists target, source.
  assert (Hlive : forall b, b ∈ columnToRep_ m -> is_Some (columnPool_ m !! b)).
  { intros b Hb. destruct (Hset b Hb) as (cb & -> & _). eauto. }
  destruct (set_erase_spec (columnPool_ m) (column_ (col target)) (columnToRep_ m) Hlive)
    as (set & Herase & Hmem).
  assert (Hsource_can : canonical M source).
  { unfold content_of, get_column in Hsource.
    fold (find m src) in Hsource. destruct Hsrc as [v Hv]. rewrite Hv in Hsource.
    destruct v as [b|]; simpl in Hsource.
    - destruct (columnPool_ m !! b) as [cb|] eqn:Eb; simpl in Hsource;
        [|discriminate Hsource].
      inversion Hsource; subst. eauto.
    - inversion Hsource; subst. apply canonical_nil. }
  set (target' := fst (operator_add_assign_range M source (col target))).
  set (m1 := {| columnPool_ := <[a := set_col target target']> (columnPool_ m);
                columnToRep_ := set; columnClasses_ := columnClasses_ m;
                repToColumn_ := repToColumn_ m;
                nextColumnIndex_ := nextColumnIndex_ m |}).
  assert (Ha_out : a ∉ set).
  { intros Ha. apply Hmem in Ha as [_ (cb & Hp & He)]. rewrite Htarget in Hp.
    inversion Hp; subst cb. rewrite equivalent_refl in He. discriminate. }
  assert (Hsub : forall b, b ∈ set -> b ∈ columnToRep_ m /\ b <> a).
  { intros b Hb. split; [apply Hmem in Hb as [Hb _]; exact Hb|]. intros ->. auto. }
  assert (Hkeep : forall b, b ∈ columnToRep_ m -> b <> a -> b ∈ set).
  { intros b Hb Hne. apply Hmem. split; [exact Hb|].
    destruct (Hset b Hb) as (cb & Hpb & _). exists cb. split; [exact Hpb|].
    destruct (equivalent M (column_ (col target)) (column_ (col cb))) eqn:E; [|reflexivity].
    exfalso. apply Hne. symmetry. eapply Hdist; eauto. }
  assert (Hbelow : (find m tgt < nextColumnIndex_ m)%nat).
  { destruct (decide (find m tgt < nextColumnIndex_ m)%nat) as [|Hge]; [assumption|].
    destruct (Hfree (find m tgt)) as [_ [Hn|Hn]]; [lia|congruence|congruence]. }
  assert (Hp : pending M (find m tgt) a (nextColumnIndex_ m) m1).
  { constructor; unfold find in *; simpl.
    - exact Hroots.
    - exact Hslot.
    - exact Ha_out.
    - exact Hroot.
    - exact Hbelow.
    - intros r b Hr Hb. destruct (Hslots r b Hb) as (cb & Hpb & Hrepb & Hinb & Hf).
      assert (b <> a).
      { intros ->. rewrite Htarget in Hpb. inversion Hpb; subst cb. congruence. }
      exists cb. rewrite lookup_insert_ne by auto. repeat split; auto.
    - intros b Hb. destruct (Hsub b Hb) as [Hb' Hne].
      destruct (Hset b Hb') as (cb & Hpb & Hs).
      exists cb. rewrite lookup_insert_ne by auto. auto.
    - intros b b' cb cb' Hb Hb'.
      destruct (Hsub b Hb) as [Hb1 Hne]. destruct (Hsub b' Hb') as [Hb1' Hne'].
      rewrite !lookup_insert_ne by auto. eauto.
    - intros b cb Hb. apply lookup_insert_Some in Hb as [[<- <-]|[_ Hb]]; [|eauto].
      simpl. apply canonical_operator_add_assign_range; eauto.
    - exact Hfree.
    - exact Hsize.
    - exact Hbound. }
  assert (Hc : columnPool_ m1 !! a = Some (set_col target target')).
  { simpl. apply lookup_insert_eq. }
  destruct (_insert_column_ok _ _ _ _ _ Hp Hc)
    as (m' & Hins & Hinv' & Hn' & Hcontent & Hnull & _).
  exists m'. split; [exact Htarget|]. split; [exact Hsource|].
  split.
  { unfold add_to. fold (find m tgt). rewrite Hslot, Htarget, Herase.
    unfold content_of in Hsource. rewrite Hsource. exact Hins. }
  split.
  { unfold invariant. rewrite Hn'. exact Hinv'. }
  split; [exact Hn'|]. split.
  - intros z Hz. apply Hcontent. exact Hz.
  - intros e [He1 He2]. apply Hnull. split; [exact He1|exact He2].
Qed.

Lemma add_to_Some src tgt m m' :
  add_to M src tgt m = Some m' ->
  exists a, repToColumn_ m !! find m tgt = Some (Some a) /\
            is_Some (repToColumn_ m !! find m src).
Proof.
  unfold add_to. fold (find m tgt).
  destruct (repToColumn_ m !! find m tgt) as [[a|]|]; try discriminate.
  destruct (columnPool_ m !! a); try discriminate.
  destruct (set_erase _ _ _ _); try discriminate.
  unfold get_column. fold (find m src).
  destruct (repToColumn_ m !! find m src); simpl; try discriminate.
  intros _. exists a. eauto.
Qed.

Lemma invariant_make_reserved k : invariant M (make_reserved k).
Proof.
  assert (Hfind : forall x, find (make_reserved k) x = x).
  { intros x. unfold find, disjoint_sets.find_set. simpl.
    destruct (seq 0 k !! x) eqn:E; [|reflexivity]. apply lookup_seq in E. simpl. lia. }
  constructor; simpl.
  - intros x. rewrite !Hfind. reflexivity.
  - intros r a Hr. apply lookup_replicate in Hr as [Hr _]. discriminate.
  - intros a Ha. inversion Ha.
  - intros a b ca cb Ha. inversion Ha.
  - intros a c Ha. rewrite lookup_empty in Ha. discriminate.
  - intros x _. split; [apply Hfind|].
    destruct (replicate k None !! x) eqn:E; [|left; reflexivity].
    apply lookup_replicate in E as [-> _]. right. reflexivity.
  - lia.
  - intros x Hx. lia.
Qed.

Lemma step_ok o m m' :
  invariant M m -> step M m o = Some m' ->
  invariant M m' /\
  nextColumnIndex_ m' = (nextColumnIndex_ m + insertions [o])%nat /\
  (forall e, (e < nextColumnIndex_ m)%nat -> null_class m e -> null_class m' e).
Proof.
  intros Hinv Hstep. destruct o as [boundary dim|src tgt]; simpl in Hstep.
  - destruct (insert_boundary_ok boundary dim m Hinv)
      as (m2 & E & Hinv' & Hn & _ & Hnull & _).
    rewrite E in Hstep. inversion Hstep; subst m2.
    split; [exact Hinv'|]. split; [simpl; lia|].
    intros e He. apply Hnull. lia.
  - destruct (add_to_Some _ _ _ _ Hstep) as (a & Hslot & Hsrc).
    destruct (add_to_ok src tgt m a Hinv Hslot Hsrc)
      as (target & source & m2 & _ & _ & E & Hinv' & Hn & _ & Hnull).
    rewrite E in Hstep. inversion Hstep; subst m2.
    split; [exact Hinv'|]. split; [simpl; lia|].
    intros e _. apply Hnull.
Qed.

Lemma run_ok ops m m' :
  invariant M m -> run M m ops = Some m' ->
  invariant M m' /\
  nextColumnIndex_ m' = (nextColumnIndex_ m + insertions ops)%nat /\
  (forall e, (e < nextColumnIndex_ m)%nat -> null_class m e -> null_class m' e).
Proof.
  revert m. induction ops as [|o ops IH]; intros m Hinv Hrun; simpl in Hrun.
  - inversion Hrun; subst m'. split; [exact Hinv|]. split; [simpl; lia|]. auto.
  - destruct (step M m o) as [m1|] eqn:Estep; [|discriminate].
    destruct (step_ok o m m1 Hinv Estep) as (Hinv1 & Hn1 & Hnull1).
    destruct (IH m1 Hinv1 Hrun) as (Hinv' & Hn' & Hnull').
    split; [exact Hinv'|]. split.
    + rewrite Hn', Hn1. destruct o; simpl; lia.
    + intros e He Hnull. apply Hnull'; [simpl in Hn1; lia|]. apply Hnull1; assumption.
Qed.

Lemma run_insertions boundaries m :
  invariant M m ->
  exists m', run M m (map (fun b => Insert_boundary (fst b) (snd b)) boundaries) = Some m' /\
             nextColumnIndex_ m' = (nextColumnIndex_ m + length boundaries)%nat.
Proof.
  revert m. induction boundaries as [|[b dim] bs IH]; intros m Hinv; simpl.
  - exists m. split; [reflexivity|lia].
  - destruct (insert_boundary_ok b dim m Hinv) as (m1 & -> & Hinv1 & Hn1 & _).
    destruct (IH m1 Hinv1) as (m' & -> & Hn'). exists m'. split; [reflexivity|lia].
Qed.

Lemma null_class_reads m e :
  null_class m e ->
  get_column m e = Some empty_column_ /\
  is_zero_column m e = Some true /\
  forall rowIndex, is_zero_cell m e rowIndex = Some true.
Proof.
  intros [He1 He2]. unfold get_column, is_zero_column, is_zero_cell.
  unfold find in He1. rewrite He1, He2. auto.
Qed.

End WithOptions.

End Matrix_facts.

Module Matrix_theorems.

Import Naive_vector_column Base_matrix_with_column_compression Matrix_spec Matrix_facts.
Import Examples.

(** What the code keeps of the compression: in a matrix reached from the
    constructor by calls of [insert_boundary] and [add_to], every index
    inserted so far resolves to a column; two indices of the same class
    resolve to the same column, with the same cells; and a call of [add_to]
    that returns leaves every index of the class of the target with the
    cells of the sum of the target's column and the source. *)
Theorem compression_class_shares_column M k ops m :
  run M (make_reserved k) ops = Some m ->
  (forall i, (i < get_number_of_columns m)%nat -> is_Some (content_of m i)) /\
  (forall i j, find m i = find m j ->
     get_column m i = get_column m j /\ content_of m i = content_of m j) /\
  (forall src tgt m', add_to M src tgt m = Some m' ->
     exists a target source,
       get_column m tgt = Some (pooled a) /\
       columnPool_ m !! a = Some target /\
       content_of m src = Some source /\
       forall j, find m j = find m tgt ->
         content_of m' j =
         Some (column_ (fst (operator_add_assign_range M source (col target))))).
Proof.
  intros Hrun.
  destruct (run_ok M ops _ m (invariant_make_reserved M k) Hrun) as (Hinv & _ & _).
  split; [|split].
  - intros i Hi. apply (content_of_inserted M); assumption.
  - intros i j Hij. unfold content_of, get_column. unfold find in Hij. rewrite Hij. auto.
  - intros src tgt m' Hadd.
    destruct (add_to_Some M _ _ _ _ Hadd) as (a & Hslot & Hsrc).
    destruct (add_to_ok M src tgt m a Hinv Hslot Hsrc)
      as (target & source & m2 & Htarget & Hsource & E & _ & _ & Hcontent & _).
    rewrite E in Hadd. inversion Hadd; subst m2.
    exists a, target, source. split; [|split; [exact Htarget|split; [exact Hsource|exact Hcontent]]].
    unfold get_column. unfold find in Hslot. rewrite Hslot. reflexivity.
Qed.

Lemma compression_class_shares_column_witness :
  exists m, run Z2_base (make_reserved 0) compressed_ops = Some m /\
    content_of m 0 = Some [cell 0 1; cell 1 1; cell 2 1] /\
    content_of m 1 = Some [cell 0 1; cell 1 1; cell 2 1] /\
    (forall i j, find m i = find m j ->
       get_column m i = get_column m j /\ content_of m i = content_of m j).
Proof.
  eexists. split; [vm_compute; reflexivity|].
  split; [vm_compute; reflexivity|]. split; [vm_compute; reflexivity|].
  apply (compression_class_shares_column Z2_base 0 compressed_ops).
  vm_compute. reflexivity.
Defined.

(** C1, the failing input.  Over Z/2 the columns 0 and 1 are inserted with
    the same boundary {0, 1} and share one class; column 2 is {2}.  After
    [add_to(1, 0)] the class of 0 and 1 holds the zero column: both indices
    resolve to the static empty column, and the slot of the class is null.
    [add_to(2, 1)], which is to leave both members with the cells of column
    2, dereferences the null slot, and so does [add_to(2, 0)]; [get_column]
    and [is_zero_column] test the slot. *)
Theorem add_to_into_zero_class :
  exists m,
    run Z2_base make
      [Insert_boundary [(0, 1); (1, 1)] (-1); Insert_boundary [(0, 1); (1, 1)] (-1);
       Insert_boundary [(2, 1)] (-1); Add_to 1 0] = Some m /\
    find m 0%nat = find m 1%nat /\
    get_column m 0 = Some empty_column_ /\ get_column m 1 = Some empty_column_ /\
    content_of m 0 = Some [] /\ content_of m 1 = Some [] /\
    content_of m 2 = Some [cell 2 1] /\
    repToColumn_ m !! find m 1%nat = Some None /\
    is_zero_column m 1 = Some true /\
    add_to Z2_base 2 1 m = None /\ add_to Z2_base 2 0 m = None.
Proof.
  eexists. split; [vm_compute; reflexivity|].
  repeat split; vm_compute; reflexivity.
Qed.

(** C8.  From a matrix reached from the constructor, any further sequence
    of insertions returns, and [get_number_of_columns] is the number of
    insertions made so far, whatever the boundaries were. *)
Theorem get_number_of_columns_counts_insertions M k pre boundaries m :
  run M (make_reserved k) pre = Some m ->
  get_number_of_columns m = insertions pre /\
  exists m',
    run M m (map (fun b => Insert_boundary (fst b) (snd b)) boundaries) = Some m' /\
    get_number_of_columns m' = (insertions pre + length boundaries)%nat.
Proof.
  intros Hrun.
  destruct (run_ok M pre _ m (invariant_make_reserved M k) Hrun) as (Hinv & Hn & _).
  simpl in Hn. split; [exact Hn|].
  destruct (run_insertions M boundaries m Hinv) as (m' & Hrun' & Hn').
  exists m'. split; [exact Hrun'|]. unfold get_number_of_columns. rewrite Hn', Hn.
  reflexivity.
Qed.

Lemma get_number_of_columns_counts_insertions_witness :
  exists m, run Z2_base (make_reserved 0) compressed_ops = Some m /\
    get_number_of_columns m = 4%nat /\
    exists m',
      run Z2_base m
        [Insert_boundary [(0, 1); (1, 1); (2, 1)] (-1); Insert_boundary [] (-1)] = Some m' /\
      get_number_of_columns m' = 6%nat.
Proof.
  eexists. split; [vm_compute; reflexivity|].
  apply (get_number_of_columns_counts_insertions Z2_base 0 compressed_ops
           [([(0, 1); (1, 1); (2, 1)], -1); ([], -1)]).
  vm_compute. reflexivity.
Defined.

(** C9.  Inserting an empty boundary into a matrix reached from the
    constructor returns; whatever calls follow, the slot of the new index
    stays null, [get_column] gives the static empty column, and
    [is_zero_column] and [is_zero_cell] return true. *)
Theorem empty_boundary_stores_no_column M k pre dim ops m m2 :
  run M (make_reserved k) pre = Some m ->
  run M m (Insert_boundary [] dim :: ops) = Some m2 ->
  repToColumn_ m2 !! find m2 (get_number_of_columns m) = Some None /\
  get_column m2 (get_number_of_columns m) = Some empty_column_ /\
  is_zero_column m2 (get_number_of_columns m) = Some true /\
  forall rowIndex, is_zero_cell m2 (get_number_of_columns m) rowIndex = Some true.
Proof.
  intros Hpre Hrun.
  destruct (run_ok M pre _ m (invariant_make_reserved M k) Hpre) as (Hinv & _ & _).
  simpl in Hrun.
  destruct (insert_boundary_ok M [] dim m Hinv) as (m1 & E & Hinv1 & Hn1 & _ & _ & Hnull).
  rewrite E in Hrun.
  destruct (run_ok M ops m1 m2 Hinv1 Hrun) as (_ & _ & Hkeep).
  assert (Hnull2 : null_class m2 (nextColumnIndex_ m)).
  { apply Hkeep; [lia|]. apply Hnull. reflexivity. }
  split.
  - unfold get_number_of_columns. destruct Hnull2 as [-> H]. exact H.
  - apply null_class_reads. exact Hnull2.
Qed.

Lemma empty_boundary_stores_no_column_witness :
  exists m,
    run Z2_base (make_reserved 0) [Insert_boundary [(0, 1); (1, 1)] (-1)] = Some m /\
    exists m2,
      run Z2_base m
        [Insert_boundary [] (-1); Insert_boundary [(0, 1); (1, 1)] (-1); Add_to 1 0;
         Insert_boundary [] (-1)] = Some m2 /\
      repToColumn_ m2 !! find m2 (get_number_of_columns m) = Some None /\
      get_column m2 (get_number_of_columns m) = Some empty_column_ /\
      is_zero_column m2 (get_number_of_columns m) = Some true /\
      forall rowIndex, is_zero_cell m2 (get_number_of_columns m) rowIndex = Some true.
Proof.
  eexists. split; [vm_compute; reflexivity|].
  eexists. split; [vm_compute; reflexivity|].
  apply (empty_boundary_stores_no_column Z2_base 0
           [Insert_boundary [(0, 1); (1, 1)] (-1)] (-1)
           [Insert_boundary [(0, 1); (1, 1)] (-1); Add_to 1 0; Insert_boundary [] (-1)]).
  - vm_compute. reflexivity.
  - vm_compute. reflexivity.
Defined.

End Matrix_theorems.

(** ** Source and target on the same cells *)

Module Cell_pool_facts.

Import Field_operators.

Section WithOptions.

Variable M : Master_matrix.

Lemma cells_at_nil cells : Cell_pool.cells_at cells [] = Some [].
Proof. reflexivity. Qed.

Lemma cells_at_cons cells a v :
  Cell_pool.cells_at cells (a :: v) =
  match cells !! a with
  | Some c => match Cell_pool.cells_at cells v with Some l => Some (c :: l) | None => None end
  | None => None
  end.
Proof.
  unfold Cell_pool.cells_at. simpl. destruct (cells !! a); simpl; [|reflexivity].
  destruct (mapM _ v); reflexivity.
Qed.

Lemma cells_at_frame cells cells' v :
  (forall a, a ∈ v -> cells' !! a = cells !! a) ->
  Cell_pool.cells_at cells' v = Cell_pool.cells_at cells v.
Proof.
  induction v as [|a v IH]; intros H; [reflexivity|].
  rewrite !cells_at_cons, H by left. rewrite IH; [reflexivity|].
  intros b Hb. apply H. right. exact Hb.
Qed.

Lemma _add_loop_shared pivot pt t cells c :
  cells !! pt = Some c ->
  Cell_pool._add_loop M pivot (pt :: t) (pt :: t) cells =
  if is_z2 M then
    match Cell_pool._add_loop M pivot t t (delete pt cells) with
    | Some (cells', newColumn, z) =>
        Some (cells', newColumn, is_chain M && (get_row_index c =? pivot) || z)
    | None => None
    end
  else
    let e := add_inplace (characteristic M) (get_element c) (get_element c) in
    let cells1 := <[pt := set_element c e]> cells in
    if e =? get_additive_identity then
      match Cell_pool._add_loop M pivot t t (delete pt cells1) with
      | Some (cells', newColumn, z) =>
          Some (cells', newColumn, is_chain M && (get_row_index c =? pivot) || z)
      | None => None
      end
    else
      match Cell_pool._add_loop M pivot t t cells1 with
      | Some (cells', newColumn, z) => Some (cells', pt :: newColumn, z)
      | None => None
      end.
Proof.
  intros Hc. simpl. rewrite Hc. rewrite Z.ltb_irrefl.
  replace (get_row_index c >? get_row_index c) with false
    by (rewrite Z.gtb_ltb, Z.ltb_irrefl; reflexivity).
  reflexivity.
Qed.

Lemma _add_loop_same pivot c l :
  Naive_vector_column._add_loop M pivot (c :: l) (c :: l) =
  if is_z2 M then
    let '(newColumn, z) := Naive_vector_column._add_loop M pivot l l in
    (newColumn, is_chain M && (get_row_index c =? pivot) || z)
  else
    let e := add_inplace (characteristic M) (get_element c) (get_element c) in
    if e =? get_additive_identity then
      let '(newColumn, z) := Naive_vector_column._add_loop M pivot l l in
      (newColumn, is_chain M && (get_row_index c =? pivot) || z)
    else
      let '(newColumn, z) := Naive_vector_column._add_loop M pivot l l in
      (set_element c e :: newColumn, z).
Proof.
  rewrite Column_facts._add_loop_cons. rewrite Z.ltb_irrefl.
  replace (get_row_index c >? get_row_index c) with false
    by (rewrite Z.gtb_ltb, Z.ltb_irrefl; reflexivity).
  reflexivity.
Qed.

(** The merge loop of [_add] on a column added to itself: it returns, and
    the vector it builds designates the cells the loop builds from a copy
    of the column. *)
Lemma _add_loop_aliased pivot v :
  forall cells l, NoDup v -> Cell_pool.cells_at cells v = Some l ->
  exists cells' v',
    Cell_pool._add_loop M pivot v v cells =
      Some (cells', v', snd (Naive_vector_column._add_loop M pivot l l)) /\
    Cell_pool.cells_at cells' v' = Some (fst (Naive_vector_column._add_loop M pivot l l)) /\
    (forall a, a ∉ v -> cells' !! a = cells !! a) /\
    (forall a, a ∈ v' -> a ∈ v).
Proof.
  induction v as [|pt v IH]; intros cells l Hnd Hl.
  - inversion Hl; subst l. exists cells, []. simpl.
    unfold Naive_vector_column.insert_cells. destruct (is_z2 M); auto.
  - rewrite cells_at_cons in Hl.
    destruct (cells !! pt) as [c|] eqn:Hc; [|discriminate].
    destruct (Cell_pool.cells_at cells v) as [l'|] eqn:Hl'; [|discriminate].
    inversion Hl; subst l. clear Hl.
    apply NoDup_cons in Hnd as [Hpt Hnd].
    rewrite (_add_loop_shared pivot pt v cells c Hc), _add_loop_same.
    assert (Hstep : forall cells1, (forall a, a ∈ v -> cells1 !! a = cells !! a) ->
      exists cells' v',
        Cell_pool._add_loop M pivot v v cells1 =
          Some (cells', v', snd (Naive_vector_column._add_loop M pivot l' l')) /\
        Cell_pool.cells_at cells' v' =
          Some (fst (Naive_vector_column._add_loop M pivot l' l')) /\
        (forall a, a ∉ v -> cells' !! a = cells1 !! a) /\
        (forall a, a ∈ v' -> a ∈ v)).
    { intros cells1 H1. apply IH; [exact Hnd|].
      rewrite (cells_at_frame cells cells1 v H1). exact Hl'. }
    destruct (is_z2 M).
    + destruct (Hstep (delete pt cells)) as (cells' & v' & -> & Hc' & Hframe & Hsub).
      { intros a Ha. apply lookup_delete_ne. intros ->. contradiction. }
      destruct (Naive_vector_column._add_loop M pivot l' l') as [newColumn z].
      exists cells', v'. cbn [fst snd] in *. split; [reflexivity|]. split; [exact Hc'|].
      split.
      * intros a Ha. apply not_elem_of_cons in Ha as [Ha1 Ha2].
        rewrite Hframe by exact Ha2. apply lookup_delete_ne. auto.
      * intros a Ha. right. auto.
    + cbv zeta.
      destruct (add_inplace (characteristic M) (get_element c) (get_element c)
                  =? get_additive_identity).
      * destruct (Hstep (delete pt (<[pt := set_element c
                   (add_inplace (characteristic M) (get_element c) (get_element c))]> cells)))
          as (cells' & v' & -> & Hc' & Hframe & Hsub).
        { intros a Ha. rewrite lookup_delete_ne, lookup_insert_ne; auto;
            intros ->; contradiction. }
        destruct (Naive_vector_column._add_loop M pivot l' l') as [newColumn z].
        exists cells', v'. cbn [fst snd] in *. split; [reflexivity|]. split; [exact Hc'|].
        split.
        -- intros a Ha. apply not_elem_of_cons in Ha as [Ha1 Ha2].
           rewrite Hframe by exact Ha2. rewrite lookup_delete_ne, lookup_insert_ne; auto.
        -- intros a Ha. right. auto.
      * destruct (Hstep (<[pt := set_element c
                   (add_inplace (characteristic M) (get_element c) (get_element c))]> cells))
          as (cells' & v' & -> & Hc' & Hframe & Hsub).
        { intros a Ha. rewrite lookup_insert_ne; auto. intros ->. contradiction. }
        destruct (Naive_vector_column._add_loop M pivot l' l') as [newColumn z].
        exists cells', (pt :: v'). cbn [fst snd] in *. split; [reflexivity|]. split.
        -- rewrite cells_at_cons, Hframe by exact Hpt. rewrite lookup_insert_eq, Hc'.
           reflexivity.
        -- split.
           ++ intros a Ha. apply not_elem_of_cons in Ha as [Ha1 Ha2].
              rewrite Hframe by exact Ha2. rewrite lookup_insert_ne; auto.
           ++ intros a Ha. apply elem_of_cons in Ha as [->|Ha]; [left|right; auto].
Qed.

(** X29.  [operator+=] with [*this] as argument: the call returns and
    leaves the cells that the call on a copy of the column gives. *)
Lemma operator_add_assign_aliased h this v l dim :
  Cell_pool.column_ h !! this = Some v -> NoDup v ->
  Cell_pool.cells_at (Cell_pool.cellPool_ h) v = Some l ->
  exists h',
    Cell_pool.operator_add_assign M this this h = Some h' /\
    Cell_pool.content h' this =
    Some (Naive_vector_column.column_
            (fst (Naive_vector_column.operator_add_assign_range M l
                    {| Naive_vector_column.column_ := l;
                       Naive_vector_column.pivot_ := -1;
                       Naive_vector_column.dim_ := dim |}))).
Proof.
  intros Hv Hnd Hl.
  unfold Cell_pool.operator_add_assign, Cell_pool._add. rewrite Hv.
  destruct v as [|pt v].
  - inversion Hl; subst l. exists h. split; [reflexivity|].
    unfold Cell_pool.content. rewrite Hv. reflexivity.
  - destruct (_add_loop_aliased (-1) (pt :: v) _ l Hnd Hl) as (cells' & v' & -> & Hc' & _ & _).
    eexists. split; [reflexivity|].
    unfold Cell_pool.content, Cell_pool.set_column, Cell_pool.set_cells. simpl.
    rewrite lookup_insert_eq. simpl. rewrite Hc'.
    rewrite cells_at_cons in Hl. destruct (_ !! pt); [|discriminate].
    destruct (Cell_pool.cells_at _ v); [|discriminate]. inversion Hl; subst l.
    unfold Naive_vector_column.operator_add_assign_range, bind, Naive_vector_column._add.
    cbn [Naive_vector_column.column_ Naive_vector_column.pivot_].
    destruct (Naive_vector_column._add_loop M (-1) (c :: l0) (c :: l0)). reflexivity.
Qed.

(** Over Z/2 a column added to itself is the zero column. *)
Lemma _add_loop_self_z2 pivot l :
  is_z2 M = true -> fst (Naive_vector_column._add_loop M pivot l l) = [].
Proof.
  intros Ez. induction l as [|c l IH].
  - rewrite Column_facts._add_loop_nil_l. unfold Naive_vector_column.insert_cells.
    rewrite Ez. reflexivity.
  - rewrite _add_loop_same, Ez.
    destruct (Naive_vector_column._add_loop M pivot l l). exact IH.
Qed.

End WithOptions.

End Cell_pool_facts.

Module Aliasing_theorems.

Import Naive_vector_column Base_matrix_with_column_compression Matrix_spec Matrix_facts.
Import Examples.

(** X28.  [add_to] inside one class whose column is stored: the call
    returns and every index of the class is left with the sum of the column
    with itself, the zero column over Z/2. *)
Lemma add_to_same_class M k ops m src tgt a :
  run M (make_reserved k) ops = Some m ->
  find m src = find m tgt ->
  repToColumn_ m !! find m tgt = Some (Some a) ->
  exists target m',
    columnPool_ m !! a = Some target /\
    add_to M src tgt m = Some m' /\
    (forall j, find m j = find m tgt ->
       content_of m' j =
       Some (column_ (fst (operator_add_assign_range M (column_ (col target)) (col target))))) /\
    (is_z2 M = true -> forall j, find m j = find m tgt -> content_of m' j = Some []).
Proof.
  intros Hrun Hclass Hslot.
  destruct (run_ok M ops _ m (invariant_make_reserved M k) Hrun) as (Hinv & _ & _).
  assert (Hsrc : is_Some (repToColumn_ m !! find m src)) by (rewrite Hclass, Hslot; eauto).
  destruct (add_to_ok M src tgt m a Hinv Hslot Hsrc)
    as (target & source & m' & Htarget & Hsource & Hadd & _ & _ & Hcontent & _).
  assert (source = column_ (col target)) as ->.
  { unfold content_of, get_column in Hsource. fold (find m src) in Hsource.
    rewrite Hclass, Hslot in Hsource. simpl in Hsource. rewrite Htarget in Hsource.
    inversion Hsource. reflexivity. }
  exists target, m'. split; [exact Htarget|]. split; [exact Hadd|]. split; [exact Hcontent|].
  intros Ez j Hj. rewrite (Hcontent j Hj). f_equal.
  unfold operator_add_assign_range, bind, _add.
  destruct (column_ (col target)) as [|c l] eqn:E; [simpl; exact E|].
  pose proof (Cell_pool_facts._add_loop_self_z2 M (pivot_ (col target)) (c :: l) Ez) as H.
  destruct (_add_loop M (pivot_ (col target)) (c :: l) (c :: l)). simpl in *. exact H.
Qed.

(** C4, the failing input.  Over Z/2, after [add_to(0, 0)] has left the
    class of column 0 with the zero column, the slot of the class is null
    and a second [add_to(0, 0)] dereferences it.  At the level of the
    columns, [multiply_target_and_add(0, column)] with [column] the target
    itself clears the target before it reads the source, and leaves the
    empty column where the same call on a copy leaves [0 * a + a = a]. *)
Theorem add_to_again_on_its_own_class :
  (exists m1,
     run Z2_base make [Insert_boundary [(0, 1); (1, 1)] (-1); Add_to 0 0] = Some m1 /\
     content_of m1 0 = Some [] /\
     repToColumn_ m1 !! find m1 0 = Some None /\
     add_to Z2_base 0 0 m1 = None) /\
  Cell_pool.content shared_heap 0 = Some (column_ column_a) /\
  Cell_pool.multiply_target_and_add Z5_base 0 0 0 shared_heap
    ≫= (fun h => Cell_pool.content h 0) = Some [] /\
  column_ (fst (multiply_target_and_add_range Z5_base 0 (column_ column_a) column_a)) =
  column_ column_a.
Proof.
  split.
  - eexists. split; [vm_compute; reflexivity|].
    split; [vm_compute; reflexivity|]. split; vm_compute; reflexivity.
  - split; [vm_compute; reflexivity|]. split; vm_compute; reflexivity.
Qed.

End Aliasing_theorems.

(** ** Columns: the other operations, in the dense reading *)

Module Column_extras.

Import Field_operators Naive_vector_column Column_spec Column_facts Column_theorems Examples.
Import Chain_facts More_examples Pivot_exchange.

(** X1.  [operator+=], both overloads: the dense expansion of the target becomes
    the pointwise sum, the cells of the source stay, and the overload for a
    range of cells, which exists for the columns that are not chain
    columns, computes the same cells. *)
Theorem operator_add_assign_dense M a b n :
  field_options M ->
  well_formed M (column_ a) -> well_formed M (column_ b) -> 0 <= n ->
  exists a' b',
    operator_add_assign M (a, b) = ((a', b'), inr tt) /\
    column_ b' = column_ b /\
    (is_chain M = false ->
     column_ (fst (operator_add_assign_range M (column_ b) a)) = column_ a') /\
    well_formed M (column_ a') /\
    get_content M a' n
    = zip_with (fun x y => (x + y) mod characteristic M)
        (get_content M a n) (get_content M b n).
Proof.
  intros HM Ha Hb Hn.
  destruct (_add_ok M HM (column_ b) a Ha Hb) as (l & z & E & W & Hcoef).
  assert (Hdense : forall a', column_ a' = l ->
    get_content M a' n
    = zip_with (fun x y => (x + y) mod characteristic M)
        (get_content M a n) (get_content M b n)).
  { intros a' Ea'. apply get_content_zip; try assumption.
    - apply well_formed_iff in Ha as [H _]. exact H.
    - apply well_formed_iff in Hb as [H _]. exact H.
    - rewrite Ea'. apply well_formed_iff in W as [H _]. exact H.
    - rewrite Ea'. exact Hcoef. }
  assert (Hrange : column_ (fst (operator_add_assign_range M (column_ b) a)) = l).
  { unfold operator_add_assign_range. run_throws. rewrite E. reflexivity. }
  unfold operator_add_assign. run_throws.
  destruct (is_chain M); run_throws; rewrite E; [destruct z|]; run_throws;
    eexists; eexists; (split; [reflexivity|]); simpl;
    (split; [reflexivity|]); (split; [intros _; exact Hrange|]); (split; [exact W|]);
    apply Hdense; reflexivity.
Qed.

Lemma operator_add_assign_dense_witness :
  exists a' b',
    operator_add_assign Z5_base (column_a, column_b) = ((a', b'), inr tt) /\
    column_ b' = column_ column_b /\
    (is_chain Z5_base = false ->
     column_ (fst (operator_add_assign_range Z5_base (column_ column_b) column_a))
     = column_ a') /\
    well_formed Z5_base (column_ a') /\
    get_content Z5_base a' 3
    = zip_with (fun x y => (x + y) mod characteristic Z5_base)
        (get_content Z5_base column_a 3) (get_content Z5_base column_b 3).
Proof.
  apply (operator_add_assign_dense Z5_base column_a column_b 3).
  - apply field_options_Z5_base.
  - solve_well_formed.
  - solve_well_formed.
  - lia.
Defined.

(** X2.  [multiply_source_and_add], both overloads: the call returns, the
    dense expansion of the target becomes [a + val * b], and the cells of
    the source stay.  With [val = 0] neither column is modified at all, also
    for chain columns.  Columns that are not chain columns leave the source
    itself unchanged, and the overload for a range of cells computes the
    same cells.  Chain columns exchange their stored pivots and their
    dimensions exactly when the call zeroes the stored pivot row of the
    target (or, over Z/2, finds the target without cells and the source
    with some); otherwise the target keeps its stored pivot and dimension
    and the source is unchanged. *)
Theorem multiply_source_and_add_dense M a b val n :
  field_options M ->
  well_formed M (column_ a) -> well_formed M (column_ b) ->
  0 <= val < characteristic M -> 0 <= n ->
  exists a' b',
    multiply_source_and_add M val (a, b) = ((a', b'), inr tt) /\
    column_ b' = column_ b /\
    well_formed M (column_ a') /\
    get_content M a' n
    = zip_with (fun x y => (x + val * y) mod characteristic M)
        (get_content M a n) (get_content M b n) /\
    (val = 0 -> a' = a /\ b' = b) /\
    (is_chain M = false ->
       pivot_ a' = pivot_ a /\ dim_ a' = dim_ a /\ b' = b /\
       column_ (fst (multiply_source_and_add_range M (column_ b) val a)) = column_ a') /\
    (is_chain M = true ->
       if multiply_source_and_add_exchanges M val a b a'
       then pivot_ a' = pivot_ b /\ dim_ a' = dim_ b /\
            pivot_ b' = pivot_ a /\ dim_ b' = dim_ a
       else pivot_ a' = pivot_ a /\ dim_ a' = dim_ a /\ b' = b).
Proof.
  intros HM Ha Hb Hval Hn.
  destruct (multiply_source_and_add_range_ok M val (column_ b) a HM Hval Ha Hb)
    as (l & z & E & W & Hcoef).
  assert (Hdense : forall a', column_ a' = l ->
    get_content M a' n
    = zip_with (fun x y => (x + val * y) mod characteristic M)
        (get_content M a n) (get_content M b n)).
  { intros a' Ea'. apply get_content_zip; try assumption.
    - apply well_formed_iff in Ha as [H _]. exact H.
    - apply well_formed_iff in Hb as [H _]. exact H.
    - rewrite Ea'. apply well_formed_iff in W as [H _]. exact H.
    - rewrite Ea'. exact Hcoef. }
  assert (Hrange : column_ (fst (multiply_source_and_add_range M (column_ b) val a)) = l).
  { unfold multiply_source_and_add_range.
    destruct (is_z2 M); [destruct (negb (val =? 0))|]; run_throws.
    - rewrite E. reflexivity.
    - apply (f_equal fst) in E. simpl in E. rewrite E. reflexivity.
    - rewrite E. reflexivity. }
  assert (Hcall : exists a' b',
    multiply_source_and_add M val (a, b) = ((a', b'), inr tt) /\
    column_ a' = l /\ column_ b' = column_ b).
  { unfold multiply_source_and_add. run_throws.
    destruct (is_z2 M); [destruct (negb (val =? 0))|].
    - destruct (is_chain M); run_throws; rewrite E; [destruct z|]; run_throws;
        eexists; eexists; (split; [reflexivity|]); split; reflexivity.
    - apply (f_equal fst) in E. simpl in E.
      destruct (is_chain M); run_throws;
        exists a, b; (split; [reflexivity|]); (split; [|reflexivity]);
        rewrite E; reflexivity.
    - destruct (is_chain M); run_throws; rewrite E; [destruct z|]; run_throws;
        eexists; eexists; (split; [reflexivity|]); split; reflexivity. }
  destruct Hcall as (a' & b' & Ecall & Ea' & Eb').
  exists a', b'. split; [exact Ecall|]. split; [exact Eb'|].
  split; [rewrite Ea'; exact W|]. split; [apply Hdense; exact Ea'|].
  split; [|split].
  - intros ->. rewrite (Pivot_flag_facts.multiply_source_and_add_zero M) in Ecall.
    inversion Ecall. auto.
  - intros Hbase.
    destruct (Pivot_flag_facts.multiply_source_and_add_basic M val a b a' b' Hbase Ecall)
      as (P & D & B).
    rewrite Hrange, Ea'. auto.
  - intros Hchain.
    apply (Pivot_flag_facts.multiply_source_and_add_pivots M HM val a b a' b');
      assumption.
Qed.

Lemma multiply_source_and_add_dense_witness :
  (exists a' b',
     multiply_source_and_add Z5_base 2 (column_a, column_b) = ((a', b'), inr tt) /\
     column_ b' = column_ column_b /\
     well_formed Z5_base (column_ a') /\
     get_content Z5_base a' 3
     = zip_with (fun x y => (x + 2 * y) mod characteristic Z5_base)
         (get_content Z5_base column_a 3) (get_content Z5_base column_b 3) /\
     (2 = 0 -> a' = column_a /\ b' = column_b) /\
     (is_chain Z5_base = false ->
        pivot_ a' = pivot_ column_a /\ dim_ a' = dim_ column_a /\ b' = column_b /\
        column_ (fst (multiply_source_and_add_range Z5_base (column_ column_b) 2 column_a))
        = column_ a') /\
     (is_chain Z5_base = true ->
        if multiply_source_and_add_exchanges Z5_base 2 column_a column_b a'
        then pivot_ a' = pivot_ column_b /\ dim_ a' = dim_ column_b /\
             pivot_ b' = pivot_ column_a /\ dim_ b' = dim_ column_a
        else pivot_ a' = pivot_ column_a /\ dim_ a' = dim_ column_a /\ b' = column_b)) /\
  (exists a' b',
     multiply_source_and_add Z5_chain 1 (chain_a, chain_b) = ((a', b'), inr tt) /\
     column_ b' = column_ chain_b /\
     well_formed Z5_chain (column_ a') /\
     get_content Z5_chain a' 6
     = zip_with (fun x y => (x + 1 * y) mod characteristic Z5_chain)
         (get_content Z5_chain chain_a 6) (get_content Z5_chain chain_b 6) /\
     (1 = 0 -> a' = chain_a /\ b' = chain_b) /\
     (is_chain Z5_chain = false ->
        pivot_ a' = pivot_ chain_a /\ dim_ a' = dim_ chain_a /\ b' = chain_b /\
        column_ (fst (multiply_source_and_add_range Z5_chain (column_ chain_b) 1 chain_a))
        = column_ a') /\
     (is_chain Z5_chain = true ->
        if multiply_source_and_add_exchanges Z5_chain 1 chain_a chain_b a'
        then pivot_ a' = pivot_ chain_b /\ dim_ a' = dim_ chain_b /\
             pivot_ b' = pivot_ chain_a /\ dim_ b' = dim_ chain_a
        else pivot_ a' = pivot_ chain_a /\ dim_ a' = dim_ chain_a /\ b' = chain_b)).
Proof.
  split.
  - apply (multiply_source_and_add_dense Z5_base column_a column_b 2 3).
    + apply field_options_Z5_base.
    + solve_well_formed.
    + solve_well_formed.
    + simpl. lia.
    + lia.
  - apply (multiply_source_and_add_dense Z5_chain chain_a chain_b 1 6).
    + apply field_options_Z5_chain.
    + solve_well_formed.
    + solve_well_formed.
    + simpl. lia.
    + lia.
Defined.

Lemma get_content_map M a r n (f : Z -> Z) :
  sorted_from (-1) (column_ a) -> sorted_from (-1) (column_ r) -> 0 <= n ->
  (forall x, coef M (column_ r) x = f (coef M (column_ a) x)) ->
  get_content M r n = map f (get_content M a n).
Proof.
  intros Ha Hr Hn Hf. apply list_eq. intros i.
  destruct (decide (Z.of_nat i < n)) as [Hi|Hi].
  - rewrite list_lookup_fmap, !get_content_lookup by assumption. simpl. rewrite Hf.
    reflexivity.
  - rewrite !lookup_ge_None_2; [reflexivity| |].
    + rewrite length_map, get_content_length by assumption. lia.
    + rewrite get_content_length by assumption. lia.
Qed.

(** X3.  [operator*=]: the dense expansion is multiplied entry by entry; a
    multiple of the characteristic clears a column that is not a chain
    column. *)
Theorem operator_mul_assign_dense M v a n :
  field_options M -> well_formed M (column_ a) -> 0 <= n ->
  (is_chain M = true -> v mod characteristic M <> 0) ->
  exists a',
    operator_mul_assign M v a = (a', inr tt) /\
    well_formed M (column_ a') /\
    (v mod characteristic M = 0 -> column_ a' = []) /\
    get_content M a' n = map (fun x => (v * x) mod characteristic M) (get_content M a n).
Proof.
  intros HM Ha Hn Hchain. pose proof (field_options_pos M HM) as Hp.
  pose proof Ha as Ha'. apply well_formed_iff in Ha' as [Hs Hv].
  assert (Hfinish : forall a', well_formed M (column_ a') ->
    (forall x, coef M (column_ a') x = (v * coef M (column_ a) x) mod characteristic M) ->
    get_content M a' n = map (fun x => (v * x) mod characteristic M) (get_content M a n)).
  { intros a' W Hc. apply get_content_map; try assumption.
    apply well_formed_iff in W as [H _]. exact H. }
  unfold operator_mul_assign, get_value, get_additive_identity, get_multiplicative_identity.
  destruct (is_z2 M) eqn:Hz2.
  - assert (Hp2 : characteristic M = 2) by (destruct HM as [_ H]; auto).
    rewrite Hp2 in *.
    destruct (Z.eqb_spec (v mod 2) 0) as [H0|H0].
    + destruct (is_chain M); [exfalso; apply Hchain; [reflexivity|exact H0]|].
      exists (clear a). split; [reflexivity|]. split; [apply well_formed_nil|].
      split; [reflexivity|]. apply Hfinish; [apply well_formed_nil|].
      intros x. simpl. rewrite coef_nil, Z.mul_mod, H0 by lia. reflexivity.
    + exists a. split; [reflexivity|]. split; [exact Ha|]. split; [contradiction|].
      apply Hfinish; [exact Ha|]. intros x.
      assert (v mod 2 = 1) by (pose proof (Z.mod_pos_bound v 2); lia).
      rewrite Z.mul_mod, H by lia.
      destruct (coef_z2_range M (column_ a) x Hz2) as [->| ->]; reflexivity.
  - destruct (Z.eqb_spec (v mod characteristic M) 0) as [H0|H0].
    + destruct (is_chain M); [exfalso; apply Hchain; [reflexivity|exact H0]|].
      exists (clear a). split; [reflexivity|]. split; [apply well_formed_nil|].
      split; [reflexivity|]. apply Hfinish; [apply well_formed_nil|].
      intros x. simpl. rewrite coef_nil, Z.mul_mod, H0 by lia. reflexivity.
    + destruct (Z.eqb_spec (v mod characteristic M) 1) as [H1|H1].
      * exists a. split; [reflexivity|]. split; [exact Ha|]. split; [contradiction|].
        apply Hfinish; [exact Ha|]. intros x.
        rewrite Z.mul_mod, H1, Z.mul_1_l, Z.mod_mod by lia.
        symmetry. apply coef_mod; assumption.
      * assert (Hval : 0 < v mod characteristic M < characteristic M)
          by (pose proof (Z.mod_pos_bound v (characteristic M)); lia).
        pose proof (scale_cells_ok M _ (column_ a) HM Hz2 Hval Ha) as W.
        destruct (map_keeps M (mta_ft M (v mod characteristic M))
                    (fun e => (e * (v mod characteristic M) + 0) mod characteristic M)
                    (-1) (column_ a)) as (_ & _ & Hc); try assumption.
        { apply keeps_mta_ft; assumption. }
        { reflexivity. }
        eexists. split; [reflexivity|]. split; [exact W|]. split; [contradiction|].
        apply Hfinish; [exact W|]. intros x. simpl. unfold mta_ft in Hc. rewrite Hc.
        rewrite Z.add_0_r, Z.mul_mod_idemp_r by lia. f_equal. lia.
Qed.

Lemma operator_mul_assign_dense_witness :
  exists a',
    operator_mul_assign Z5_base 3 column_a = (a', inr tt) /\
    well_formed Z5_base (column_ a') /\
    (3 mod characteristic Z5_base = 0 -> column_ a' = []) /\
    get_content Z5_base a' 3
    = map (fun x => (3 * x) mod characteristic Z5_base) (get_content Z5_base column_a 3).
Proof.
  apply (operator_mul_assign_dense Z5_base 3 column_a 3).
  - apply field_options_Z5_base.
  - solve_well_formed.
  - lia.
  - intros H. discriminate H.
Defined.

(** X4.  [get_pivot], which exists for the columns of a matrix that is not
    basic, on a column of boundary type: -1 exactly for the empty column,
    otherwise a row that is stored while no row above it is. *)
Theorem get_pivot_is_largest_row M c :
  isNonBasic M = true -> is_of_boundary_type M = true ->
  field_options M -> well_formed M (column_ c) ->
  (get_pivot M c = -1 <-> column_ c = []) /\
  (column_ c <> [] -> is_non_zero c (get_pivot M c) = true) /\
  (forall x, get_pivot M c < x -> is_non_zero c x = false).
Proof.
  intros _ Hb HM Hc. apply well_formed_iff in Hc as [Hs Hv].
  assert (Hpivot : get_pivot M c = largest_row (column_ c)).
  { unfold get_pivot, largest_row. rewrite Hb. reflexivity. }
  rewrite Hpivot.
  assert (Hnz : forall x, is_non_zero c x = has_row (column_ c) x) by reflexivity.
  split; [|split].
  - split.
    + intros E. destruct (column_ c) as [|x l] eqn:El; [reflexivity|].
      destruct (largest_row_present M (-1) (x :: l) HM Hs Hv) as [_ H]; [discriminate|].
      lia.
    + intros ->. reflexivity.
  - intros Hne. destruct (largest_row_present M (-1) (column_ c) HM Hs Hv Hne) as [H _].
    rewrite Hnz. destruct (has_row (column_ c) (largest_row (column_ c))) eqn:E;
      [reflexivity|].
    exfalso. apply H. apply coef_zero_iff; assumption.
  - intros x Hx. rewrite Hnz.
    assert (-1 <= largest_row (column_ c)).
    { destruct (column_ c) as [|y l] eqn:El; [unfold largest_row; simpl; lia|].
      destruct (largest_row_present M (-1) (y :: l) HM Hs Hv) as [_ H]; [discriminate|].
      lia. }
    apply (coef_zero_iff M); try assumption.
    apply (largest_row_above M (-1)); [assumption|assumption|lia].
Qed.

Lemma get_pivot_is_largest_row_witness :
  (get_pivot Z5_boundary column_a = -1 <-> column_ column_a = []) /\
  (column_ column_a <> [] -> is_non_zero column_a (get_pivot Z5_boundary column_a) = true) /\
  (forall x, get_pivot Z5_boundary column_a < x -> is_non_zero column_a x = false).
Proof.
  apply (get_pivot_is_largest_row Z5_boundary column_a).
  - reflexivity.
  - reflexivity.
  - split; [exact prime_5|discriminate].
  - solve_well_formed.
Defined.

Lemma clear_row_loop_coef M r l : forall lo,
  sorted_from lo l ->
  forall x, coef M (clear_row_loop r l) x = if x =? r then 0 else coef M l x.
Proof.
  induction l as [|c l IH]; intros lo Hs x; simpl.
  - rewrite coef_nil. destruct (x =? r); reflexivity.
  - destruct Hs as [H1 H2]. destruct (Z.eqb_spec (get_row_index c) r) as [E|E].
    + destruct (Z.eqb_spec x r) as [->|Hx].
      * apply (coef_above M (get_row_index c)); [exact H2|lia].
      * rewrite coef_tail by lia. reflexivity.
    + rewrite !coef_cons. destruct (Z.eqb_spec (get_row_index c) x) as [E'|E'].
      * destruct (Z.eqb_spec x r); [lia|reflexivity].
      * apply (IH _ H2).
Qed.

(** X5.  [clear(rowIndex)], which exists for the columns that are not chain
    columns: the entry of that row becomes zero and the other entries of
    the dense expansion stay; the size drops by one exactly when the row
    was stored. *)
Theorem clear_row_dense M c r n :
  is_chain M = false -> well_formed M (column_ c) -> 0 <= r -> 0 <= n ->
  well_formed M (column_ (clear_row c r)) /\
  is_non_zero (clear_row c r) r = false /\
  size (clear_row c r) = (size c - (if is_non_zero c r then 1 else 0))%nat /\
  get_content M (clear_row c r) n = <[Z.to_nat r := 0]> (get_content M c n).
Proof.
  intros _ Hc Hr Hn. pose proof (clear_row_ok M c r Hc) as W.
  pose proof Hc as Hc'. apply well_formed_iff in Hc' as [Hs Hv].
  pose proof W as W'. apply well_formed_iff in W' as [Hs' _].
  split; [exact W|]. split; [|split].
  - unfold is_non_zero, clear_row. simpl. clear W Hs' Hv Hc.
    generalize dependent (-1). induction (column_ c) as [|x l IH]; intros lo Hs; simpl;
      [reflexivity|].
    destruct Hs as [H1 H2]. destruct (Z.eqb_spec (get_row_index x) r) as [E|E].
    + apply (has_row_above (get_row_index x)); [exact H2|lia].
    + simpl. destruct (Z.eqb_spec (get_row_index x) r); [contradiction|]. simpl.
      apply (IH _ H2).
  - unfold size, is_non_zero, clear_row. simpl. clear W Hs' Hv Hc Hs.
    induction (column_ c) as [|x l IH]; simpl; [reflexivity|].
    destruct (get_row_index x =? r); simpl; [lia|].
    rewrite IH. destruct (existsb _ l) eqn:E; [|lia].
    destruct l; [discriminate|simpl; lia].
  - apply list_eq. intros i.
    destruct (decide (Z.of_nat i < n)) as [Hi|Hi].
    + rewrite get_content_lookup by assumption.
      simpl. rewrite (clear_row_loop_coef M r (column_ c) (-1) Hs).
      destruct (Z.eqb_spec (Z.of_nat i) r) as [E|E].
      * replace (Z.to_nat r) with i by lia.
        rewrite list_lookup_insert_eq; [reflexivity|].
        rewrite get_content_length by assumption. lia.
      * rewrite list_lookup_insert_ne by lia.
        rewrite get_content_lookup by assumption. reflexivity.
    + rewrite !lookup_ge_None_2; [reflexivity| |].
      * rewrite length_insert, get_content_length by assumption. lia.
      * rewrite get_content_length by assumption. lia.
Qed.

Lemma clear_row_dense_witness :
  well_formed Z5_base (column_ (clear_row column_a 2)) /\
  is_non_zero (clear_row column_a 2) 2 = false /\
  size (clear_row column_a 2) = (size column_a - (if is_non_zero column_a 2 then 1 else 0))%nat /\
  get_content Z5_base (clear_row column_a 2) 3
  = <[Z.to_nat 2 := 0]> (get_content Z5_base column_a 3).
Proof.
  apply (clear_row_dense Z5_base column_a 2 3).
  - reflexivity.
  - solve_well_formed.
  - lia.
  - lia.
Defined.

Lemma coef_of_cell M l : forall lo c,
  sorted_from lo l -> In c l -> coef M l (get_row_index c) = value_of M c.
Proof.
  induction l as [|a l IH]; intros lo c Hs Hin; [destruct Hin|].
  destruct Hs as [H1 H2]. rewrite coef_cons. destruct Hin as [->|Hin].
  - rewrite Z.eqb_refl. reflexivity.
  - destruct (Z.eqb_spec (get_row_index a) (get_row_index c)) as [E|E].
    + apply sorted_from_Forall in H2. rewrite Forall_forall in H2.
      specialize (H2 c (proj2 (list_elem_of_In _ _) Hin)). lia.
    + apply (IH _ _ H2 Hin).
Qed.

Lemma has_row_In l x : has_row l x = true <-> exists c, In c l /\ get_row_index c = x.
Proof.
  unfold has_row. rewrite existsb_exists. split; intros (c & H1 & H2); exists c;
    (split; [exact H1|]); [apply Z.eqb_eq|apply Z.eqb_eq]; exact H2.
Qed.

Lemma sort_insert_length c l : length (sort_insert c l) = S (length l).
Proof.
  induction l as [|a l IH]; simpl; [reflexivity|].
  destruct (_ <? _); simpl; [rewrite IH|]; reflexivity.
Qed.

Lemma sort_cells_length l : length (sort_cells l) = length l.
Proof.
  induction l as [|a l IH]; simpl; [reflexivity|]. rewrite sort_insert_length, IH.
  reflexivity.
Qed.

(** X6.  [reorder], which exists for the columns that are not chain columns,
    with a map that is one-to-one on the stored rows: every stored entry
    moves to the row the map gives, and no other row is stored
    afterwards. *)
Theorem reorder_moves_entries M valueMap c :
  is_chain M = false ->
  well_formed M (column_ c) -> row_permutation valueMap (column_ c) ->
  exists c',
    reorder valueMap c = (c', inr tt) /\
    well_formed M (column_ c') /\
    size c' = size c /\
    (forall r r', is_non_zero c r = true -> valueMap r = Some r' ->
       coef M (column_ c') r' = coef M (column_ c) r) /\
    (forall y, (forall r, is_non_zero c r = true -> valueMap r <> Some y) ->
       is_non_zero c' y = false).
Proof.
  intros _ Hc Hperm. destruct (reorder_ok M valueMap c Hc Hperm) as (l & E & W).
  destruct Hperm as [Hdef Hinj].
  set (f := fun c0 : Cell => set_row_index c0 (default 0 (valueMap (get_row_index c0)))).
  assert (El : l = sort_cells (map f (column_ c))).
  { unfold reorder in E.
    rewrite reorder_loop_ok in E
      by (intros x Hx; destruct (Hdef x Hx) as (r & Hr & _); eauto).
    simpl in E. apply (f_equal (fun s => column_ (fst s))) in E. simpl in E.
    symmetry. exact E. }
  exists (with_column c l). split; [exact E|]. split; [exact W|].
  apply well_formed_iff in Hc as [Hs Hv]. apply well_formed_iff in W as [Hs' Hv'].
  assert (Hmem : forall y, In y l <-> exists x, In x (column_ c) /\ y = f x).
  { intros y. rewrite El, sort_cells_In, in_map_iff. split; intros (x & A & B); exists x;
      [split; [exact B|symmetry; exact A]|split; [symmetry; exact B|exact A]]. }
  split; [|split].
  - unfold size. simpl. rewrite El, sort_cells_length, length_map. reflexivity.
  - intros r r' Hr Hmap. simpl.
    apply (proj1 (has_row_In _ _)) in Hr as (x & Hx & <-).
    assert (Hfx : In (f x) l) by (apply Hmem; eauto).
    assert (Erow : get_row_index (f x) = r') by (unfold f; simpl; rewrite Hmap; reflexivity).
    rewrite <- Erow, (coef_of_cell M l (-1) (f x) Hs' Hfx).
    rewrite (coef_of_cell M (column_ c) (-1) x Hs Hx). reflexivity.
  - intros y Hy. unfold is_non_zero. simpl. fold (has_row l y).
    destruct (has_row l y) eqn:Ey; [|reflexivity]. exfalso.
    apply (proj1 (has_row_In _ _)) in Ey as (z & Hz & Ez).
    apply Hmem in Hz as (x & Hx & ->).
    destruct (Hdef x Hx) as (rx & Hrx & _).
    apply (Hy (get_row_index x)).
    + apply has_row_In. eauto.
    + rewrite Hrx. f_equal. rewrite <- Ez. unfold f. simpl. rewrite Hrx. reflexivity.
Qed.

Lemma reorder_moves_entries_witness :
  exists c',
    reorder swap_0_2 column_a = (c', inr tt) /\
    well_formed Z5_base (column_ c') /\
    size c' = size column_a /\
    (forall r r', is_non_zero column_a r = true -> swap_0_2 r = Some r' ->
       coef Z5_base (column_ c') r' = coef Z5_base (column_ column_a) r) /\
    (forall y, (forall r, is_non_zero column_a r = true -> swap_0_2 r <> Some y) ->
       is_non_zero c' y = false).
Proof.
  apply (reorder_moves_entries Z5_base swap_0_2 column_a).
  - reflexivity.
  - solve_well_formed.
  - split.
    + intros c [<-|[<-|[]]]; simpl; eexists; (split; [reflexivity|lia]).
    + intros c1 c2 [<-|[<-|[]]] [<-|[<-|[]]]; simpl; intros H; try reflexivity;
        discriminate H.
Defined.

(** X7.  [reorder] when [valueMap.at] throws: the cells before the first row
    the map does not hold have been renamed, the others are untouched and
    the vector has not been sorted. *)
Theorem reorder_out_of_range valueMap c pre x post :
  column_ c = pre ++ x :: post ->
  Forall (fun cell => is_Some (valueMap (get_row_index cell))) pre ->
  valueMap (get_row_index x) = None ->
  reorder valueMap c
  = (with_column c
       (map (fun cell => set_row_index cell (default 0 (valueMap (get_row_index cell)))) pre
          ++ x :: post),
     inl out_of_range).
Proof.
  intros Ec Hpre Hx. unfold reorder. rewrite Ec. clear Ec.
  assert (H : forall done,
    reorder_loop valueMap done (pre ++ x :: post)
    = (done ++ map (fun cell => set_row_index cell
                      (default 0 (valueMap (get_row_index cell)))) pre ++ x :: post,
       Some out_of_range)).
  { induction Hpre as [|a pre [r Hr] Hpre IH]; intros done; simpl.
    - rewrite Hx. reflexivity.
    - rewrite Hr. simpl. rewrite IH, <- app_assoc. reflexivity. }
  rewrite H. reflexivity.
Qed.

Lemma reorder_out_of_range_witness :
  reorder swap_0_2 {| column_ := [cell 0 1; cell 1 1; cell 2 3]; pivot_ := -1; dim_ := 1 |}
  = (with_column {| column_ := [cell 0 1; cell 1 1; cell 2 3]; pivot_ := -1; dim_ := 1 |}
       (map (fun cell => set_row_index cell (default 0 (swap_0_2 (get_row_index cell))))
            [cell 0 1] ++ cell 1 1 :: [cell 2 3]),
     inl out_of_range).
Proof.
  apply (reorder_out_of_range swap_0_2 _ [cell 0 1] (cell 1 1) [cell 2 3]).
  - reflexivity.
  - repeat constructor. simpl. eauto.
  - reflexivity.
Defined.



(** X9.  The constructor from a boundary and [get_content]: the dense expansion
    holds the coefficient of every entry of the boundary, reduced modulo
    the characteristic (1 under Z/2), and 0 at the rows the boundary does
    not name; the dimension is the number of entries minus one, 0 for the
    empty boundary. *)
Theorem make_get_content M b n :
  field_options M -> sorted_boundary M b -> 0 <= n ->
  size (make M b) = length b /\
  dim_ (make M b) = Z.max 0 (Z.of_nat (length b) - 1) /\
  (forall r v, In (r, v) b -> r < n ->
     get_content M (make M b) n !! Z.to_nat r
     = Some (if is_z2 M then 1 else v mod characteristic M)) /\
  (forall i : nat, Z.of_nat i < n -> ~ In (Z.of_nat i) (map fst b) ->
     get_content M (make M b) n !! i = Some 0).
Proof.
  intros HM Hb Hn. pose proof (cells_of_boundary_ok M b HM Hb) as W.
  apply well_formed_iff in W as [Hs Hv]. destruct Hb as [Hsorted Hrows].
  split; [|split; [|split]].
  - unfold size, make, cells_of_boundary. simpl. destruct (is_z2 M); apply length_map.
  - unfold make. simpl. destruct b as [|e b]; [reflexivity|].
    replace (Z.of_nat (length (e :: b)) =? 0) with false
      by (symmetry; apply Z.eqb_neq; simpl; lia).
    simpl length. lia.
  - intros r v Hin Hr.
    assert (Hr0 : 0 <= r).
    { rewrite Forall_forall in Hrows.
      destruct (Hrows (r, v) (proj2 (list_elem_of_In _ _) Hin)) as [H _]. exact H. }
    rewrite get_content_lookup by (try assumption; simpl; try assumption; lia).
    rewrite Z2Nat.id by lia. f_equal. simpl.
    set (c := if is_z2 M then _update_cell_z2 r
              else _update_cell (get_value (characteristic M) v) r).
    assert (Hc : In c (cells_of_boundary M b)).
    { unfold cells_of_boundary, c. destruct (is_z2 M);
        apply in_map_iff; exists (r, v); split; auto. }
    assert (Erow : get_row_index c = r) by (unfold c; destruct (is_z2 M); reflexivity).
    rewrite <- Erow, (coef_of_cell M _ (-1) c Hs Hc).
    unfold value_of, c. destruct (is_z2 M); reflexivity.
  - intros i Hi Hnot.
    rewrite get_content_lookup by (try assumption; simpl; try assumption; lia).
    f_equal. simpl. apply coef_no_row.
    destruct (has_row (cells_of_boundary M b) (Z.of_nat i)) eqn:E; [|reflexivity].
    exfalso. apply Hnot. apply (proj1 (has_row_In _ _)) in E as (c & Hc & Ec).
    rewrite <- Ec. unfold cells_of_boundary in Hc.
    destruct (is_z2 M); apply in_map_iff in Hc as (e & <- & He); simpl;
      apply in_map; exact He.
Qed.

Lemma make_get_content_witness :
  size (make Z5_base boundary0) = length boundary0 /\
  dim_ (make Z5_base boundary0) = Z.max 0 (Z.of_nat (length boundary0) - 1) /\
  (forall r v, In (r, v) boundary0 -> r < 3 ->
     get_content Z5_base (make Z5_base boundary0) 3 !! Z.to_nat r
     = Some (if is_z2 Z5_base then 1 else v mod characteristic Z5_base)) /\
  (forall i : nat, Z.of_nat i < 3 -> ~ In (Z.of_nat i) (map fst boundary0) ->
     get_content Z5_base (make Z5_base boundary0) 3 !! i = Some 0).
Proof.
  apply (make_get_content Z5_base boundary0 3).
  - apply field_options_Z5_base.
  - apply (bool_decide_unpack _). vm_compute. exact I.
  - lia.
Defined.

Lemma operator_lt_trans M a : forall b c,
  operator_lt M a b = true -> operator_lt M b c = true -> operator_lt M a c = true.
Proof.
  induction a as [|x a IH]; intros [|y b] [|z c]; simpl; try discriminate; auto.
  destruct (Z.eqb_spec (get_row_index x) (get_row_index y)) as [Exy|Exy];
    destruct (Z.eqb_spec (get_row_index y) (get_row_index z)) as [Eyz|Eyz];
    destruct (Z.eqb_spec (get_row_index x) (get_row_index z)) as [Exz|Exz];
    simpl; try lia;
    try (intros H1 H2; apply Z.ltb_lt in H1; apply Z.ltb_lt in H2; lia);
    try (intros H1 H2; apply Z.ltb_lt in H2; apply Z.ltb_lt; lia);
    try (intros H1 H2; apply Z.ltb_lt in H1; apply Z.ltb_lt; lia).
  - destruct (is_z2 M); simpl; [apply IH|].
    destruct (Z.eqb_spec (get_element x) (get_element y)) as [Fxy|Fxy];
      destruct (Z.eqb_spec (get_element y) (get_element z)) as [Fyz|Fyz];
      destruct (Z.eqb_spec (get_element x) (get_element z)) as [Fxz|Fxz];
      simpl; try lia; try apply IH;
      try (intros H1 H2; apply Z.ltb_lt in H1; apply Z.ltb_lt in H2; lia);
      try (intros H1 H2; apply Z.ltb_lt in H2; apply Z.ltb_lt; lia);
      try (intros H1 H2; apply Z.ltb_lt in H1; apply Z.ltb_lt; lia).
Qed.

Lemma operator_eq_lt M a : forall b,
  operator_eq M a b = negb (operator_lt M a b) && negb (operator_lt M b a).
Proof.
  unfold operator_eq.
  induction a as [|x a IH]; intros [|y b]; simpl; try reflexivity.
  specialize (IH b).
  destruct (Nat.eqb_spec (length a) (length b)) as [El|El]; simpl in IH.
  - rewrite (Z.eqb_sym (get_row_index y)), (Z.eqb_sym (get_element y)).
    destruct (Z.eqb_spec (get_row_index x) (get_row_index y)) as [Er|Er]; simpl.
    + destruct (is_z2 M); simpl; [exact IH|].
      destruct (Z.eqb_spec (get_element x) (get_element y)) as [Ee|Ee]; simpl;
        [exact IH|].
      destruct (Z.ltb_spec (get_element x) (get_element y));
        destruct (Z.ltb_spec (get_element y) (get_element x)); simpl; try reflexivity; lia.
    + destruct (is_z2 M); simpl;
        destruct (Z.ltb_spec (get_row_index x) (get_row_index y));
        destruct (Z.ltb_spec (get_row_index y) (get_row_index x)); simpl;
        try reflexivity; lia.
  - rewrite (Z.eqb_sym (get_row_index y)), (Z.eqb_sym (get_element y)).
    destruct (Z.eqb_spec (get_row_index x) (get_row_index y)) as [Er|Er]; simpl.
    + destruct (is_z2 M); simpl; [exact IH|].
      destruct (Z.eqb_spec (get_element x) (get_element y)) as [Ee|Ee]; simpl;
        [exact IH|].
      destruct (Z.ltb_spec (get_element x) (get_element y));
        destruct (Z.ltb_spec (get_element y) (get_element x)); simpl; try reflexivity; lia.
    + destruct (Z.ltb_spec (get_row_index x) (get_row_index y));
        destruct (Z.ltb_spec (get_row_index y) (get_row_index x)); simpl;
        try reflexivity; lia.
Qed.

Lemma operator_eq_trans M a : forall b c,
  operator_eq M a b = true -> operator_eq M b c = true -> operator_eq M a c = true.
Proof.
  unfold operator_eq.
  induction a as [|x a IH]; intros [|y b] [|z c]; simpl; try discriminate; auto.
  specialize (IH b c).
  destruct (Nat.eqb_spec (length a) (length b)) as [E1|E1]; simpl; [|discriminate].
  destruct (Nat.eqb_spec (length b) (length c)) as [E2|E2]; simpl;
    [|intros _ H; discriminate H].
  destruct (Nat.eqb_spec (length a) (length c)) as [E3|E3]; simpl; [|lia].
  simpl in IH.
  destruct (is_z2 M).
  - destruct (Z.eqb_spec (get_row_index x) (get_row_index y)); simpl; [|discriminate].
    destruct (Z.eqb_spec (get_row_index y) (get_row_index z)); simpl;
      [|intros _ H; discriminate H].
    destruct (Z.eqb_spec (get_row_index x) (get_row_index z)); simpl; [exact IH|lia].
  - destruct (Z.eqb_spec (get_row_index x) (get_row_index y)); simpl; [|discriminate].
    destruct (Z.eqb_spec (get_element x) (get_element y)); simpl; [|discriminate].
    destruct (Z.eqb_spec (get_row_index y) (get_row_index z)); simpl;
      [|intros _ H; discriminate H].
    destruct (Z.eqb_spec (get_element y) (get_element z)); simpl;
      [|intros _ H; discriminate H].
    destruct (Z.eqb_spec (get_row_index x) (get_row_index z)); simpl; [|lia].
    destruct (Z.eqb_spec (get_element x) (get_element z)); simpl; [exact IH|lia].
Qed.

(** X10.  [operator<] is a strict weak order on columns, as the set of the
    compressed matrix requires, and [operator==] is its equivalence: a
    column is not below itself, the order is transitive, two columns are
    equal exactly when neither is below the other, and equality is
    transitive. *)
Theorem operator_lt_strict_weak_order M :
  (forall a, operator_lt M a a = false) /\
  (forall a b c, operator_lt M a b = true -> operator_lt M b c = true ->
                 operator_lt M a c = true) /\
  (forall a b, operator_eq M a b = negb (operator_lt M a b) && negb (operator_lt M b a)) /\
  (forall a b c, operator_eq M a b = true -> operator_eq M b c = true ->
                 operator_eq M a c = true).
Proof.
  split; [|split; [|split]].
  - intros a. induction a as [|x a IH]; simpl; [reflexivity|].
    rewrite !Z.eqb_refl. simpl. rewrite andb_false_r. exact IH.
  - intros a b c. apply operator_lt_trans.
  - intros a b. apply operator_eq_lt.
  - intros a b c. apply operator_eq_trans.
Qed.

End Column_extras.

(** ** Columns: the binary search and the value at the pivot *)

Module Search_facts.

Import Naive_vector_column Column_spec Column_facts Column_theorems Chain_facts Examples.

Section Bisection.

Context {A : Type} (key : A -> Z) (r : Z) (v : list A).

Hypothesis Hsorted : forall i j x y,
  v !! i = Some x -> v !! j = Some y -> (i <= j)%nat -> key x <= key y.

Lemma lower_bound_loop_spec fuel : forall first count,
  (count <= fuel)%nat -> (first + count <= length v)%nat ->
  (forall i x, (i < first)%nat -> v !! i = Some x -> key x < r) ->
  (forall i x, (first + count <= i)%nat -> v !! i = Some x -> r <= key x) ->
  let k := Std_algorithm.lower_bound_loop (fun x => key x <? r) v fuel first count in
  (k <= length v)%nat /\
  (forall i x, (i < k)%nat -> v !! i = Some x -> key x < r) /\
  (forall i x, (k <= i)%nat -> v !! i = Some x -> r <= key x).
Proof.
  induction fuel as [|fuel IH]; intros first count Hfuel Hlen Hlow Hhigh;
    cbn [Std_algorithm.lower_bound_loop].
  - assert (count = 0)%nat by lia. subst count.
    split; [lia|]. split; [exact Hlow|]. intros i x Hi. apply Hhigh. lia.
  - destruct (Nat.ltb_spec 0 count) as [Hpos|Hzero].
    + set (step := (count / 2)%nat).
      assert (Hstep : (step < count)%nat) by (apply Nat.div_lt; lia).
      destruct (lookup_lt_is_Some_2 v (first + step)) as [x Hx]; [lia|].
      rewrite Hx. destruct (Z.ltb_spec (key x) r) as [Hlt|Hge].
      * apply IH; [lia|lia| |].
        -- intros i y Hi Hy.
           pose proof (Hsorted i (first + step)%nat y x Hy Hx ltac:(lia)). lia.
        -- intros i y Hi. apply Hhigh. lia.
      * apply IH; [lia|lia|exact Hlow|].
        intros i y Hi Hy.
        pose proof (Hsorted (first + step)%nat i x y Hx Hy ltac:(lia)). lia.
    + assert (count = 0)%nat by lia. subst count.
      split; [lia|]. split; [exact Hlow|]. intros i x Hi. apply Hhigh. lia.
Qed.

Lemma binary_search_spec :
  Std_algorithm.binary_search (fun x => key x <? r) (fun x => r <? key x) v = true
  <-> exists x, x ∈ v /\ key x = r.
Proof.
  unfold Std_algorithm.binary_search, Std_algorithm.lower_bound.
  destruct (lower_bound_loop_spec (length v) 0 (length v)) as (Hk & Hlow & Hhigh);
    [lia|lia|intros i x Hi; lia|intros i x Hi Hx; apply lookup_lt_Some in Hx; simpl in Hi; lia|].
  set (k := Std_algorithm.lower_bound_loop _ v (length v) 0 (length v)) in *.
  split.
  - destruct (v !! k) as [x|] eqn:Hx; [|discriminate].
    intros H. apply negb_true_iff, Z.ltb_ge in H.
    exists x. split; [eapply list_elem_of_lookup_2; exact Hx|].
    pose proof (Hhigh k x ltac:(lia) Hx). lia.
  - intros (x & Hin & Hkey). apply list_elem_of_lookup_1 in Hin as [j Hj].
    assert (Hkj : (k <= j)%nat).
    { destruct (decide (k <= j)%nat) as [|Hn]; [assumption|].
      pose proof (Hlow j x ltac:(lia) Hj). lia. }
    destruct (lookup_lt_is_Some_2 v k) as [y Hy].
    { apply lookup_lt_Some in Hj. lia. }
    rewrite Hy. apply negb_true_iff, Z.ltb_ge.
    pose proof (Hsorted k j y x Hy Hj Hkj). lia.
Qed.

End Bisection.

Lemma sorted_from_lookup lo l : forall i j x y,
  sorted_from lo l -> l !! i = Some x -> l !! j = Some y -> (i <= j)%nat ->
  get_row_index x <= get_row_index y.
Proof.
  revert lo. induction l as [|c l IH]; intros lo i j x y Hs Hi Hj Hij; [discriminate|].
  destruct Hs as [H1 H2]. destruct i as [|i], j as [|j]; simpl in *.
  - inversion Hi; inversion Hj; subst. lia.
  - inversion Hi; subst. apply sorted_from_Forall in H2. rewrite Forall_forall in H2.
    specialize (H2 y (list_elem_of_lookup_2 _ _ _ Hj)). lia.
  - lia.
  - apply (IH _ i j x y H2 Hi Hj). lia.
Qed.

(** X11.  [is_non_zero] by binary search, on a column sorted by row: true
    exactly when a cell of that row is stored, which is what the scan of
    the column gives. *)
Theorem is_non_zero_by_search M c rowIndex :
  well_formed M (column_ c) ->
  Naive_vector_column_search.is_non_zero c rowIndex = is_non_zero c rowIndex /\
  (Naive_vector_column_search.is_non_zero c rowIndex = true <->
   exists cell, In cell (column_ c) /\ get_row_index cell = rowIndex).
Proof.
  intros Hc. apply well_formed_iff in Hc as [Hs _].
  assert (H : Naive_vector_column_search.is_non_zero c rowIndex = true <->
              exists cell, In cell (column_ c) /\ get_row_index cell = rowIndex).
  { unfold Naive_vector_column_search.is_non_zero.
    rewrite (binary_search_spec get_row_index rowIndex (column_ c)).
    - split; intros (x & Hx & E); exists x; (split; [|exact E]);
        apply list_elem_of_In; exact Hx.
    - intros i j x y. apply (sorted_from_lookup (-1)). exact Hs. }
  split; [|exact H].
  destruct (is_non_zero c rowIndex) eqn:E.
  - apply H. unfold is_non_zero in E. apply existsb_exists in E as (x & Hx & Ex).
    exists x. split; [exact Hx|apply Z.eqb_eq; exact Ex].
  - apply not_true_is_false. intros E'.
    apply H in E' as (x & Hx & Ex).
    assert (is_non_zero c rowIndex = true) as E2; [|congruence].
    unfold is_non_zero. apply existsb_exists. exists x.
    split; [exact Hx|apply Z.eqb_eq; exact Ex].
Qed.

Lemma is_non_zero_by_search_witness :
  Naive_vector_column_search.is_non_zero column_a 2 = is_non_zero column_a 2 /\
  (Naive_vector_column_search.is_non_zero column_a 2 = true <->
   exists cell, In cell (column_ column_a) /\ get_row_index cell = 2).
Proof.
  apply (is_non_zero_by_search Z5_base column_a 2). solve_well_formed.
Defined.

(** X12.  [get_pivot_value], which exists for the columns of a matrix that is
    not basic, of a column over a field other than Z/2: the entry
    of the dense expansion at the row [get_pivot] returns, and 0 when
    [get_pivot] returns -1. *)
Theorem get_pivot_value_is_pivot_entry M c n :
  isNonBasic M = true ->
  field_options M -> well_formed M (column_ c) -> is_z2 M = false ->
  (get_pivot M c = -1 -> Naive_vector_column_search.get_pivot_value M c = 0) /\
  (0 <= get_pivot M c < n ->
   get_content M c n !! Z.to_nat (get_pivot M c)
   = Some (Naive_vector_column_search.get_pivot_value M c)).
Proof.
  intros _ HM Hc Hz. pose proof Hc as Hc'. apply well_formed_iff in Hc' as [Hs Hv].
  assert (Hloop : forall l pivot,
    Naive_vector_column_search.get_pivot_value_loop pivot l = coef M l pivot).
  { induction l as [|x l IH]; intros pivot; simpl; [reflexivity|].
    rewrite coef_cons, IH. unfold value_of. rewrite Hz. reflexivity. }
  assert (Hval : 0 <= get_pivot M c ->
    Naive_vector_column_search.get_pivot_value M c = coef M (column_ c) (get_pivot M c)).
  { intros Hp. unfold Naive_vector_column_search.get_pivot_value, get_pivot in *. rewrite Hz.
    destruct (is_of_boundary_type M).
    - destruct (last (column_ c)) as [back|] eqn:El; [|lia].
      assert (Hin : In back (column_ c)).
      { apply list_elem_of_In. rewrite last_lookup in El.
        eapply list_elem_of_lookup_2. exact El. }
      rewrite (Column_extras.coef_of_cell M (column_ c) (-1) back Hs Hin).
      unfold value_of. rewrite Hz. reflexivity.
    - destruct (Z.eqb_spec (pivot_ c) (-1)); [lia|]. apply Hloop. }
  split.
  - intros E. unfold Naive_vector_column_search.get_pivot_value, get_pivot in *. rewrite Hz.
    destruct (is_of_boundary_type M).
    + destruct (last (column_ c)) as [back|] eqn:El; [|reflexivity].
      exfalso. rewrite last_lookup in El. apply list_elem_of_lookup_2 in El.
      destruct Hc as [_ Hrows]. unfold no_zeros in Hrows. rewrite Forall_forall in Hrows.
      destruct (Hrows back El) as [H _]. lia.
    + rewrite E. reflexivity.
  - intros Hp. rewrite get_content_lookup by (try assumption; lia).
    rewrite Z2Nat.id by lia. rewrite Hval by lia. reflexivity.
Qed.

Lemma get_pivot_value_is_pivot_entry_witness :
  (get_pivot Z5_chain chain_a = -1 ->
   Naive_vector_column_search.get_pivot_value Z5_chain chain_a = 0) /\
  (0 <= get_pivot Z5_chain chain_a < 4 ->
   get_content Z5_chain chain_a 4 !! Z.to_nat (get_pivot Z5_chain chain_a)
   = Some (Naive_vector_column_search.get_pivot_value Z5_chain chain_a)).
Proof.
  apply (get_pivot_value_is_pivot_entry Z5_chain chain_a 4).
  - reflexivity.
  - apply field_options_Z5_chain.
  - solve_well_formed.
  - reflexivity.
Defined.

End Search_facts.

(** ** The unordered-set column: rows and cached pivot *)

Module Unordered_set_extras.

Import Z2_unordered_set_column.

Lemma add_step_column c v :
  column_ (add_step c v) =
  if bool_decide (v ∈ column_ c) then column_ c ∖ {[ v ]} else {[ v ]} ∪ column_ c.
Proof.
  unfold add_step. destruct (bool_decide (v ∈ column_ c)); [reflexivity|].
  destruct (to_int v >? pivot_ c); reflexivity.
Qed.

Lemma add_step_dim c v : dim_ (add_step c v) = dim_ c.
Proof.
  unfold add_step. destruct (bool_decide (v ∈ column_ c)); [reflexivity|].
  destruct (to_int v >? pivot_ c); reflexivity.
Qed.

Lemma foldl_add_step_column l : forall c,
  NoDup l ->
  column_ (foldl add_step c l) =
  (column_ c ∖ list_to_set l) ∪ (list_to_set l ∖ column_ c).
Proof.
  induction l as [|v l IH]; intros c Hnd; simpl.
  - set_solver.
  - apply NoDup_cons in Hnd as [Hv Hnd]. rewrite IH by exact Hnd.
    rewrite add_step_column.
    assert (Hv' : v ∉ (list_to_set l : gset Z)) by (rewrite elem_of_list_to_set; exact Hv).
    destruct (bool_decide_reflect (v ∈ column_ c)) as [Hin|Hout].
    + apply set_eq. intros x. destruct (decide (x = v)) as [->|Hne]; set_solver.
    + apply set_eq. intros x. destruct (decide (x = v)) as [->|Hne]; set_solver.
Qed.

(** X13.  [add]: the rows of the target become the symmetric difference of the
    rows of the two columns; the dimension stays; adding the same column a
    second time gives the rows back. *)
Theorem add_is_symmetric_difference c column :
  column_ (add c column) = (column_ c ∖ column_ column) ∪ (column_ column ∖ column_ c) /\
  dim_ (add c column) = dim_ c /\
  column_ (add (add c column) column) = column_ c.
Proof.
  assert (H : forall c0, column_ (add c0 column)
            = (column_ c0 ∖ column_ column) ∪ (column_ column ∖ column_ c0)).
  { intros c0. unfold add. rewrite foldl_add_step_column by apply NoDup_elements.
    rewrite list_to_set_elements_L. reflexivity. }
  split; [apply H|]. split.
  - unfold add. generalize (elements (column_ column)). intros l. revert c.
    induction l as [|v l IH]; intros c; simpl; [reflexivity|].
    rewrite IH. apply add_step_dim.
  - rewrite H, H. clear H. apply set_eq. intros x. set_unfold.
    destruct (decide (x ∈ column_ c)), (decide (x ∈ column_ column)); tauto.
Qed.

Import Unordered_set_spec.

Lemma to_int_small v : small v -> to_int v = v.
Proof.
  unfold small, to_int. intros H. destruct (Z.ltb_spec v (2 ^ 31)); [reflexivity|lia].
Qed.

Lemma max_element_spec l :
  Forall (fun x => 0 <= x) l -> l <> [] ->
  max_element l ∈ l /\ forall x, x ∈ l -> x <= max_element l.
Proof.
  unfold max_element. induction l as [|a l IH]; intros Hl Hne; [contradiction|].
  apply Forall_cons in Hl as [Ha Hl]. simpl.
  destruct l as [|b l].
  - simpl. rewrite Z.max_l by lia. split; [left|].
    intros x Hx. apply list_elem_of_singleton in Hx. lia.
  - destruct (IH Hl) as [Hin Hmax]; [discriminate|].
    split.
    + destruct (Z.max_spec a (foldr Z.max 0 (b :: l))) as [[_ ->]|[_ ->]];
        [right; exact Hin|left].
    + intros x Hx. apply elem_of_cons in Hx as [->|Hx]; [lia|].
      specialize (Hmax x Hx). lia.
Qed.

Lemma is_pivot_of_unique rows m m' :
  (forall x, x ∈ rows -> 0 <= x) ->
  is_pivot_of rows m -> is_pivot_of rows m' -> m = m'.
Proof.
  intros Hpos [[E ->]|[Hin Hmax]] [[E' ->]|[Hin' Hmax']]; try reflexivity.
  - subst rows. set_solver.
  - subst rows. set_solver.
  - specialize (Hmax m' Hin'). specialize (Hmax' m Hin). lia.
Qed.

Lemma largest_row_is_pivot c :
  (forall x, x ∈ column_ c -> 0 <= x) -> is_pivot_of (column_ c) (largest_row c).
Proof.
  intros Hpos. unfold largest_row.
  destruct (bool_decide_reflect (column_ c = ∅)) as [E|E]; [left; auto|right].
  destruct (max_element_spec (elements (column_ c))) as [Hin Hmax].
  - apply Forall_forall. intros x Hx. apply Hpos. apply elem_of_elements. exact Hx.
  - intros El. apply E. apply elements_empty_iff in El. apply leibniz_equiv. exact El.
  - split; [apply elem_of_elements; exact Hin|].
    intros x Hx. apply Hmax. apply elem_of_elements. exact Hx.
Qed.

Lemma get_pivot_coherent c :
  pivot_coherent c ->
  snd (get_pivot c) = largest_row c /\ pivot_coherent (fst (get_pivot c)) /\
  column_ (fst (get_pivot c)) = column_ c.
Proof.
  intros (Hsmall & Hflag & Hbound).
  assert (Hpos : forall x, x ∈ column_ c -> 0 <= x).
  { intros x Hx. destruct (Hsmall x Hx). assumption. }
  pose proof (largest_row_is_pivot c Hpos) as Hlr.
  unfold get_pivot. destruct (pivotChanged_ c) eqn:Ef.
  - assert (E : (if bool_decide (size (column_ c) = 0%nat) then -1
                 else to_int (max_element (elements (column_ c)))) = largest_row c).
    { unfold largest_row.
      destruct (bool_decide_reflect (size (column_ c) = 0%nat)) as [Hs|Hs];
        destruct (bool_decide_reflect (column_ c = ∅)) as [He|He]; try reflexivity.
      - exfalso. apply He. apply size_empty_iff in Hs. apply leibniz_equiv. exact Hs.
      - exfalso. apply Hs. rewrite He. apply size_empty.
      - apply to_int_small. destruct Hlr as [[E _]|[Hin _]]; [contradiction|].
        unfold largest_row in Hin.
        destruct (bool_decide_reflect (column_ c = ∅)); [contradiction|].
        apply Hsmall. exact Hin. }
    simpl. rewrite E. split; [reflexivity|]. split; [|reflexivity].
    split; [exact Hsmall|]. simpl. split; [intros _; exact Hlr|].
    intros x Hx. destruct Hlr as [[E' _]|[_ Hmax]]; [set_solver|auto].
  - simpl. split; [|split; [|reflexivity]].
    + apply (is_pivot_of_unique (column_ c)); auto.
    + split; [exact Hsmall|]. split; [intros _; apply Hflag; reflexivity|exact Hbound].
Qed.

Lemma add_step_coherent c v :
  small v -> pivot_coherent c -> pivot_coherent (add_step c v).
Proof.
  intros Hv (Hsmall & Hflag & Hbound). unfold add_step.
  rewrite (to_int_small v Hv).
  destruct (bool_decide_reflect (v ∈ column_ c)) as [Hin|Hout].
  - split; [|split]; simpl.
    + intros x Hx. apply Hsmall. set_solver.
    + destruct (Z.eqb_spec v (pivot_ c)) as [E|E]; [discriminate|].
      intros Ef. destruct (Hflag Ef) as [[E' _]|[Hp Hmax]]; [set_solver|].
      right. split; [set_solver|]. intros x Hx. apply Hmax. set_solver.
    + intros x Hx. apply Hbound. set_solver.
  - destruct (Z.gtb_spec v (pivot_ c)) as [Hgt|Hle].
    + split; [|split]; simpl.
      * intros x Hx. apply elem_of_union in Hx as [Hx|Hx]; [|auto].
        apply elem_of_singleton in Hx. subst. exact Hv.
      * intros _. right. split; [set_solver|].
        intros x Hx. apply elem_of_union in Hx as [Hx|Hx].
        -- apply elem_of_singleton in Hx. lia.
        -- specialize (Hbound x Hx). lia.
      * intros x Hx. apply elem_of_union in Hx as [Hx|Hx].
        -- apply elem_of_singleton in Hx. lia.
        -- specialize (Hbound x Hx). lia.
    + split; [|split]; simpl.
      * intros x Hx. apply elem_of_union in Hx as [Hx|Hx]; [|auto].
        apply elem_of_singleton in Hx. subst. exact Hv.
      * intros Ef. destruct (Hflag Ef) as [[E' Ep]|[Hp Hmax]].
        -- destruct Hv. lia.
        -- right. split; [set_solver|].
           intros x Hx. apply elem_of_union in Hx as [Hx|Hx].
           ++ apply elem_of_singleton in Hx. lia.
           ++ auto.
      * intros x Hx. apply elem_of_union in Hx as [Hx|Hx].
        -- apply elem_of_singleton in Hx. lia.
        -- auto.
Qed.

Lemma clear_value_coherent c value :
  pivot_coherent c -> pivot_coherent (clear_value c value).
Proof.
  intros (Hsmall & Hflag & Hbound). unfold clear_value.
  split; [|split]; simpl.
  - intros x Hx. apply Hsmall. set_solver.
  - destruct (Z.eqb_spec (to_int value) (pivot_ c)) as [E|E]; [discriminate|].
    intros Ef. destruct (Hflag Ef) as [[E' Ep]|[Hp Hmax]].
    + left. split; [set_solver|exact Ep].
    + right. split.
      * apply elem_of_difference. split; [exact Hp|].
        intros Hv. apply elem_of_singleton in Hv.
        apply E. rewrite <- Hv. apply to_int_small. apply Hsmall. exact Hp.
      * intros x Hx. apply Hmax. set_solver.
  - intros x Hx. apply Hbound. set_solver.
Qed.

Lemma make_coherent boundary :
  Forall small boundary -> pivot_coherent (make boundary).
Proof.
  intros Hb. unfold make.
  assert (Hpos : Forall (fun x => 0 <= x) boundary).
  { eapply Forall_impl; [exact Hb|]. intros x [H _]. exact H. }
  split; [|split]; simpl.
  - intros x Hx. apply elem_of_list_to_set in Hx. rewrite Forall_forall in Hb. auto.
  - intros _. destruct boundary as [|a l]; [left; split; reflexivity|].
    destruct (max_element_spec (a :: l) Hpos) as [Hin Hmax]; [discriminate|].
    rewrite to_int_small by (rewrite Forall_forall in Hb; auto).
    right. split; [apply elem_of_list_to_set; exact Hin|].
    intros x Hx. apply Hmax. apply elem_of_list_to_set in Hx. exact Hx.
  - intros x Hx. apply elem_of_list_to_set in Hx.
    destruct boundary as [|a l]; [inversion Hx|].
    destruct (max_element_spec (a :: l) Hpos) as [Hin Hmax]; [discriminate|].
    rewrite to_int_small by (rewrite Forall_forall in Hb; auto). auto.
Qed.

Lemma apply_coherent c o :
  keeps_rows o -> pivot_coherent c -> pivot_coherent (apply c o).
Proof.
  destruct o as [column|value|valueMap]; simpl; intros Ho Hc.
  - unfold add.
    assert (Hl : Forall small (elements (column_ (make column)))).
    { apply Forall_forall. intros x Hx. apply elem_of_elements in Hx. simpl in Hx.
      apply elem_of_list_to_set in Hx. rewrite Forall_forall in Ho. auto. }
    revert c Hc. induction Hl as [|v l Hv Hl IH]; intros c Hc; simpl; [exact Hc|].
    apply IH. apply add_step_coherent; assumption.
  - apply clear_value_coherent. exact Hc.
  - contradiction.
Qed.

(** X14.  The cached pivot as long as [reorder] is not called: after any
    sequence of [add] and [clear(value)] on rows that fit an
    [int], [get_pivot] returns the largest stored row, and -1 exactly for
    the empty column. *)
Theorem get_pivot_without_reorder boundary ops :
  Forall small boundary -> Forall keeps_rows ops ->
  snd (get_pivot (foldl apply (make boundary) ops))
  = largest_row (foldl apply (make boundary) ops) /\
  (snd (get_pivot (foldl apply (make boundary) ops)) = -1 <->
   column_ (foldl apply (make boundary) ops) = ∅).
Proof.
  intros Hb Hops.
  assert (Hc : pivot_coherent (foldl apply (make boundary) ops)).
  { generalize (make_coherent boundary Hb). generalize (make boundary).
    induction Hops as [|o ops Ho Hops IH]; intros c Hc; simpl; [exact Hc|].
    apply IH. apply apply_coherent; assumption. }
  destruct (get_pivot_coherent _ Hc) as (E & _ & _). split; [exact E|].
  rewrite E. destruct Hc as (Hsmall & _ & _).
  assert (Hpos : forall x, x ∈ column_ (foldl apply (make boundary) ops) -> 0 <= x).
  { intros x Hx. destruct (Hsmall x Hx). assumption. }
  destruct (largest_row_is_pivot _ Hpos) as [[E0 E1]|[Hin _]].
  - split; auto.
  - split; [|intros E0; rewrite E0 in Hin; set_solver].
    intros E1. rewrite E1 in Hin. specialize (Hpos _ Hin). lia.
Qed.

Lemma get_pivot_without_reorder_witness :
  snd (get_pivot (foldl apply (make [0; 1]) [Add [1; 3]; Clear_value 3; Add [5]]))
  = largest_row (foldl apply (make [0; 1]) [Add [1; 3]; Clear_value 3; Add [5]]) /\
  (snd (get_pivot (foldl apply (make [0; 1]) [Add [1; 3]; Clear_value 3; Add [5]])) = -1 <->
   column_ (foldl apply (make [0; 1]) [Add [1; 3]; Clear_value 3; Add [5]]) = ∅).
Proof.
  apply (get_pivot_without_reorder [0; 1] [Add [1; 3]; Clear_value 3; Add [5]]).
  - repeat constructor; unfold small; lia.
  - repeat constructor; unfold small; simpl; lia.
Defined.

Lemma reorder_loop_Some valueMap it : forall newSet,
  (forall v, v ∈ it -> is_Some (valueMap !! Z.to_nat v)) ->
  exists rows, reorder_loop valueMap it newSet = Some rows /\
    forall w, w ∈ rows <->
      w ∈ newSet \/ exists v, v ∈ it /\ valueMap !! Z.to_nat v = Some w.
Proof.
  induction it as [|v it IH]; intros newSet Hdef; simpl.
  - exists newSet. split; [reflexivity|]. intros w. split; [auto|].
    intros [H|(v & Hv & _)]; [exact H|inversion Hv].
  - destruct (Hdef v) as [w Hw]; [left|]. rewrite Hw.
    destruct (IH ({[ w ]} ∪ newSet)) as (rows & -> & Hrows).
    { intros x Hx. apply Hdef. right. exact Hx. }
    exists rows. split; [reflexivity|]. intros x. rewrite Hrows. split.
    + intros [Hx|(y & Hy & Ey)].
      * apply elem_of_union in Hx as [Hx|Hx]; [|left; exact Hx].
        apply elem_of_singleton in Hx. subst x. right. exists v. split; [left|exact Hw].
      * right. exists y. split; [right; exact Hy|exact Ey].
    + intros [Hx|(y & Hy & Ey)].
      * left. set_solver.
      * apply elem_of_cons in Hy as [->|Hy].
        -- left. rewrite Hw in Ey. inversion Ey. set_solver.
        -- right. exists y. auto.
Qed.

Lemma reorder_loop_None valueMap it : forall newSet v,
  v ∈ it -> valueMap !! Z.to_nat v = None -> reorder_loop valueMap it newSet = None.
Proof.
  induction it as [|x it IH]; intros newSet v Hv Hnone; [inversion Hv|]. simpl.
  destruct (valueMap !! Z.to_nat x) as [w|] eqn:Hx; [|reflexivity].
  apply elem_of_cons in Hv as [->|Hv]; [congruence|]. eapply IH; eassumption.
Qed.

Lemma get_pivot_recomputed c :
  pivotChanged_ c = true -> (forall x, x ∈ column_ c -> small x) ->
  snd (get_pivot c) = largest_row c.
Proof.
  intros Ef Hsmall. unfold get_pivot. rewrite Ef. simpl. unfold largest_row.
  destruct (bool_decide_reflect (size (column_ c) = 0%nat)) as [Hs|Hs];
    destruct (bool_decide_reflect (column_ c = ∅)) as [He|He]; try reflexivity.
  - exfalso. apply He. apply size_empty_iff in Hs. apply leibniz_equiv. exact Hs.
  - exfalso. apply Hs. rewrite He. apply size_empty.
  - apply to_int_small.
    assert (Hpos : forall x, x ∈ column_ c -> 0 <= x).
    { intros x Hx. destruct (Hsmall x Hx). assumption. }
    destruct (largest_row_is_pivot c Hpos) as [[E _]|[Hin _]]; [contradiction|].
    unfold largest_row in Hin.
    destruct (bool_decide_reflect (column_ c = ∅)); [contradiction|].
    apply Hsmall. exact Hin.
Qed.

(** X15.  [reorder] with a map that holds every stored row: the call
    returns, the rows become their images and the dimension stays.  The
    next [get_pivot] recomputes the pivot: it returns -1 for the empty
    column and otherwise the largest stored row converted to [int], which
    is the largest stored row itself when the images fit an [int]. *)
Theorem reorder_maps_rows valueMap c :
  (forall v, v ∈ column_ c -> is_Some (valueMap !! Z.to_nat v)) ->
  exists c',
    reorder valueMap c = (c', inr tt) /\
    (forall w, w ∈ column_ c' <->
       exists v, v ∈ column_ c /\ valueMap !! Z.to_nat v = Some w) /\
    dim_ c' = dim_ c /\
    snd (get_pivot c') = (if is_empty c' then -1 else to_int (largest_row c')) /\
    ((forall w, w ∈ column_ c' -> small w) -> snd (get_pivot c') = largest_row c').
Proof.
  intros Hdef. unfold reorder.
  destruct (reorder_loop_Some valueMap (elements (column_ c)) ∅) as (rows & -> & Hrows).
  { intros v Hv. apply elem_of_elements in Hv. exact (Hdef v Hv). }
  assert (Hmem : forall w, w ∈ rows <->
            exists v, v ∈ column_ c /\ valueMap !! Z.to_nat v = Some w).
  { intros w. rewrite Hrows. split.
    - intros [H|(v & Hv & E)]; [set_solver|].
      exists v. split; [apply elem_of_elements; exact Hv|exact E].
    - intros (v & Hv & E). right. exists v. split; [apply elem_of_elements; exact Hv|exact E]. }
  eexists. split; [reflexivity|]. split; [exact Hmem|]. split; [reflexivity|]. split.
  - unfold get_pivot, is_empty, largest_row. cbn [pivotChanged_ column_ snd].
    destruct (bool_decide_reflect (size rows = 0%nat)) as [Hs|Hs];
      destruct (bool_decide_reflect (rows = ∅)) as [He|He]; try reflexivity.
    + exfalso. apply He. apply size_empty_iff in Hs. apply leibniz_equiv. exact Hs.
    + exfalso. apply Hs. rewrite He. apply size_empty.
  - intros Hsmall. apply get_pivot_recomputed; [reflexivity|exact Hsmall].
Qed.

Lemma reorder_maps_rows_witness :
  exists c',
    reorder [3000000000; 2] (make [0; 1]) = (c', inr tt) /\
    (forall w, w ∈ column_ c' <->
       exists v, v ∈ column_ (make [0; 1]) /\ [3000000000; 2] !! Z.to_nat v = Some w) /\
    dim_ c' = dim_ (make [0; 1]) /\
    snd (get_pivot c') = (if is_empty c' then -1 else to_int (largest_row c')) /\
    ((forall w, w ∈ column_ c' -> small w) -> snd (get_pivot c') = largest_row c').
Proof.
  apply (reorder_maps_rows [3000000000; 2] (make [0; 1])).
  intros v Hv. apply elem_of_list_to_set in Hv.
  apply elem_of_cons in Hv as [->|Hv];
    [|apply list_elem_of_singleton in Hv; subst v]; simpl; eauto.
Defined.

(** X16.  [reorder] with a map that lacks a stored row: [valueMap.at] throws
    [std::out_of_range] while the new set is still a local variable, so the
    column is left as it was. *)
Theorem unordered_reorder_out_of_range valueMap c v :
  v ∈ column_ c -> valueMap !! Z.to_nat v = None ->
  reorder valueMap c = (c, inl out_of_range).
Proof.
  intros Hv Hnone. unfold reorder.
  rewrite (reorder_loop_None valueMap (elements (column_ c)) ∅ v);
    [reflexivity|apply elem_of_elements; exact Hv|exact Hnone].
Qed.

Lemma unordered_reorder_out_of_range_witness :
  reorder [5] (make [0; 1]) = (make [0; 1], inl out_of_range).
Proof.
  apply (unordered_reorder_out_of_range [5] (make [0; 1]) 1).
  - apply elem_of_list_to_set. right. left.
  - reflexivity.
Defined.

End Unordered_set_extras.

(** ** The compressed matrix: what is stored, and where *)

Module Matrix_extras.

Import Naive_vector_column Base_matrix_with_column_compression Matrix_spec Matrix_facts.
Import Base_matrix_constructors Matrix_store Examples.

Section WithOptions.

Variable M : Master_matrix.

(** *** What [_insert_column] leaves, case by case *)

Lemma _insert_column_cases idx a n m c :
  pending M idx a n m -> columnPool_ m !! a = Some c ->
  (is_empty (col c) = true /\
   _insert_column M idx m =
   Some {| columnPool_ := delete a (columnPool_ m); columnToRep_ := columnToRep_ m;
           columnClasses_ := columnClasses_ m;
           repToColumn_ := <[idx := None]> (repToColumn_ m);
           nextColumnIndex_ := nextColumnIndex_ m |}) \/
  (is_empty (col c) = false /\
   _insert_column M idx m =
   Some {| columnPool_ := <[a := set_rep c idx]> (columnPool_ m);
           columnToRep_ := columnToRep_ m ++ [a];
           columnClasses_ := columnClasses_ m;
           repToColumn_ := repToColumn_ m;
           nextColumnIndex_ := nextColumnIndex_ m |}) \/
  (exists it found,
     is_empty (col c) = false /\ it ∈ columnToRep_ m /\ it <> a /\
     columnPool_ m !! it = Some found /\
     column_ (col found) = column_ (col c) /\
     rep_ found <> idx /\
     repToColumn_ m !! rep_ found = Some (Some it) /\
     find m (rep_ found) = rep_ found /\
     (((forall z, disjoint_sets.find_set
                    (disjoint_sets.link (columnClasses_ m) idx (rep_ found)) z =
                  if decide (find m z = idx) then rep_ found else find m z) /\
       _insert_column M idx m =
       Some {| columnPool_ := delete a (<[a := set_rep c idx]> (columnPool_ m));
               columnToRep_ := columnToRep_ m;
               columnClasses_ := disjoint_sets.link (columnClasses_ m) idx (rep_ found);
               repToColumn_ := <[idx := None]> (repToColumn_ m);
               nextColumnIndex_ := nextColumnIndex_ m |}) \/
      ((forall z, disjoint_sets.find_set
                    (disjoint_sets.link (columnClasses_ m) idx (rep_ found)) z =
                  if decide (find m z = rep_ found) then idx else find m z) /\
       _insert_column M idx m =
       Some {| columnPool_ := <[it := set_rep found idx]>
                                (delete a (<[a := set_rep c idx]> (columnPool_ m)));
               columnToRep_ := columnToRep_ m;
               columnClasses_ := disjoint_sets.link (columnClasses_ m) idx (rep_ found);
               repToColumn_ := <[idx := Some it]>
                                 (<[rep_ found := None]> (<[idx := None]> (repToColumn_ m)));
               nextColumnIndex_ := nextColumnIndex_ m |}))).
Proof.
  intros [Hroots Hslot Hfresh Hroot Hbelow Hslots Hset Hdist Hcan Hfree Hsize Hbound] Hc.
  assert (Hne_a : forall b, b ∈ columnToRep_ m -> b <> a) by (intros b Hb ->; auto).
  assert (Hrep_ne : forall b cb, b ∈ columnToRep_ m -> columnPool_ m !! b = Some cb ->
                                 rep_ cb <> idx).
  { intros b cb Hb Hpb E. destruct (Hset b Hb) as (cb' & Hpb' & Hs).
    rewrite Hpb in Hpb'. inversion Hpb'; subst cb'. rewrite E, Hslot in Hs.
    inversion Hs. subst. auto. }
  unfold _insert_column. rewrite Hslot, Hc.
  destruct (is_empty (col c)) eqn:Eempty; [left; auto|right].
  set (pool1 := <[a := set_rep c idx]> (columnPool_ m)).
  assert (Hpool1 : forall b, b ∈ columnToRep_ m -> pool1 !! b = columnPool_ m !! b).
  { intros b Hb. unfold pool1. apply lookup_insert_ne. apply not_eq_sym; auto. }
  assert (Hlive : forall b, b ∈ columnToRep_ m -> is_Some (pool1 !! b)).
  { intros b Hb. rewrite Hpool1 by exact Hb. destruct (Hset b Hb) as (cb & -> & _). eauto. }
  unfold set_insert.
  destruct (set_find_spec M pool1 (column_ (col c)) (columnToRep_ m) Hlive)
    as [[-> Hnone]|(it & found & -> & Hit & Hfound & Heq)].
  - left. unfold pool1 at 1. rewrite lookup_insert_eq. simpl. rewrite Nat.eqb_refl. simpl.
    auto.
  - right. rewrite Hpool1 in Hfound by exact Hit.
    assert (Hcontent : column_ (col c) = column_ (col found)).
    { apply (equivalent_eq M); eauto. }
    assert (Hd : rep_ found <> idx) by (apply (Hrep_ne it found); assumption).
    assert (Hd_slot : repToColumn_ m !! rep_ found = Some (Some it)).
    { destruct (Hset it Hit) as (c' & Hp' & Hs). rewrite Hfound in Hp'.
      inversion Hp'; subst c'. exact Hs. }
    assert (Hd_root : find m (rep_ found) = rep_ found).
    { destruct (Hslots _ it Hd Hd_slot) as (_ & _ & _ & _ & Hf). exact Hf. }
    assert (Hit_a : it <> a) by auto.
    exists it, found.
    split; [reflexivity|]. split; [exact Hit|]. split; [exact Hit_a|].
    split; [exact Hfound|]. split; [symmetry; exact Hcontent|]. split; [exact Hd|].
    split; [exact Hd_slot|]. split; [exact Hd_root|].
    assert (H1 : pool1 !! it = Some found) by (rewrite Hpool1; assumption).
    assert (H2 : delete a pool1 !! it = Some found)
      by (rewrite lookup_delete_ne by auto; exact H1).
    rewrite H1.
    replace (negb (rep_ found =? idx)%nat) with true
      by (symmetry; apply negb_true_iff, Nat.eqb_neq; exact Hd).
    unfold _insert_double_column. cbn [columnPool_ repToColumn_ columnClasses_
      columnToRep_ nextColumnIndex_].
    rewrite H1, Hslot.
    destruct (Union_find_facts.find_set_link (columnClasses_ m) idx (rep_ found) Hroot
                Hd_root (not_eq_sym Hd)) as [[Hnew Hlink]|[Hnew Hlink]]; rewrite Hnew.
    + left. replace (rep_ found =? idx)%nat with false
        by (symmetry; apply Nat.eqb_neq; exact Hd).
      split; [exact Hlink|reflexivity].
    + right. rewrite Nat.eqb_refl.
      rewrite (list_lookup_insert_ne _ idx (rep_ found)) by auto. rewrite Hd_slot, H2.
      split; [exact Hlink|reflexivity].
Qed.

Lemma content_of_slot m z :
  content_of m z =
  match repToColumn_ m !! find m z with
  | Some (Some b) => (fun c => column_ (col c)) <$> columnPool_ m !! b
  | Some None => Some []
  | None => None
  end.
Proof.
  unfold content_of, get_column, find.
  destruct (repToColumn_ m !! _) as [[b|]|]; reflexivity.
Qed.

Lemma _insert_column_store idx a n m c m' :
  pending M idx a n m -> columnPool_ m !! a = Some c -> pending_store a m ->
  _insert_column M idx m = Some m' ->
  stored_columns_nonempty m' /\ no_leak m' /\
  (forall z, find m z <> idx -> content_of m' z = content_of m z) /\
  (forall x y, find m x = find m y -> find m' x = find m' y).
Proof.
  intros Hp Hc [Hne Hleak] Hins.
  destruct (_insert_column_cases idx a n m c Hp Hc)
    as [[Eempty E]|[[Eempty E]|(it & found & Eempty & Hit & Hit_a & Hfound & Hcontent &
                                 Hd & Hd_slot & Hd_root & [[Hlink E]|[Hlink E]])]];
    rewrite E in Hins; inversion Hins; subst m'; clear Hins E.
  all: destruct Hp as [Hroots Hslot Hfresh Hroot Hbelow Hslots Hset Hdist Hcan Hfree Hsize
                         Hbound].
  all: assert (Hidx : (idx < length (repToColumn_ m))%nat)
         by (apply lookup_lt_is_Some; eauto).
  all: assert (Hslot_ne : forall r b, r <> idx -> repToColumn_ m !! r = Some (Some b) ->
                            b <> a)
         by (intros r b Hr Hb ->; destruct (Hslots r a Hr Hb) as (_ & _ & _ & Hin & _);
             contradiction).
  all: assert (Hnonempty : column_ (col c) <> [] \/ is_empty (col c) = true)
         by (unfold is_empty in *; destruct (column_ (col c)); [right; reflexivity|
                                                               left; discriminate]).
  - (* the column was empty *)
    split; [|split; [|split]].
    + intros r b cb Hr Hb.
      cbn [columnPool_ repToColumn_ columnClasses_ columnToRep_] in *.
      apply lookup_delete_Some in Hb as [Hba Hb].
      destruct (decide (r = idx)) as [->|Hri].
      { rewrite list_lookup_insert_eq in Hr by exact Hidx. discriminate. }
      rewrite list_lookup_insert_ne in Hr by auto. apply (Hne r b cb); auto.
    + intros b Hb. cbn [columnPool_ repToColumn_ columnClasses_ columnToRep_] in *.
      destruct Hb as [cb Hb].
      apply lookup_delete_Some in Hb as [Hba Hb].
      destruct (Hleak b) as [?|?]; [eauto|congruence|assumption].
    + intros z Hz. rewrite !content_of_slot. unfold find in *.
      cbn [columnPool_ repToColumn_ columnClasses_ columnToRep_].
      rewrite list_lookup_insert_ne by auto.
      destruct (repToColumn_ m !! disjoint_sets.find_set (columnClasses_ m) z)
        as [[b|]|] eqn:Eb; try reflexivity.
      rewrite lookup_delete_ne; [reflexivity|]. apply not_eq_sym. eapply Hslot_ne; eauto.
    + intros x y Hxy. exact Hxy.
  - (* no equivalent column *)
    split; [|split; [|split]].
    + intros r b cb Hr Hb.
      cbn [columnPool_ repToColumn_ columnClasses_ columnToRep_] in *.
      apply lookup_insert_Some in Hb as [[<- <-]|[Hba Hb]].
      * simpl. destruct Hnonempty as [H|H]; [exact H|congruence].
      * apply (Hne r b cb); auto.
    + intros b Hb. cbn [columnPool_ repToColumn_ columnClasses_ columnToRep_] in *.
      destruct Hb as [cb Hb]. apply elem_of_app.
      apply lookup_insert_Some in Hb as [[<- <-]|[Hba Hb]]; [right; left|].
      left. destruct (Hleak b) as [?|?]; [eauto|congruence|assumption].
    + intros z Hz. rewrite !content_of_slot. unfold find in *.
      cbn [columnPool_ repToColumn_ columnClasses_ columnToRep_].
      destruct (repToColumn_ m !! disjoint_sets.find_set (columnClasses_ m) z)
        as [[b|]|] eqn:Eb; try reflexivity.
      rewrite lookup_insert_ne; [reflexivity|]. apply not_eq_sym. eapply Hslot_ne; eauto.
    + intros x y Hxy. exact Hxy.
  - (* merged, the other class keeps its representative *)
    assert (Hpool : forall b, b <> a ->
      delete a (<[a := set_rep c idx]> (columnPool_ m)) !! b = columnPool_ m !! b).
    { intros b Hb. rewrite lookup_delete_ne, lookup_insert_ne by auto. reflexivity. }
    split; [|split; [|split]].
    + intros r b cb Hr Hb.
      cbn [columnPool_ repToColumn_ columnClasses_ columnToRep_] in *.
      assert (b <> a) by (intros ->; rewrite lookup_delete_eq in Hb; discriminate).
      rewrite Hpool in Hb by assumption.
      destruct (decide (r = idx)) as [->|Hri].
      { rewrite list_lookup_insert_eq in Hr by exact Hidx. discriminate. }
      rewrite list_lookup_insert_ne in Hr by auto. apply (Hne r b cb); auto.
    + intros b Hb. cbn [columnPool_ repToColumn_ columnClasses_ columnToRep_] in *.
      destruct Hb as [cb Hb].
      assert (b <> a) by (intros ->; rewrite lookup_delete_eq in Hb; discriminate).
      rewrite Hpool in Hb by assumption.
      destruct (Hleak b) as [?|?]; [eauto|congruence|assumption].
    + intros z Hz. rewrite !content_of_slot. unfold find in *.
      cbn [columnPool_ repToColumn_ columnClasses_ columnToRep_].
      rewrite Hlink. destruct (decide (_ = idx)); [contradiction|].
      rewrite list_lookup_insert_ne by auto.
      destruct (repToColumn_ m !! disjoint_sets.find_set (columnClasses_ m) z)
        as [[b|]|] eqn:Eb; try reflexivity.
      rewrite Hpool; [reflexivity|]. eapply Hslot_ne; eauto.
    + intros x y Hxy. unfold find in *.
      cbn [columnPool_ repToColumn_ columnClasses_ columnToRep_].
      rewrite !Hlink, Hxy. reflexivity.
  - (* merged, the slots are swapped *)
    set (d := rep_ found) in *.
    assert (Hd_len : (d < length (repToColumn_ m))%nat)
      by (apply lookup_lt_is_Some; eauto).
    assert (Hpool : forall b, b <> a -> b <> it ->
      <[it := set_rep found idx]> (delete a (<[a := set_rep c idx]> (columnPool_ m))) !! b
      = columnPool_ m !! b).
    { intros b H1 H2.
      rewrite lookup_insert_ne, lookup_delete_ne, lookup_insert_ne by auto. reflexivity. }
    assert (Hreps : forall r, r <> idx -> r <> d ->
      <[idx := Some it]> (<[d := None]> (<[idx := None]> (repToColumn_ m))) !! r
      = repToColumn_ m !! r).
    { intros r H1 H2. rewrite !list_lookup_insert_ne by auto. reflexivity. }
    assert (Hreps_idx :
      <[idx := Some it]> (<[d := None]> (<[idx := None]> (repToColumn_ m))) !! idx
      = Some (Some it)).
    { apply list_lookup_insert_eq. rewrite !length_insert. exact Hidx. }
    assert (Hreps_d :
      <[idx := Some it]> (<[d := None]> (<[idx := None]> (repToColumn_ m))) !! d
      = Some None).
    { rewrite list_lookup_insert_ne by auto. apply list_lookup_insert_eq.
      rewrite length_insert. exact Hd_len. }
    assert (Hslot_it : forall r b, r <> idx -> r <> d ->
              repToColumn_ m !! r = Some (Some b) -> b <> it).
    { intros r b H1 H2 Hb ->. destruct (Hslots r it H1 Hb) as (cb & Hpb & Hrep & _).
      rewrite Hfound in Hpb. inversion Hpb; subst cb. apply H2. symmetry. exact Hrep. }
    split; [|split; [|split]].
    + intros r b cb Hr Hb.
      cbn [columnPool_ repToColumn_ columnClasses_ columnToRep_] in *.
      apply lookup_insert_Some in Hb as [[<- <-]|[Hbit Hb]].
      * simpl. rewrite Hcontent.
        destruct Hnonempty as [H|H]; [exact H|congruence].
      * apply lookup_delete_Some in Hb as [Hba Hb].
        rewrite lookup_insert_ne in Hb by auto.
        destruct (decide (r = idx)) as [->|Hri].
        { rewrite Hreps_idx in Hr. inversion Hr. congruence. }
        destruct (decide (r = d)) as [->|Hrd].
        { rewrite Hreps_d in Hr. discriminate. }
        rewrite Hreps in Hr by auto. apply (Hne r b cb); auto.
    + intros b Hb. cbn [columnPool_ repToColumn_ columnClasses_ columnToRep_] in *.
      destruct Hb as [cb Hb].
      apply lookup_insert_Some in Hb as [[<- <-]|[Hbit Hb]]; [exact Hit|].
      apply lookup_delete_Some in Hb as [Hba Hb].
      rewrite lookup_insert_ne in Hb by auto.
      destruct (Hleak b) as [?|?]; [eauto|congruence|assumption].
    + intros z Hz. rewrite !content_of_slot. unfold find in *.
      cbn [columnPool_ repToColumn_ columnClasses_ columnToRep_].
      rewrite Hlink. destruct (decide (_ = d)) as [Ed|Ed].
      * rewrite Hreps_idx, Ed, Hd_slot, lookup_insert_eq, Hfound. reflexivity.
      * rewrite Hreps by auto.
        destruct (repToColumn_ m !! disjoint_sets.find_set (columnClasses_ m) z)
          as [[b|]|] eqn:Eb; try reflexivity.
        rewrite Hpool; [reflexivity| |].
        -- eapply Hslot_ne; eauto.
        -- eapply Hslot_it; eauto.
    + intros x y Hxy. unfold find in *.
      cbn [columnPool_ repToColumn_ columnClasses_ columnToRep_].
      rewrite !Hlink, Hxy. reflexivity.
Qed.

Lemma insert_boundary_pending boundary dim m :
  invariant M m ->
  exists a c m1,
    columnPool_ m !! a = None /\
    column_ (col c) = cells_of_boundary M boundary /\
    pending M (nextColumnIndex_ m) a (S (nextColumnIndex_ m)) m1 /\
    columnPool_ m1 = <[a := c]> (columnPool_ m) /\
    columnToRep_ m1 = columnToRep_ m /\
    (forall z, find m1 z = find m z) /\
    (forall r, r <> nextColumnIndex_ m -> repToColumn_ m1 !! r = repToColumn_ m !! r) /\
    insert_boundary M boundary dim m =
    match _insert_column M (nextColumnIndex_ m) m1 with
    | Some m2 =>
        Some {| columnPool_ := columnPool_ m2; columnToRep_ := columnToRep_ m2;
                columnClasses_ := columnClasses_ m2; repToColumn_ := repToColumn_ m2;
                nextColumnIndex_ := S (nextColumnIndex_ m) |}
    | None => None
    end.
Proof.
  intros [Hroots Hslots Hset Hdist Hcan Hfree Hsize Hbound].
  unfold insert_boundary, construct.
  set (dim' := if dim =? -1 then _ else dim).
  set (next := nextColumnIndex_ m) in *.
  set (a := fresh (dom (columnPool_ m))).
  set (c := {| col := make_dim M boundary dim'; rep_ := 0 |}).
  assert (Ha : columnPool_ m !! a = None) by apply fresh_not_live.
  assert (Hlive : forall b, b ∈ columnToRep_ m -> b <> a).
  { intros b Hb ->. destruct (Hset a Hb) as (cb & Hpb & _). congruence. }
  exists a, c.
  destruct (length (repToColumn_ m) =? next)%nat eqn:Elen.
  - apply Nat.eqb_eq in Elen.
    exists {| columnPool_ := <[a := c]> (columnPool_ m); columnToRep_ := columnToRep_ m;
              columnClasses_ := disjoint_sets.link (columnClasses_ m) next next;
              repToColumn_ := repToColumn_ m ++ [Some a];
              nextColumnIndex_ := next |}.
    assert (Hfind : forall z,
      disjoint_sets.find_set (disjoint_sets.link (columnClasses_ m) next next) z =
      disjoint_sets.find_set (columnClasses_ m) z)
      by apply Union_find_facts.find_set_link_same.
    assert (Hold : forall r, r <> next -> forall v,
      (repToColumn_ m ++ [Some a]) !! r = Some (Some v) ->
      repToColumn_ m !! r = Some (Some v)).
    { intros r Hr v Hv. apply lookup_app_Some in Hv as [Hv|[Hge Hv]]; [exact Hv|].
      apply list_lookup_singleton_Some in Hv as [Hv _]. lia. }
    split; [exact Ha|]. split; [reflexivity|].
    split; [|split; [reflexivity|split; [reflexivity|split; [|split; [|reflexivity]]]]].
    + constructor; unfold find in *; simpl.
      * intros x. rewrite !Hfind. apply Hroots.
      * rewrite lookup_app_r by lia. rewrite Elen, Nat.sub_diag. reflexivity.
      * intros Hin. apply (Hlive a Hin). reflexivity.
      * rewrite Hfind. apply Hfree. reflexivity.
      * lia.
      * intros r b Hr Hb. apply Hold in Hb; [|exact Hr].
        destruct (Hslots r b Hb) as (cb & Hpb & Hrep & Hin & Hf).
        exists cb. rewrite lookup_insert_ne by (apply not_eq_sym; auto).
        rewrite Hfind. auto.
      * intros b Hb. destruct (Hset b Hb) as (cb & Hpb & Hs).
        exists cb. rewrite lookup_insert_ne by (apply not_eq_sym; auto).
        split; [exact Hpb|]. apply lookup_app_l_Some. exact Hs.
      * intros b b' cb cb' Hb Hb'.
        rewrite !lookup_insert_ne by (apply not_eq_sym; auto). eauto.
      * intros b cb Hb. apply lookup_insert_Some in Hb as [[<- <-]|[_ Hb]]; [|eauto].
        apply canonical_cells_of_boundary.
      * intros x Hx. rewrite Hfind. destruct (Hfree x) as [Hf _]; [lia|].
        split; [exact Hf|]. left. apply lookup_ge_None_2.
        rewrite length_app. simpl. lia.
      * rewrite length_app. simpl. lia.
      * intros x Hx. rewrite Hfind. destruct (decide (x = next)) as [->|Hne].
        -- destruct (Hfree next) as [-> _]; lia.
        -- assert (x < next)%nat as Hlt by lia. specialize (Hbound x Hlt). lia.
    + intros z. unfold find. simpl. apply Hfind.
    + intros r Hr. simpl. destruct (decide (r < next)%nat) as [Hlt|Hge].
      * apply lookup_app_l. lia.
      * rewrite !lookup_ge_None_2; [reflexivity|lia|rewrite length_app; simpl; lia].
  - apply Nat.eqb_neq in Elen.
    assert (Hlt : (next < length (repToColumn_ m))%nat) by (unfold next in *; lia).
    apply Nat.ltb_lt in Hlt as Hlt'. rewrite Hlt'.
    exists {| columnPool_ := <[a := c]> (columnPool_ m); columnToRep_ := columnToRep_ m;
              columnClasses_ := columnClasses_ m;
              repToColumn_ := <[next := Some a]> (repToColumn_ m);
              nextColumnIndex_ := next |}.
    assert (Hnext : forall v, repToColumn_ m !! next <> Some (Some v)).
    { intros v Hv. destruct (Hfree next) as [_ [Hn|Hn]]; [lia|congruence|congruence]. }
    split; [exact Ha|]. split; [reflexivity|].
    split; [|split; [reflexivity|split; [reflexivity|split; [|split; [|reflexivity]]]]].
    + constructor; unfold find in *; simpl.
      * exact Hroots.
      * apply list_lookup_insert_eq. exact Hlt.
      * intros Hin. apply (Hlive a Hin). reflexivity.
      * apply Hfree. reflexivity.
      * lia.
      * intros r b Hr Hb. rewrite list_lookup_insert_ne in Hb by auto.
        destruct (Hslots r b Hb) as (cb & Hpb & Hrep & Hin & Hf).
        exists cb. rewrite lookup_insert_ne by (apply not_eq_sym; auto). auto.
      * intros b Hb. destruct (Hset b Hb) as (cb & Hpb & Hs).
        exists cb. rewrite lookup_insert_ne by (apply not_eq_sym; auto).
        split; [exact Hpb|]. rewrite list_lookup_insert_ne; [exact Hs|].
        intros E. rewrite <- E in Hs. apply (Hnext _ Hs).
      * intros b b' cb cb' Hb Hb'.
        rewrite !lookup_insert_ne by (apply not_eq_sym; auto). eauto.
      * intros b cb Hb. apply lookup_insert_Some in Hb as [[<- <-]|[_ Hb]]; [|eauto].
        apply canonical_cells_of_boundary.
      * intros x Hx. destruct (Hfree x) as [Hf Hn]; [lia|].
        split; [exact Hf|]. rewrite list_lookup_insert_ne by lia. exact Hn.
      * rewrite length_insert. lia.
      * intros x Hx. destruct (decide (x = next)) as [->|Hne].
        -- destruct (Hfree next) as [-> _]; lia.
        -- assert (x < next)%nat as Hlt2 by lia. specialize (Hbound x Hlt2). lia.
    + intros z. reflexivity.
    + intros r Hr. simpl. apply list_lookup_insert_ne. auto.
Qed.

Lemma content_of_ext m m' z :
  find m' z = find m z ->
  repToColumn_ m' !! find m z = repToColumn_ m !! find m z ->
  (forall b, repToColumn_ m !! find m z = Some (Some b) ->
             columnPool_ m' !! b = columnPool_ m !! b) ->
  content_of m' z = content_of m z.
Proof.
  intros Hf Hr Hp. rewrite !content_of_slot, Hf, Hr.
  destruct (repToColumn_ m !! find m z) as [[b|]|]; try reflexivity.
  rewrite Hp; reflexivity.
Qed.

Lemma content_of_next m z k :
  content_of {| columnPool_ := columnPool_ m; columnToRep_ := columnToRep_ m;
                columnClasses_ := columnClasses_ m; repToColumn_ := repToColumn_ m;
                nextColumnIndex_ := k |} z = content_of m z.
Proof. reflexivity. Qed.

Lemma insert_boundary_store boundary dim m :
  invariant M m -> stored_columns_nonempty m -> no_leak m ->
  exists m', insert_boundary M boundary dim m = Some m' /\
    stored_columns_nonempty m' /\ no_leak m' /\
    (forall z, find m z <> nextColumnIndex_ m -> content_of m' z = content_of m z) /\
    (forall x y, find m x = find m y -> find m' x = find m' y).
Proof.
  intros Hinv Hne Hleak.
  destruct (insert_boundary_pending boundary dim m Hinv)
    as (a & c & m1 & Ha & _ & Hp & Hpool & Hset & Hfind & Hreps & ->).
  assert (Hc : columnPool_ m1 !! a = Some c) by (rewrite Hpool; apply lookup_insert_eq).
  destruct (_insert_column_ok M _ _ _ _ _ Hp Hc) as (m2 & Hins & _).
  assert (Hstore : pending_store a m1).
  { split.
    - intros r b cb Hr Hb Hpb. rewrite Hpool, lookup_insert_ne in Hpb by auto.
      destruct (decide (r = nextColumnIndex_ m)) as [->|Hrn].
      + rewrite (p_slot _ _ _ _ _ Hp) in Hr. congruence.
      + rewrite Hreps in Hr by exact Hrn. eapply Hne; eauto.
    - intros b [cb Hb]. rewrite Hpool in Hb. rewrite Hset.
      apply lookup_insert_Some in Hb as [[<- _]|[_ Hb]]; [left; reflexivity|].
      right. apply Hleak. eauto. }
  destruct (_insert_column_store _ _ _ _ _ _ Hp Hc Hstore Hins)
    as (Hne2 & Hleak2 & Hframe & Hmono).
  rewrite Hins. eexists. split; [reflexivity|].
  split; [exact Hne2|]. split; [exact Hleak2|]. split.
  - intros z Hz. rewrite content_of_next, Hframe by (rewrite Hfind; exact Hz).
    apply content_of_ext.
    + apply Hfind.
    + apply Hreps. exact Hz.
    + intros b Hb. rewrite Hpool. apply lookup_insert_ne. intros <-.
      destruct (inv_slots _ _ _ Hinv _ _ Hb) as (cb & Hpb & _). congruence.
  - intros x y Hxy. apply (Hmono x y). rewrite !Hfind. exact Hxy.
Qed.

Lemma add_to_store src tgt m m' :
  invariant M m -> stored_columns_nonempty m -> no_leak m ->
  add_to M src tgt m = Some m' ->
  stored_columns_nonempty m' /\ no_leak m' /\
  (forall z, find m z <> find m tgt -> content_of m' z = content_of m z) /\
  (forall x y, find m x = find m y -> find m' x = find m' y).
Proof.
  intros Hinv Hne Hleak Hadd.
  destruct Hinv as [Hroots Hslots Hset Hdist Hcan Hfree Hsize Hbound].
  revert Hadd. unfold add_to. fold (find m tgt).
  destruct (repToColumn_ m !! find m tgt) as [[a|]|] eqn:Hslot; try discriminate.
  destruct (Hslots _ _ Hslot) as (target & Htarget & Hrep & Hin & Hroot).
  rewrite Htarget.
  assert (Hlive : forall b, b ∈ columnToRep_ m -> is_Some (columnPool_ m !! b)).
  { intros b Hb. destruct (Hset b Hb) as (cb & -> & _). eauto. }
  destruct (set_erase_spec M (columnPool_ m) (column_ (col target)) (columnToRep_ m) Hlive)
    as (set & -> & Hmem).
  destruct (get_column m src ≫= deref m) as [source|] eqn:Hsource; [|discriminate].
  assert (Hsource_can : canonical M source).
  { unfold get_column in Hsource. fold (find m src) in Hsource.
    destruct (repToColumn_ m !! find m src) as [[b|]|] eqn:Hv; simpl in Hsource.
    - destruct (columnPool_ m !! b) as [cb|] eqn:Eb; simpl in Hsource;
        [|discriminate Hsource].
      inversion Hsource; subst. eauto.
    - inversion Hsource; subst. apply canonical_nil.
    - discriminate Hsource. }
  set (target' := fst (operator_add_assign_range M source (col target))).
  set (m1 := {| columnPool_ := <[a := set_col target target']> (columnPool_ m);
                columnToRep_ := set; columnClasses_ := columnClasses_ m;
                repToColumn_ := repToColumn_ m;
                nextColumnIndex_ := nextColumnIndex_ m |}).
  intros Hins.
  assert (Ha_out : a ∉ set).
  { intros Ha. apply Hmem in Ha as [_ (cb & Hp & He)]. rewrite Htarget in Hp.
    inversion Hp; subst cb. rewrite equivalent_refl in He. discriminate. }
  assert (Hsub : forall b, b ∈ set -> b ∈ columnToRep_ m /\ b <> a).
  { intros b Hb. split; [apply Hmem in Hb as [Hb _]; exact Hb|]. intros ->. auto. }
  assert (Hkeep : forall b, b ∈ columnToRep_ m -> b <> a -> b ∈ set).
  { intros b Hb Hne'. apply Hmem. split; [exact Hb|].
    destruct (Hset b Hb) as (cb & Hpb & _). exists cb. split; [exact Hpb|].
    destruct (equivalent M (column_ (col target)) (column_ (col cb))) eqn:E; [|reflexivity].
    exfalso. apply Hne'. symmetry. eapply Hdist; eauto. }
  assert (Hbelow : (find m tgt < nextColumnIndex_ m)%nat).
  { destruct (decide (find m tgt < nextColumnIndex_ m)%nat) as [|Hge]; [assumption|].
    destruct (Hfree (find m tgt)) as [_ [Hn|Hn]]; [lia|congruence|congruence]. }
  assert (Hother : forall r b, r <> find m tgt -> repToColumn_ m !! r = Some (Some b) ->
                               b <> a).
  { intros r b Hr Hb ->. destruct (Hslots r a Hb) as (cb & Hpb & Hrepb & _).
    rewrite Htarget in Hpb. inversion Hpb; subst cb. congruence. }
  assert (Hp : pending M (find m tgt) a (nextColumnIndex_ m) m1).
  { constructor; unfold find in *; simpl.
    - exact Hroots.
    - exact Hslot.
    - exact Ha_out.
    - exact Hroot.
    - exact Hbelow.
    - intros r b Hr Hb. destruct (Hslots r b Hb) as (cb & Hpb & Hrepb & Hinb & Hf).
      assert (b <> a) by (eapply Hother; eauto).
      exists cb. rewrite lookup_insert_ne by auto. repeat split; auto.
    - intros b Hb. destruct (Hsub b Hb) as [Hb' Hne'].
      destruct (Hset b Hb') as (cb & Hpb & Hs).
      exists cb. rewrite lookup_insert_ne by auto. auto.
    - intros b b' cb cb' Hb Hb'.
      destruct (Hsub b Hb) as [Hb1 Hne1]. destruct (Hsub b' Hb') as [Hb1' Hne1'].
      rewrite !lookup_insert_ne by auto. eauto.
    - intros b cb Hb. apply lookup_insert_Some in Hb as [[<- <-]|[_ Hb]]; [|eauto].
      simpl. apply canonical_operator_add_assign_range; eauto.
    - exact Hfree.
    - exact Hsize.
    - exact Hbound. }
  assert (Hc : columnPool_ m1 !! a = Some (set_col target target')).
  { simpl. apply lookup_insert_eq. }
  assert (Hstore : pending_store a m1).
  { split.
    - intros r b cb Hr Hb Hpb. simpl in *. rewrite lookup_insert_ne in Hpb by auto.
      eapply Hne; eauto.
    - intros b [cb Hb]. simpl in *.
      apply lookup_insert_Some in Hb as [[<- _]|[Hba Hb]]; [left; reflexivity|].
      right. apply Hkeep; [|auto]. apply Hleak. eauto. }
  destruct (_insert_column_store _ _ _ _ _ _ Hp Hc Hstore Hins)
    as (Hne2 & Hleak2 & Hframe & Hmono).
  split; [exact Hne2|]. split; [exact Hleak2|]. split.
  - intros z Hz. rewrite Hframe by exact Hz.
    apply content_of_ext; [reflexivity|reflexivity|].
    intros b Hb. simpl. apply lookup_insert_ne. apply not_eq_sym. eapply Hother; eauto.
  - exact Hmono.
Qed.

Lemma store_make_reserved k :
  stored_columns_nonempty (make_reserved k) /\ no_leak (make_reserved k).
Proof.
  split.
  - intros r a c Hr. apply lookup_replicate in Hr as [Hr _]. discriminate.
  - intros a [c Hc]. simpl in Hc. rewrite lookup_empty in Hc. discriminate.
Qed.

Lemma run_store ops m m' :
  invariant M m -> stored_columns_nonempty m -> no_leak m ->
  run M m ops = Some m' ->
  invariant M m' /\ stored_columns_nonempty m' /\ no_leak m'.
Proof.
  revert m. induction ops as [|o ops IH]; intros m Hinv Hne Hleak Hrun; simpl in Hrun.
  - inversion Hrun; subst m'. auto.
  - destruct (step M m o) as [m1|] eqn:Estep; [|discriminate].
    destruct (step_ok M o m m1 Hinv Estep) as (Hinv1 & _).
    assert (H1 : stored_columns_nonempty m1 /\ no_leak m1).
    { destruct o as [boundary dim|src tgt]; simpl in Estep.
      - destruct (insert_boundary_store boundary dim m Hinv Hne Hleak)
          as (m2 & E & H1 & H2 & _).
        rewrite E in Estep. inversion Estep; subst m2. auto.
      - destruct (add_to_store src tgt m m1 Hinv Hne Hleak Estep) as (H1 & H2 & _). auto. }
    destruct H1 as [H1 H2]. apply (IH m1); assumption.
Qed.

Lemma reachable_store k ops m :
  run M (make_reserved k) ops = Some m ->
  invariant M m /\ stored_columns_nonempty m /\ no_leak m.
Proof.
  intros Hrun. destruct (store_make_reserved k) as [H1 H2].
  apply (run_store ops (make_reserved k)); auto. apply invariant_make_reserved.
Qed.

Lemma insert_columns_reads_back columns m :
  invariant M m -> stored_columns_nonempty m -> no_leak m ->
  exists m', insert_columns M columns m = Some m' /\
    invariant M m' /\ stored_columns_nonempty m' /\ no_leak m' /\
    nextColumnIndex_ m' = (nextColumnIndex_ m + length columns)%nat /\
    (forall z, (z < nextColumnIndex_ m)%nat -> content_of m' z = content_of m z) /\
    (forall i c, columns !! i = Some c ->
       content_of m' (nextColumnIndex_ m + i) = Some (cells_of_boundary M c)).
Proof.
  revert m. induction columns as [|c columns IH]; intros m Hinv Hne Hleak; simpl.
  - exists m. split; [reflexivity|]. split; [exact Hinv|]. split; [exact Hne|].
    split; [exact Hleak|]. split; [lia|]. split; [reflexivity|].
    intros i c Hi. rewrite lookup_nil in Hi. discriminate.
  - unfold insert_column.
    destruct (insert_boundary_ok M c (-1) m Hinv) as (m1 & E & Hinv1 & Hn1 & Hnew & _).
    destruct (insert_boundary_store c (-1) m Hinv Hne Hleak)
      as (m2 & E2 & Hne1 & Hleak1 & Hframe & _).
    rewrite E in E2. inversion E2; subst m2. rewrite E.
    destruct (IH m1 Hinv1 Hne1 Hleak1) as (m' & -> & Hinv' & Hne' & Hleak' & Hn' & Hold & Hnew').
    exists m'. split; [reflexivity|]. split; [exact Hinv'|]. split; [exact Hne'|].
    split; [exact Hleak'|]. split; [lia|]. split.
    + intros z Hz. rewrite Hold by lia. apply Hframe.
      pose proof (inv_bound _ _ _ Hinv z Hz). lia.
    + intros [|i] c' Hi; simpl in Hi.
      * inversion Hi; subst c'. rewrite Nat.add_0_r, Hold by lia. exact Hnew.
      * specialize (Hnew' i c' Hi). rewrite Hn1 in Hnew'.
        replace (nextColumnIndex_ m + S i)%nat with (S (nextColumnIndex_ m) + i)%nat by lia.
        exact Hnew'.
Qed.

Lemma slot_of_content m z l :
  invariant M m -> content_of m z = Some l -> l <> [] ->
  exists a c, repToColumn_ m !! find m z = Some (Some a) /\
              columnPool_ m !! a = Some c /\ column_ (col c) = l /\
              rep_ c = find m z /\ a ∈ columnToRep_ m.
Proof.
  intros Hinv Hl Hne. rewrite content_of_slot in Hl.
  destruct (repToColumn_ m !! find m z) as [[a|]|] eqn:Hs.
  - destruct (inv_slots _ _ _ Hinv _ _ Hs) as (c & Hc & Hrep & Hin & _).
    rewrite Hc in Hl. simpl in Hl. inversion Hl; subst l. exists a, c. auto.
  - inversion Hl; subst l. contradiction.
  - discriminate Hl.
Qed.

Lemma is_zero_column_slot m z :
  invariant M m -> stored_columns_nonempty m -> (z < nextColumnIndex_ m)%nat ->
  (repToColumn_ m !! find m z = Some None /\ content_of m z = Some [] /\
   is_zero_column m z = Some true /\ get_column m z = Some empty_column_) \/
  (exists a c, repToColumn_ m !! find m z = Some (Some a) /\
               columnPool_ m !! a = Some c /\ column_ (col c) <> [] /\
               content_of m z = Some (column_ (col c)) /\
               is_zero_column m z = Some false /\ get_column m z = Some (pooled a)).
Proof.
  intros Hinv Hne Hz.
  assert (Hlt : (find m z < length (repToColumn_ m))%nat).
  { pose proof (inv_bound _ _ _ Hinv z Hz). pose proof (inv_size _ _ _ Hinv). lia. }
  apply lookup_lt_is_Some in Hlt as [[a|] Hs].
  - right. destruct (inv_slots _ _ _ Hinv _ _ Hs) as (c & Hc & _).
    exists a, c. pose proof (Hne _ _ _ Hs Hc) as Hnonempty.
    rewrite content_of_slot. unfold is_zero_column, get_column. fold (find m z).
    rewrite Hs, Hc. simpl. unfold is_empty.
    destruct (column_ (col c)); [contradiction|]. auto 10.
  - left. rewrite content_of_slot. unfold is_zero_column, get_column. fold (find m z).
    rewrite Hs. auto.
Qed.

Lemma foldr_delete_lookup (pool : gmap nat Column_type) (l : list nat) a :
  foldr delete pool l !! a = if decide (a ∈ l) then None else pool !! a.
Proof.
  induction l as [|b l IH]; simpl.
  - reflexivity.
  - destruct (decide (a = b)) as [->|Hab].
    + rewrite lookup_delete_eq. rewrite decide_True; [reflexivity|left].
    + rewrite lookup_delete_ne by auto. rewrite IH.
      destruct (decide (a ∈ l)) as [Hin|Hout].
      * rewrite decide_True; [reflexivity|right; exact Hin].
      * rewrite decide_False; [reflexivity|].
        intros Hin. apply elem_of_cons in Hin as [?|?]; auto.
Qed.

Lemma pool_size_bound m :
  invariant M m -> no_leak m -> (stdpp.base.size (columnPool_ m) <= nextColumnIndex_ m)%nat.
Proof.
  intros Hinv Hleak.
  assert (Hrep : forall a c, columnPool_ m !! a = Some c ->
            repToColumn_ m !! rep_ c = Some (Some a) /\ (rep_ c < nextColumnIndex_ m)%nat).
  { intros a c Hc. assert (Hin : a ∈ columnToRep_ m) by (apply Hleak; eauto).
    destruct (inv_set _ _ _ Hinv a Hin) as (c' & Hc' & Hs).
    rewrite Hc in Hc'. inversion Hc'; subst c'. split; [exact Hs|].
    destruct (decide (rep_ c < nextColumnIndex_ m)%nat) as [|Hge]; [assumption|].
    destruct (inv_free _ _ _ Hinv (rep_ c)) as [_ [Hn|Hn]]; [lia|congruence|congruence]. }
  rewrite <- length_map_to_list.
  rewrite <- (length_fmap (fun p => rep_ (snd p))).
  transitivity (length (seq 0 (nextColumnIndex_ m))); [|rewrite length_seq; lia].
  apply NoDup_incl_length.
  - apply NoDup_ListNoDup. apply NoDup_fmap_2_strong; [|apply NoDup_map_to_list].
    intros [a c] [b d] Ha Hb E. simpl in E.
    apply elem_of_map_to_list in Ha, Hb.
    destruct (Hrep a c Ha) as [H1 _]. destruct (Hrep b d Hb) as [H2 _].
    rewrite E in H1. rewrite H1 in H2. inversion H2; subst b.
    rewrite Ha in Hb. inversion Hb. reflexivity.
  - intros r Hr. apply list_elem_of_In in Hr. apply list_elem_of_fmap in Hr as ([a c] & -> & Hac).
    apply elem_of_map_to_list in Hac. destruct (Hrep a c Hac) as [_ Hlt]. simpl.
    apply in_seq. lia.
Qed.

End WithOptions.

End Matrix_extras.

Module Compression_theorems.

Import Naive_vector_column Base_matrix_with_column_compression Matrix_spec Matrix_facts.
Import Base_matrix_constructors Matrix_store Matrix_extras Examples.

(** X17.  [insert_boundary] on a matrix reached from the constructor returns;
    the new index reads back the cells built from the boundary, every index
    inserted before reads the cells it read before the call, and two
    indices of one class stay in one class. *)
Theorem insert_boundary_reads_back M k pre boundary dim m :
  run M (make_reserved k) pre = Some m ->
  exists m', insert_boundary M boundary dim m = Some m' /\
    content_of m' (get_number_of_columns m) = Some (cells_of_boundary M boundary) /\
    (forall z, (z < get_number_of_columns m)%nat -> content_of m' z = content_of m z) /\
    (forall x y, find m x = find m y -> find m' x = find m' y).
Proof.
  intros Hrun.
  destruct (reachable_store M k pre m Hrun) as (Hinv & Hne & Hleak).
  destruct (insert_boundary_ok M boundary dim m Hinv) as (m' & E & _ & _ & Hnew & _).
  destruct (insert_boundary_store M boundary dim m Hinv Hne Hleak)
    as (m2 & E2 & _ & _ & Hframe & Hmono).
  rewrite E in E2. inversion E2; subst m2.
  exists m'. split; [exact E|]. split; [exact Hnew|]. split; [|exact Hmono].
  intros z Hz. apply Hframe.
  pose proof (inv_bound _ _ _ Hinv z Hz). unfold get_number_of_columns in *. lia.
Qed.

Lemma insert_boundary_reads_back_witness :
  exists m, run Z2_base (make_reserved 0) compressed_ops = Some m /\
    exists m', insert_boundary Z2_base [(1, 1); (2, 1)] (-1) m = Some m' /\
      content_of m' (get_number_of_columns m)
      = Some (cells_of_boundary Z2_base [(1, 1); (2, 1)]) /\
      (forall z, (z < get_number_of_columns m)%nat -> content_of m' z = content_of m z) /\
      (forall x y, find m x = find m y -> find m' x = find m' y).
Proof.
  eexists. split; [vm_compute; reflexivity|].
  apply (insert_boundary_reads_back Z2_base 0 compressed_ops [(1, 1); (2, 1)] (-1)).
  vm_compute. reflexivity.
Defined.

(** X18.  The constructor from a vector of columns returns for every input; the
    matrix it builds counts the columns of the vector, and each index reads
    back the cells built from the column given at that position. *)
Theorem make_from_columns_reads_back M columns :
  exists m, make_from_columns M columns = Some m /\
    get_number_of_columns m = length columns /\
    forall i c, columns !! i = Some c ->
      content_of m i = Some (cells_of_boundary M c).
Proof.
  destruct (store_make_reserved (length columns)) as [Hne Hleak].
  destruct (insert_columns_reads_back M columns (make_reserved (length columns))
              (invariant_make_reserved M _) Hne Hleak)
    as (m & E & _ & _ & _ & Hn & _ & Hnew).
  exists m. split; [exact E|]. split; [exact Hn|].
  intros i c Hi. apply (Hnew i c Hi).
Qed.

(** X19.  A call of [add_to] that returns, on a matrix reached from the
    constructor, keeps the number of columns, leaves every index outside
    the class of the target with the cells it read before, and keeps two
    indices of one class in one class. *)
Theorem add_to_leaves_other_classes M k ops src tgt m m' :
  run M (make_reserved k) ops = Some m ->
  add_to M src tgt m = Some m' ->
  get_number_of_columns m' = get_number_of_columns m /\
  (forall z, find m z <> find m tgt -> content_of m' z = content_of m z) /\
  (forall x y, find m x = find m y -> find m' x = find m' y).
Proof.
  intros Hrun Hadd.
  destruct (reachable_store M k ops m Hrun) as (Hinv & Hne & Hleak).
  destruct (add_to_store M src tgt m m' Hinv Hne Hleak Hadd) as (_ & _ & Hframe & Hmono).
  split; [|split; [exact Hframe|exact Hmono]].
  destruct (add_to_Some M _ _ _ _ Hadd) as (a & Hslot & Hsrc).
  destruct (add_to_ok M src tgt m a Hinv Hslot Hsrc)
    as (target & source & m2 & _ & _ & E & _ & Hn & _).
  rewrite E in Hadd. inversion Hadd; subst m2. exact Hn.
Qed.

Lemma add_to_leaves_other_classes_witness :
  exists m,
    run Z2_base (make_reserved 0)
      [Insert_boundary [(0, 1); (1, 1)] (-1); Insert_boundary [(0, 1); (1, 1)] (-1);
       Insert_boundary [] (-1); Insert_boundary [(2, 1)] (-1)] = Some m /\
    exists m', add_to Z2_base 3 0 m = Some m' /\
      get_number_of_columns m' = get_number_of_columns m /\
      (forall z, find m z <> find m 0%nat -> content_of m' z = content_of m z) /\
      (forall x y, find m x = find m y -> find m' x = find m' y).
Proof.
  eexists. split; [vm_compute; reflexivity|].
  eexists. split; [vm_compute; reflexivity|].
  apply (add_to_leaves_other_classes Z2_base 0
           [Insert_boundary [(0, 1); (1, 1)] (-1); Insert_boundary [(0, 1); (1, 1)] (-1);
            Insert_boundary [] (-1); Insert_boundary [(2, 1)] (-1)] 3 0).
  - vm_compute. reflexivity.
  - vm_compute. reflexivity.
Defined.

(** X20.  On a matrix reached from the constructor, [add_to] between two inserted
    indices has a defined behaviour exactly when the target is not a zero
    column: for a zero target the slot of its class is null and the call
    dereferences it. *)
Theorem add_to_defined_iff_target_not_zero M k ops src tgt m :
  run M (make_reserved k) ops = Some m ->
  (src < get_number_of_columns m)%nat -> (tgt < get_number_of_columns m)%nat ->
  (is_Some (add_to M src tgt m) <-> is_zero_column m tgt = Some false) /\
  (add_to M src tgt m = None <-> content_of m tgt = Some []).
Proof.
  intros Hrun Hsrc Htgt.
  destruct (reachable_store M k ops m Hrun) as (Hinv & Hne & _).
  assert (Hs : is_Some (repToColumn_ m !! find m src)).
  { apply lookup_lt_is_Some. pose proof (inv_bound _ _ _ Hinv src Hsrc).
    pose proof (inv_size _ _ _ Hinv). lia. }
  destruct (is_zero_column_slot M m tgt Hinv Hne Htgt)
    as [(Hslot & Hcontent & Hzero & _)|(a & c & Hslot & Hc & Hnonempty & Hcontent & Hzero & _)].
  - assert (E : add_to M src tgt m = None).
    { unfold add_to. fold (find m tgt). rewrite Hslot. reflexivity. }
    rewrite E, Hzero, Hcontent. split; split; try reflexivity; try discriminate.
    intros [x Hx]. discriminate Hx.
  - destruct (add_to_ok M src tgt m a Hinv Hslot Hs) as (_ & _ & m' & _ & _ & E & _).
    rewrite E, Hzero, Hcontent. split; split; try reflexivity; try discriminate; eauto.
    intros H. inversion H. contradiction.
Qed.

Lemma add_to_defined_iff_target_not_zero_witness :
  exists m, run Z2_base (make_reserved 0) compressed_ops = Some m /\
    (is_Some (add_to Z2_base 0 2 m) <-> is_zero_column m 2 = Some false) /\
    (add_to Z2_base 0 2 m = None <-> content_of m 2 = Some []).
Proof.
  eexists. split; [vm_compute; reflexivity|].
  apply (add_to_defined_iff_target_not_zero Z2_base 0 compressed_ops 0 2).
  - vm_compute. reflexivity.
  - vm_compute. lia.
  - vm_compute. lia.
Defined.

(** X21.  Compression is complete: on a matrix reached from the constructor, two
    indices that read the same cells, not none, are in one class and
    resolve to the same stored column. *)
Theorem equal_columns_share_class M k ops m i j l :
  run M (make_reserved k) ops = Some m ->
  content_of m i = Some l -> content_of m j = Some l -> l <> [] ->
  find m i = find m j /\ get_column m i = get_column m j.
Proof.
  intros Hrun Hi Hj Hl.
  destruct (run_ok M ops _ m (invariant_make_reserved M k) Hrun) as (Hinv & _ & _).
  destruct (slot_of_content M m i l Hinv Hi Hl) as (a & ca & Hsa & Hca & Hla & Hra & Hina).
  destruct (slot_of_content M m j l Hinv Hj Hl) as (b & cb & Hsb & Hcb & Hlb & Hrb & Hinb).
  assert (a = b).
  { apply (inv_distinct _ _ _ Hinv a b ca cb Hina Hinb Hca Hcb).
    rewrite Hla, Hlb. apply equivalent_refl. }
  subst b. rewrite Hca in Hcb. inversion Hcb; subst cb.
  assert (E : find m i = find m j) by congruence.
  split; [exact E|]. unfold get_column. unfold find in E. rewrite E. reflexivity.
Qed.

Lemma equal_columns_share_class_witness :
  exists m,
    run Z2_base (make_reserved 0)
      [Insert_boundary [(0, 1); (1, 1)] (-1); Insert_boundary [(2, 1)] (-1);
       Insert_boundary [(0, 1); (1, 1); (2, 1)] (-1); Add_to 1 0] = Some m /\
    find m 0%nat = find m 2%nat /\ get_column m 0 = get_column m 2.
Proof.
  eexists. split; [vm_compute; reflexivity|].
  apply (equal_columns_share_class Z2_base 0
           [Insert_boundary [(0, 1); (1, 1)] (-1); Insert_boundary [(2, 1)] (-1);
            Insert_boundary [(0, 1); (1, 1); (2, 1)] (-1); Add_to 1 0]
           _ 0%nat 2%nat [cell 0 1; cell 1 1; cell 2 1]).
  - vm_compute. reflexivity.
  - vm_compute. reflexivity.
  - vm_compute. reflexivity.
  - discriminate.
Defined.

(** X22.  On a matrix reached from the constructor, an inserted index is a zero
    column for [is_zero_column] exactly when it reads no cell, which is
    exactly when [get_column] falls back on the static empty column: the
    test of [is_empty] on a stored column never succeeds. *)
Theorem is_zero_column_iff_reads_empty M k ops m z :
  run M (make_reserved k) ops = Some m ->
  (z < get_number_of_columns m)%nat ->
  exists l, content_of m z = Some l /\
    is_zero_column m z = Some (bool_decide (l = [])) /\
    (get_column m z = Some empty_column_ <-> l = []).
Proof.
  intros Hrun Hz.
  destruct (reachable_store M k ops m Hrun) as (Hinv & Hne & _).
  destruct (is_zero_column_slot M m z Hinv Hne Hz)
    as [(_ & Hcontent & Hzero & Hget)|(a & c & _ & _ & Hnonempty & Hcontent & Hzero & Hget)].
  - exists []. rewrite Hget. split; [exact Hcontent|]. split; [exact Hzero|].
    split; reflexivity.
  - exists (column_ (col c)). split; [exact Hcontent|].
    rewrite bool_decide_eq_false_2 by exact Hnonempty.
    split; [exact Hzero|]. rewrite Hget. split; [discriminate|contradiction].
Qed.

Lemma is_zero_column_iff_reads_empty_witness :
  exists m, run Z2_base (make_reserved 0) compressed_ops = Some m /\
    exists l, content_of m 2 = Some l /\
      is_zero_column m 2 = Some (bool_decide (l = [])) /\
      (get_column m 2 = Some empty_column_ <-> l = []).
Proof.
  eexists. split; [vm_compute; reflexivity|].
  apply (is_zero_column_iff_reads_empty Z2_base 0 compressed_ops).
  - vm_compute. reflexivity.
  - vm_compute. lia.
Defined.

(** X23.  A matrix reached from the constructor allocates no column it does not
    use: every column of the pool is non-empty and is the column of the
    class its [rep_] names, no two columns of the pool hold the same cells,
    and the pool never holds more columns than were inserted. *)
Theorem pool_holds_one_column_per_class M k ops m :
  run M (make_reserved k) ops = Some m ->
  (forall a c, columnPool_ m !! a = Some c ->
     column_ (col c) <> [] /\ get_column m (rep_ c) = Some (pooled a)) /\
  (forall a b ca cb, columnPool_ m !! a = Some ca -> columnPool_ m !! b = Some cb ->
     column_ (col ca) = column_ (col cb) -> a = b) /\
  (stdpp.base.size (columnPool_ m) <= get_number_of_columns m)%nat.
Proof.
  intros Hrun.
  destruct (reachable_store M k ops m Hrun) as (Hinv & Hne & Hleak).
  split; [|split].
  - intros a c Hc. assert (Hin : a ∈ columnToRep_ m) by (apply Hleak; eauto).
    destruct (inv_set _ _ _ Hinv a Hin) as (c' & Hc' & Hs).
    rewrite Hc in Hc'. inversion Hc'; subst c'.
    split; [apply (Hne _ _ _ Hs Hc)|].
    destruct (inv_slots _ _ _ Hinv _ _ Hs) as (_ & _ & _ & _ & Hroot).
    unfold get_column. unfold find in Hroot. rewrite Hroot, Hs. reflexivity.
  - intros a b ca cb Ha Hb E.
    apply (inv_distinct _ _ _ Hinv a b ca cb); auto; [apply Hleak; eauto..|].
    rewrite E. apply equivalent_refl.
  - apply (pool_size_bound M); assumption.
Qed.

Lemma pool_holds_one_column_per_class_witness :
  exists m, run Z2_base (make_reserved 0) compressed_ops = Some m /\
    (forall a c, columnPool_ m !! a = Some c ->
       column_ (col c) <> [] /\ get_column m (rep_ c) = Some (pooled a)) /\
    (forall a b ca cb, columnPool_ m !! a = Some ca -> columnPool_ m !! b = Some cb ->
       column_ (col ca) = column_ (col cb) -> a = b) /\
    (stdpp.base.size (columnPool_ m) <= get_number_of_columns m)%nat.
Proof.
  eexists. split; [vm_compute; reflexivity|].
  apply (pool_holds_one_column_per_class Z2_base 0 compressed_ops).
  vm_compute. reflexivity.
Defined.

(** X24.  [reset] on a matrix reached from the constructor destroys every column
    the matrix allocated and leaves the state of the default constructor. *)
Theorem reset_gives_empty_matrix M k ops m :
  run M (make_reserved k) ops = Some m -> reset m = make.
Proof.
  intros Hrun.
  destruct (reachable_store M k ops m Hrun) as (_ & _ & Hleak).
  unfold reset, make. f_equal. apply map_eq. intros a.
  rewrite foldr_delete_lookup, lookup_empty.
  destruct (decide (a ∈ columnToRep_ m)) as [Hin|Hout]; [reflexivity|].
  destruct (columnPool_ m !! a) eqn:E; [|reflexivity].
  exfalso. apply Hout. apply Hleak. eauto.
Qed.

Lemma reset_gives_empty_matrix_witness :
  exists m, run Z2_base (make_reserved 0) compressed_ops = Some m /\ reset m = make.
Proof.
  eexists. split; [vm_compute; reflexivity|].
  apply (reset_gives_empty_matrix Z2_base 0 compressed_ops).
  vm_compute. reflexivity.
Defined.

End Compression_theorems.

(** ** The tower converter: counters, vertex table and unions *)

Module Tower_converter_extras.

Import Tower_converter Tower_converter_union Examples.

Section WithComplex.

Context {double : Type} `{Countable double}.
Variable ltb : double -> double -> bool.
Variable incr : double -> double.
Variable ComplexStructure : Type.
Variable insert_simplex : list double -> ComplexStructure -> ComplexStructure * bool.
Variable get_size : ComplexStructure -> double.
Variable get_boundary :
  list double -> ComplexStructure -> ComplexStructure * (list double * double).

Local Abbreviation t := (Tower_converter.t ComplexStructure).
Local Abbreviation translate := (@translate double _ _ ltb ComplexStructure).
Local Abbreviation stream_simplex :=
  (@stream_simplex double _ _ incr ComplexStructure get_boundary).
Local Abbreviation add_insertion :=
  (add_insertion ltb incr ComplexStructure insert_simplex get_size get_boundary).

Lemma translate_loop_None (vertices : gmap double double) simplex v :
  v ∈ simplex -> vertices !! v = None -> translate_loop vertices simplex = None.
Proof.
  induction simplex as [|x simplex IH]; intros Hin Hv; [inversion Hin|].
  simpl. apply elem_of_cons in Hin as [<-|Hin].
  - rewrite Hv. reflexivity.
  - rewrite (IH Hin Hv). destruct (vertices !! x); reflexivity.
Qed.

(** X25.  A simplex that is not a single vertex and names a vertex the
    converter has not seen: [at] throws, and the converter is left as it
    was. *)
Theorem add_insertion_unknown_vertex_throws simplex timestamp wantBoundary (c : t) v :
  length simplex <> 1%nat -> v ∈ simplex -> vertices_ _ c !! v = None ->
  add_insertion simplex timestamp wantBoundary c = (c, inl out_of_range).
Proof.
  intros Hlen Hin Hv.
  unfold Tower_converter.add_insertion, bind, Tower_converter.translate.
  destruct simplex as [|x [|y simplex]]; [inversion Hin|simpl in Hlen; lia|].
  unfold bind, get. rewrite (translate_loop_None _ _ v Hin Hv). reflexivity.
Qed.

Lemma stream_at_frame (boundary : list double) n : forall i (c c' : t) r,
  stream_at ComplexStructure boundary i n c = (c', r) ->
  vertices_ _ c' = vertices_ _ c /\ filtrationSize_ _ c' = filtrationSize_ _ c /\
  towerWidth_ _ c' = towerWidth_ _ c /\ complex_ _ c' = complex_ _ c.
Proof.
  induction n as [|n IH]; intros i c c' r; simpl.
  - unfold ret. intros [= <- _]. auto.
  - destruct (boundary !! i) as [b|]; [|unfold throw; intros [= <- _]; auto].
    unfold bind, modify. intros E. apply IH in E as (E1 & E2 & E3 & E4).
    rewrite E1, E2, E3, E4. unfold write. destruct (outputStream_ _ c); auto.
Qed.

Lemma stream_simplex_frame simplex timestamp (c c' : t) r :
  stream_simplex simplex timestamp c = (c', r) ->
  vertices_ _ c' = vertices_ _ c /\
  filtrationSize_ _ c' = incr (filtrationSize_ _ c) /\
  towerWidth_ _ c' = towerWidth_ _ c /\
  (outputStream_ _ c = None -> c' = set_filtrationSize _ c (incr (filtrationSize_ _ c)) /\
                               r = inr tt).
Proof.
  unfold Tower_converter.stream_simplex, bind, modify, get, ret. simpl.
  destruct (outputStream_ _ c) as [out|] eqn:Eout; simpl.
  - unfold set_filtrationSize, write at 1. simpl. rewrite Eout. simpl.
    destruct (streamingType_ _ c).
    + destruct (Z.of_nat (length simplex) >? 1).
      * unfold bind, get, put. simpl.
        destruct (get_boundary simplex (complex_ _ c)) as [k [boundary n]]. simpl.
        destruct (stream_at _ _ _ _) as [c1 [e|[]]] eqn:Es;
          apply stream_at_frame in Es as (E1 & E2 & E3 & E4); simpl in *.
        -- intros [= <- _]. repeat split; auto; congruence.
        -- intros [= <- _]. unfold write. destruct (outputStream_ _ c1); simpl;
             repeat split; auto; congruence.
      * unfold ret. intros [= <- _]. simpl. repeat split; auto; congruence.
    + intros [= <- _]. simpl. repeat split; auto; congruence.
  - intros [= <- <-]. repeat split; auto.
Qed.

Lemma translate_vertices simplex (c c1 : t) r :
  translate simplex c = (c1, r) ->
  vertices_ _ c1 =
  match simplex with
  | [v] => match vertices_ _ c !! v with
           | Some _ => vertices_ _ c
           | None => <[v := v]> (vertices_ _ c)
           end
  | _ => vertices_ _ c
  end.
Proof.
  unfold Tower_converter.translate, bind, modify, ret, get, throw.
  destruct simplex as [|v [|w simplex]]; simpl.
  - intros [= <- _]. reflexivity.
  - intros [= <- _]. destruct (vertices_ _ c !! v); reflexivity.
  - destruct (vertices_ _ c !! v); [|intros [= <- _]; reflexivity].
    destruct (vertices_ _ c !! w); [|intros [= <- _]; reflexivity].
    destruct (translate_loop _ simplex); intros [= <- _]; reflexivity.
Qed.

(** X26.  When [add_insertion] returns, the filtration size has grown by one if
    the simplex went in and is unchanged otherwise; the vertex table has
    gained the entry of a new vertex, mapped to itself, and nothing else,
    an entry already there being kept; and without a boundary to report,
    the tower width after a successful insertion is the larger of the width
    before and the size of the complex. *)
Theorem add_insertion_updates_counters simplex timestamp wantBoundary (c c' : t) b out :
  add_insertion simplex timestamp wantBoundary c = (c', inr (b, out)) ->
  get_filtration_size _ c' =
    (if b then incr (get_filtration_size _ c) else get_filtration_size _ c) /\
  vertices_ _ c' =
    match simplex with
    | [v] => match vertices_ _ c !! v with
             | Some _ => vertices_ _ c
             | None => <[v := v]> (vertices_ _ c)
             end
    | _ => vertices_ _ c
    end /\
  (b = true -> wantBoundary = false ->
   get_tower_width _ c' =
     if ltb (get_tower_width _ c) (get_size (complex_ _ c'))
     then get_size (complex_ _ c') else get_tower_width _ c).
Proof.
  unfold Tower_converter.add_insertion. unfold bind at 1.
  destruct (translate simplex c) as [c1 [e|transSimplex]] eqn:Et; [discriminate|].
  destruct (Tower_converter_facts.translate_frame _ _ _ _ _ _ Et) as (F1 & F2 & F3 & F4).
  rewrite <- (translate_vertices _ _ _ _ Et).
  unfold get_filtration_size, get_tower_width. rewrite <- F3, <- F4.
  unfold bind at 1. unfold get at 1.
  destruct (insert_simplex transSimplex (complex_ _ c1)) as [k inserted].
  unfold bind at 1. unfold put at 1.
  destruct inserted.
  - unfold bind at 1.
    destruct (Tower_converter.stream_simplex _ _ _ _ _ _) as [c2 [e|[]]] eqn:Es;
      [discriminate|].
    apply stream_simplex_frame in Es as (S1 & S2 & S3 & _). simpl in S1, S2, S3.
    unfold bind at 1. unfold modify at 1.
    set (c3 := if ltb _ _ then _ else c2).
    assert (H3 : vertices_ _ c3 = vertices_ _ c1 /\
                 filtrationSize_ _ c3 = incr (filtrationSize_ _ c1) /\
                 complex_ _ c3 = complex_ _ c2 /\
                 towerWidth_ _ c3 =
                 if ltb (towerWidth_ _ c1) (get_size (complex_ _ c2))
                 then get_size (complex_ _ c2) else towerWidth_ _ c1).
    { unfold c3. rewrite S3.
      destruct (ltb (towerWidth_ _ c1) (get_size (complex_ _ c2))); simpl;
        repeat split; auto. }
    destruct H3 as (V3 & N3 & K3 & W3).
    destruct wantBoundary.
    + unfold bind, get, put, ret.
      destruct (get_boundary transSimplex (complex_ _ c3)) as [k2 o].
      intros [= <- <- _]. simpl. repeat split; auto. discriminate.
    + unfold ret. intros [= <- <- _]. rewrite K3. repeat split; auto.
  - unfold ret. intros [= <- <- _]. simpl. repeat split; auto. discriminate.
Qed.

End WithComplex.

Lemma add_insertion_unknown_vertex_throws_witness :
  toy_add_insertion [7; 8] 1 false toy_converter = (toy_converter, inl out_of_range).
Proof.
  apply (add_insertion_unknown_vertex_throws Z.ltb Z.succ toy_complex
           toy_insert_simplex toy_get_size toy_get_boundary [7; 8] 1 false toy_converter 8).
  - simpl. lia.
  - right. left.
  - vm_compute. reflexivity.
Defined.

Lemma add_insertion_updates_counters_witness :
  get_filtration_size _ (fst (toy_add_insertion [8] 1 false toy_converter)) =
    Z.succ (get_filtration_size _ toy_converter) /\
  vertices_ _ (fst (toy_add_insertion [8] 1 false toy_converter)) =
    match vertices_ _ toy_converter !! 8 with
    | Some _ => vertices_ _ toy_converter
    | None => <[8 := 8]> (vertices_ _ toy_converter)
    end /\
  (true = true -> false = false ->
   get_tower_width _ (fst (toy_add_insertion [8] 1 false toy_converter)) =
     if Z.ltb (get_tower_width _ toy_converter)
          (toy_get_size (complex_ _ (fst (toy_add_insertion [8] 1 false toy_converter))))
     then toy_get_size (complex_ _ (fst (toy_add_insertion [8] 1 false toy_converter)))
     else get_tower_width _ toy_converter).
Proof.
  apply (add_insertion_updates_counters Z.ltb Z.succ toy_complex
           toy_insert_simplex toy_get_size toy_get_boundary
           [8] 1 false toy_converter
           (fst (toy_add_insertion [8] 1 false toy_converter)) true None).
  vm_compute. reflexivity.
Defined.

Section Union.

Context {double : Type} `{Countable double}.
Variable ltb : double -> double -> bool.

Lemma insert_vertex_elem v simplex x :
  x ∈ insert_vertex ltb v simplex <-> x = v \/ x ∈ simplex.
Proof.
  induction simplex as [|y simplex IH]; simpl.
  - rewrite list_elem_of_singleton. split; [auto|]. intros [?|Hx]; [auto|inversion Hx].
  - destruct (ltb y v).
    + rewrite !elem_of_cons, IH. tauto.
    + destruct (bool_decide_reflect (y = v)) as [->|Hne].
      * rewrite !elem_of_cons. tauto.
      * rewrite !elem_of_cons. tauto.
Qed.

Lemma insert_vertex_idempotent v simplex :
  ltb v v = false ->
  insert_vertex ltb v (insert_vertex ltb v simplex) = insert_vertex ltb v simplex.
Proof.
  intros Hirr. induction simplex as [|y simplex IH]; simpl.
  - rewrite Hirr, bool_decide_eq_true_2; reflexivity.
  - destruct (ltb y v) eqn:E; simpl.
    + rewrite E, IH. reflexivity.
    + destruct (bool_decide_reflect (y = v)) as [->|Hne]; simpl.
      * rewrite Hirr, bool_decide_eq_true_2; reflexivity.
      * rewrite Hirr, bool_decide_eq_true_2; reflexivity.
Qed.

Lemma insert_vertex_increasing v simplex :
  (forall x, ltb x v = false -> x <> v -> ltb v x = true) ->
  increasing ltb simplex -> increasing ltb (insert_vertex ltb v simplex).
Proof.
  intros Htotal. induction simplex as [|x simplex IH]; intros Hs.
  - simpl. auto.
  - cbn [insert_vertex]. destruct (ltb x v) eqn:E.
    + destruct Hs as [Hx Hs]. specialize (IH Hs). split; [|exact IH].
      destruct simplex as [|y simplex]; [exact E|].
      cbn [insert_vertex]. destruct (ltb y v); [exact Hx|].
      destruct (bool_decide (y = v)); [exact Hx|exact E].
    + destruct (bool_decide_reflect (x = v)) as [->|Hne]; [exact Hs|].
      split; [|exact Hs]. apply Htotal; assumption.
Qed.

(** X27.  [get_union] puts [v] into every simplex of the list and nothing else:
    the list keeps its length, each simplex holds [v] beside the vertices
    it held, a simplex in increasing order stays in increasing order, and a
    second call with the same vertex changes nothing. *)
Theorem get_union_adds_vertex v simplices :
  (forall x, ltb x x = false) ->
  (forall x y, ltb x y = false -> x <> y -> ltb y x = true) ->
  Forall (increasing ltb) simplices ->
  length (get_union ltb v simplices) = length simplices /\
  (forall i s, simplices !! i = Some s ->
     exists s', get_union ltb v simplices !! i = Some s' /\
                forall x, x ∈ s' <-> x = v \/ x ∈ s) /\
  Forall (increasing ltb) (get_union ltb v simplices) /\
  get_union ltb v (get_union ltb v simplices) = get_union ltb v simplices.
Proof.
  intros Hirr Htotal Hs. unfold get_union. split; [apply length_map|]. split; [|split].
  - intros i s Hi. exists (insert_vertex ltb v s). split.
    + change (map (insert_vertex ltb v) simplices) with (insert_vertex ltb v <$> simplices).
      rewrite list_lookup_fmap, Hi. reflexivity.
    + apply insert_vertex_elem.
  - induction Hs as [|s simplices Hs _ IH]; simpl; constructor; [|exact IH].
    apply insert_vertex_increasing; [|exact Hs]. intros x. apply Htotal.
  - rewrite map_map. apply map_ext. intros s. apply insert_vertex_idempotent. apply Hirr.
Qed.

End Union.

Lemma get_union_adds_vertex_witness :
  length (get_union Z.ltb 2 [[1; 3]; [2; 5]; []]) = 3%nat /\
  (forall i s, [[1; 3]; [2; 5]; []] !! i = Some s ->
     exists s', get_union Z.ltb 2 [[1; 3]; [2; 5]; []] !! i = Some s' /\
                forall x, x ∈ s' <-> x = 2 \/ x ∈ s) /\
  Forall (increasing Z.ltb) (get_union Z.ltb 2 [[1; 3]; [2; 5]; []]) /\
  get_union Z.ltb 2 (get_union Z.ltb 2 [[1; 3]; [2; 5]; []]) =
  get_union Z.ltb 2 [[1; 3]; [2; 5]; []].
Proof.
  apply (get_union_adds_vertex Z.ltb 2 [[1; 3]; [2; 5]; []]).
  - intros x. apply Z.ltb_irrefl.
  - intros x y Hxy Hne. apply Z.ltb_lt. apply Z.ltb_ge in Hxy. lia.
  - repeat constructor.
Defined.

End Tower_converter_extras.

(** ** Aliased additions, worked *)

Module Aliasing_extras.

Import Naive_vector_column Base_matrix_with_column_compression Matrix_spec Matrix_facts.
Import Examples.

Lemma add_to_same_class_witness :
  exists m,
    run Z2_base (make_reserved 0)
      [Insert_boundary [(0, 1); (1, 1)] (-1); Insert_boundary [(0, 1); (1, 1)] (-1)]
    = Some m /\
    exists target m',
      columnPool_ m !! 0%nat = Some target /\
      add_to Z2_base 1 0 m = Some m' /\
      (forall j, find m j = find m 0%nat ->
         content_of m' j =
         Some (column_ (fst (operator_add_assign_range Z2_base (column_ (col target))
                               (col target))))) /\
      (is_z2 Z2_base = true ->
       forall j, find m j = find m 0%nat -> content_of m' j = Some []).
Proof.
  eexists. split; [vm_compute; reflexivity|].
  apply (Aliasing_theorems.add_to_same_class Z2_base 0
           [Insert_boundary [(0, 1); (1, 1)] (-1); Insert_boundary [(0, 1); (1, 1)] (-1)]
           _ 1 0 0).
  - vm_compute. reflexivity.
  - vm_compute. reflexivity.
  - vm_compute. reflexivity.
Defined.

Lemma operator_add_assign_aliased_witness :
  exists h',
    Cell_pool.operator_add_assign Z5_base 0 0 shared_heap = Some h' /\
    Cell_pool.content h' 0 =
    Some (column_ (fst (operator_add_assign_range Z5_base (column_ column_a) column_a))).
Proof.
  apply (Cell_pool_facts.operator_add_assign_aliased Z5_base shared_heap 0%nat
           [0%nat; 1%nat] (column_ column_a) 1).
  - vm_compute. reflexivity.
  - apply (bool_decide_unpack _). vm_compute. exact I.
  - vm_compute. reflexivity.
Defined.

End Aliasing_extras.
